(** * VibeTunnel: terminal buffer streaming and history replay

    A shallow embedding of the streaming core of the VibeTunnel web server
    and the properties its specification states about it:

    - [HistoryChunk]     server/workers/tasks/history-chunk.ts
    - [StreamWatcher]    server/services/stream-watcher.ts
    - [WorkerPool]       server/workers/pool.ts
    - [EventsRouter]     server/routes/events.ts, with its per-key buckets
    - [BufferAggregator] server/services/buffer-aggregator.ts
    - [Encoder]          server/workers/tasks/encode-snapshot.ts
    - [BufferFrames]     the binary frames of buffer-aggregator.ts, which
                         are written into the buffers of [Encoder]

    The definitions come first, one module per source file, each with the
    vocabulary its statements use and the examples its instances run on; the
    lemmas and theorems follow, in sections that open the module they are
    about.

    Conventions.  JavaScript integers are [Z].  A JavaScript string is a Rocq
    [string] holding its UTF-8 encoding, so [String.length] is
    [Buffer.byteLength(s, 'utf8')].  A [Map] is a [gmap]; a [Set] of objects,
    whose iteration order is insertion order, is a list without duplicates.
    Code that can throw returns [option] (or a sum carrying the message);
    code that writes to a socket or calls a collaborator appends to a trace. *)

From Stdlib Require Import QArith Ascii String Sorted.
From stdpp Require Import gmap strings list fin_maps pretty numbers.

Open Scope Z_scope.

(** ** JavaScript numbers read from text *)

(** A JavaScript number that may be [NaN], as [Number.parseInt] returns. *)
Inductive JSNumber : Type :=
  | Num (value : Z)
  | NaN.

(** [Number.parseInt(s, 10)]: leading white space, a sign, then digits.
    The statements use it through the number it returns.  What
    [Number.parseInt] does beyond this is left out: it also skips the white
    space that is not ASCII, and it returns a double, so a string of very
    many digits gives a rounded number or [Infinity]. *)

Definition digit (c : ascii) : option Z :=
  let n := Z.of_nat (nat_of_ascii c) in
  if (48 <=? n) && (n <=? 57) then Some (n - 48) else None.

Definition isSpace (c : ascii) : bool :=
  let n := nat_of_ascii c in
  bool_decide (n = 32%nat ∨ (9 ≤ n ≤ 13)%nat).

Fixpoint digits (s : string) (acc : option Z) : option Z :=
  match s with
  | EmptyString => acc
  | String c rest =>
      match digit c with
      | Some d => digits rest (Some (default 0 acc * 10 + d))
      | None => acc
      end
  end.

Fixpoint skipSpaces (s : string) : string :=
  match s with
  | String c rest => if isSpace c then skipSpaces rest else s
  | EmptyString => s
  end.

Definition parseInt (s : string) : JSNumber :=
  match skipSpaces s with
  | String "-"%char rest =>
      match digits rest None with Some n => Num (- n) | None => NaN end
  | String "+"%char rest =>
      match digits rest None with Some n => Num n | None => NaN end
  | rest =>
      match digits rest None with Some n => Num n | None => NaN end
  end.

(** ** Shared data: the asciinema event log *)

(** [AsciinemaEvent] of the source is the union of [[number, 'o'|'i'|'r',
    string]] and [['exit', number, string]].  The tag of a timed event is kept
    as the string the log carries, so that the guards below test it as the
    source does. *)
Inductive AsciinemaEvent : Type :=
  | Timed (time : Q) (kind : string) (data : string)
  | Exit (code : Z) (sessionId : string).

(** [[0, event[1], event[2]]]: the copy whose timestamp is zero. *)
Definition normalizedEvent (event : AsciinemaEvent) : AsciinemaEvent :=
  match event with
  | Timed _ kind data => Timed 0%Q kind data
  | Exit code sessionId => Exit code sessionId
  end.

(** [array[i]] for a JavaScript index: [undefined] outside the array. *)
Definition at_index {A : Type} (l : list A) (i : Z) : option A :=
  if i <? 0 then None else l !! Z.to_nat i.

(** [array.slice(i)] for a non-negative start and the elements a loop
    [for (j = i; j < array.length; j++)] visits: a negative start reads
    [undefined] below index 0, which no guard of the source accepts. *)
Definition from_index {A : Type} (l : list A) (i : Z) : list A :=
  drop (Z.to_nat i) l.

(** [HistoryChunkPayload] (shared/history-types.ts), as both producers
    fill it. *)
Module HistoryTypes.

Record HistoryChunkPayload : Type := {
  hc_sessionId : option string;
  hc_mode : string;
  hasMore : bool;
  totalEvents : Z;
  totalOutputEvents : Z;
  chunkEventCount : Z;
  chunkOutputEvents : Z;
  chunkStartOffset : Z;
  previousOffset : option Z;
  nextOffset : Z;
  initialTailLines : Z;
  events : list AsciinemaEvent
}.

End HistoryTypes.
Export HistoryTypes.

(** ** History chunk builder (history-chunk.ts) *)

Module HistoryChunk.

Definition isOutputEvent (event : AsciinemaEvent) : bool :=
  match event with
  | Timed _ kind _ => String.eqb kind "o"
  | Exit _ _ => false
  end.

Definition isResizeEvent (event : AsciinemaEvent) : bool :=
  match event with
  | Timed _ kind _ => String.eqb kind "r"
  | Exit _ _ => false
  end.

Definition isExitEvent (event : AsciinemaEvent) : bool :=
  match event with
  | Timed _ _ _ => false
  | Exit _ _ => true
  end.

Record HistoryChunkTaskPayload : Type := {
  sessionId : string;
  p_events : list AsciinemaEvent;
  eventOffsets : list Z;
  baseStartIndex : Z;
  sendStartIndex : Z;
  startOffset : Z;
  fileOffset : Z;
  p_initialTailLines : Z;
  hasMoreHistory : bool;
  p_totalEvents : Z;
  p_totalOutputEvents : Z
}.

Record HistoryChunkTaskResult : Type := {
  payload : option HistoryChunkPayload;
  r_chunkOutputEvents : Z;
  exitEvent : option AsciinemaEvent
}.

(** The three locals the loop updates. *)
Record LoopState : Type := {
  chunkEvents : list AsciinemaEvent;
  outputCount : Z;
  lastExit : option AsciinemaEvent
}.

(** One iteration of [for (let i = sendStartIndex; i < events.length; i++)]. *)
Definition loopBody (st : LoopState) (event : AsciinemaEvent) : LoopState :=
  if isExitEvent event then
    {| chunkEvents := chunkEvents st;
       outputCount := outputCount st;
       lastExit := Some event |}
  else if isOutputEvent event || isResizeEvent event then
    {| chunkEvents := chunkEvents st ++ [normalizedEvent event];
       outputCount :=
         if isOutputEvent event then outputCount st + 1 else outputCount st;
       lastExit := lastExit st |}
  else st.

Definition buildHistoryChunk (p : HistoryChunkTaskPayload)
  : HistoryChunkTaskResult :=
  let st :=
    foldl loopBody
      {| chunkEvents := []; outputCount := 0; lastExit := None |}
      (from_index (p_events p) (sendStartIndex p)) in
  let chunkPayload :=
    if 0 <? Z.of_nat (length (chunkEvents st)) then
      Some {|
        hc_sessionId := Some (sessionId p);
        hc_mode := "tail";
        hasMore := hasMoreHistory p;
        totalEvents := Z.max (p_totalEvents p - baseStartIndex p) 0;
        totalOutputEvents := p_totalOutputEvents p;
        chunkEventCount := Z.of_nat (length (chunkEvents st));
        chunkOutputEvents := outputCount st;
        chunkStartOffset :=
          default (startOffset p) (at_index (eventOffsets p) (sendStartIndex p));
        previousOffset :=
          if hasMoreHistory p && (0 <? sendStartIndex p)
          then at_index (eventOffsets p) (sendStartIndex p - 1)
          else None;
        nextOffset := fileOffset p;
        initialTailLines := p_initialTailLines p;
        events := chunkEvents st
      |}
    else None in
  {| payload := chunkPayload;
     r_chunkOutputEvents := outputCount st;
     exitEvent := lastExit st |}.

(** The events of the chunk body: those of the payload, none when the
    payload is [null]. *)
Definition chunkBody (r : HistoryChunkTaskResult) : list AsciinemaEvent :=
  match payload r with
  | Some c => events c
  | None => []
  end.

Definition isInputEvent (event : AsciinemaEvent) : bool :=
  match event with
  | Timed _ kind _ => String.eqb kind "i"
  | Exit _ _ => false
  end.

(** *** Vocabulary of the statements *)

(** The events the chunk keeps: output and resize events. *)
Definition replayed (event : AsciinemaEvent) : bool :=
  isOutputEvent event || isResizeEvent event.

(** The last element of a list, as stdpp has it. *)
Definition final {A : Type} (l : list A) : option A := list.last l.

(** A payload whose slice holds two exit events. *)
Definition twoExits : HistoryChunkTaskPayload :=
  {| sessionId := "s";
     p_events := [Timed 1 "o" "a"; Exit 0 "s"; Exit 1 "s"];
     eventOffsets := [10; 20; 30];
     baseStartIndex := 0;
     sendStartIndex := 0;
     startOffset := 0;
     fileOffset := 40;
     p_initialTailLines := 10;
     hasMoreHistory := false;
     p_totalEvents := 3;
     p_totalOutputEvents := 1 |}.

End HistoryChunk.

(** ** Log tail watcher (stream-watcher.ts) *)

(** The recording's first line: [{version, width, height, ...}]. *)
Record AsciinemaHeader : Type := {
  version : Z;
  width : JSNumber;
  height : JSNumber
}.

(** What [JSON.parse(line)] and the shape tests of the scan make of a line. *)
Inductive ParsedLine : Type :=
  | Blank                              (* [line.trim()] is empty *)
  | Invalid                            (* [JSON.parse] throws *)
  | HeaderLine (h : AsciinemaHeader)   (* truthy version, width and height *)
  | EventLine (event : AsciinemaEvent) (* an exit array, or [>= 3] elements
                                          and a numeric first one *)
  | OtherJson.                         (* any other JSON value *)

(** [{ sequence, position }] of utils/pruning-detector.ts. *)
Record PrunePoint : Type := {
  sequence : string;
  position : Z
}.

(** What the client is sent over its event stream. *)
Inductive Sent : Type :=
  | SentHeader (h : AsciinemaHeader)
  | SentChunk (c : HistoryChunkPayload)
  | SentEvent (event : AsciinemaEvent)
  | EndOfStream.

Module StreamWatcher.

Definition MAX_INITIAL_TAIL_LINES : Z := 5000.

Definition isOutputEvent (event : AsciinemaEvent) : bool :=
  match event with
  | Timed _ kind _ => String.eqb kind "o"
  | Exit _ _ => false
  end.

Definition isResizeEvent (event : AsciinemaEvent) : bool :=
  match event with
  | Timed _ kind _ => String.eqb kind "r"
  | Exit _ _ => false
  end.

Definition isExitEvent (event : AsciinemaEvent) : bool :=
  match event with
  | Timed _ _ _ => false
  | Exit _ _ => true
  end.

(** [s.split(sep)] for a one-character separator. *)
Fixpoint split (sep : ascii) (s : string) (piece : string) : list string :=
  match s with
  | EmptyString => [String.rev piece]
  | String c rest =>
      if Ascii.eqb c sep then String.rev piece :: split sep rest ""
      else split sep rest (String c piece)
  end.

(** [parseInt(dimensions[i], 10)]; [parseInt(undefined)] is [NaN]. *)
Definition dimension (dimensions : list string) (i : nat) : JSNumber :=
  match dimensions !! i with
  | Some d => parseInt d
  | None => NaN
  end.

Section Scan.

(** [JSON.parse] with the shape tests, and the three functions of
    utils/pruning-detector.ts the watcher imports. *)
Variable parseLine : string → ParsedLine.
Variable containsPruningSequence : string → bool.
Variable findLastPrunePoint : string → option PrunePoint.
Variable calculatePruningPositionInFile : Z → string → Z → Z.

(** The locals of [sendExistingContent] that the stream callbacks
    update. *)
Record Scan : Type := {
  header : option AsciinemaHeader;
  events : list AsciinemaEvent;
  eventOffsets : list Z;
  lastClearIndex : Z;
  lastResizeBeforeClear : option AsciinemaEvent;
  currentResize : option AsciinemaEvent;
  fileOffset : Z;
  lastClearOffset : Z
}.

Record ClearResult : Type := {
  cr_lastClearIndex : Z;
  cr_lastClearOffset : Z;
  cr_lastResizeBeforeClear : option AsciinemaEvent
}.

Definition processClearSequence (data : string) (eventIndex : Z)
    (fileOffset : Z) (currentResize : option AsciinemaEvent)
    (eventLine : string) : option ClearResult :=
  match findLastPrunePoint data with
  | None => None
  | Some prunePoint =>
      Some {| cr_lastClearIndex := eventIndex;
              cr_lastClearOffset :=
                calculatePruningPositionInFile fileOffset eventLine
                  (position prunePoint);
              cr_lastResizeBeforeClear := currentResize |}
  end.

(** The part both callbacks share for a parsed event: track the resize,
    look for a clear, push the event.  [fileOffset] is already advanced
    past the line and [lineStartOffset] is where it was. *)
Definition scanEvent (st : Scan) (event : AsciinemaEvent)
    (line : string) (lineStartOffset fileOffset' : Z) : Scan :=
  match event with
  | Exit _ _ =>
      {| header := header st;
         events := events st ++ [event];
         eventOffsets := eventOffsets st ++ [lineStartOffset];
         lastClearIndex := lastClearIndex st;
         lastResizeBeforeClear := lastResizeBeforeClear st;
         currentResize := currentResize st;
         fileOffset := fileOffset';
         lastClearOffset := lastClearOffset st |}
  | Timed _ _ data =>
      let currentResize' :=
        if isResizeEvent event then Some event else currentResize st in
      let clearResult :=
        if isOutputEvent event && containsPruningSequence data then
          processClearSequence data (Z.of_nat (length (events st)))
            fileOffset' currentResize' line
        else None in
      {| header := header st;
         events := events st ++ [event];
         eventOffsets := eventOffsets st ++ [lineStartOffset];
         lastClearIndex :=
           match clearResult with
           | Some r => cr_lastClearIndex r
           | None => lastClearIndex st
           end;
         lastResizeBeforeClear :=
           match clearResult with
           | Some r => cr_lastResizeBeforeClear r
           | None => lastResizeBeforeClear st
           end;
         currentResize := currentResize';
         fileOffset := fileOffset';
         lastClearOffset :=
           match clearResult with
           | Some r => cr_lastClearOffset r
           | None => lastClearOffset st
           end |}
  end.

Definition withOffset (st : Scan) (fileOffset' : Z) : Scan :=
  {| header := header st;
     events := events st;
     eventOffsets := eventOffsets st;
     lastClearIndex := lastClearIndex st;
     lastResizeBeforeClear := lastResizeBeforeClear st;
     currentResize := currentResize st;
     fileOffset := fileOffset';
     lastClearOffset := lastClearOffset st |}.

(** The ['data'] callback, for one complete line of the buffer. *)
Definition onLine (st : Scan) (line : string) : Scan :=
  let lineStartOffset := fileOffset st in
  let fileOffset' := fileOffset st + Z.of_nat (String.length line) + 1 in
  match parseLine line with
  | Blank | Invalid | OtherJson => withOffset st fileOffset'
  | HeaderLine h =>
      {| header := Some h;
         events := events st;
         eventOffsets := eventOffsets st;
         lastClearIndex := lastClearIndex st;
         lastResizeBeforeClear := lastResizeBeforeClear st;
         currentResize := currentResize st;
         fileOffset := fileOffset';
         lastClearOffset := lastClearOffset st |}
  | EventLine event => scanEvent st event line lineStartOffset fileOffset'
  end.

(** The start of the ['end'] callback: the unterminated rest of the
    buffer.  No newline is counted, no header is looked for, and the
    offset moves only when the rest parses. *)
Definition onRest (st : Scan) (lineBuffer : string) : Scan :=
  let lineStartOffset := fileOffset st in
  let fileOffset' := fileOffset st + Z.of_nat (String.length lineBuffer) in
  match parseLine lineBuffer with
  | Blank | Invalid => st
  | HeaderLine _ | OtherJson => withOffset st fileOffset'
  | EventLine event =>
      scanEvent st event lineBuffer lineStartOffset fileOffset'
  end.

Definition initialScan (header0 : option AsciinemaHeader)
    (startOffset : Z) : Scan :=
  {| header := header0;
     events := [];
     eventOffsets := [];
     lastClearIndex := -1;
     lastResizeBeforeClear := None;
     currentResize := None;
     fileOffset := startOffset;
     lastClearOffset := startOffset |}.

(** The whole analysis pass over what the stream delivers from
    [startOffset]: the complete lines, then the rest. *)
Definition analyse (header0 : option AsciinemaHeader) (startOffset : Z)
    (lines : list string) (rest : string) : Scan :=
  onRest (foldl onLine (initialScan header0 startOffset) lines) rest.

End Scan.

(** *** The replay the ['end'] callback sends *)

(** [initialTailLines] of [sendExistingContent]; [None] is an absent or
    non-finite [options.initialTailLines]. *)
Definition effectiveTailLines (tailLinesRequested : option Z) : Z :=
  match tailLinesRequested with
  | Some n => Z.max 0 (Z.min n MAX_INITIAL_TAIL_LINES)
  | None => 0
  end.

Definition baseStartIndex (st : Scan) : Z :=
  if 0 <=? lastClearIndex st then lastClearIndex st + 1 else 0.

(** [event[2]]. *)
Definition field2 (event : AsciinemaEvent) : string :=
  match event with
  | Timed _ _ data => data
  | Exit _ sessionId => sessionId
  end.

Definition headerToSend (st : Scan) : option AsciinemaHeader :=
  match header st with
  | None => None
  | Some h =>
      match 0 <=? lastClearIndex st, lastResizeBeforeClear st with
      | true, Some resize =>
          let dimensions := split "x" (field2 resize) "" in
          Some {| version := version h;
                  width := dimension dimensions 0;
                  height := dimension dimensions 1 |}
      | _, _ => Some h
      end
  end.

(** The backward loop
    [for (idx = events.length - 1; idx >= baseStartIndex; idx--)]:
    [visited] lists [events[idx]] for the indices the loop still has to
    visit, newest first. *)
Fixpoint scanBackward (initialTailLines : Z) (visited : list AsciinemaEvent)
    (idx sendStartIndex outputCounter : Z) : Z :=
  match visited with
  | [] => sendStartIndex
  | event :: older =>
      if isOutputEvent event then
        if initialTailLines <=? outputCounter + 1 then idx
        else scanBackward initialTailLines older (idx - 1) idx
               (outputCounter + 1)
      else scanBackward initialTailLines older (idx - 1) idx outputCounter
  end.

Definition tailStartIndex (events : list AsciinemaEvent)
    (baseStartIndex initialTailLines : Z) : Z :=
  let last := Z.of_nat (length events) - 1 in
  Z.max
    (scanBackward initialTailLines
       (reverse (from_index events baseStartIndex)) last last 0)
    baseStartIndex.

Record ChunkLoop : Type := {
  chunkEvents : list AsciinemaEvent;
  outputCount : Z;
  exitEventToSend : option AsciinemaEvent
}.

Definition chunkLoopBody (acc : ChunkLoop) (event : AsciinemaEvent)
  : ChunkLoop :=
  if isExitEvent event then
    {| chunkEvents := chunkEvents acc;
       outputCount := outputCount acc;
       exitEventToSend := Some event |}
  else if isOutputEvent event || isResizeEvent event then
    {| chunkEvents := chunkEvents acc ++ [normalizedEvent event];
       outputCount :=
         if isOutputEvent event then outputCount acc + 1
         else outputCount acc;
       exitEventToSend := exitEventToSend acc |}
  else acc.

(** The legacy loop: what it writes, and whether it met an exit event. *)
Definition legacyLoopBody (acc : list Sent * bool) (event : AsciinemaEvent)
  : list Sent * bool :=
  if isExitEvent event then (acc.1 ++ [SentEvent event], true)
  else if isOutputEvent event || isResizeEvent event then
    (acc.1 ++ [SentEvent (normalizedEvent event)], acc.2)
  else acc.

Record Replay : Type := {
  sent : list Sent;
  savedClearOffset : option Z
}.

(** The ['end'] callback once the rest of the buffer is scanned.
    [sessionExists] is whether [loadSessionInfo] found the session. *)
Definition replay (st : Scan) (startOffset : Z) (sessionExists : bool)
    (tailLinesRequested : option Z) : Replay :=
  let initialTailLines := effectiveTailLines tailLinesRequested in
  let baseStartIndex := baseStartIndex st in
  let saved :=
    if (0 <=? lastClearIndex st) && sessionExists
    then Some (lastClearOffset st) else None in
  let headerSent :=
    match headerToSend st with
    | Some h => [SentHeader h]
    | None => []
    end in
  let totalOutputEvents :=
    Z.of_nat (length (List.filter isOutputEvent
                        (from_index (events st) baseStartIndex))) in
  let len := Z.of_nat (length (events st)) in
  if (0 <? initialTailLines) && (baseStartIndex <? len) then
    let sendStartIndex :=
      tailStartIndex (events st) baseStartIndex initialTailLines in
    let hasMoreHistory := baseStartIndex <? sendStartIndex in
    let acc :=
      foldl chunkLoopBody
        {| chunkEvents := []; outputCount := 0; exitEventToSend := None |}
        (from_index (events st) sendStartIndex) in
    let payload :=
      {| hc_sessionId := None;
         hc_mode := "tail";
         hasMore := hasMoreHistory;
         totalEvents := Z.max (len - baseStartIndex) 0;
         totalOutputEvents := totalOutputEvents;
         chunkEventCount := Z.of_nat (length (chunkEvents acc));
         chunkOutputEvents := outputCount acc;
         chunkStartOffset :=
           default startOffset (at_index (eventOffsets st) sendStartIndex);
         previousOffset :=
           if hasMoreHistory && (0 <? sendStartIndex)
           then at_index (eventOffsets st) (sendStartIndex - 1)
           else None;
         nextOffset := fileOffset st;
         initialTailLines := initialTailLines;
         HistoryTypes.events := chunkEvents acc |} in
    {| sent :=
         headerSent ++ [SentChunk payload] ++
         match exitEventToSend acc with
         | Some e => [SentEvent e; EndOfStream]
         | None => []
         end;
       savedClearOffset := saved |}
  else
    let '(written, exitEventFound) :=
      foldl legacyLoopBody ([], false)
        (from_index (events st) baseStartIndex) in
    {| sent :=
         headerSent ++ written ++
         (if exitEventFound then [EndOfStream] else []);
       savedClearOffset := saved |}.

(** The history chunk among what was sent. *)
Fixpoint sentChunk (l : list Sent) : option HistoryChunkPayload :=
  match l with
  | [] => None
  | SentChunk c :: _ => Some c
  | _ :: rest => sentChunk rest
  end.

(** The header among what was sent. *)
Fixpoint sentHeader (l : list Sent) : option AsciinemaHeader :=
  match l with
  | [] => None
  | SentHeader h :: _ => Some h
  | _ :: rest => sentHeader rest
  end.

(** [sendExistingContent] for a client: the analysis pass, then the
    replay. *)
Definition sendExistingContent
    (parseLine : string → ParsedLine)
    (containsPruningSequence : string → bool)
    (findLastPrunePoint : string → option PrunePoint)
    (calculatePruningPositionInFile : Z → string → Z → Z)
    (header0 : option AsciinemaHeader) (startOffset : Z)
    (sessionExists : bool)
    (lines : list string) (rest : string)
    (tailLinesRequested : option Z) : Replay :=
  replay
    (analyse parseLine containsPruningSequence findLastPrunePoint
       calculatePruningPositionInFile header0 startOffset lines rest)
    startOffset sessionExists tailLinesRequested.

(** *** The watchers and their clients *)

(** An express [Response] and an [fs.FSWatcher], by identity. *)
Definition Response : Type := nat.
Definition FSWatcher : Type := nat.

Record StreamClient : Type := {
  response : Response;
  startTime : Q;
  options : option Z
}.

Record WatcherInfo : Type := {
  clients : list StreamClient;
  watcher : option FSWatcher;
  lastOffset : Z;
  lastSize : Z;
  lastMtime : Z;
  lineBuffer : string
}.

(** What the watcher asks of the file system and of its collaborators. *)
Inductive Effect : Type :=
  | SendExistingContent (sessionId streamPath : string) (r : Response)
  | FsWatch (sessionId streamPath : string) (w : FSWatcher)
  | WatcherClose (sessionId : string) (w : FSWatcher)
  | StartGitWatching (sessionId : string) (r : Response)
  | GitAddClient (sessionId : string) (r : Response)
  | GitRemoveClient (sessionId : string) (r : Response)
  | GitStopWatching (sessionId : string).

(** The [StreamWatcher] object: the [activeWatchers] map, the next watcher
    [fs.watch] will return, and what has been done so far. *)
Record Watchers : Type := {
  activeWatchers : gmap string WatcherInfo;
  nextWatcher : FSWatcher;
  trace : list Effect
}.

Definition noWatchers : Watchers :=
  {| activeWatchers := ∅; nextWatcher := 0%nat; trace := [] |}.

Definition withClients (info : WatcherInfo) (cs : list StreamClient)
  : WatcherInfo :=
  {| clients := cs;
     watcher := watcher info;
     lastOffset := lastOffset info;
     lastSize := lastSize info;
     lastMtime := lastMtime info;
     lineBuffer := lineBuffer info |}.

(** The entry a first client creates. *)
Definition newWatcherInfo : WatcherInfo :=
  {| clients := [];
     watcher := None;
     lastOffset := 0;
     lastSize := 0;
     lastMtime := 0;
     lineBuffer := "" |}.

(** [lastOffset], [lastSize] and [lastMtime] from [fs.statSync], when the
    stream file exists. *)
Definition withStats (info : WatcherInfo) (stats : option (Z * Z))
  : WatcherInfo :=
  match stats with
  | Some (size, mtimeMs) =>
      {| clients := clients info;
         watcher := watcher info;
         lastOffset := size;
         lastSize := size;
         lastMtime := mtimeMs;
         lineBuffer := lineBuffer info |}
  | None => info
  end.

(** [startWatching]: [watcherInfo.watcher = fs.watch(streamPath, ...)].
    [watched] is what [fs.watch] does: it returns a watcher, here [w], or
    it throws, ENOENT when the stream file does not exist and ENOSPC or
    EMFILE when the system has no watcher left.  Nothing catches what it
    throws, so [startWatching] throws with it: [None]. *)
Definition startWatching (info : WatcherInfo) (w : FSWatcher)
    (watched : bool) : option WatcherInfo :=
  if watched then
    Some {| clients := clients info;
            watcher := Some w;
            lastOffset := lastOffset info;
            lastSize := lastSize info;
            lastMtime := lastMtime info;
            lineBuffer := lineBuffer info |}
  else None.

(** How a call of [addClient] ends. *)
Inductive Outcome : Type :=
  | Returned
  | Thrown.

(** [addClient(sessionId, streamPath, response, options)].  [now] is
    [Date.now() / 1000]; [stats] is the size and mtime of the stream file
    when it exists; [watched] is whether [fs.watch] returns, which it
    does not for a file that is still absent when it is called.  The entry
    is one object, shared by the map and the method, so every update of
    it is an update of the map; and it is in the map before
    [startWatching] is called, so it stays there when that call throws,
    which is before the client is added and before [startGitWatching]. *)
Definition addClient (st : Watchers) (sessionId streamPath : string)
    (r : Response) (opts : option Z) (now : Q) (stats : option (Z * Z))
    (watched : bool) : Watchers * Outcome :=
  let client := {| response := r; startTime := now; options := opts |} in
  match activeWatchers st !! sessionId with
  | None =>
      let w := nextWatcher st in
      let entry := withStats newWatcherInfo stats in
      match startWatching entry w watched with
      | Some watcherInfo =>
          ({| activeWatchers :=
                <[sessionId := withClients watcherInfo
                                 (clients watcherInfo ++ [client])]>
                  (activeWatchers st);
              nextWatcher := S w;
              trace := trace st ++
                [SendExistingContent sessionId streamPath r;
                 FsWatch sessionId streamPath w;
                 StartGitWatching sessionId r] |},
           Returned)
      | None =>
          ({| activeWatchers := <[sessionId := entry]> (activeWatchers st);
              nextWatcher := nextWatcher st;
              trace := trace st ++
                [SendExistingContent sessionId streamPath r] |},
           Thrown)
      end
  | Some watcherInfo =>
      ({| activeWatchers :=
            <[sessionId := withClients watcherInfo
                             (clients watcherInfo ++ [client])]>
              (activeWatchers st);
          nextWatcher := nextWatcher st;
          trace := trace st ++
            [SendExistingContent sessionId streamPath r;
             GitAddClient sessionId r] |},
       Returned)
  end.

(** [removeClient(sessionId, response)]. *)
Definition removeClient (st : Watchers) (sessionId : string) (r : Response)
  : Watchers :=
  match activeWatchers st !! sessionId with
  | None => st
  | Some watcherInfo =>
      match list_find (λ client, response client = r) (clients watcherInfo) with
      | None => st
      | Some (i, clientToRemove) =>
          let remaining := delete i (clients watcherInfo) in
          if bool_decide (length remaining = 0%nat) then
            {| activeWatchers := delete sessionId (activeWatchers st);
               nextWatcher := nextWatcher st;
               trace := trace st ++
                 [GitRemoveClient sessionId r] ++
                 match watcher watcherInfo with
                 | Some w => [WatcherClose sessionId w]
                 | None => []
                 end ++
                 [GitStopWatching sessionId] |}
          else
            {| activeWatchers :=
                 <[sessionId := withClients watcherInfo remaining]>
                   (activeWatchers st);
               nextWatcher := nextWatcher st;
               trace := trace st ++ [GitRemoveClient sessionId r] |}
      end
  end.

(** A call of either method, and the state it leaves, also when it
    throws. *)
Inductive Call : Type :=
  | CallAdd (sessionId streamPath : string) (r : Response) (opts : option Z)
      (now : Q) (stats : option (Z * Z)) (watched : bool)
  | CallRemove (sessionId : string) (r : Response).

Definition call (st : Watchers) (c : Call) : Watchers :=
  match c with
  | CallAdd sessionId streamPath r opts now stats watched =>
      (addClient st sessionId streamPath r opts now stats watched).1
  | CallRemove sessionId r => removeClient st sessionId r
  end.

(** A call in which [fs.watch], if it is reached, returns. *)
Definition watchReturns (c : Call) : Prop :=
  match c with
  | CallAdd _ _ _ _ _ _ watched => watched = true
  | CallRemove _ _ => True
  end.

(** The clients attached to a session. *)
Definition clientsOf (st : Watchers) (sessionId : string)
  : list StreamClient :=
  match activeWatchers st !! sessionId with
  | Some watcherInfo => clients watcherInfo
  | None => []
  end.

Definition isFsWatch (sessionId : string) (e : Effect) : bool :=
  match e with
  | FsWatch s _ _ => String.eqb s sessionId
  | _ => false
  end.

Definition isWatcherClose (sessionId : string) (e : Effect) : bool :=
  match e with
  | WatcherClose s _ => String.eqb s sessionId
  | _ => false
  end.

(** How many watchers were created, and how many closed, for a session. *)
Definition created (st : Watchers) (sessionId : string) : nat :=
  length (List.filter (isFsWatch sessionId) (trace st)).

Definition closed (st : Watchers) (sessionId : string) : nat :=
  length (List.filter (isWatcherClose sessionId) (trace st)).

(** *** Vocabulary of the statements *)

(** The number of output events of a list. *)
Definition outputs (l : list AsciinemaEvent) : Z :=
  Z.of_nat (length (List.filter isOutputEvent l)).

(** The events a replay keeps. *)
Definition kept (event : AsciinemaEvent) : bool :=
  isOutputEvent event || isResizeEvent event.

(** A scan that found no clear and holds the given events. *)
Definition scanOf (evs : list AsciinemaEvent) : Scan :=
  {| header := None;
     events := evs;
     eventOffsets := [];
     lastClearIndex := -1;
     lastResizeBeforeClear := None;
     currentResize := None;
     fileOffset := 0;
     lastClearOffset := 0 |}.

(** The header a replay sends when a clear was found after a resize. *)
Definition resized (h : AsciinemaHeader) (resize : option AsciinemaEvent)
  : AsciinemaHeader :=
  match resize with
  | Some r =>
      {| version := version h;
         width := dimension (split "x" (field2 r) "") 0;
         height := dimension (split "x" (field2 r) "") 1 |}
  | None => h
  end.

Section ScanVocabulary.

Variable parseLine : string → ParsedLine.
Variable containsPruningSequence : string → bool.
Variable findLastPrunePoint : string → option PrunePoint.

(** The clear a line holds: the line is an output event whose text has a
    pruning sequence, and [findLastPrunePoint] locates it. *)
Definition clearIn (line : string) : option PrunePoint :=
  match parseLine line with
  | EventLine (Timed t kind data) =>
      if isOutputEvent (Timed t kind data) && containsPruningSequence data
      then findLastPrunePoint data
      else None
  | _ => None
  end.

(** The most recent resize event of a list of events. *)
Definition lastResize (evs : list AsciinemaEvent) : option AsciinemaEvent :=
  list.last (List.filter isResizeEvent evs).

(** The scan with the detection of clears left out: what it has read. *)
Record Progress : Type := {
  pr_header : option AsciinemaHeader;
  pr_events : list AsciinemaEvent;
  pr_eventOffsets : list Z;
  pr_fileOffset : Z
}.

Definition progress (st : Scan) : Progress :=
  {| pr_header := header st;
     pr_events := events st;
     pr_eventOffsets := eventOffsets st;
     pr_fileOffset := fileOffset st |}.

Definition readLine (p : Progress) (line : string) : Progress :=
  let fileOffset' := pr_fileOffset p + Z.of_nat (String.length line) + 1 in
  match parseLine line with
  | Blank | Invalid | OtherJson =>
      {| pr_header := pr_header p; pr_events := pr_events p;
         pr_eventOffsets := pr_eventOffsets p;
         pr_fileOffset := fileOffset' |}
  | HeaderLine h =>
      {| pr_header := Some h; pr_events := pr_events p;
         pr_eventOffsets := pr_eventOffsets p;
         pr_fileOffset := fileOffset' |}
  | EventLine event =>
      {| pr_header := pr_header p; pr_events := pr_events p ++ [event];
         pr_eventOffsets := pr_eventOffsets p ++ [pr_fileOffset p];
         pr_fileOffset := fileOffset' |}
  end.

Definition startProgress (header0 : option AsciinemaHeader)
    (startOffset : Z) : Progress :=
  {| pr_header := header0; pr_events := []; pr_eventOffsets := [];
     pr_fileOffset := startOffset |}.

(** [currentResize] is the most recent resize event read. *)
Definition resizeTracked (st : Scan) : Prop :=
  currentResize st = lastResize (events st).

(** The three values a clear records. *)
Definition clearOf (st : Scan) : Z * Z * option AsciinemaEvent :=
  (lastClearIndex st, lastClearOffset st, lastResizeBeforeClear st).


End ScanVocabulary.

(** A first client whose stream file does not exist yet, so that
    [fs.watch] throws ENOENT; then a second client once the file exists,
    and both clients leaving. *)
Definition absentAdd : Call :=
  CallAdd "session" "/s/stdout" 1%nat None 0%Q None false.

Definition absentThenPresent : list Call :=
  [absentAdd;
   CallAdd "session" "/s/stdout" 2%nat None 1%Q (Some (10, 7)) true;
   CallRemove "session" 1%nat;
   CallRemove "session" 2%nat].

(** Every entry of [activeWatchers] has a client. *)
Definition allWatched (st : Watchers) : Prop :=
  ∀ sessionId watcherInfo,
    activeWatchers st !! sessionId = Some watcherInfo →
    clients watcherInfo ≠ [].

(** *** An example log

    The examples write a log line as a letter and its text ([h] a header,
    [o text] an output event, [r colsxrows] a resize event, [x] the exit
    event), which stands for the JSON line, and use the detector below for
    utils/pruning-detector.ts: the clear sequence is [ESC [ 2 J], the prune
    point is just after its last occurrence, and its place in the file is
    counted from the start of the line. *)

Definition clearScreen : string := String (ascii_of_nat 27) "[2J".

Definition exampleParse (line : string) : ParsedLine :=
  match line with
  | EmptyString => Blank
  | String "h" _ =>
      HeaderLine {| version := 2; width := Num 80; height := Num 24 |}
  | String "o" (String " " data) => EventLine (Timed 1.5 "o" data)
  | String "r" (String " " data) => EventLine (Timed 1.5 "r" data)
  | String "x" _ => EventLine (Exit 0 "session")
  | _ => Invalid
  end.

Fixpoint lastIndexOf (pattern s : string) (i : Z) (found : option Z)
  : option Z :=
  let found' := if String.prefix pattern s then Some i else found in
  match s with
  | EmptyString => found'
  | String _ rest => lastIndexOf pattern rest (i + 1) found'
  end.

Definition exampleContains (data : string) : bool :=
  bool_decide (is_Some (lastIndexOf clearScreen data 0 None)).

Definition exampleFindLast (data : string) : option PrunePoint :=
  match lastIndexOf clearScreen data 0 None with
  | Some i =>
      Some {| sequence := clearScreen;
              position := i + Z.of_nat (String.length clearScreen) |}
  | None => None
  end.

Definition examplePosition (fileOffset : Z) (eventLine : string)
    (position : Z) : Z :=
  fileOffset - Z.of_nat (String.length eventLine) - 1 + position.

(** A log with two clears and a resize between them. *)
Definition exampleBefore : list string :=
  ["h"; "o first" +:+ clearScreen; "r 120x40"].
Definition exampleLine : string := "o second" +:+ clearScreen +:+ "shown".
Definition exampleAfter : list string := ["o more"; "o last"].

(** *** The live tail: the callback of [fs.watch] *)

(** What a ['change'] event meets.  [fs.statSync] throws, or it returns
    the size and the mtime of the stream file; and when the callback goes
    on to read the new bytes, [buffer] is the buffer after [fs.readSync],
    the bytes of the file from [lastOffset] to the size, or [None] when
    opening or reading throws. *)
Inductive Change : Type :=
  | StatFails
  | Stat (size mtimeMs : Z) (buffer : option (list Z)).

(** [lines = lineBuffer.split('\n')] and [lineBuffer = lines.pop() || '']:
    the complete lines of a text, and what follows its last newline. *)
Definition newline : ascii := ascii_of_nat 10.

Definition completeLines (text : string) : list string :=
  removelast (split newline text "").

Definition unterminated (text : string) : string :=
  List.last (split newline text "") "".

(** A read of the new bytes: from where, to where, and the bytes. *)
Record Read : Type := {
  readFrom : Z;
  readTo : Z;
  readData : list Z
}.

(** What one call of the callback does: the watcher as it leaves it, the
    lines it passes to [broadcastLine], and the read it made, if any. *)
Record Changed : Type := {
  after : WatcherInfo;
  broadcast : list string;
  readMade : option Read
}.

Section LiveTail.

Variable parseLine : string → ParsedLine.

(** [buffer.toString('utf8')]: the text a buffer decodes to, taken by
    itself.  Bytes that are no UTF-8 become U+FFFD, so the parts of a
    character that two buffers share are decoded as one U+FFFD for
    each part, not as the character. *)
Variable toString : list Z → string.

(** [line.trim()] is not empty. *)
Definition notBlank (line : string) : bool :=
  match parseLine line with
  | Blank => false
  | _ => true
  end.

(** The callback for [eventType === 'change']. *)
Definition onChange (info : WatcherInfo) (c : Change) : Changed :=
  match c with
  | StatFails => {| after := info; broadcast := []; readMade := None |}
  | Stat size mtimeMs newData =>
      if (lastSize info <? size) || (lastMtime info <? mtimeMs) then
        let info1 :=
          {| clients := clients info;
             watcher := watcher info;
             lastOffset := lastOffset info;
             lastSize := size;
             lastMtime := mtimeMs;
             lineBuffer := lineBuffer info |} in
        if lastOffset info1 <? size then
          match newData with
          | None =>
              {| after := info1; broadcast := []; readMade := None |}
          | Some data =>
              let newData := toString data in
              let text := lineBuffer info1 +:+ newData in
              {| after :=
                   {| clients := clients info1;
                      watcher := watcher info1;
                      lastOffset := size;
                      lastSize := lastSize info1;
                      lastMtime := lastMtime info1;
                      lineBuffer := unterminated text |};
                 broadcast := List.filter notBlank (completeLines text);
                 readMade :=
                   Some {| readFrom := lastOffset info1;
                           readTo := size;
                           readData := data |} |}
          end
        else {| after := info1; broadcast := []; readMade := None |}
      else {| after := info; broadcast := []; readMade := None |}
  end.

(** A run of ['change'] events: the watcher at the end, every line
    passed to [broadcastLine], every read made. *)
Definition onChanges (info : WatcherInfo) (cs : list Change)
  : WatcherInfo * list string * list Read :=
  foldl
    (λ '(info, lines, reads) c,
       let r := onChange info c in
       (after r, lines ++ broadcast r,
        reads ++ match readMade r with Some rd => [rd] | None => [] end))
    (info, [], []) cs.

(** What a response is made to do. *)
Inductive Wire : Type :=
  | ResponseWrite (r : Response) (event : AsciinemaEvent)
  | ResponseEnd (r : Response).

(** [broadcastLine(sessionId, line, watcherInfo)], with
    [sendEventToClient] for the raw lines and the exit event.  [now] is
    [Date.now() / 1000]; [broken r] says that writing to [r] throws,
    which both loops catch, client by client. *)
Definition broadcastLine (broken : Response → bool) (now : Q)
    (clients : list StreamClient) (line : string) : list Wire :=
  match parseLine line with
  | Blank | Invalid | OtherJson =>
      flat_map
        (λ client,
           if broken (response client) then []
           else [ResponseWrite (response client)
                   (Timed (now - startTime client) "o" line)])
        clients
  | HeaderLine _ => []
  | EventLine (Exit code sessionId) =>
      flat_map
        (λ client,
           if broken (response client) then []
           else [ResponseWrite (response client) (Exit code sessionId);
                 ResponseEnd (response client)])
        clients
  | EventLine (Timed _ kind data) =>
      flat_map
        (λ client,
           if broken (response client) then []
           else [ResponseWrite (response client)
                   (Timed (now - startTime client) kind data)])
        clients
  end.

End LiveTail.

(** *** Vocabulary of the statements on the live tail and the offsets *)

(** The reads follow one another: each starts where the one before it
    ended, and none is empty. *)
Fixpoint contiguous (from : Z) (reads : list Read) (to : Z) : Prop :=
  match reads with
  | [] => from = to
  | rd :: rest =>
      readFrom rd = from ∧ from < readTo rd ∧ contiguous (readTo rd) rest to
  end.

(** The bytes of complete lines: each line and its newline. *)
Definition bytesOf (lines : list string) : Z :=
  foldr (λ line n, Z.of_nat (String.length line) + 1 + n) 0 lines.

Definition isEventLine (parseLine : string → ParsedLine) (line : string)
  : bool :=
  match parseLine line with
  | EventLine _ => true
  | _ => false
  end.

(** What a healthy client is sent for a line. *)
Definition wiresFor (parseLine : string → ParsedLine) (now : Q)
    (client : StreamClient) (line : string) : list Wire :=
  match parseLine line with
  | HeaderLine _ => []
  | EventLine (Exit code sessionId) =>
      [ResponseWrite (response client) (Exit code sessionId);
       ResponseEnd (response client)]
  | EventLine (Timed _ kind data) =>
      [ResponseWrite (response client)
         (Timed (now - startTime client) kind data)]
  | _ =>
      [ResponseWrite (response client)
         (Timed (now - startTime client) "o" line)]
  end.

Definition toResponse (r : Response) (w : Wire) : bool :=
  match w with
  | ResponseWrite r' _ => bool_decide (r' = r)
  | ResponseEnd r' => bool_decide (r' = r)
  end.

(** The locals of the tail branch of [sendExistingContent], as the payload
    of the [buildHistoryChunk] task. *)
Definition taskPayloadOf (st : Scan) (sessionId : string)
    (startOffset initialTailLines : Z)
  : HistoryChunk.HistoryChunkTaskPayload :=
  let base := baseStartIndex st in
  let start := tailStartIndex (events st) base initialTailLines in
  {| HistoryChunk.sessionId := sessionId;
     HistoryChunk.p_events := events st;
     HistoryChunk.eventOffsets := eventOffsets st;
     HistoryChunk.baseStartIndex := base;
     HistoryChunk.sendStartIndex := start;
     HistoryChunk.startOffset := startOffset;
     HistoryChunk.fileOffset := fileOffset st;
     HistoryChunk.p_initialTailLines := initialTailLines;
     HistoryChunk.hasMoreHistory := base <? start;
     HistoryChunk.p_totalEvents := Z.of_nat (length (events st));
     HistoryChunk.p_totalOutputEvents :=
       outputs (from_index (events st) base) |}.

(** A chunk with the session it is filed under. *)
Definition withSessionId (c : HistoryChunkPayload) (sessionId : string)
  : HistoryChunkPayload :=
  {| hc_sessionId := Some sessionId;
     hc_mode := hc_mode c;
     hasMore := hasMore c;
     totalEvents := totalEvents c;
     totalOutputEvents := totalOutputEvents c;
     chunkEventCount := chunkEventCount c;
     chunkOutputEvents := chunkOutputEvents c;
     chunkStartOffset := chunkStartOffset c;
     previousOffset := previousOffset c;
     nextOffset := nextOffset c;
     initialTailLines := initialTailLines c;
     HistoryTypes.events := HistoryTypes.events c |}.

(** The request of a client that asks for no tail: no number, or a
    number that is not above zero. *)
Definition noTail (tailLinesRequested : option Z) : Prop :=
  match tailLinesRequested with
  | Some n => n ≤ 0
  | None => True
  end.

(** The complete lines of a text and its unterminated rest, read from
    the front. *)
Fixpoint cutLines (text : string) : list string * string :=
  match text with
  | EmptyString => ([], "")
  | String c later =>
      let '(lines, rest) := cutLines later in
      if Ascii.eqb c newline then ("" :: lines, rest)
      else
        match lines with
        | [] => ([], String c rest)
        | line :: lines' => (String c line :: lines', rest)
        end
  end.

(** *** Examples for the live tail *)

Definition nl : string := String newline "".

(** The bytes of a text, and the text of bytes that encode one: these
    stand for [Buffer.from(text)] and, on such bytes,
    [buffer.toString('utf8')]. *)
Fixpoint toBytes (text : string) : list Z :=
  match text with
  | EmptyString => []
  | String c rest => Z.of_nat (nat_of_ascii c) :: toBytes rest
  end.

Fixpoint textOf (bytes : list Z) : string :=
  match bytes with
  | [] => EmptyString
  | b :: rest => String (ascii_of_nat (Z.to_nat b)) (textOf rest)
  end.

(** Two reads of five bytes: the first ends inside a line, the second
    holds its end, a blank line and the start of a third. *)
Definition exampleChanges : list Change :=
  [Stat 5 1 (Some (toBytes ("o a" +:+ nl +:+ "o")));
   Stat 10 2 (Some (toBytes (" b" +:+ nl +:+ nl +:+ "x")))].

(** Two clients, the second one broken. *)
Definition exampleClients : list StreamClient :=
  [{| response := 1%nat; startTime := 10; options := None |};
   {| response := 2%nat; startTime := 12; options := None |}].

Definition secondBroken (r : Response) : bool := bool_decide (r = 2%nat).

(** A scanned log of five events with a clear at index 0. *)
Definition exampleScan : Scan :=
  {| header := None;
     events := [Timed 1 "o" "clear"; Timed 2 "o" "a"; Timed 3 "r" "80x24";
                Timed 4 "o" "b"; Timed 5 "o" "c"];
     eventOffsets := [40; 60; 80; 100; 120];
     lastClearIndex := 0;
     lastResizeBeforeClear := None;
     currentResize := None;
     fileOffset := 140;
     lastClearOffset := 50 |}.

(** Where the event of index [i] was read: in a complete line, after the
    lines before it, or in the unterminated rest. *)
Definition readAt (parseLine : string → ParsedLine) (lines : list string)
    (rest : string) (startOffset : Z) (i : nat) (event : AsciinemaEvent)
    (o : Z) : Prop :=
  (∃ before line later,
     lines = before ++ line :: later
     ∧ parseLine line = EventLine event
     ∧ length (List.filter (isEventLine parseLine) before) = i
     ∧ o = startOffset + bytesOf before)
  ∨ (parseLine rest = EventLine event
     ∧ length (List.filter (isEventLine parseLine) lines) = i
     ∧ o = startOffset + bytesOf lines).

(** A session has as many watchers created as closed, and one more while
    its entry holds a watcher. *)
Definition balanced (st : Watchers) : Prop :=
  ∀ sessionId,
    match activeWatchers st !! sessionId with
    | Some watcherInfo =>
        match watcher watcherInfo with
        | Some _ => created st sessionId = S (closed st sessionId)
        | None => created st sessionId = closed st sessionId
        end
    | None => created st sessionId = closed st sessionId
    end.

End StreamWatcher.

(** ** Task offload pool (workers/pool.ts) *)

Module WorkerPool.

Inductive WorkerTaskType : Type :=
  | encodeSnapshot
  | buildHistoryChunk.

(** A worker thread, by identity. *)
Definition Worker : Type := nat.

(** [PendingTask] without its payload and its two callbacks: settling the
    promise of a task is recorded as an [Effect] that names its [id]. *)
Record PendingTask : Type := {
  id : Z;
  type : WorkerTaskType
}.

Record WorkerWrapper : Type := {
  busy : bool;
  pending : option PendingTask
}.

(** The pool.  Wrappers are objects that the [workers] array and the event
    handlers of the threads both hold, so they live in [wrappers], keyed by
    their thread, and [workers] lists the ones the array holds. *)
Record Pool : Type := {
  wrappers : gmap Worker WorkerWrapper;
  workers : list Worker;
  queue : list PendingTask;
  nextTaskId : Z;
  size : Z;
  disabled : bool;
  disableReason : option string;
  nextWorker : Worker
}.

Inductive Effect : Type :=
  | RunRejected (reason : string)        (* [runTask] returns a rejected promise *)
  | TaskRejected (id : Z) (reason : string)
  | TaskResolved (id : Z)
  | Posted (w : Worker) (id : Z).        (* [worker.postMessage(message)] *)

(** [this.disableReason ?? 'worker pool disabled'] *)
Definition reasonOf (p : Pool) : string :=
  default "worker pool disabled" (disableReason p).

(** [createWorker()] either returns a wrapper around a new thread or throws;
    [spawn] is the message of what it throws, if it does. *)
Definition createWorker (p : Pool) (spawn : option string)
  : Pool + string :=
  match spawn with
  | Some message => inr message
  | None =>
      inl {| wrappers :=
               <[nextWorker p := {| busy := false; pending := None |}]>
                 (wrappers p);
             workers := workers p ++ [nextWorker p];
             queue := queue p;
             nextTaskId := nextTaskId p;
             size := size p;
             disabled := disabled p;
             disableReason := disableReason p;
             nextWorker := S (nextWorker p) |}
  end.

Definition disable (p : Pool) (reason : string) : Pool :=
  {| wrappers := wrappers p;
     workers := workers p;
     queue := queue p;
     nextTaskId := nextTaskId p;
     size := size p;
     disabled := true;
     disableReason := Some reason;
     nextWorker := nextWorker p |}.

Definition withQueue (p : Pool) (q : list PendingTask) : Pool :=
  {| wrappers := wrappers p;
     workers := workers p;
     queue := q;
     nextTaskId := nextTaskId p;
     size := size p;
     disabled := disabled p;
     disableReason := disableReason p;
     nextWorker := nextWorker p |}.

Definition isFree (p : Pool) (w : Worker) : bool :=
  match wrappers p !! w with
  | Some wrapper => negb (busy wrapper)
  | None => false
  end.

Definition processQueue (p : Pool) : Pool * list Effect :=
  if disabled p then
    (withQueue p [],
     (λ task, TaskRejected (id task) (reasonOf p)) <$> queue p)
  else
    match queue p with
    | [] => (p, [])
    | task :: rest =>
        match List.find (isFree p) (workers p) with
        | None => (p, [])
        | Some freeWorker =>
            ({| wrappers :=
                  <[freeWorker := {| busy := true; pending := Some task |}]>
                    (wrappers p);
                workers := workers p;
                queue := rest;
                nextTaskId := nextTaskId p;
                size := size p;
                disabled := disabled p;
                disableReason := disableReason p;
                nextWorker := nextWorker p |},
             [Posted freeWorker (id task)])
        end
    end.

Definition runTask (p : Pool) (type : WorkerTaskType) : Pool * list Effect :=
  if disabled p then (p, [RunRejected (reasonOf p)])
  else
    let task := {| id := nextTaskId p; type := type |} in
    processQueue
      {| wrappers := wrappers p;
         workers := workers p;
         queue := queue p ++ [task];
         nextTaskId := nextTaskId p + 1;
         size := size p;
         disabled := disabled p;
         disableReason := disableReason p;
         nextWorker := nextWorker p |}.

Definition withWrappers (p : Pool) (ws : gmap Worker WorkerWrapper) : Pool :=
  {| wrappers := ws;
     workers := workers p;
     queue := queue p;
     nextTaskId := nextTaskId p;
     size := size p;
     disabled := disabled p;
     disableReason := disableReason p;
     nextWorker := nextWorker p |}.

(** [handleWorkerMessage(wrapper, message)]; [error] is [message.error]. *)
Definition handleWorkerMessage (p : Pool) (w : Worker)
    (error : option string) : Pool * list Effect :=
  let pending := wrappers p !! w ≫= pending in
  let p1 :=
    withWrappers p (<[w := {| busy := false; pending := None |}]> (wrappers p)) in
  match pending with
  | None => (p1, [])
  | Some task =>
      let settled :=
        match error with
        | Some message =>
            if bool_decide (message = "") then TaskResolved (id task)
            else TaskRejected (id task) message
        | None => TaskResolved (id task)
        end in
      let '(p2, effects) := processQueue p1 in
      (p2, settled :: effects)
  end.

(** [handleWorkerFailure(wrapper, error)]; [spawn] is what the
    [createWorker()] of the replacement does. *)
Definition handleWorkerFailure (p : Pool) (w : Worker) (error : string)
    (spawn : option string) : Pool * list Effect :=
  if disabled p then (p, [])
  else
    let rejected :=
      match wrappers p !! w ≫= pending with
      | Some task => [TaskRejected (id task) error]
      | None => []
      end in
    let p1 :=
      match list_find (λ x, x = w) (workers p) with
      | Some (index, _) =>
          {| wrappers := wrappers p;
             workers := delete index (workers p);
             queue := queue p;
             nextTaskId := nextTaskId p;
             size := size p;
             disabled := disabled p;
             disableReason := disableReason p;
             nextWorker := nextWorker p |}
      | None => p
      end in
    let p2 :=
      match createWorker p1 spawn with
      | inl p' => p'
      | inr spawnError => disable p1 spawnError
      end in
    let '(p3, effects) := processQueue p2 in
    (p3, rejected ++ effects).

(** [destroy()]: the threads are terminated and both arrays emptied. *)
Definition destroy (p : Pool) : Pool :=
  {| wrappers := wrappers p;
     workers := [];
     queue := [];
     nextTaskId := nextTaskId p;
     size := size p;
     disabled := disabled p;
     disableReason := disableReason p;
     nextWorker := nextWorker p |}.

(** The loop of the constructor: [n] more workers to create, the [i]-th
    [createWorker()] doing what [spawn i] says. *)
Fixpoint createWorkers (p : Pool) (spawn : nat → option string)
    (i n : nat) : Pool :=
  match n with
  | O => p
  | S n' =>
      match createWorker p (spawn i) with
      | inl p' => createWorkers p' spawn (S i) n'
      | inr message => disable p message
      end
  end.

(** [new WorkerPool(size)], with [size] already defaulted. *)
Definition newPool (poolSize : Z) (spawn : nat → option string) : Pool :=
  let p :=
    createWorkers
      {| wrappers := ∅; workers := []; queue := []; nextTaskId := 0;
         size := poolSize; disabled := false; disableReason := None;
         nextWorker := 0%nat |}
      spawn 0 (Z.to_nat poolSize) in
  if bool_decide (length (workers p) = 0%nat) then
    {| wrappers := wrappers p;
       workers := workers p;
       queue := queue p;
       nextTaskId := nextTaskId p;
       size := size p;
       disabled := true;
       disableReason :=
         match disableReason p with
         | None | Some "" => Some "worker scripts unavailable"
         | Some reason => Some reason
         end;
       nextWorker := nextWorker p |}
  else p.

(** What happens to a pool. *)
Inductive Event : Type :=
  | RunTask (type : WorkerTaskType)
  | WorkerMessage (w : Worker) (error : option string)
  | WorkerFailure (w : Worker) (error : string) (spawn : option string)
  | Destroy.

Definition step (p : Pool) (e : Event) : Pool * list Effect :=
  match e with
  | RunTask type => runTask p type
  | WorkerMessage w error => handleWorkerMessage p w error
  | WorkerFailure w error spawn => handleWorkerFailure p w error spawn
  | Destroy => (destroy p, [])
  end.

Fixpoint run (p : Pool) (events : list Event) : Pool * list Effect :=
  match events with
  | [] => (p, [])
  | e :: rest =>
      let '(p1, effects1) := step p e in
      let '(p2, effects2) := run p1 rest in
      (p2, effects1 ++ effects2)
  end.

Definition isPosted (e : Effect) : bool :=
  match e with
  | Posted _ _ => true
  | _ => false
  end.

(** *** Vocabulary of the statements on the queue *)

(** The ids of the tasks handed to workers, in the order of the calls of
    [postMessage]. *)
Definition postedIds (effects : list Effect) : list Z :=
  omap (λ e, match e with Posted _ id => Some id | _ => None end) effects.

(** Every worker of the pool is busy. *)
Definition allBusy (p : Pool) : Prop :=
  Forall (λ w, isFree p w = false) (workers p).

(** What the pool keeps true of its workers and its queue: every worker of
    the array has its wrapper, a busy wrapper holds its task, a disabled
    pool has no queue, and a task waits only while every worker is busy. *)
Record working (p : Pool) : Prop := {
  workers_wrapped : ∀ w, w ∈ workers p → is_Some (wrappers p !! w);
  busy_pending :
    ∀ w wrapper, wrappers p !! w = Some wrapper →
                 busy wrapper = true → is_Some (pending wrapper);
  disabled_drained : disabled p = true → queue p = [];
  queue_waits : queue p ≠ [] → allBusy p
}.

(** The ids of the queue ascend and are below the next id. *)
Definition queueOrdered (p : Pool) : Prop :=
  StronglySorted Z.lt (id <$> queue p)
  ∧ Forall (λ i, i < nextTaskId p) (id <$> queue p).

(** A pool whose spawns all succeed. *)
Definition spawnsAll : nat → option string := λ _, None.

(** A pool of [n] workers, numbered from 0, of which the first [k] are
    busy and the others free. *)
Definition firstBusy (n k : nat) (p : Pool) : Prop :=
  workers p = seq 0 n
  ∧ disabled p = false
  ∧ ∀ i, (i < n)%nat → isFree p i = negb (i <? k)%nat.

(** Every task a wrapper holds was posted to the thread of the wrapper. *)
Definition pendingPosted (p : Pool) (effects : list Effect) : Prop :=
  ∀ w wrapper task,
    wrappers p !! w = Some wrapper → pending wrapper = Some task →
    Posted w (id task) ∈ effects.

(** Each task that is resolved was posted before. *)
Definition resolvedAfterPosted (effects : list Effect) : Prop :=
  ∀ before id after,
    effects = before ++ TaskResolved id :: after →
    ∃ w, Posted w id ∈ before.

End WorkerPool.

(** ** Event-stream router (routes/events.ts) *)

Module EventsRouter.

(** [MAX_CONNECTIONS_PER_KEY]: a positive integer or [Infinity]. *)
Inductive Limit : Type :=
  | Finite (n : Z)
  | Infinity.

(** From [process.env.VIBETUNNEL_MAX_EVENTSTREAM_PER_KEY]. *)
Definition maxConnectionsPerKey (env : option string) : Limit :=
  match parseInt (default "" env) with
  | Num n => if 0 <? n then Finite n else Infinity
  | NaN => Infinity
  end.

(** [bucket.size >= MAX_CONNECTIONS_PER_KEY] behind the test that the
    limit is not [Infinity]. *)
Definition atCapacity (limit : Limit) (bucketSize : nat) : bool :=
  match limit with
  | Finite n => n <=? Z.of_nat bucketSize
  | Infinity => false
  end.

(** A [ClientConnection]: the object, by identity, and its key.  The
    response and the keep-alive timer are the object's own. *)
Record ClientConnection : Type := {
  conn : nat;
  key : string
}.

#[global] Instance ClientConnection_eq_dec : EqDecision ClientConnection.
Proof. solve_decision. Defined.

(** The state of one router.  A [Set] keeps insertion order, so it is the
    list of its members, oldest first. *)
Record Router : Type := {
  clients : list ClientConnection;
  clientBuckets : gmap string (list ClientConnection);
  sessionMonitor : bool;
  sessionMonitorAttached : bool;
  nextConn : nat
}.

Definition newRouter (monitor : bool) : Router :=
  {| clients := [];
     clientBuckets := ∅;
     sessionMonitor := monitor;
     sessionMonitorAttached := false;
     nextConn := 0%nat |}.

(** [set.delete(x)] and [set.add(x)]. *)
Definition setDelete (x : ClientConnection) (s : list ClientConnection)
  : list ClientConnection :=
  filter (λ y, y ≠ x) s.

Definition setAdd (x : ClientConnection) (s : list ClientConnection)
  : list ClientConnection :=
  if bool_decide (x ∈ s) then s else s ++ [x].

Definition cleanupClient (st : Router) (client : ClientConnection)
  : Router :=
  if bool_decide (client ∈ clients st) then
    let clients' := setDelete client (clients st) in
    let buckets' :=
      match clientBuckets st !! key client with
      | Some bucket =>
          let bucket' := setDelete client bucket in
          if bool_decide (length bucket' = 0%nat)
          then delete (key client) (clientBuckets st)
          else <[key client := bucket']> (clientBuckets st)
      | None => clientBuckets st
      end in
    {| clients := clients';
       clientBuckets := buckets';
       sessionMonitor := sessionMonitor st;
       sessionMonitorAttached :=
         if sessionMonitor st && sessionMonitorAttached st
            && bool_decide (length clients' = 0%nat)
         then false else sessionMonitorAttached st;
       nextConn := nextConn st |}
  else st.

(** [clientBuckets.get(clientKey)], creating the bucket when it is
    missing. *)
Definition bucketOf (st : Router) (clientKey : string)
  : Router * list ClientConnection :=
  match clientBuckets st !! clientKey with
  | Some bucket => (st, bucket)
  | None =>
      ({| clients := clients st;
          clientBuckets := <[clientKey := []]> (clientBuckets st);
          sessionMonitor := sessionMonitor st;
          sessionMonitorAttached := sessionMonitorAttached st;
          nextConn := nextConn st |}, [])
  end.

Inductive Outcome : Type :=
  | Accepted (client : ClientConnection)
  | Refused                    (* status 429 *)
  | WriteFailed.               (* the first write threw; nothing is kept *)

(** The connection the handler evicts, if it evicts one. *)
Definition evicted (limit : Limit) (st : Router) (clientKey : string)
  : option ClientConnection :=
  let '(st1, bucket) := bucketOf st clientKey in
  if atCapacity limit (length bucket) then list.head bucket else None.

(** The state once the handler has made room, and the bucket it then
    holds. *)
Definition makeRoom (limit : Limit) (st : Router) (clientKey : string)
  : Router * list ClientConnection :=
  let '(st1, bucket) := bucketOf st clientKey in
  if atCapacity limit (length bucket) then
    let st2 :=
      match list.head bucket with
      | Some oldest => cleanupClient st1 oldest
      | None => st1
      end in
    bucketOf st2 clientKey
  else (st1, bucket).

(** The rest of the handler once the connection is let in: the first
    write, then the connection is added to [clients] and to its bucket.
    [bucket] is the set the map holds under [clientKey]. *)
Definition accept (st : Router) (bucket : list ClientConnection)
    (clientKey : string) (writeOk : bool) : Router * Outcome :=
  if negb writeOk then (st, WriteFailed)
  else
    let client := {| conn := nextConn st; key := clientKey |} in
    ({| clients := setAdd client (clients st);
        clientBuckets :=
          <[clientKey := setAdd client bucket]> (clientBuckets st);
        sessionMonitor := sessionMonitor st;
        sessionMonitorAttached :=
          if sessionMonitor st then true else sessionMonitorAttached st;
        nextConn := S (nextConn st) |},
     Accepted client).

(** [router.get('/events', ...)] for a request whose derived key is
    [clientKey]; [writeOk] is whether the first [res.write] returns. *)
Definition onEvents (limit : Limit) (st : Router) (clientKey : string)
    (writeOk : bool) : Router * Outcome :=
  let '(st1, bucket) := bucketOf st clientKey in
  if atCapacity limit (length bucket) then
    let st2 :=
      match list.head bucket with
      | Some oldest => cleanupClient st1 oldest
      | None => st1
      end in
    let '(st3, bucket3) := bucketOf st2 clientKey in
    if atCapacity limit (length bucket3) then (st3, Refused)
    else accept st3 bucket3 clientKey writeOk
  else accept st1 bucket clientKey writeOk.

(** What reaches a router: a request, or the close, error or failed write
    of a connection. *)
Inductive Event : Type :=
  | Request (clientKey : string) (writeOk : bool)
  | Gone (client : ClientConnection).

Definition step (limit : Limit) (st : Router) (e : Event) : Router :=
  match e with
  | Request clientKey writeOk => (onEvents limit st clientKey writeOk).1
  | Gone client => cleanupClient st client
  end.

(** The size of the bucket of a key. *)
Definition bucketSize (st : Router) (clientKey : string) : nat :=
  match clientBuckets st !! clientKey with
  | Some bucket => length bucket
  | None => 0
  end.

(** What the router keeps true of its two collections. *)
Record consistent (limit : Limit) (st : Router) : Prop := {
  clients_nodup : NoDup (clients st);
  clients_known : ∀ c, c ∈ clients st → (conn c < nextConn st)%nat;
  buckets_nodup : ∀ k b, clientBuckets st !! k = Some b → NoDup b;
  buckets_members :
    ∀ k b c, clientBuckets st !! k = Some b → c ∈ b →
             c ∈ clients st ∧ key c = k;
  buckets_bounded :
    ∀ k b n, clientBuckets st !! k = Some b → limit = Finite n →
             Z.of_nat (length b) ≤ n
}.

(** *** The notifications of the session monitor *)

(** [broadcastEvent(event)]: the payload is written to each connection of
    [Array.from(clients)], and a connection whose write throws is cleaned
    up.  [writeFails client] is whether [client.res.write(payload)]
    throws; the result holds the connections the payload was written
    to. *)
Definition broadcastEvent (st : Router)
    (writeFails : ClientConnection → bool)
  : Router * list ClientConnection :=
  if bool_decide (length (clients st) = 0%nat) then (st, [])
  else
    foldl (λ acc client,
             if writeFails client
             then (cleanupClient acc.1 client, acc.2)
             else (acc.1, acc.2 ++ [client]))
          (st, []) (clients st).

(** What happens to a router: an event of a connection, or a notification
    of the session monitor, which reaches [broadcastEvent] while it is
    registered as listener. *)
Inductive Activity : Type :=
  | Incoming (e : Event)
  | Notification (writeFails : ClientConnection → bool).

Definition act (limit : Limit) (st : Router) (a : Activity) : Router :=
  match a with
  | Incoming e => step limit st e
  | Notification writeFails =>
      if sessionMonitorAttached st
      then (broadcastEvent st writeFails).1
      else st
  end.

(** Every connection is in the bucket of its key, and the buckets hold
    connections only. *)
Definition partitioned (st : Router) : Prop :=
  (∀ c, c ∈ clients st →
        ∃ b, clientBuckets st !! key c = Some b ∧ c ∈ b)
  ∧ (∀ k b c, clientBuckets st !! k = Some b → c ∈ b →
              c ∈ clients st ∧ key c = k).

(** The listener is registered exactly while a router with a monitor has
    connections. *)
Definition listening (st : Router) : Prop :=
  sessionMonitorAttached st
  = sessionMonitor st && bool_decide (clients st ≠ []).

End EventsRouter.

(** ** Buffer aggregator (services/buffer-aggregator.ts) *)

Module BufferAggregator.

(** A client [WebSocket], by identity. *)
Definition WebSocket : Type := nat.

(** The function a subscription stores: the one the terminal manager
    returned for a local session, or the empty one of a remote session. *)
Inductive Unsubscribe : Type :=
  | WatcherUnsubscribe (token : nat)
  | RemoteNoop.

Record RemoteWebSocketConnection : Type := {
  remoteOpen : bool;                 (* [ws.readyState === WebSocket.OPEN] *)
  subscriptions : list string
}.

(** The JSON control messages and binary frames a socket is sent. *)
Inductive Message : Type :=
  | Subscribed (sessionId : string) (dedup : bool)
  | Pong
  | Error (message : string)
  | InitialBuffer (sessionId : string)
  | CachedHistoryChunk (sessionId : string)
  | SubscribeRequest (sessionId : string)
  | UnsubscribeRequest (sessionId : string).

Inductive Effect : Type :=
  | Send (ws : WebSocket) (m : Message)
  | SendRemote (remoteId : string) (m : Message)
  | SubscribeToBufferChanges (sessionId : string) (token : nat)
  | HistoryStoreSubscribe (sessionId : string) (token : nat)
  | CallUnsubscribe (u : Unsubscribe)
  | HistoryStoreUnsubscribe (token : nat).

Record Aggregator : Type := {
  isHQMode : bool;
  hasRemoteRegistry : bool;
  hasHistoryStore : bool;
  remoteConnections : gmap string RemoteWebSocketConnection;
  clientSubscriptions : gmap WebSocket (gmap string Unsubscribe);
  historySubscriptions : gmap string nat;
  nextToken : nat;
  trace : list Effect
}.

(** What [subscribeToLocalSession] meets in its [try] block. *)
Inductive LocalOutcome : Type :=
  | SubscribeThrows            (* [subscribeToBufferChanges] rejects *)
  | SnapshotThrows             (* [getBufferSnapshot] or [encodeSnapshot] does *)
  | SnapshotSent (cached : bool).  (* and whether a cached chunk exists *)

(** What the collaborators answer during one message. *)
Record World : Type := {
  remoteOf : string → option string;   (* [getRemoteBySessionId(id)?.id] *)
  localOutcome : LocalOutcome;
  connected : bool;                    (* [connectToRemote(remoteId)] *)
  clientOpen : bool                    (* [clientWs.readyState === OPEN] *)
}.

Record ClientData : Type := {
  type : string;
  sessionId : option string
}.

Definition emit (st : Aggregator) (es : list Effect) : Aggregator :=
  {| isHQMode := isHQMode st;
     hasRemoteRegistry := hasRemoteRegistry st;
     hasHistoryStore := hasHistoryStore st;
     remoteConnections := remoteConnections st;
     clientSubscriptions := clientSubscriptions st;
     historySubscriptions := historySubscriptions st;
     nextToken := nextToken st;
     trace := trace st ++ es |}.

Definition withClientSubscriptions (st : Aggregator)
    (cs : gmap WebSocket (gmap string Unsubscribe)) : Aggregator :=
  {| isHQMode := isHQMode st;
     hasRemoteRegistry := hasRemoteRegistry st;
     hasHistoryStore := hasHistoryStore st;
     remoteConnections := remoteConnections st;
     clientSubscriptions := cs;
     historySubscriptions := historySubscriptions st;
     nextToken := nextToken st;
     trace := trace st |}.

Definition withRemoteConnections (st : Aggregator)
    (rs : gmap string RemoteWebSocketConnection) : Aggregator :=
  {| isHQMode := isHQMode st;
     hasRemoteRegistry := hasRemoteRegistry st;
     hasHistoryStore := hasHistoryStore st;
     remoteConnections := rs;
     clientSubscriptions := clientSubscriptions st;
     historySubscriptions := historySubscriptions st;
     nextToken := nextToken st;
     trace := trace st |}.

(** [subscriptions.set(sessionId, unsubscribe)] on the map of a client;
    nothing when the client has no map. *)
Definition setSubscription (st : Aggregator) (clientWs : WebSocket)
    (sessionId : string) (u : Unsubscribe) : Aggregator :=
  match clientSubscriptions st !! clientWs with
  | Some subs =>
      withClientSubscriptions st
        (<[clientWs := <[sessionId := u]> subs]> (clientSubscriptions st))
  | None => st
  end.

Definition ensureHistorySubscription (st : Aggregator) (sessionId : string)
  : Aggregator :=
  if negb (hasHistoryStore st) then st
  else if bool_decide (is_Some (historySubscriptions st !! sessionId)) then st
  else
    {| isHQMode := isHQMode st;
       hasRemoteRegistry := hasRemoteRegistry st;
       hasHistoryStore := hasHistoryStore st;
       remoteConnections := remoteConnections st;
       clientSubscriptions := clientSubscriptions st;
       historySubscriptions :=
         <[sessionId := nextToken st]> (historySubscriptions st);
       nextToken := S (nextToken st);
       trace := trace st ++ [HistoryStoreSubscribe sessionId (nextToken st)] |}.

Definition getTotalSubscribers (st : Aggregator) (sessionId : string) : nat :=
  length (filter (λ entry, is_Some (entry.2 !! sessionId))
            (map_to_list (clientSubscriptions st))).

Definition cleanupHistorySubscription (st : Aggregator) (sessionId : string)
  : Aggregator :=
  if negb (hasHistoryStore st) then st
  else if bool_decide (0 < getTotalSubscribers st sessionId)%nat then st
  else
    match historySubscriptions st !! sessionId with
    | Some token =>
        {| isHQMode := isHQMode st;
           hasRemoteRegistry := hasRemoteRegistry st;
           hasHistoryStore := hasHistoryStore st;
           remoteConnections := remoteConnections st;
           clientSubscriptions := clientSubscriptions st;
           historySubscriptions := delete sessionId (historySubscriptions st);
           nextToken := nextToken st;
           trace := trace st ++ [HistoryStoreUnsubscribe token] |}
    | None => st
    end.

Definition subscribeToLocalSession (st : Aggregator) (clientWs : WebSocket)
    (sessionId : string) (w : World) : Aggregator :=
  match clientSubscriptions st !! clientWs with
  | None => st
  | Some _ =>
      match localOutcome w with
      | SubscribeThrows =>
          emit st [Send clientWs (Error "Failed to subscribe to session")]
      | outcome =>
          let token := nextToken st in
          let st1 :=
            {| isHQMode := isHQMode st;
               hasRemoteRegistry := hasRemoteRegistry st;
               hasHistoryStore := hasHistoryStore st;
               remoteConnections := remoteConnections st;
               clientSubscriptions := clientSubscriptions st;
               historySubscriptions := historySubscriptions st;
               nextToken := S token;
               trace := trace st ++ [SubscribeToBufferChanges sessionId token] |} in
          let st2 :=
            setSubscription st1 clientWs sessionId (WatcherUnsubscribe token) in
          let st3 := ensureHistorySubscription st2 sessionId in
          match outcome with
          | SnapshotSent cached =>
              emit st3
                ((if clientOpen w
                  then [Send clientWs (InitialBuffer sessionId)] else [])
                 ++ (if hasHistoryStore st3 && cached && clientOpen w
                     then [Send clientWs (CachedHistoryChunk sessionId)]
                     else []))
          | _ =>
              emit st3 [Send clientWs (Error "Failed to subscribe to session")]
          end
      end
  end.

Definition subscribeToRemoteSession (st : Aggregator) (clientWs : WebSocket)
    (sessionId remoteId : string) (w : World) : Aggregator :=
  let usable :=
    match remoteConnections st !! remoteId with
    | Some remoteConn => remoteOpen remoteConn
    | None => false
    end in
  if negb usable && negb (connected w) then
    emit st [Send clientWs (Error "Failed to connect to remote server")]
  else
    let st1 :=
      if usable then st
      else withRemoteConnections st
             (<[remoteId := {| remoteOpen := true; subscriptions := [] |}]>
                (remoteConnections st)) in
    match remoteConnections st1 !! remoteId with
    | None => st1
    | Some remoteConn =>
        let subs :=
          if bool_decide (sessionId ∈ subscriptions remoteConn)
          then subscriptions remoteConn
          else subscriptions remoteConn ++ [sessionId] in
        let st2 :=
          withRemoteConnections st1
            (<[remoteId := {| remoteOpen := remoteOpen remoteConn;
                              subscriptions := subs |}]>
               (remoteConnections st1)) in
        setSubscription
          (emit st2 [SendRemote remoteId (SubscribeRequest sessionId)])
          clientWs sessionId RemoteNoop
    end.

(** [data.sessionId] when it is truthy. *)
Definition truthyId (data : ClientData) : option string :=
  match sessionId data with
  | Some "" | None => None
  | Some s => Some s
  end.

Definition handleUnsubscribe (st : Aggregator) (clientWs : WebSocket)
    (subs : gmap string Unsubscribe) (sessionId : string) (w : World)
  : Aggregator :=
  let st1 :=
    match subs !! sessionId with
    | Some u =>
        withClientSubscriptions (emit st [CallUnsubscribe u])
          (<[clientWs := delete sessionId subs]> (clientSubscriptions st))
    | None => st
    end in
  let st2 :=
    if isHQMode st1 && hasRemoteRegistry st1 then
      match remoteOf w sessionId with
      | Some remoteId =>
          match remoteConnections st1 !! remoteId with
          | Some remoteConn =>
              let st' :=
                withRemoteConnections st1
                  (<[remoteId :=
                       {| remoteOpen := remoteOpen remoteConn;
                          subscriptions :=
                            filter (λ s, s ≠ sessionId)
                              (subscriptions remoteConn) |}]>
                     (remoteConnections st1)) in
              if remoteOpen remoteConn
              then emit st' [SendRemote remoteId (UnsubscribeRequest sessionId)]
              else st'
          | None => st1
          end
      | None => st1
      end
    else st1 in
  cleanupHistorySubscription st2 sessionId.

(** [handleClientMessage(clientWs, data)]. *)
Definition handleClientMessage (st : Aggregator) (clientWs : WebSocket)
    (data : ClientData) (w : World) : Aggregator :=
  match clientSubscriptions st !! clientWs with
  | None => st
  | Some subs =>
      match truthyId data with
      | Some sessionId =>
          if String.eqb (type data) "subscribe" then
            if bool_decide (is_Some (subs !! sessionId)) then
              emit st [Send clientWs (Subscribed sessionId true)]
            else
              let isRemoteSession :=
                if isHQMode st && hasRemoteRegistry st
                then remoteOf w sessionId else None in
              let st1 :=
                match isRemoteSession with
                | Some remoteId =>
                    subscribeToRemoteSession st clientWs sessionId remoteId w
                | None => subscribeToLocalSession st clientWs sessionId w
                end in
              emit st1 [Send clientWs (Subscribed sessionId false)]
          else if String.eqb (type data) "unsubscribe" then
            handleUnsubscribe st clientWs subs sessionId w
          else if String.eqb (type data) "ping" then
            emit st [Send clientWs Pong]
          else st
      | None =>
          if String.eqb (type data) "ping" then emit st [Send clientWs Pong]
          else st
      end
  end.

(** [handleClientConnection(ws)]: an empty subscription map, and the
    welcome message (left out of the trace). *)
Definition handleClientConnection (st : Aggregator) (ws : WebSocket)
  : Aggregator :=
  withClientSubscriptions st (<[ws := ∅]> (clientSubscriptions st)).

Definition newAggregator (hq registry store : bool) : Aggregator :=
  {| isHQMode := hq;
     hasRemoteRegistry := registry;
     hasHistoryStore := store;
     remoteConnections := ∅;
     clientSubscriptions := ∅;
     historySubscriptions := ∅;
     nextToken := 0%nat;
     trace := [] |}.

Definition subscribeTo (sessionId : string) : ClientData :=
  {| type := "subscribe"; sessionId := Some sessionId |}.

(** The effects that create a subscription: one at the terminal manager's
    watcher, one at the history store, one at a remote server. *)
Definition createsSubscription (e : Effect) : bool :=
  match e with
  | SubscribeToBufferChanges _ _ => true
  | HistoryStoreSubscribe _ _ => true
  | SendRemote _ (SubscribeRequest _) => true
  | _ => false
  end.

(** *** Disconnection *)

(** [handleClientDisconnect(ws)]: the unsubscribe function of each
    subscription of the client is called and the history subscription of
    its session is reviewed, while the client is still in
    [clientSubscriptions] with its map as it was; then the client is
    removed.  The source visits the subscriptions in the order they were
    made; the statements on this function hold for every order. *)
Definition handleClientDisconnect (st : Aggregator) (ws : WebSocket)
  : Aggregator :=
  let st1 :=
    match clientSubscriptions st !! ws with
    | Some subs =>
        foldl (λ s entry,
                 cleanupHistorySubscription
                   (emit s [CallUnsubscribe entry.2]) entry.1)
              st (map_to_list subs)
    | None => st
    end in
  withClientSubscriptions st1 (delete ws (clientSubscriptions st1)).

(** What the sockets of the clients bring: a connection, a message that
    parsed, a close. *)
Inductive SocketEvent : Type :=
  | Connection (ws : WebSocket)
  | ClientMessage (ws : WebSocket) (data : ClientData) (w : World)
  | Close (ws : WebSocket).

Definition on (st : Aggregator) (e : SocketEvent) : Aggregator :=
  match e with
  | Connection ws => handleClientConnection st ws
  | ClientMessage ws data w => handleClientMessage st ws data w
  | Close ws => handleClientDisconnect st ws
  end.

Definition unsubscribeFrom (sessionId : string) : ClientData :=
  {| type := "unsubscribe"; sessionId := Some sessionId |}.

(** Some client other than [ws] holds a subscription to [sessionId]. *)
Definition heldByAnother (st : Aggregator) (ws : WebSocket)
    (sessionId : string) : Prop :=
  ∃ ws' subs', ws' ≠ ws ∧ clientSubscriptions st !! ws' = Some subs'
               ∧ is_Some (subs' !! sessionId).

(** Some client holds a subscription to [sessionId]. *)
Definition held (st : Aggregator) (sessionId : string) : Prop :=
  ∃ ws subs, clientSubscriptions st !! ws = Some subs
             ∧ is_Some (subs !! sessionId).

(** With a history store, the session of every subscription made at the
    terminal manager has a subscription at the store. *)
Definition historyFollowed (st : Aggregator) : Prop :=
  hasHistoryStore st = true
  ∧ ∀ ws subs sessionId token,
      clientSubscriptions st !! ws = Some subs →
      subs !! sessionId = Some (WatcherUnsubscribe token) →
      is_Some (historySubscriptions st !! sessionId).

(** The listeners the calls of a trace leave at the history store for
    the event of [sessionId]: [historyStore.subscribe] registers the
    listener with [emitter.on], and the function it returns, which a
    [HistoryStoreUnsubscribe] calls, removes it with [emitter.off].  A
    listener is named by the token of the call that registered it. *)
Definition listenerStep (sessionId : string) (active : list nat)
    (e : Effect) : list nat :=
  match e with
  | HistoryStoreSubscribe s token =>
      if String.eqb s sessionId then active ++ [token] else active
  | HistoryStoreUnsubscribe token => filter (λ t, t ≠ token) active
  | _ => active
  end.

Definition historyListeners (effects : list Effect) (sessionId : string)
  : list nat :=
  foldl (listenerStep sessionId) [] effects.

Definition touchesHistory (e : Effect) : bool :=
  match e with
  | HistoryStoreSubscribe _ _ | HistoryStoreUnsubscribe _ => true
  | _ => false
  end.

(** The listener of a session, as [historySubscriptions] records it. *)
Definition recorded (st : Aggregator) (sessionId : string) : list nat :=
  match historySubscriptions st !! sessionId with
  | Some token => [token]
  | None => []
  end.

(** The tokens of [historySubscriptions] are used, differ from session to
    session, and name the listeners the store holds. *)
Record listenersRecorded (st : Aggregator) : Prop := {
  tokens_used :
    ∀ s token, historySubscriptions st !! s = Some token →
               (token < nextToken st)%nat;
  tokens_differ :
    ∀ s s' token, historySubscriptions st !! s = Some token →
                  historySubscriptions st !! s' = Some token → s = s';
  listeners_recorded :
    ∀ s, historyListeners (trace st) s = recorded st s
}.

(** [st'] is [st] after calls that leave the history store alone. *)
Definition quiet (st st' : Aggregator) : Prop :=
  historySubscriptions st' = historySubscriptions st
  ∧ hasHistoryStore st' = hasHistoryStore st
  ∧ (nextToken st ≤ nextToken st')%nat
  ∧ ∃ es, trace st' = trace st ++ es
          ∧ Forall (λ e, touchesHistory e = false) es.

(** The examples of the instances. *)
Definition localWorld : World :=
  {| remoteOf := λ _, None;
     localOutcome := SnapshotSent false;
     connected := false;
     clientOpen := true |}.

Definition oneSubscriber : Aggregator :=
  foldl on (newAggregator false false true)
    [Connection 7%nat; ClientMessage 7%nat (subscribeTo "s") localWorld].

End BufferAggregator.

(** ** Snapshot encoder (workers/tasks/encode-snapshot.ts) *)

Module Encoder.

Record BufferCell : Type := {
  char : string;
  width : Z;
  fg : option Z;
  bg : option Z;
  attributes : option Z
}.

Record Snapshot : Type := {
  cols : Z;
  rows : Z;
  viewportY : Z;
  cursorX : Z;
  cursorY : Z;
  cells : list (list BufferCell)
}.

Definition MAGIC_HEADER : Z := 0x5654.

(** *** Node's [Buffer]

    A buffer is the list of its bytes.  A write outside the buffer, or of
    a value outside the range of its type, throws a [RangeError]: [None].
    [copy] never throws: it copies what fits. *)
Definition Buffer : Type := list Z.

(** [Buffer.allocUnsafe(size)]; the bytes are whatever the memory held and
    every byte of a returned frame is written before it is read. *)
Definition allocUnsafe (size : Z) : Buffer := replicate (Z.to_nat size) 0.

(** The bytes [bytes] stored from [offset] on, when they fit. *)
Definition store (buffer : Buffer) (bytes : list Z) (offset : Z)
  : option Buffer :=
  if (0 <=? offset)
     && (offset + Z.of_nat (length bytes) <=? Z.of_nat (length buffer))
  then Some (take (Z.to_nat offset) buffer ++ bytes
             ++ drop (Z.to_nat offset + length bytes) buffer)
  else None.

Definition between (lo value hi : Z) : bool := (lo <=? value) && (value <=? hi).

Definition byte (value : Z) (i : Z) : Z := (value / 256 ^ i) mod 256.

Definition writeUInt8 (buffer : Buffer) (value offset : Z) : option Buffer :=
  if between 0 value 255 then store buffer [value] offset else None.

Definition writeUInt16LE (buffer : Buffer) (value offset : Z)
  : option Buffer :=
  if between 0 value 65535
  then store buffer [byte value 0; byte value 1] offset
  else None.

Definition writeUInt32LE (buffer : Buffer) (value offset : Z)
  : option Buffer :=
  if between 0 value 4294967295
  then store buffer [byte value 0; byte value 1; byte value 2; byte value 3]
         offset
  else None.

(** Two's complement. *)
Definition writeInt32LE (buffer : Buffer) (value offset : Z)
  : option Buffer :=
  if between (-2147483648) value 2147483647
  then store buffer [byte value 0; byte value 1; byte value 2; byte value 3]
         offset
  else None.

(** [source.copy(target, targetStart)] for [targetStart >= 0]. *)
Definition copy (source : list Z) (target : Buffer) (targetStart : Z)
  : Buffer :=
  if Z.of_nat (length target) <=? targetStart then target
  else
    let room := (length target - Z.to_nat targetStart)%nat in
    let copied := take room source in
    take (Z.to_nat targetStart) target ++ copied
    ++ drop (Z.to_nat targetStart + length copied) target.

(** [buffer.subarray(0, end)]. *)
Definition subarray (buffer : Buffer) (end_ : Z) : Buffer :=
  take (Z.to_nat end_) buffer.

(** *** Strings

    [Buffer.from(s, 'utf8')]: the bytes of the string. *)
Fixpoint utf8 (s : string) : list Z :=
  match s with
  | EmptyString => []
  | String c rest => Z.of_nat (nat_of_ascii c) :: utf8 rest
  end.

(** [s.charCodeAt(0)], [None] for [NaN]: the first byte of an ASCII
    character is its code, and the first byte of any other character is
    above 127, as its code is. *)
Definition charCodeAt0 (s : string) : option Z :=
  match s with
  | EmptyString => None
  | String c _ => Some (Z.of_nat (nat_of_ascii c))
  end.

(** *** The fingerprint of a row *)

Definition orEmpty (field : option Z) : string :=
  match field with
  | Some n => pretty n
  | None => ""
  end.

Definition hashCell (cell : BufferCell) : string :=
  char cell +:+ ":" +:+ pretty (width cell) +:+ ":" +:+ orEmpty (fg cell)
  +:+ ":" +:+ orEmpty (bg cell) +:+ ":" +:+ orEmpty (attributes cell).

Definition hashRow (row : list BufferCell) : string :=
  match row with
  | [] => "EMPTY"
  | _ => String.concat "|" (hashCell <$> row)
  end.

(** *** Sizes *)

(** A number field that is set and not zero. *)
Definition truthy (field : option Z) : bool :=
  match field with
  | Some n => negb (n =? 0)
  | None => false
  end.

Definition isSpace (cell : BufferCell) : bool := String.eqb (char cell) " ".
Definition hasAttrs (cell : BufferCell) : bool := truthy (attributes cell).
Definition hasFg (cell : BufferCell) : bool := bool_decide (is_Some (fg cell)).
Definition hasBg (cell : BufferCell) : bool := bool_decide (is_Some (bg cell)).
Definition isAscii (cell : BufferCell) : bool :=
  match charCodeAt0 (char cell) with
  | Some code => code <=? 127
  | None => false
  end.

Definition colorSize (color : option Z) : Z :=
  match color with
  | Some c => if 255 <? c then 3 else 1
  | None => 0
  end.

Definition calculateCellSize (cell : BufferCell) : Z :=
  if isSpace cell && negb (hasAttrs cell) && negb (hasFg cell)
     && negb (hasBg cell)
  then 1
  else
    let size := 1 in
    let size :=
      if isAscii cell then size + 1
      else size + (1 + Z.of_nat (String.length (char cell))) in
    if hasAttrs cell || hasFg cell || hasBg cell
    then size + 1 + colorSize (fg cell) + colorSize (bg cell)
    else size.

(** The test both [calculateRowSize] and [encodeRow] start with. *)
Definition isBlankRow (rowCells : list BufferCell) : bool :=
  match rowCells with
  | [] => true
  | [cell] =>
      isSpace cell && negb (truthy (fg cell)) && negb (truthy (bg cell))
      && negb (truthy (attributes cell))
  | _ => false
  end.

Definition calculateRowSize (rowCells : list BufferCell) : Z :=
  if isBlankRow rowCells then 2
  else foldl (λ size cell, size + calculateCellSize cell) 3 rowCells.

(** *** Writing *)

(** A write that moves the offset on: the buffer and the offset before,
    the buffer and the offset after. *)
Definition Write : Type := Buffer * Z → option (Buffer * Z).

Definition putUInt8 (value : Z) : Write :=
  λ '(buffer, offset),
    buffer' ← writeUInt8 buffer value offset; Some (buffer', offset + 1).

Definition putUInt16LE (value : Z) : Write :=
  λ '(buffer, offset),
    buffer' ← writeUInt16LE buffer value offset; Some (buffer', offset + 2).

Definition putUInt32LE (value : Z) : Write :=
  λ '(buffer, offset),
    buffer' ← writeUInt32LE buffer value offset; Some (buffer', offset + 4).

Definition putInt32LE (value : Z) : Write :=
  λ '(buffer, offset),
    buffer' ← writeInt32LE buffer value offset; Some (buffer', offset + 4).

Definition putCopy (bytes : list Z) : Write :=
  λ '(buffer, offset),
    Some (copy bytes buffer offset, offset + Z.of_nat (length bytes)).

Definition skip : Write := Some.

Definition andThen (first second : Write) : Write :=
  λ st, first st ≫= second.

Infix ">>" := andThen (at level 61, left associativity).

Definition putColor (color : option Z) : Write :=
  match color with
  | Some c =>
      if 255 <? c then putUInt8 0xff >> putUInt16LE c else putUInt8 c
  | None => skip
  end.

(** The body of [for (const cell of rowCells)] in [encodeRow]. *)
Definition encodeCell (cell : BufferCell) : Write :=
  if isSpace cell && negb (hasAttrs cell) && negb (hasFg cell)
     && negb (hasBg cell)
  then putUInt8 0x00
  else
    putUInt8 0x01
    >> (if isAscii cell
        then putUInt8 (default 0 (charCodeAt0 (char cell)))
        else putUInt8 (Z.of_nat (length (utf8 (char cell))))
             >> putCopy (utf8 (char cell)))
    >> (if hasAttrs cell || hasFg cell || hasBg cell
        then
          putUInt8 ((if hasAttrs cell then 1 else 0)
                    + (if hasFg cell then 2 else 0)
                    + (if hasBg cell then 4 else 0))
          >> (if hasAttrs cell
              then putUInt8 (default 0 (attributes cell)) else skip)
          >> putColor (fg cell)
          >> putColor (bg cell)
        else skip).

Definition encodeCells (rowCells : list BufferCell) : Write :=
  foldr (λ cell rest, encodeCell cell >> rest) skip rowCells.

(** [encodeRow(buffer, offset, rowCells)], returning the buffer as written
    and the new offset. *)
Definition encodeRow (rowCells : list BufferCell) : Write :=
  if isBlankRow rowCells then putUInt8 0x00 >> putUInt8 0x00
  else
    putUInt8 0x01
    >> putUInt16LE (Z.of_nat (length rowCells))
    >> encodeCells rowCells.

(** *** Full frame or diff *)

(** The rows of [cells] with their index. *)
Definition indexed (cells : list (list BufferCell))
  : list (Z * list BufferCell) :=
  imap (λ i row, (Z.of_nat i, row)) cells.

(** The loop that fills [changedRows]: the rows whose fingerprint is not
    the one the previous snapshot has at their index. *)
Definition changedRowsOf (previousCells cells : list (list BufferCell))
  : list (Z * list BufferCell) :=
  List.filter
    (λ '(i, row),
       negb (bool_decide
               ((hashRow <$> previousCells) !! Z.to_nat i = Some (hashRow row))))
    (indexed cells).

Definition sameGeometry (snapshot previousSnapshot : Snapshot) : bool :=
  (cols previousSnapshot =? cols snapshot)
  && (rows previousSnapshot =? rows snapshot)
  && (viewportY previousSnapshot =? viewportY snapshot).

(** The first part of [encodeSnapshot]: [useDiff] and [changedRows]. *)
Definition chooseRows (snapshot : Snapshot)
    (previousSnapshot : option Snapshot)
  : bool * list (Z * list BufferCell) :=
  match previousSnapshot with
  | Some previous =>
      if sameGeometry snapshot previous then
        let changedRows := changedRowsOf (cells previous) (cells snapshot) in
        if (0 <? Z.of_nat (length changedRows))
           && (Z.of_nat (length changedRows)
               <? Z.of_nat (length (cells snapshot)))
        then (true, changedRows)
        else (false, [])
      else (false, [])
  | None => (false, [])
  end.

(** The header both branches write. *)
Definition encodeHeader (flags : Z) (snapshot : Snapshot) : Write :=
  putUInt16LE MAGIC_HEADER
  >> putUInt8 0x01
  >> putUInt8 flags
  >> putUInt32LE (cols snapshot)
  >> putUInt32LE (rows snapshot)
  >> putInt32LE (viewportY snapshot)
  >> putInt32LE (cursorX snapshot)
  >> putInt32LE (cursorY snapshot)
  >> putUInt32LE 0.

Definition encodeChangedRows (changedRows : list (Z * list BufferCell))
  : Write :=
  foldr (λ '(index, row) rest, putUInt16LE index >> encodeRow row >> rest)
    skip changedRows.

Definition encodeRows (cells : list (list BufferCell)) : Write :=
  foldr (λ rowCells rest, encodeRow rowCells >> rest) skip cells.

(** The size [encodeSnapshot] allocates. *)
Definition dataSize (snapshot : Snapshot)
    (previousSnapshot : option Snapshot) : Z :=
  let '(useDiff, changedRows) := chooseRows snapshot previousSnapshot in
  if useDiff && (0 <? Z.of_nat (length changedRows)) then
    foldl (λ size '(_, row), size + 2 + calculateRowSize row) (32 + 2)
      changedRows
  else
    foldl (λ size rowCells, size + calculateRowSize rowCells) 32
      (cells snapshot).

(** [encodeSnapshot(snapshot, previousSnapshot)]: the frame and [usedDiff],
    or [None] when a write throws. *)
Definition encodeSnapshot (snapshot : Snapshot)
    (previousSnapshot : option Snapshot) : option (Buffer * bool) :=
  let '(useDiff, changedRows) := chooseRows snapshot previousSnapshot in
  let flags := if useDiff then 0x01 else 0x00 in
  let buffer := allocUnsafe (dataSize snapshot previousSnapshot) in
  let body :=
    if useDiff && (0 <? Z.of_nat (length changedRows)) then
      putUInt16LE (Z.of_nat (length changedRows))
      >> encodeChangedRows changedRows
    else encodeRows (cells snapshot) in
  '(buffer', offset) ← (encodeHeader flags snapshot >> body) (buffer, 0);
  Some (subarray buffer' offset, useDiff).

(** *** The layout of a frame, as the format describes it *)

Definition u16 (value : Z) : list Z := [byte value 0; byte value 1].

Definition u32 (value : Z) : list Z :=
  [byte value 0; byte value 1; byte value 2; byte value 3].

(** A colour: a palette index in one byte, or [0xff] and 16 bits. *)
Definition colorBytes (color : option Z) : list Z :=
  match color with
  | Some c => if 255 <? c then 0xff :: u16 c else [c]
  | None => []
  end.

(** The record of a cell. *)
Definition cellBytes (cell : BufferCell) : list Z :=
  if isSpace cell && negb (hasAttrs cell) && negb (hasFg cell)
     && negb (hasBg cell)
  then [0x00]
  else
    [0x01]
    ++ (if isAscii cell then [default 0 (charCodeAt0 (char cell))]
        else Z.of_nat (length (utf8 (char cell))) :: utf8 (char cell))
    ++ (if hasAttrs cell || hasFg cell || hasBg cell
        then
          [(if hasAttrs cell then 1 else 0)
           + (if hasFg cell then 2 else 0)
           + (if hasBg cell then 4 else 0)]
          ++ (if hasAttrs cell then [default 0 (attributes cell)] else [])
          ++ colorBytes (fg cell)
          ++ colorBytes (bg cell)
        else []).

(** The record of a row. *)
Definition rowBytes (rowCells : list BufferCell) : list Z :=
  if isBlankRow rowCells then [0x00; 0x00]
  else [0x01] ++ u16 (Z.of_nat (length rowCells))
       ++ concat (cellBytes <$> rowCells).

(** The header: magic, version, flags, cols, rows, viewportY, cursorX,
    cursorY, reserved. *)
Definition headerBytes (flags : Z) (snapshot : Snapshot) : list Z :=
  u16 MAGIC_HEADER ++ [0x01] ++ [flags]
  ++ u32 (cols snapshot) ++ u32 (rows snapshot)
  ++ u32 (viewportY snapshot) ++ u32 (cursorX snapshot)
  ++ u32 (cursorY snapshot) ++ u32 0.

Definition fullBody (cells : list (list BufferCell)) : list Z :=
  concat (rowBytes <$> cells).

Definition diffBody (changedRows : list (Z * list BufferCell)) : list Z :=
  u16 (Z.of_nat (length changedRows))
  ++ concat ((λ '(index, row), u16 index ++ rowBytes row) <$> changedRows).

(** A full frame and a diff frame. *)
Definition fullFrame (snapshot : Snapshot) : list Z :=
  headerBytes 0x00 snapshot ++ fullBody (cells snapshot).

Definition diffFrame (snapshot : Snapshot)
    (changedRows : list (Z * list BufferCell)) : list Z :=
  headerBytes 0x01 snapshot ++ diffBody changedRows.

(** Everything [encodeSnapshot] writes, in the order it writes it. *)
Definition frameBytes (snapshot : Snapshot)
    (previousSnapshot : option Snapshot) : list Z :=
  let '(useDiff, changedRows) := chooseRows snapshot previousSnapshot in
  if useDiff then diffFrame snapshot changedRows else fullFrame snapshot.

(** What is written so far agrees with the buffer: [written] is as long
    as the offset, and the buffer holds it up to its end. *)
Definition agrees (buffer : Buffer) (offset : Z) (written : list Z) : Prop :=
  offset = Z.of_nat (length written)
  ∧ take (length buffer) written = take (length written) buffer.

(** Whenever the write returns, it has written [bytes]. *)
Definition emits (w : Write) (bytes : list Z) : Prop :=
  ∀ buffer offset buffer' offset' written,
    w (buffer, offset) = Some (buffer', offset') →
    agrees buffer offset written →
    agrees buffer' offset' (written ++ bytes)
    ∧ length buffer' = length buffer.

(** The write returns whenever [bytes] fit behind the offset. *)
Definition fitsIn (w : Write) (bytes : list Z) : Prop :=
  ∀ buffer offset written,
    agrees buffer offset written →
    offset + Z.of_nat (length bytes) ≤ Z.of_nat (length buffer) →
    is_Some (w (buffer, offset)).

(** Cells, rows and snapshots whose numbers are in the range of the field
    that carries them. *)
Definition colorInRange (color : option Z) : Prop :=
  match color with
  | Some c => 0 ≤ c ≤ 65535
  | None => True
  end.

Definition cellInRange (cell : BufferCell) : Prop :=
  (String.length (char cell) ≤ 255)%nat
  ∧ colorInRange (fg cell) ∧ colorInRange (bg cell)
  ∧ match attributes cell with
    | Some a => 0 ≤ a ≤ 255
    | None => True
    end.

Definition rowInRange (rowCells : list BufferCell) : Prop :=
  Z.of_nat (length rowCells) ≤ 65535 ∧ Forall cellInRange rowCells.

Definition snapshotInRange (snapshot : Snapshot) : Prop :=
  0 ≤ cols snapshot ≤ 4294967295
  ∧ 0 ≤ rows snapshot ≤ 4294967295
  ∧ -2147483648 ≤ viewportY snapshot ≤ 2147483647
  ∧ -2147483648 ≤ cursorX snapshot ≤ 2147483647
  ∧ -2147483648 ≤ cursorY snapshot ≤ 2147483647
  ∧ Z.of_nat (length (cells snapshot)) ≤ 65535
  ∧ Forall rowInRange (cells snapshot).

(** No cell of the snapshot carries a non-zero attributes value. *)
Definition noAttributes (snapshot : Snapshot) : Prop :=
  Forall (Forall (λ cell, hasAttrs cell = false)) (cells snapshot).

(** The cells of a row that carry attributes. *)
Definition attributed (rowCells : list BufferCell) : Z :=
  Z.of_nat (length (List.filter hasAttrs rowCells)).





(** The fingerprint of row [i] is not the same in both snapshots. *)
Definition fingerprintChanged (snapshot previous : Snapshot) (i : nat)
  : bool :=
  negb (bool_decide (hashRow <$> cells previous !! i
                     = hashRow <$> cells snapshot !! i)).


(** The flag byte of a frame. *)
Definition flagsOf (usedDiff : bool) : Z := if usedDiff then 0x01 else 0x00.

(** *** Examples *)

Definition boldA : BufferCell :=
  {| char := "a"; width := 1; fg := None; bg := None;
     attributes := Some 1 |}.

(** One row of five bold cells. *)
Definition fiveBold : Snapshot :=
  {| cols := 5; rows := 1; viewportY := 0; cursorX := 0; cursorY := 0;
     cells := [[boldA; boldA; boldA; boldA; boldA]] |}.

(** One empty row. *)
Definition oneEmptyRow : Snapshot :=
  {| cols := 1; rows := 1; viewportY := 0; cursorX := 0; cursorY := 0;
     cells := [[]] |}.

Definition plain (c : string) : BufferCell :=
  {| char := c; width := 1; fg := None; bg := None; attributes := None |}.

(** Two rows, and the same two rows with the second one changed. *)
Definition before : Snapshot :=
  {| cols := 2; rows := 2; viewportY := 0; cursorX := 0; cursorY := 0;
     cells := [[plain "a"; plain "b"]; [plain "c"; plain "d"]] |}.

Definition after : Snapshot :=
  {| cols := 2; rows := 2; viewportY := 0; cursorX := 1; cursorY := 1;
     cells := [[plain "a"; plain "b"]; [plain "c"; plain "e"]] |}.

(** *** The rows a frame carries, and the bytes the size leaves out *)

(** The rows [encodeSnapshot] passes to [encodeRow]: the changed rows of
    a diff, every row of the snapshot otherwise. *)
Definition encodedRows (snapshot : Snapshot)
    (previousSnapshot : option Snapshot) : list (list BufferCell) :=
  let '(useDiff, changedRows) := chooseRows snapshot previousSnapshot in
  if useDiff then changedRows.*2 else cells snapshot.

(** The cells of these rows that carry attributes. *)
Definition attributedCells (rows : list (list BufferCell)) : Z :=
  foldr (λ rowCells n, attributed rowCells + n) 0 rows.

(** The five numbers of the header are in the range of their fields. *)
Definition headerInRange (snapshot : Snapshot) : Prop :=
  0 ≤ cols snapshot ≤ 4294967295
  ∧ 0 ≤ rows snapshot ≤ 4294967295
  ∧ -2147483648 ≤ viewportY snapshot ≤ 2147483647
  ∧ -2147483648 ≤ cursorX snapshot ≤ 2147483647
  ∧ -2147483648 ≤ cursorY snapshot ≤ 2147483647.

(** One row of four bold cells, and a snapshot without rows. *)
Definition fourBold : Snapshot :=
  {| cols := 4; rows := 1; viewportY := 0; cursorX := 0; cursorY := 0;
     cells := [[boldA; boldA; boldA; boldA]] |}.

Definition noRows : Snapshot :=
  {| cols := 80; rows := 0; viewportY := 0; cursorX := 0; cursorY := 0;
     cells := [] |}.

End Encoder.

(** ** Buffer aggregator: the binary frames (services/buffer-aggregator.ts) *)

Module BufferFrames.
Import Encoder.

(** The frame [subscribeToLocalSession] sends for the encoded snapshot
    [buffer] of [sessionId]; the callback of [subscribeToBufferChanges]
    and the initial buffer are built alike.  [None] when a write throws. *)
Definition fullBuffer (sessionId : string) (buffer : Buffer)
  : option Buffer :=
  let sessionIdBuffer := utf8 sessionId in
  let totalLength :=
    1 + 4 + Z.of_nat (length sessionIdBuffer) + Z.of_nat (length buffer) in
  fst <$> (putUInt8 0xbf
           >> putUInt32LE (Z.of_nat (length sessionIdBuffer))
           >> putCopy sessionIdBuffer
           >> putCopy buffer) (allocUnsafe totalLength, 0).

(** [buffer.readUInt32LE(offset)]; a read outside the buffer throws. *)
Definition readUInt32LE (buffer : Buffer) (offset : Z) : option Z :=
  if (0 <=? offset) && (offset + 4 <=? Z.of_nat (length buffer)) then
    match drop (Z.to_nat offset) buffer with
    | b0 :: b1 :: b2 :: b3 :: _ =>
        Some (b0 + b1 * 2 ^ 8 + b2 * 2 ^ 16 + b3 * 2 ^ 24)
    | _ => None
    end
  else None.

(** [bytes.toString('utf8')] for bytes that encode a string, the inverse
    of [utf8]. *)
Fixpoint fromUtf8 (bytes : list Z) : string :=
  match bytes with
  | [] => EmptyString
  | b :: rest => String (ascii_of_nat (Z.to_nat b)) (fromUtf8 rest)
  end.

(** [buffer.subarray(start, end)] for [0 <= start <= end]. *)
Definition slice (buffer : Buffer) (start end_ : Z) : Buffer :=
  take (Z.to_nat end_ - Z.to_nat start) (drop (Z.to_nat start) buffer).

(** The session id [forwardBufferToClients] extracts, when it goes on. *)
Definition sessionIdOf (buffer : Buffer) : option string :=
  if Z.of_nat (length buffer) <? 5 then None
  else
    sessionIdLength ← readUInt32LE buffer 1;
    if Z.of_nat (length buffer) <? 5 + sessionIdLength then None
    else Some (fromUtf8 (slice buffer 5 (5 + sessionIdLength))).

(** [forwardBufferToClients(buffer)]: the sockets the buffer is sent to.
    [isOpen ws] is [ws.readyState === WebSocket.OPEN]. *)
Definition forwardBufferToClients
    (clientSubscriptions :
       gmap BufferAggregator.WebSocket
         (gmap string BufferAggregator.Unsubscribe))
    (isOpen : BufferAggregator.WebSocket → bool) (buffer : Buffer)
  : list (BufferAggregator.WebSocket * Buffer) :=
  match sessionIdOf buffer with
  | None => []
  | Some sessionId =>
      (λ entry, (entry.1, buffer))
      <$> filter (λ entry, is_Some (entry.2 !! sessionId)
                            ∧ isOpen entry.1 = true)
            (map_to_list clientSubscriptions)
  end.

(** [handleRemoteMessage(remoteId, data)]: a message that begins with
    [0xbf] is forwarded; any other is parsed and logged. *)
Definition handleRemoteMessage
    (clientSubscriptions :
       gmap BufferAggregator.WebSocket
         (gmap string BufferAggregator.Unsubscribe))
    (isOpen : BufferAggregator.WebSocket → bool) (data : Buffer)
  : list (BufferAggregator.WebSocket * Buffer) :=
  match data with
  | 0xbf :: _ => forwardBufferToClients clientSubscriptions isOpen data
  | _ => []
  end.

(** The bytes of the frame. *)
Definition fullBufferBytes (sessionId : string) (buffer : Buffer)
  : list Z :=
  [0xbf] ++ u32 (Z.of_nat (String.length sessionId)) ++ utf8 sessionId
  ++ buffer.

End BufferFrames.

(** ** History chunk builder: classification of the events *)

Section HistoryChunkFacts.
Import HistoryChunk.

Lemma exit_not_replayed event :
  isExitEvent event = true → replayed event = false.
Proof. by destruct event. Qed.

Lemma replayed_not_exit event :
  replayed event = true → isExitEvent event = false.
Proof. by destruct event. Qed.

Lemma input_not_replayed event :
  isInputEvent event = true → replayed event = false.
Proof.
  destruct event as [t k d|]; [|done]. unfold replayed; simpl.
  intros ->%String.eqb_eq. done.
Qed.

Lemma normalized_kind event :
  isOutputEvent (normalizedEvent event) = isOutputEvent event
  ∧ isResizeEvent (normalizedEvent event) = isResizeEvent event
  ∧ isInputEvent (normalizedEvent event) = isInputEvent event
  ∧ isExitEvent (normalizedEvent event) = isExitEvent event.
Proof. by destruct event. Qed.

(** What the loop computes from any starting state. *)
Lemma loop_spec (range : list AsciinemaEvent) : ∀ st,
  foldl loopBody st range =
    {| chunkEvents :=
         chunkEvents st ++ (normalizedEvent <$> List.filter replayed range);
       outputCount :=
         outputCount st + Z.of_nat (length (List.filter isOutputEvent range));
       lastExit :=
         match final (List.filter isExitEvent range) with
         | Some e => Some e
         | None => lastExit st
         end |}.
Proof.
  induction range as [|event range IH]; intros [evs n ex]; simpl.
  - unfold final; simpl. by rewrite app_nil_r, Z.add_0_r.
  - rewrite IH. unfold loopBody, replayed.
    destruct event as [t k d|c s]; simpl.
    + destruct (String.eqb k "o") eqn:Ho; simpl.
      * f_equal; [by rewrite <- app_assoc | lia].
      * destruct (String.eqb k "r") eqn:Hr; simpl; [|done].
        f_equal. by rewrite <- app_assoc.
    + f_equal. unfold final.
      destruct (List.filter isExitEvent range) as [|e es] eqn:Hf; [done|].
      simpl. rewrite last_cons.
      by destruct (list.last es).
Qed.

Lemma build_body p :
  chunkBody (buildHistoryChunk p) =
    normalizedEvent <$>
      List.filter replayed (from_index (p_events p) (sendStartIndex p)).
Proof.
  unfold chunkBody, buildHistoryChunk. rewrite loop_spec. simpl.
  destruct (List.filter replayed _) as [|e es]; simpl; [done|].
  replace (0 <? Z.of_nat (S (length (normalizedEvent <$> es)))) with true
    by (symmetry; apply Z.ltb_lt; lia).
  done.
Qed.

(** C5, as stated, fails: "every exit event is returned in the result's
    exitEvent field".  The field holds one event; of the two exit events of
    [twoExits] the first is in the range, is an exit event, and is not the
    one returned. *)
Lemma buildHistoryChunk_first_exit_lost :
  ¬ (∀ p event,
       event ∈ from_index (p_events p) (sendStartIndex p) →
       isExitEvent event = true →
       exitEvent (buildHistoryChunk p) = Some event).
Proof.
  intros H. specialize (H twoExits (Exit 0 "s")).
  assert (exitEvent (buildHistoryChunk twoExits) = Some (Exit 1 "s")) as E
    by reflexivity.
  rewrite E in H.
  assert (Some (Exit 1 "s") = Some (Exit 0 "s")) as Habs.
  { apply H; [|done]. unfold twoExits, from_index; simpl.
    apply list_elem_of_In. simpl. tauto. }
  discriminate Habs.
Qed.

(** C5 (amended): [buildHistoryChunk] walks the events from [sendStartIndex]
    to the end of the slice.  The last exit event of that range (null when
    it has none) is returned in [exitEvent], and no exit event is in the
    chunk's events; the chunk's events are exactly the output and resize
    events of the range, in order, each with its timestamp replaced by 0;
    no input event is among them; [chunkOutputEvents] counts the output
    events copied; and the payload is null exactly when the range has no
    output or resize event, so a payload never has an empty events array. *)
Theorem buildHistoryChunk_classification (p : HistoryChunkTaskPayload) :
  let range := from_index (p_events p) (sendStartIndex p) in
  let r := buildHistoryChunk p in
  exitEvent r = final (List.filter isExitEvent range)
  ∧ Forall (λ e, isExitEvent e = false) (chunkBody r)
  ∧ chunkBody r = normalizedEvent <$> List.filter replayed range
  ∧ Forall (λ e, isInputEvent e = false) (chunkBody r)
  ∧ r_chunkOutputEvents r
      = Z.of_nat (length (List.filter isOutputEvent range))
  ∧ r_chunkOutputEvents r
      = Z.of_nat (length (List.filter isOutputEvent (chunkBody r)))
  ∧ (payload r = None ↔ List.filter replayed range = [])
  ∧ (∀ c, payload r = Some c →
       events c ≠ [] ∧ chunkOutputEvents c = r_chunkOutputEvents r).
Proof.
  intros range r.
  pose proof (build_body p) as Hbody. fold range r in Hbody.
  assert (foldl loopBody
            {| chunkEvents := []; outputCount := 0; lastExit := None |} range
          = {| chunkEvents := normalizedEvent <$> List.filter replayed range;
               outputCount :=
                 Z.of_nat (length (List.filter isOutputEvent range));
               lastExit := final (List.filter isExitEvent range) |}) as Hloop.
  { rewrite loop_spec. simpl. f_equal.
    by destruct (final (List.filter isExitEvent range)). }
  assert (r = buildHistoryChunk p) as Hr by done.
  unfold buildHistoryChunk in Hr. fold range in Hr. rewrite Hloop in Hr.
  simpl in Hr. clearbody r range. clear Hloop.
  assert (∀ e, e ∈ chunkBody r → replayed e = true) as Hkept.
  { intros e. rewrite Hbody. intros (e0 & -> & Hin)%list_elem_of_fmap.
    apply list_elem_of_In, filter_In in Hin as [_ Hk].
    unfold replayed in *. destruct (normalized_kind e0) as (-> & -> & _).
    done. }
  assert (payload r = None ↔ List.filter replayed range = []) as Hnull.
  { rewrite Hr. simpl.
    destruct (List.filter replayed range) as [|e es]; simpl; [done|].
    replace (0 <? Z.of_nat (S (length (normalizedEvent <$> es)))) with true
      by (symmetry; apply Z.ltb_lt; lia).
    done. }
  split_and!.
  - by rewrite Hr.
  - apply list.Forall_forall. intros e He. by apply replayed_not_exit, Hkept.
  - done.
  - apply list.Forall_forall. intros e He. apply Hkept in He.
    destruct (isInputEvent e) eqn:Hi; [|done].
    apply input_not_replayed in Hi. congruence.
  - by rewrite Hr.
  - rewrite Hbody. rewrite Hr at 1. simpl. f_equal.
    clear. induction range as [|e l IH]; [done|]. simpl.
    unfold replayed at 1.
    destruct e as [t k d|]; simpl; [|done].
    destruct (String.eqb k "o") eqn:Ho; simpl.
    + rewrite Ho. simpl. by rewrite IH.
    + destruct (String.eqb k "r"); simpl; [rewrite Ho|]; done.
  - done.
  - intros c Hc. split.
    + assert (chunkBody r = events c) as <- by (unfold chunkBody; by rewrite Hc).
      rewrite Hbody. intros Hnil. apply fmap_nil_inv in Hnil.
      apply Hnull in Hnil. congruence.
    + rewrite Hr in Hc |- *. simpl in *.
      destruct (0 <? _); [|done]. by injection Hc as <-.
Qed.

(** An instance of [buildHistoryChunk_classification]: of the two exit
    events of [twoExits] the last is returned, and the chunk holds the
    output event alone, at time 0. *)
Lemma buildHistoryChunk_classification_witness :
  exitEvent (buildHistoryChunk twoExits) = Some (Exit 1 "s")
  ∧ chunkBody (buildHistoryChunk twoExits) = [Timed 0 "o" "a"]
  ∧ r_chunkOutputEvents (buildHistoryChunk twoExits) = 1.
Proof.
  destruct (buildHistoryChunk_classification twoExits)
    as (Hexit & _ & Hbody & _ & Hcount & _).
  split_and!; [exact Hexit | exact Hbody | exact Hcount].
Defined.

End HistoryChunkFacts.

(** ** Log tail watcher: the tail bound *)

Section TailFacts.
Import StreamWatcher.

Lemma outputs_nil : outputs [] = 0.
Proof. done. Qed.

Lemma outputs_cons event l :
  outputs (event :: l)
  = (if isOutputEvent event then 1 else 0) + outputs l.
Proof.
  unfold outputs. simpl. destruct (isOutputEvent event); simpl; lia.
Qed.

Lemma outputs_app l1 l2 : outputs (l1 ++ l2) = outputs l1 + outputs l2.
Proof.
  unfold outputs. rewrite filter_app, length_app. lia.
Qed.

Lemma outputs_reverse l : outputs (reverse l) = outputs l.
Proof.
  induction l as [|e l IH]; [done|].
  rewrite reverse_cons, outputs_app, IH, !outputs_cons, outputs_nil. lia.
Qed.

Lemma outputs_nonneg l : 0 ≤ outputs l.
Proof. unfold outputs. lia. Qed.

Lemma outputs_zero_head event l :
  outputs (event :: l) = 0 → isOutputEvent event = false.
Proof.
  rewrite outputs_cons. pose proof (outputs_nonneg l).
  destruct (isOutputEvent event); [lia | done].
Qed.

(** The backward loop stops at the [N]-th output event it meets, when
    there is one. *)
Lemma scanBackward_found (N : Z) : ∀ visited idx sendStartIndex counter,
  counter < N →
  N ≤ counter + outputs visited →
  ∃ seen event rest,
    visited = seen ++ event :: rest
    ∧ isOutputEvent event = true
    ∧ counter + outputs seen + 1 = N
    ∧ scanBackward N visited idx sendStartIndex counter
        = idx - Z.of_nat (length seen).
Proof.
  induction visited as [|ev older IH]; intros idx ss c Hc Hn.
  - rewrite outputs_nil in Hn. lia.
  - rewrite outputs_cons in Hn. simpl.
    destruct (isOutputEvent ev) eqn:Hout.
    + destruct (N <=? c + 1) eqn:Hstop.
      * apply Z.leb_le in Hstop.
        exists [], ev, older. rewrite outputs_nil. simpl.
        split_and!; [done | done | lia | lia].
      * apply Z.leb_gt in Hstop.
        destruct (IH (idx - 1) idx (c + 1)) as (seen & e & rest & -> & He & Hs & Hr);
          [lia | lia |].
        exists (ev :: seen), e, rest.
        rewrite outputs_cons, Hout, Hr. simpl length.
        split_and!; [done | done | lia | lia].
    + destruct (IH (idx - 1) idx c) as (seen & e & rest & -> & He & Hs & Hr);
        [lia | lia |].
      exists (ev :: seen), e, rest.
      rewrite outputs_cons, Hout, Hr. simpl length.
      split_and!; [done | done | lia | lia].
Qed.

(** With fewer than [N] output events the loop runs down to
    [baseStartIndex]. *)
Lemma scanBackward_exhausted (N : Z) : ∀ visited idx sendStartIndex counter,
  counter + outputs visited < N →
  scanBackward N visited idx sendStartIndex counter
  = match visited with
    | [] => sendStartIndex
    | _ => idx - (Z.of_nat (length visited) - 1)
    end.
Proof.
  induction visited as [|ev older IH]; intros idx ss c Hn; [done|].
  rewrite outputs_cons in Hn. pose proof (outputs_nonneg older).
  simpl scanBackward.
  destruct (isOutputEvent ev) eqn:Hout.
  - replace (N <=? c + 1) with false by (symmetry; apply Z.leb_gt; lia).
    rewrite IH by lia. destruct older; simpl length; lia.
  - rewrite IH by lia. destruct older; simpl length; lia.
Qed.

(** What the chunk loop computes from any starting state. *)
Lemma chunkLoop_spec (range : list AsciinemaEvent) : ∀ acc,
  chunkEvents (foldl chunkLoopBody acc range)
    = chunkEvents acc ++ (normalizedEvent <$> List.filter kept range)
  ∧ outputCount (foldl chunkLoopBody acc range)
    = outputCount acc + outputs range.
Proof.
  induction range as [|event range IH]; intros acc.
  - simpl. rewrite app_nil_r, outputs_nil. split; [done | lia].
  - simpl foldl. destruct (IH (chunkLoopBody acc event)) as [-> ->].
    rewrite outputs_cons. unfold chunkLoopBody, kept. simpl.
    destruct event as [t k d|c s]; simpl.
    + destruct (String.eqb k "o") eqn:Ho; simpl.
      * split; [by rewrite <- app_assoc | lia].
      * destruct (String.eqb k "r") eqn:Hr; simpl;
          (split; [by rewrite <- ?app_assoc | lia]).
    + split; [done | lia].
Qed.

Lemma sentChunk_after_header (hs : list Sent) c tl :
  (hs = [] ∨ ∃ h, hs = [SentHeader h]) →
  sentChunk (hs ++ [SentChunk c] ++ tl) = Some c.
Proof. by intros [-> | [h ->]]. Qed.

Lemma baseStartIndex_nonneg (st : Scan) : 0 ≤ baseStartIndex st.
Proof.
  unfold baseStartIndex. destruct (0 <=? lastClearIndex st) eqn:H; [|done].
  apply Z.leb_le in H. lia.
Qed.

(** Where the tail starts, as a split of the events after the boundary:
    [older] is left out, [newer] is sent. *)
Lemma tailStartIndex_split (evs : list AsciinemaEvent) (base N : Z) :
  0 ≤ base → 0 < N →
  from_index evs base ≠ [] →
  ∃ older newer,
    from_index evs base = older ++ newer
    ∧ from_index evs (tailStartIndex evs base N) = newer
    ∧ tailStartIndex evs base N = base + Z.of_nat (length older)
    ∧ outputs newer = Z.min (outputs (from_index evs base)) N
    ∧ (N ≤ outputs (from_index evs base) →
         ∃ first, list.head newer = Some first ∧ isOutputEvent first = true)
    ∧ (outputs (from_index evs base) < N → older = []).
Proof.
  intros Hbase HN Hpost. unfold from_index in *.
  set (b := Z.to_nat base) in *.
  set (post := drop b evs) in *.
  assert (length evs = (b + length post)%nat) as Hlen.
  { subst post. rewrite length_drop.
    assert (b < length evs)%nat; [|lia].
    destruct (decide (b < length evs)%nat) as [|Hge]; [done|].
    exfalso. apply Hpost. apply drop_ge. lia. }
  assert (length post ≠ 0%nat) as Hne by (by destruct post).
  unfold tailStartIndex, from_index. fold b. fold post.
  destruct (decide (N ≤ outputs post)) as [Hfound | Hfew].
  - destruct (scanBackward_found N (reverse post)
                (Z.of_nat (length evs) - 1) (Z.of_nat (length evs) - 1) 0)
      as (seen & e & rest & Hvis & He & Hcount & ->);
      [lia | rewrite outputs_reverse; lia |].
    assert (post = reverse rest ++ e :: reverse seen) as Hsplit.
    { rewrite <- (reverse_involutive post), Hvis.
      by rewrite reverse_app, reverse_cons, <- app_assoc. }
    assert (length post = (length rest + S (length seen))%nat) as Hlp.
    { rewrite Hsplit, length_app. simpl. by rewrite !length_reverse. }
    exists (reverse rest), (e :: reverse seen).
    rewrite length_reverse.
    replace (Z.max (Z.of_nat (length evs) - 1 - Z.of_nat (length seen)) base)
      with (base + Z.of_nat (length rest)) by lia.
    replace (Z.to_nat (base + Z.of_nat (length rest)))
      with (b + length rest)%nat by lia.
    split_and!.
    + done.
    + rewrite <- drop_drop. fold post. rewrite Hsplit.
      rewrite <- (length_reverse rest). apply drop_app_length.
    + done.
    + rewrite outputs_cons, He, outputs_reverse. lia.
    + intros _. by exists e.
    + lia.
  - rewrite scanBackward_exhausted by (rewrite outputs_reverse; lia).
    exists [], post.
    assert (reverse post ≠ []) as Hrev.
    { intros H. apply (f_equal length) in H.
      rewrite length_reverse in H. simpl in H. done. }
    destruct (reverse post) as [|x xs] eqn:Hrp; [done|].
    rewrite <- Hrp, length_reverse.
    replace (Z.max (Z.of_nat (length evs) - 1 - (Z.of_nat (length post) - 1)) base)
      with base by lia.
    fold b. fold post. simpl.
    split_and!; [done | done | lia | lia | lia | done].
Qed.

(** C1, as stated, fails: a log whose only event is one output event, read
    with [initialTailLines = 1].  At least [N] output events exist after
    the boundary, and the chunk sent has [hasMore = false]. *)
Lemma tail_bound_exactly_N_has_no_more :
  ¬ (∀ (st : Scan) (startOffset : Z) (sessionExists : bool) (N : Z),
       0 < N →
       N ≤ outputs (from_index (events st) (baseStartIndex st)) →
       ∃ chunk,
         sentChunk (sent (replay st startOffset sessionExists (Some N)))
           = Some chunk
         ∧ chunkOutputEvents chunk = N
         ∧ hasMore chunk = true).
Proof.
  intros H.
  destruct (H (scanOf [Timed 0.5 "o" "hi"]) 0 false 1)
    as (chunk & Hsent & _ & Hmore); [done | done |].
  vm_compute in Hsent. injection Hsent as <-. discriminate Hmore.
Qed.

(** C1 (amended): for every scanned log with at least one event after the
    last clear boundary and every requested [initialTailLines > 0], a
    history chunk is sent, and with [N] the request capped at 5000 and [k]
    the number of output events after the boundary:
    [chunkOutputEvents = min k N];
    if [k > N], [chunkOutputEvents = N] and [hasMore = true];
    if [k = N], [chunkOutputEvents = N] and [hasMore] is true exactly when
    the first event after the boundary is not an output event;
    if [k < N], every output and resize event after the boundary is in the
    chunk and [hasMore = false].
    Throughout [hasMore] is [sendStartIndex > baseStartIndex]. *)
Theorem tail_bound (st : Scan) (startOffset : Z) (sessionExists : bool)
    (requested : Z) :
  let N := Z.min requested MAX_INITIAL_TAIL_LINES in
  let post := from_index (events st) (baseStartIndex st) in
  let k := outputs post in
  0 < requested →
  post ≠ [] →
  ∃ chunk,
    sentChunk (sent (replay st startOffset sessionExists (Some requested)))
      = Some chunk
    ∧ chunkOutputEvents chunk = Z.min k N
    ∧ hasMore chunk
        = (baseStartIndex st <?
             tailStartIndex (events st) (baseStartIndex st) N)
    ∧ (N < k → chunkOutputEvents chunk = N ∧ hasMore chunk = true)
    ∧ (k = N →
         chunkOutputEvents chunk = N
         ∧ hasMore chunk
             = match post with
               | first :: _ => negb (isOutputEvent first)
               | [] => false
               end)
    ∧ (k < N →
         HistoryTypes.events chunk = normalizedEvent <$> List.filter kept post
         ∧ chunkOutputEvents chunk = k
         ∧ hasMore chunk = false).
Proof.
  intros N post k Hreq Hpost.
  assert (0 < N) as HN by (subst N; unfold MAX_INITIAL_TAIL_LINES; lia).
  assert (effectiveTailLines (Some requested) = N) as Heff.
  { unfold effectiveTailLines. fold N. lia. }
  pose proof (baseStartIndex_nonneg st) as Hbase.
  destruct (tailStartIndex_split (events st) (baseStartIndex st) N)
    as (older & newer & Hsplit & Hnewer & Hstart & Hout & Hfirst & Hfew);
    [done | done | done |].
  fold post in Hsplit, Hout, Hfirst, Hfew. fold k in Hout, Hfirst, Hfew.
  assert ((baseStartIndex st <? Z.of_nat (length (events st))) = true) as Hlt.
  { apply Z.ltb_lt. subst post. unfold from_index in Hpost.
    destruct (decide (Z.to_nat (baseStartIndex st) < length (events st))%nat)
      as [|Hge]; [lia|].
    exfalso. apply Hpost, drop_ge. lia. }
  unfold replay. rewrite Heff, Hlt.
  replace (0 <? N) with true by (symmetry; apply Z.ltb_lt; lia).
  cbn [andb]. cbv zeta. rewrite Hnewer.
  destruct (chunkLoop_spec newer
              {| chunkEvents := []; outputCount := 0;
                 exitEventToSend := None |}) as [Hevs Hcnt].
  simpl in Hevs, Hcnt.
  eexists. split.
  { cbn [sent]. apply sentChunk_after_header.
    destruct (headerToSend st); eauto. }
  cbn [chunkOutputEvents hasMore HistoryTypes.events].
  rewrite Hcnt, Hevs, Hstart.
  assert (k = outputs older + outputs newer) as Hk.
  { subst k. by rewrite Hsplit, outputs_app. }
  pose proof (outputs_nonneg older) as Holder.
  split_and!.
  - lia.
  - done.
  - intros Hgt. split; [lia|].
    apply Z.ltb_lt.
    destruct older; [rewrite outputs_nil in Hk; lia | simpl length; lia].
  - intros Heq. split; [lia|].
    destruct Hfirst as (first & Hhd & Hfo); [lia|].
    destruct older as [|o older'].
    + simpl in Hsplit. rewrite Hsplit.
      destruct newer as [|n newer']; [done|].
      simpl in Hhd. injection Hhd as ->. rewrite Hfo. simpl.
      apply Z.ltb_ge. lia.
    + rewrite Hsplit. cbn [app].
      assert (outputs (o :: older') = 0) as Hz by lia.
      apply outputs_zero_head in Hz. rewrite Hz. simpl negb.
      apply Z.ltb_lt. simpl length. lia.
  - intros Hlt'. rewrite (Hfew Hlt') in *. simpl in Hsplit.
    rewrite Hsplit. split_and!; [done | rewrite outputs_nil in Hk; lia |].
    apply Z.ltb_ge. simpl. lia.
Qed.

(** An instance of [tail_bound]: four events after a clear at index 0,
    three of them output events, read with [initialTailLines = 2]. *)
Lemma tail_bound_witness :
  ∃ chunk,
    sentChunk
      (sent (replay
               {| header := None;
                  events := [Timed 1 "o" "clear"; Timed 2 "o" "a";
                             Timed 3 "r" "80x24"; Timed 4 "o" "b";
                             Timed 5 "o" "c"];
                  eventOffsets := [40; 60; 80; 100; 120];
                  lastClearIndex := 0;
                  lastResizeBeforeClear := None;
                  currentResize := None;
                  fileOffset := 140;
                  lastClearOffset := 50 |}
               0 true (Some 2)))
      = Some chunk
    ∧ chunkOutputEvents chunk = 2
    ∧ hasMore chunk = true.
Proof.
  destruct (tail_bound
              {| header := None;
                 events := [Timed 1 "o" "clear"; Timed 2 "o" "a";
                            Timed 3 "r" "80x24"; Timed 4 "o" "b";
                            Timed 5 "o" "c"];
                 eventOffsets := [40; 60; 80; 100; 120];
                 lastClearIndex := 0;
                 lastResizeBeforeClear := None;
                 currentResize := None;
                 fileOffset := 140;
                 lastClearOffset := 50 |}
              0 true 2)
    as (chunk & Hsent & _ & _ & Hmore & _); [lia | done |].
  exists chunk. split; [exact Hsent|]. apply Hmore. vm_compute. done.
Defined.

End TailFacts.

(** ** Log tail watcher: the last clear wins *)

Section ClearFacts.
Import StreamWatcher.

Variable parseLine : string → ParsedLine.
Variable containsPruningSequence : string → bool.
Variable findLastPrunePoint : string → option PrunePoint.
Variable calculatePruningPositionInFile : Z → string → Z → Z.

Local Abbreviation onLine' :=
  (onLine parseLine containsPruningSequence findLastPrunePoint
     calculatePruningPositionInFile).
Local Abbreviation onRest' :=
  (onRest parseLine containsPruningSequence findLastPrunePoint
     calculatePruningPositionInFile).
Local Abbreviation clearIn' :=
  (clearIn parseLine containsPruningSequence findLastPrunePoint).
Local Abbreviation readLine' := (readLine parseLine).
Local Abbreviation scanEvent' :=
  (scanEvent containsPruningSequence findLastPrunePoint
     calculatePruningPositionInFile).

Lemma progress_onLine st line :
  progress (onLine' st line) = readLine' (progress st) line.
Proof.
  unfold onLine, readLine, progress.
  destruct (parseLine line) as [| |h|[t k d|c s]|]; done.
Qed.

Lemma progress_lines lines : ∀ st,
  progress (foldl onLine' st lines) = foldl readLine' (progress st) lines.
Proof.
  induction lines as [|l lines IH]; intros st; [done|].
  simpl. by rewrite IH, progress_onLine.
Qed.

Lemma lastResize_snoc evs event :
  lastResize (evs ++ [event])
  = if isResizeEvent event then Some event else lastResize evs.
Proof.
  unfold lastResize. rewrite filter_app. simpl.
  destruct (isResizeEvent event).
  - by rewrite last_snoc.
  - by rewrite app_nil_r.
Qed.

Lemma resizeTracked_scanEvent st event line o o' :
  resizeTracked st → resizeTracked (scanEvent' st event line o o').
Proof.
  unfold resizeTracked. intros H.
  destruct event as [t k d|c s]; simpl;
    rewrite lastResize_snoc; simpl; [|done].
  by destruct (String.eqb k "r").
Qed.

Lemma resizeTracked_onLine st line :
  resizeTracked st → resizeTracked (onLine' st line).
Proof.
  intros H. unfold onLine.
  destruct (parseLine line); try done.
  by apply resizeTracked_scanEvent.
Qed.

Lemma resizeTracked_lines lines : ∀ st,
  resizeTracked st → resizeTracked (foldl onLine' st lines).
Proof.
  induction lines as [|l lines IH]; intros st H; [done|].
  simpl. by apply IH, resizeTracked_onLine.
Qed.

(** A line without a clear leaves them as they are. *)
Lemma onLine_no_clear st line :
  clearIn' line = None → clearOf (onLine' st line) = clearOf st.
Proof.
  unfold clearIn, onLine, clearOf. intros H.
  destruct (parseLine line) as [| |h|[t k d|c s]|]; try done.
  simpl in *. unfold processClearSequence.
  destruct (String.eqb k "o" && containsPruningSequence d); [|done].
  by rewrite H.
Qed.

Lemma onRest_no_clear st rest :
  clearIn' rest = None → clearOf (onRest' st rest) = clearOf st.
Proof.
  unfold clearIn, onRest, clearOf. intros H.
  destruct (parseLine rest) as [| |h|[t k d|c s]|]; try done.
  simpl in *. unfold processClearSequence.
  destruct (String.eqb k "o" && containsPruningSequence d); [|done].
  by rewrite H.
Qed.

Lemma lines_no_clear lines : ∀ st,
  Forall (λ l, clearIn' l = None) lines →
  clearOf (foldl onLine' st lines) = clearOf st.
Proof.
  induction lines as [|l lines IH]; intros st H; [done|].
  apply list.Forall_cons in H as [Hl H]. simpl.
  by rewrite IH, onLine_no_clear.
Qed.

(** A line with a clear overwrites them, whatever they were. *)
Lemma onLine_clear st line point :
  clearIn' line = Some point →
  resizeTracked st →
  clearOf (onLine' st line)
  = (Z.of_nat (length (events st)),
     calculatePruningPositionInFile
       (fileOffset st + Z.of_nat (String.length line) + 1) line
       (position point),
     lastResize (events st)).
Proof.
  unfold clearIn, onLine, clearOf, resizeTracked. intros H Hres.
  destruct (parseLine line) as [| |h|[t k d|c s]|]; try done.
  simpl in *. unfold processClearSequence.
  destruct (String.eqb k "o") eqn:Hk; [|done].
  destruct (containsPruningSequence d); [|done]. simpl in *.
  rewrite H. simpl.
  apply String.eqb_eq in Hk as ->. simpl. by rewrite Hres.
Qed.

Lemma onRest_clear st rest point :
  clearIn' rest = Some point →
  resizeTracked st →
  clearOf (onRest' st rest)
  = (Z.of_nat (length (events st)),
     calculatePruningPositionInFile
       (fileOffset st + Z.of_nat (String.length rest)) rest
       (position point),
     lastResize (events st)).
Proof.
  unfold clearIn, onRest, clearOf, resizeTracked. intros H Hres.
  destruct (parseLine rest) as [| |h|[t k d|c s]|]; try done.
  simpl in *. unfold processClearSequence.
  destruct (String.eqb k "o") eqn:Hk; [|done].
  destruct (containsPruningSequence d); [|done]. simpl in *.
  rewrite H. simpl.
  apply String.eqb_eq in Hk as ->. simpl. by rewrite Hres.
Qed.

Lemma sentHeader_replay st startOffset sessionExists requested :
  sentHeader (sent (replay st startOffset sessionExists requested))
  = headerToSend st.
Proof.
  unfold replay.
  destruct ((0 <? effectiveTailLines requested)
            && (baseStartIndex st <? Z.of_nat (length (events st)))).
  - cbn [sent]. destruct (headerToSend st); [done|]. simpl.
    by destruct (exitEventToSend _).
  - destruct (foldl legacyLoopBody ([], false) _) as [written found] eqn:Hl.
    cbn [sent]. destruct (headerToSend st); [done|]. simpl.
    assert (∀ l acc, (∀ x, x ∈ acc.1 → ∃ e, x = SentEvent e) →
              ∀ x, x ∈ (foldl legacyLoopBody acc l).1 → ∃ e, x = SentEvent e)
      as Hev.
    { clear. induction l as [|ev l IH]; intros acc Hacc; [done|].
      simpl. apply IH. unfold legacyLoopBody.
      destruct (isExitEvent ev); [|destruct (_ || _)]; simpl; [| |done];
        intros x [?| ->%list_elem_of_singleton]%elem_of_app; eauto. }
    specialize (Hev (from_index (events st) (baseStartIndex st)) ([], false)).
    rewrite Hl in Hev. simpl in Hev.
    assert (∀ l : list Sent, (∀ x, x ∈ l → ∃ e, x = SentEvent e) →
              ∀ tl, sentHeader tl = None → sentHeader (l ++ tl) = None) as Hn.
    { clear. induction l as [|x l IH]; intros Hl tl Htl; [done|].
      destruct (Hl x) as [e ->]; [apply list_elem_of_here|]. simpl.
      apply IH; [|done]. intros y Hy. apply Hl. by apply list_elem_of_further. }
    apply Hn; [|by destruct found].
    apply Hev. intros x Hx. by apply elem_of_nil in Hx.
Qed.

(** C8: when the scan of a session log meets several clear sequences, the
    last one alone determines [lastClearIndex] and [lastClearOffset]: they
    are the index of the last line that holds a clear and the offset
    computed from that line, whatever the lines before it held; and the
    header sent to the joining client has the width and height of the most
    recent resize event read before that last clear, when there is one.
    The last clear is either a complete line, with no clear in the lines
    after it nor in the unterminated rest, or it is in the rest. *)
Theorem last_clear_wins (header0 : option AsciinemaHeader)
    (startOffset : Z) (sessionExists : bool) (requested : option Z)
    (before after : list string) (line rest : string) (point : PrunePoint) :
  let read :=
    foldl readLine' (startProgress header0 startOffset) before in
  let readAll :=
    foldl readLine' (startProgress header0 startOffset)
      (before ++ line :: after) in
  let final :=
    analyse parseLine containsPruningSequence findLastPrunePoint
      calculatePruningPositionInFile header0 startOffset
      (before ++ line :: after) rest in
  (clearIn' line = Some point →
   Forall (λ l, clearIn' l = None) after →
   clearIn' rest = None →
     lastClearIndex final = Z.of_nat (length (pr_events read))
     ∧ lastClearOffset final
         = calculatePruningPositionInFile
             (pr_fileOffset read + Z.of_nat (String.length line) + 1)
             line (position point)
     ∧ lastResizeBeforeClear final = lastResize (pr_events read)
     ∧ ∀ h, header final = Some h →
         sentHeader (sent (replay final startOffset sessionExists requested))
         = Some (resized h (lastResize (pr_events read))))
  ∧ (clearIn' rest = Some point →
     lastClearIndex final = Z.of_nat (length (pr_events readAll))
     ∧ lastClearOffset final
         = calculatePruningPositionInFile
             (pr_fileOffset readAll + Z.of_nat (String.length rest))
             rest (position point)
     ∧ lastResizeBeforeClear final = lastResize (pr_events readAll)
     ∧ ∀ h, header final = Some h →
         sentHeader (sent (replay final startOffset sessionExists requested))
         = Some (resized h (lastResize (pr_events readAll)))).
Proof.
  intros read readAll final.
  set (init := initialScan header0 startOffset).
  assert (resizeTracked init) as Hinit by done.
  assert (progress init = startProgress header0 startOffset) as Hp by done.
  assert (∀ st : Scan, ∀ i o r,
            clearOf st = (i, o, r) → 0 ≤ i →
            ∀ h, header st = Some h →
              headerToSend st = Some (resized h r)) as Hhead.
  { intros st i o r Hc Hi h Hh. unfold clearOf in Hc.
    injection Hc as <- <- <-. unfold headerToSend. rewrite Hh.
    replace (0 <=? lastClearIndex st) with true
      by (symmetry; by apply Z.leb_le).
    by destruct (lastResizeBeforeClear st). }
  split.
  - intros Hline Hafter Hrest.
    set (st := foldl onLine' init before).
    assert (progress st = read) as Hread.
    { subst st read. by rewrite progress_lines, Hp. }
    assert (clearOf final
            = (Z.of_nat (length (pr_events read)),
               calculatePruningPositionInFile
                 (pr_fileOffset read + Z.of_nat (String.length line) + 1)
                 line (position point),
               lastResize (pr_events read))) as Hclear.
    { subst final. unfold analyse. fold init.
      rewrite foldl_app. simpl foldl. fold st.
      rewrite onRest_no_clear, lines_no_clear by done.
      rewrite (onLine_clear _ _ point), <- Hread;
        [done | done | by apply resizeTracked_lines]. }
    pose proof Hclear as Hc. unfold clearOf in Hc.
    injection Hc as Hi Ho Hr. split_and!; [done | done | done |].
    intros h Hh. rewrite sentHeader_replay.
    eapply Hhead; [exact Hclear | lia | done].
  - intros Hrest.
    set (st := foldl onLine' init (before ++ line :: after)).
    assert (progress st = readAll) as Hread.
    { subst st readAll. by rewrite progress_lines, Hp. }
    assert (clearOf final
            = (Z.of_nat (length (pr_events readAll)),
               calculatePruningPositionInFile
                 (pr_fileOffset readAll + Z.of_nat (String.length rest))
                 rest (position point),
               lastResize (pr_events readAll))) as Hclear.
    { subst final. unfold analyse. fold init. fold st.
      rewrite (onRest_clear _ _ point), <- Hread;
        [done | done | by apply resizeTracked_lines]. }
    pose proof Hclear as Hc. unfold clearOf in Hc.
    injection Hc as Hi Ho Hr. split_and!; [done | done | done |].
    intros h Hh. rewrite sentHeader_replay.
    eapply Hhead; [exact Hclear | lia | done].
Qed.

End ClearFacts.

(** An instance of [last_clear_wins]: in the example log the second clear is
    the last one; it is the event of index 2, and the header sent carries the
    120x40 of the resize read before it. *)
Lemma last_clear_wins_witness :
  let final :=
    StreamWatcher.analyse StreamWatcher.exampleParse
      StreamWatcher.exampleContains StreamWatcher.exampleFindLast
      StreamWatcher.examplePosition None 0
      (StreamWatcher.exampleBefore
         ++ StreamWatcher.exampleLine :: StreamWatcher.exampleAfter) "" in
  StreamWatcher.lastClearIndex final = 2
  ∧ StreamWatcher.sentHeader
      (StreamWatcher.sent (StreamWatcher.replay final 0 true (Some 10)))
    = Some {| version := 2; width := Num 120; height := Num 40 |}.
Proof.
  destruct (last_clear_wins StreamWatcher.exampleParse
              StreamWatcher.exampleContains StreamWatcher.exampleFindLast
              StreamWatcher.examplePosition None 0 true (Some 10)
              StreamWatcher.exampleBefore StreamWatcher.exampleAfter
              StreamWatcher.exampleLine ""
              {| sequence := StreamWatcher.clearScreen; position := 10 |})
    as [Hline _].
  destruct Hline as (Hindex & _ & _ & Hheader).
  - reflexivity.
  - repeat constructor.
  - reflexivity.
  - split; [exact Hindex | exact (Hheader _ eq_refl)].
Defined.

(** ** Log tail watcher: one watcher per session, counted by its clients *)

Section WatcherFacts.
Import StreamWatcher.

Lemma allWatched_addClient st sessionId streamPath r opts now stats :
  allWatched st →
  allWatched (addClient st sessionId streamPath r opts now stats true).1.
Proof.
  intros Hinv sid info. unfold addClient.
  destruct (activeWatchers st !! sessionId) as [old|] eqn:Hold; simpl;
    (destruct (decide (sessionId = sid)) as [->|Hne];
     [rewrite lookup_insert_eq; intros [= <-]; simpl; by destruct (clients _)
     |rewrite lookup_insert_ne by done; apply Hinv]).
Qed.

Lemma allWatched_removeClient st sessionId r :
  allWatched st → allWatched (removeClient st sessionId r).
Proof.
  intros Hinv sid info. unfold removeClient.
  destruct (activeWatchers st !! sessionId) as [old|] eqn:Hold; [|apply Hinv].
  destruct (list_find _ (clients old)) as [[i c]|]; [|apply Hinv].
  case_bool_decide as Hlen; simpl.
  - destruct (decide (sessionId = sid)) as [->|Hne].
    + by rewrite lookup_delete_eq.
    + rewrite lookup_delete_ne by done. apply Hinv.
  - destruct (decide (sessionId = sid)) as [->|Hne].
    + rewrite lookup_insert_eq. intros [= <-]. simpl.
      by destruct (delete i (clients old)).
    + rewrite lookup_insert_ne by done. apply Hinv.
Qed.

Lemma allWatched_calls calls : ∀ st,
  Forall watchReturns calls →
  allWatched st → allWatched (foldl call st calls).
Proof.
  induction calls as [|c calls IH]; intros st Hcalls Hinv; [done|].
  apply list.Forall_cons in Hcalls as [Hc Hcalls].
  simpl. apply IH; [done|]. destruct c; simpl.
  - simpl in Hc. subst. by apply allWatched_addClient.
  - by apply allWatched_removeClient.
Qed.

Lemma created_app st sessionId (es : list Effect) (m : gmap string WatcherInfo) n :
  created {| activeWatchers := m; nextWatcher := n; trace := trace st ++ es |}
    sessionId
  = (created st sessionId
     + length (List.filter (isFsWatch sessionId) es))%nat.
Proof. unfold created. simpl. by rewrite filter_app, length_app. Qed.

Lemma closed_app st sessionId (es : list Effect) (m : gmap string WatcherInfo) n :
  closed {| activeWatchers := m; nextWatcher := n; trace := trace st ++ es |}
    sessionId
  = (closed st sessionId
     + length (List.filter (isWatcherClose sessionId) es))%nat.
Proof. unfold closed. simpl. by rewrite filter_app, length_app. Qed.

(** C3: one watcher per session, shared by its clients, unless
    [fs.watch] throws.  While every [fs.watch] returns, a session has an
    entry in [activeWatchers] exactly when its set of clients is not
    empty; and from any state in which a session has no entry, adding
    client A, adding client B, removing A and removing B creates the
    watcher once, at A's add; leaves it open, with B attached, after A is
    removed; and closes it once, deleting the entry, when B is removed.
    When [fs.watch] throws at the first add of a session, as it does for a
    stream file that does not exist yet, [addClient] throws and leaves an
    entry that has no client and no watcher; the next client is added to
    that entry, and no watcher is created for it. *)
Theorem watcher_counted_unless_watch_throws :
  (∀ (calls : list Call) (sessionId : string),
     Forall watchReturns calls →
     let st := foldl call noWatchers calls in
     is_Some (activeWatchers st !! sessionId)
     ↔ clientsOf st sessionId ≠ [])
  ∧ (∀ (st : Watchers) (session pathA pathB : string) (A B : Response)
       (optsA optsB : option Z) (nowA nowB : Q)
       (statsA statsB : option (Z * Z)) (watchedB : bool),
       activeWatchers st !! session = None →
       let st1 := (addClient st session pathA A optsA nowA statsA true).1 in
       let st2 :=
         (addClient st1 session pathB B optsB nowB statsB watchedB).1 in
       let st3 := removeClient st2 session A in
       let st4 := removeClient st3 session B in
       (created st1 session = created st session + 1
        ∧ created st2 session = created st1 session
        ∧ created st3 session = created st1 session
        ∧ created st4 session = created st1 session)%nat
       ∧ (closed st1 session = closed st session
          ∧ closed st2 session = closed st session
          ∧ closed st3 session = closed st session
          ∧ closed st4 session = closed st session + 1)%nat
       ∧ (∃ watcherInfo,
            activeWatchers st3 !! session = Some watcherInfo
            ∧ watcher watcherInfo = Some (nextWatcher st)
            ∧ response <$> clients watcherInfo = [B])
       ∧ activeWatchers st4 !! session = None
       ∧ List.filter (isWatcherClose session) (trace st4)
         = List.filter (isWatcherClose session) (trace st)
             ++ [WatcherClose session (nextWatcher st)])
  ∧ (∀ (st : Watchers) (session pathA : string) (A : Response)
       (optsA : option Z) (nowA : Q) (statsA : option (Z * Z)),
       activeWatchers st !! session = None →
       let r1 := addClient st session pathA A optsA nowA statsA false in
       r1.2 = Thrown
       ∧ is_Some (activeWatchers r1.1 !! session)
       ∧ clientsOf r1.1 session = []
       ∧ created r1.1 session = created st session
       ∧ ∀ (pathB : string) (B : Response) (optsB : option Z) (nowB : Q)
           (statsB : option (Z * Z)) (watchedB : bool),
           let r2 :=
             addClient r1.1 session pathB B optsB nowB statsB watchedB in
           r2.2 = Returned
           ∧ created r2.1 session = created st session
           ∧ ∃ watcherInfo,
               activeWatchers r2.1 !! session = Some watcherInfo
               ∧ watcher watcherInfo = None
               ∧ response <$> clients watcherInfo = [B])
  ∧ (let st1 := foldl call noWatchers [absentAdd] in
     let st4 := foldl call noWatchers absentThenPresent in
     is_Some (activeWatchers st1 !! "session")
     ∧ clientsOf st1 "session" = []
     ∧ created st4 "session" = 0%nat
     ∧ closed st4 "session" = 0%nat
     ∧ activeWatchers st4 !! "session" = None).
Proof.
  split_and!.
  - intros calls sessionId Hcalls st.
    assert (allWatched st) as Hinv.
    { apply allWatched_calls; [done|]. intros sid info Hl.
      unfold noWatchers in Hl. cbn [activeWatchers] in Hl.
      by rewrite lookup_empty in Hl. }
    unfold clientsOf. split.
    + intros [info Hinfo]. rewrite Hinfo. by eapply Hinv.
    + destruct (activeWatchers st !! sessionId); [by eexists | done].
  - intros st session pathA pathB A B optsA optsB nowA nowB statsA statsB
      watchedB Hnone.
    intros st1 st2 st3 st4.
    assert (String.eqb session session = true) as Hss by apply String.eqb_refl.
    set (entry :=
           {| clients := []; watcher := Some (nextWatcher st);
              lastOffset := lastOffset (withStats newWatcherInfo statsA);
              lastSize := lastSize (withStats newWatcherInfo statsA);
              lastMtime := lastMtime (withStats newWatcherInfo statsA);
              lineBuffer := lineBuffer (withStats newWatcherInfo statsA) |}).
    (* A's add creates the entry and the watcher *)
    assert (st1 =
      {| activeWatchers :=
           <[session := withClients entry
                    [{| response := A; startTime := nowA;
                        options := optsA |}]]> (activeWatchers st);
         nextWatcher := S (nextWatcher st);
         trace := trace st ++
           [SendExistingContent session pathA A;
            FsWatch session pathA (nextWatcher st);
            StartGitWatching session A] |}) as E1.
    { subst st1 entry. unfold addClient. rewrite Hnone.
      by destruct statsA as [[? ?]|]. }
    (* B's add finds the entry *)
    assert (st2 =
      {| activeWatchers :=
           <[session := withClients entry
                    [{| response := A; startTime := nowA;
                        options := optsA |};
                     {| response := B; startTime := nowB;
                        options := optsB |}]]> (activeWatchers st);
         nextWatcher := S (nextWatcher st);
         trace := trace st1 ++
           [SendExistingContent session pathB B; GitAddClient session B] |}) as E2.
    { subst st2. rewrite E1 at 1. unfold addClient. cbn [activeWatchers].
      rewrite lookup_insert_eq. cbn [nextWatcher trace fst].
      rewrite insert_insert_eq. by rewrite E1. }
    (* removing A leaves B *)
    assert (st3 =
      {| activeWatchers :=
           <[session := withClients entry
                    [{| response := B; startTime := nowB;
                        options := optsB |}]]> (activeWatchers st);
         nextWatcher := S (nextWatcher st);
         trace := trace st2 ++ [GitRemoveClient session A] |}) as E3.
    { subst st3. rewrite E2 at 1. unfold removeClient. cbn [activeWatchers].
      rewrite lookup_insert_eq. cbn [clients withClients list_find].
      rewrite decide_True by done. cbn. rewrite insert_insert_eq.
      by rewrite E2. }
    (* removing B closes the watcher and deletes the entry *)
    assert (st4 =
      {| activeWatchers := delete session (activeWatchers st);
         nextWatcher := S (nextWatcher st);
         trace := trace st3 ++
           [GitRemoveClient session B; WatcherClose session (nextWatcher st);
            GitStopWatching session] |}) as E4.
    { subst st4. rewrite E3 at 1. unfold removeClient. cbn [activeWatchers].
      rewrite lookup_insert_eq. cbn [clients withClients list_find].
      rewrite decide_True by done. cbn. rewrite delete_insert_eq.
      by rewrite E3. }
    clearbody st1 st2 st3 st4.
    assert (created st1 session = created st session + 1)%nat as C1.
    { rewrite E1, created_app. simpl. by rewrite Hss. }
    assert (created st2 session = created st1 session)%nat as C2.
    { rewrite E2, created_app. simpl. lia. }
    assert (created st3 session = created st2 session)%nat as C3.
    { rewrite E3, created_app. simpl. lia. }
    assert (created st4 session = created st3 session)%nat as C4.
    { rewrite E4, created_app. simpl. lia. }
    assert (closed st1 session = closed st session)%nat as D1.
    { rewrite E1, closed_app. simpl. lia. }
    assert (closed st2 session = closed st1 session)%nat as D2.
    { rewrite E2, closed_app. simpl. lia. }
    assert (closed st3 session = closed st2 session)%nat as D3.
    { rewrite E3, closed_app. simpl. lia. }
    assert (closed st4 session = closed st3 session + 1)%nat as D4.
    { rewrite E4, closed_app. simpl. rewrite Hss. simpl. lia. }
    split_and!; try lia.
    + rewrite E3. cbn [activeWatchers]. rewrite lookup_insert_eq.
      eexists. split; [done|]. done.
    + rewrite E4. cbn [activeWatchers]. by rewrite lookup_delete_eq.
    + rewrite E4, E3, E2, E1. cbn [trace].
      rewrite !filter_app. simpl. rewrite Hss. simpl.
      by rewrite !app_nil_r.
  - intros st session pathA A optsA nowA statsA Hnone r1.
    assert (r1 =
      ({| activeWatchers :=
            <[session := withStats newWatcherInfo statsA]>
              (activeWatchers st);
          nextWatcher := nextWatcher st;
          trace := trace st ++ [SendExistingContent session pathA A] |},
       Thrown)) as E1.
    { subst r1. unfold addClient. by rewrite Hnone. }
    clearbody r1. subst r1. cbn [fst snd].
    assert (clients (withStats newWatcherInfo statsA) = []
            ∧ watcher (withStats newWatcherInfo statsA) = None)
      as [Hc Hw] by (by destruct statsA as [[? ?]|]).
    split_and!.
    + done.
    + cbn [activeWatchers]. rewrite lookup_insert_eq. by eexists.
    + unfold clientsOf. cbn [activeWatchers]. by rewrite lookup_insert_eq.
    + rewrite created_app. simpl. lia.
    + intros pathB B optsB nowB statsB watchedB.
      unfold addClient. cbn [activeWatchers].
      rewrite lookup_insert_eq. cbn [fst snd nextWatcher trace].
      split_and!; [done | |].
      * unfold created. cbn [trace]. rewrite !filter_app, !length_app.
        simpl. lia.
      * cbn [activeWatchers]. rewrite lookup_insert_eq. eexists.
        split; [done|]. by rewrite Hc.
  - vm_compute. split_and!; try done. by eexists.
Qed.

End WatcherFacts.

(** ** Log tail watcher: the live tail *)

Section LiveTailFacts.
Import StreamWatcher.

Variable parseLine : string → ParsedLine.
Variable toString : list Z → string.

(** *** Splitting a text into lines *)

Lemma append_cons (x : ascii) (a b : string) :
  String x a +:+ b = String x (a +:+ b).
Proof. done. Qed.

Lemma append_nil_l (b : string) : "" +:+ b = b.
Proof. done. Qed.

Lemma append_assoc (a b c : string) : (a +:+ b) +:+ c = a +:+ (b +:+ c).
Proof.
  induction a as [|x a IH]; [done|]. by rewrite !append_cons, IH.
Qed.

Lemma append_nil_r (a : string) : a +:+ "" = a.
Proof. induction a as [|x a IH]; [done|]. by rewrite append_cons, IH. Qed.

Lemma rev_app_append (s1 : string) : ∀ s2,
  String.rev_app s1 s2 = String.rev s1 +:+ s2.
Proof.
  unfold String.rev. induction s1 as [|x s1 IH]; intros s2; [done|].
  simpl. rewrite (IH (String x s2)), (IH (String x "")).
  by rewrite append_assoc.
Qed.

Lemma split_piece sep s : ∀ piece,
  split sep s piece
  = match split sep s "" with
    | first :: others => (String.rev piece +:+ first) :: others
    | [] => []
    end.
Proof.
  induction s as [|c s IH]; intros piece.
  - simpl. by rewrite append_nil_r.
  - simpl. destruct (Ascii.eqb c sep).
    + simpl. by rewrite append_nil_r.
    + rewrite (IH (String c piece)), (IH (String c "")).
      destruct (split sep s "") as [|first others]; [done|].
      unfold String.rev at 1 3. simpl.
      by rewrite !rev_app_append, append_assoc.
Qed.

Lemma split_cutLines text :
  split newline text "" = (cutLines text).1 ++ [(cutLines text).2].
Proof.
  induction text as [|c text IH]; [done|].
  simpl. destruct (cutLines text) as [lines rest]. simpl in IH.
  destruct (Ascii.eqb c newline); [by rewrite IH|].
  rewrite split_piece, IH.
  destruct lines as [|line lines']; done.
Qed.

Lemma completeLines_cut text : completeLines text = (cutLines text).1.
Proof.
  unfold completeLines. rewrite split_cutLines.
  by rewrite removelast_last.
Qed.

Lemma unterminated_cut text : unterminated text = (cutLines text).2.
Proof.
  unfold unterminated. rewrite split_cutLines. by rewrite last_last.
Qed.

Lemma cutLines_app a b :
  cutLines (a +:+ b)
  = ((cutLines a).1 ++ (cutLines ((cutLines a).2 +:+ b)).1,
     (cutLines ((cutLines a).2 +:+ b)).2).
Proof.
  induction a as [|c a IH].
  - rewrite append_nil_l. simpl. rewrite append_nil_l.
    by destruct (cutLines b).
  - rewrite append_cons. simpl. rewrite IH.
    destruct (cutLines a) as [lines rest]. simpl.
    destruct (Ascii.eqb c newline) eqn:Hc; [done|].
    destruct lines as [|line lines']; simpl; [|done].
    rewrite Hc. by destruct (cutLines (rest +:+ b)) as [[|l ls] r].
Qed.

(** Reading a text in two parts gives the lines of the whole. *)
Lemma completeLines_app a b :
  completeLines (a +:+ b)
  = completeLines a ++ completeLines (unterminated a +:+ b).
Proof. by rewrite !completeLines_cut, unterminated_cut, cutLines_app. Qed.

Lemma unterminated_app a b :
  unterminated (a +:+ b) = unterminated (unterminated a +:+ b).
Proof. by rewrite !unterminated_cut, cutLines_app. Qed.

Lemma concat_snoc (l : list string) (s : string) :
  String.concat "" (l ++ [s]) = String.concat "" l +:+ s.
Proof.
  induction l as [|x l IH]; [done|].
  destruct l as [|y l]; [done|].
  change (String.concat "" ((x :: y :: l) ++ [s]))
    with (x +:+ "" +:+ String.concat "" ((y :: l) ++ [s])).
  rewrite IH.
  change (String.concat "" (x :: y :: l))
    with (x +:+ "" +:+ String.concat "" (y :: l)).
  by rewrite !append_assoc.
Qed.

(** *** The lines that are broadcast *)

Local Abbreviation onChange' := (onChange parseLine toString).
Local Abbreviation text_of info reads :=
  (lineBuffer info +:+ String.concat "" (toString ∘ readData <$> reads)).

(** What follows the last newline holds no newline. *)
Lemma cutLines_rest text :
  cutLines (cutLines text).2 = ([], (cutLines text).2).
Proof.
  induction text as [|c text IH]; [done|].
  simpl. destruct (cutLines text) as [lines rest]. simpl in IH.
  destruct (Ascii.eqb c newline) eqn:Hc; [done|].
  destruct lines as [|line lines']; [|done].
  simpl. by rewrite IH, Hc.
Qed.

Lemma cutLines_no_line text :
  (cutLines text).1 = [] → (cutLines text).2 = text.
Proof.
  induction text as [|c text IH]; [done|].
  simpl. destruct (cutLines text) as [lines rest]. simpl in IH.
  destruct (Ascii.eqb c newline); [done|].
  destruct lines as [|line lines']; [|done].
  simpl. intros _. by rewrite IH.
Qed.

Lemma completeLines_unterminated text :
  completeLines (unterminated text) = [].
Proof. by rewrite completeLines_cut, unterminated_cut, cutLines_rest. Qed.

Lemma unterminated_no_line text :
  completeLines text = [] → unterminated text = text.
Proof.
  rewrite completeLines_cut, unterminated_cut. apply cutLines_no_line.
Qed.

(** *** The lines that are broadcast, and the reads *)

Local Abbreviation step :=
  (λ '(info, lines, reads) c,
     let r := onChange parseLine toString info c in
     (after r, lines ++ broadcast r,
      reads ++ match readMade r with Some rd => [rd] | None => [] end)).

Lemma text_snoc (reads : list Read) (rd : Read) :
  String.concat "" (toString ∘ readData <$> reads ++ [rd])
  = String.concat "" (toString ∘ readData <$> reads)
    +:+ toString (readData rd).
Proof. rewrite fmap_app. apply concat_snoc. Qed.

Lemma contiguous_snoc from reads mid rd :
  contiguous from reads mid →
  readFrom rd = mid → mid < readTo rd →
  contiguous from (reads ++ [rd]) (readTo rd).
Proof.
  revert from. induction reads as [|r reads IH]; intros from; simpl.
  - intros <- ? ?. done.
  - intros (? & ? & ?) ? ?. split_and!; [done | done | by apply IH].
Qed.

Lemma contiguous_le from reads to :
  contiguous from reads to → from ≤ to.
Proof.
  revert from. induction reads as [|r reads IH]; intros from; simpl.
  - intros ->. lia.
  - intros (? & ? & H%IH). lia.
Qed.

(** What a run of change events keeps true, from any state it has
    reached. *)
Lemma onChanges_invariant (buffer0 : string) (offset0 : Z) cs :
  ∀ info lines reads,
    let text reads :=
      buffer0 +:+ String.concat "" (toString ∘ readData <$> reads) in
    lines = List.filter (notBlank parseLine) (completeLines (text reads)) →
    lineBuffer info = unterminated (text reads) →
    contiguous offset0 reads (lastOffset info) →
    let '(final, lines', reads') := foldl step (info, lines, reads) cs in
    lines' = List.filter (notBlank parseLine) (completeLines (text reads'))
    ∧ lineBuffer final = unterminated (text reads')
    ∧ contiguous offset0 reads' (lastOffset final).
Proof.
  induction cs as [|c cs IH]; intros info lines reads text Hl Hb Hc.
  - simpl. done.
  - simpl foldl. apply IH; clear IH.
    + destruct c as [|size mtimeMs [data|]]; simpl;
        try (destruct (_ || _); [destruct (_ <? size)|]); simpl;
        rewrite ?app_nil_r; try done.
      rewrite text_snoc. simpl readData.
      rewrite <- append_assoc. fold (text reads).
      rewrite (completeLines_app (text reads)), filter_app, <- Hl, <- Hb.
      done.
    + destruct c as [|size mtimeMs [data|]]; simpl;
        try (destruct (_ || _); [destruct (_ <? size)|]); simpl;
        rewrite ?app_nil_r; try done.
      rewrite text_snoc. simpl readData.
      rewrite <- append_assoc. fold (text reads).
      by rewrite (unterminated_app (text reads)), <- Hb.
    + destruct c as [|size mtimeMs [data|]]; simpl;
        try (destruct (_ || _); [destruct (_ <? size) eqn:Hs|]); simpl;
        rewrite ?app_nil_r; try done.
      apply Z.ltb_lt in Hs.
      by apply (contiguous_snoc _ _ (lastOffset info)
                  {| readFrom := lastOffset info; readTo := size;
                     readData := data |}).
Qed.

(** X1: the lines of the live tail.  Each read is decoded by itself,
    and the texts the reads decode to are joined in the order of the
    reads.  Whatever the change events report, the lines passed to
    [broadcastLine] are the complete lines, blank ones left out, of that
    joined text, in order, each once; what follows the last newline waits
    in [lineBuffer], which never holds a newline.  The joined text is the
    text of the file only where no read ends inside a character. *)
Theorem live_lines_are_the_lines_of_the_text (info : WatcherInfo)
    (cs : list Change) :
  completeLines (lineBuffer info) = [] →
  let '(final, lines, reads) := onChanges parseLine toString info cs in
  let text :=
    lineBuffer info
    +:+ String.concat "" (toString ∘ readData <$> reads) in
  lines = List.filter (notBlank parseLine) (completeLines text)
  ∧ lineBuffer final = unterminated text
  ∧ completeLines (lineBuffer final) = [].
Proof.
  intros Hbuf. unfold onChanges.
  pose proof (onChanges_invariant (lineBuffer info) (lastOffset info) cs
                info [] []) as H.
  simpl in H. rewrite append_nil_r in H.
  specialize (H ltac:(by rewrite Hbuf)
                ltac:(by rewrite unterminated_no_line) eq_refl).
  destruct (foldl _ _ cs) as [[final lines] reads].
  destruct H as (Hl & Hb & _). split_and!; [done | done |].
  rewrite Hb. apply completeLines_unterminated.
Qed.

(** X2: the reads of the live tail follow one another.  Each read starts
    at the offset where the read before it ended and reads at least one
    byte, so no byte of the file is read twice and none between two reads
    is left out, whatever sizes and mtimes the change events report and
    whichever reads fail; [lastOffset] never goes back. *)
Theorem reads_follow_one_another (info : WatcherInfo) (cs : list Change) :
  let '(final, lines, reads) := onChanges parseLine toString info cs in
  contiguous (lastOffset info) reads (lastOffset final)
  ∧ lastOffset info ≤ lastOffset final.
Proof.
  unfold onChanges.
  assert (∀ cs info0 lines reads,
            contiguous (lastOffset info) reads (lastOffset info0) →
            let '(final, lines', reads') :=
              foldl step (info0, lines, reads) cs in
            contiguous (lastOffset info) reads' (lastOffset final)) as H.
  { clear cs. induction cs as [|c cs IH]; intros info0 lines reads Hc;
      [done|].
    simpl foldl. apply IH.
    destruct c as [|size mtimeMs [data|]]; simpl;
      try (destruct (_ || _); [destruct (_ <? size) eqn:Hs|]); simpl;
      rewrite ?app_nil_r; try done.
    apply Z.ltb_lt in Hs.
    by apply (contiguous_snoc _ _ (lastOffset info0)
                {| readFrom := lastOffset info0; readTo := size;
                   readData := data |}). }
  specialize (H cs info [] [] eq_refl).
  destruct (foldl _ _ cs) as [[final lines] reads].
  split; [done | by eapply contiguous_le].
Qed.

(** *** What a line becomes for each client *)

Lemma broadcastLine_wires broken now clients line :
  broadcastLine parseLine broken now clients line
  = flat_map
      (λ client,
         if broken (response client) then []
         else wiresFor parseLine now client line)
      clients.
Proof.
  unfold broadcastLine, wiresFor.
  destruct (parseLine line) as [| |h|[t k d|c s]|]; try done.
  induction clients as [|client clients IH]; [done|].
  simpl. rewrite <- IH. by destruct (broken (response client)).
Qed.

Lemma wiresFor_toResponse now client line r :
  List.filter (toResponse r) (wiresFor parseLine now client line)
  = if bool_decide (response client = r)
    then wiresFor parseLine now client line else [].
Proof.
  unfold wiresFor.
  destruct (parseLine line) as [| |h|[t k d|c s]|]; simpl;
    destruct (bool_decide (response client = r)); done.
Qed.

(** X3: what [broadcastLine] sends.  A header line is sent to nobody.  For
    any other line every client whose response can be written to is sent
    one event: the exit event as it is, followed by the end of the
    response; an event of the log, input events included, with the time
    since that client joined; any other line, as an output event that
    carries the line.  A client whose response throws is sent nothing and
    changes nothing for the others. *)
Theorem broadcast_reaches_each_client (broken : Response → bool) (now : Q)
    (clients : list StreamClient) (line : string) :
  let wires := broadcastLine parseLine broken now clients line in
  wires
  = flat_map (λ client, wiresFor parseLine now client line)
      (List.filter (λ client, negb (broken (response client))) clients)
  ∧ (∀ r, broken r = true → List.filter (toResponse r) wires = [])
  ∧ (NoDup (response <$> clients) →
     ∀ client, client ∈ clients → broken (response client) = false →
       List.filter (toResponse (response client)) wires
       = wiresFor parseLine now client line)
  ∧ ((∃ h, parseLine line = HeaderLine h) → wires = [])
  ∧ (∀ t kind data, parseLine line = EventLine (Timed t kind data) →
     ∀ client,
       wiresFor parseLine now client line
       = [ResponseWrite (response client)
            (Timed (now - startTime client) kind data)]).
Proof.
  intros wires. subst wires. rewrite broadcastLine_wires.
  split_and!.
  - induction clients as [|client clients IH]; [done|].
    simpl. rewrite IH. by destruct (broken (response client)).
  - intros r Hr. induction clients as [|client clients IH]; [done|].
    simpl. rewrite filter_app, IH, app_nil_r.
    destruct (broken (response client)) eqn:Hb; [done|].
    rewrite wiresFor_toResponse.
    destruct (bool_decide (response client = r)) eqn:He; [|done].
    apply bool_decide_eq_true in He. congruence.
  - intros Hnd client Hin Hb.
    induction clients as [|c clients IH]; [by apply elem_of_nil in Hin|].
    rewrite fmap_cons in Hnd. apply list.NoDup_cons in Hnd as [Hfresh Hnd].
    simpl. rewrite filter_app.
    apply list.elem_of_cons in Hin as [<- | Hin].
    + rewrite Hb, wiresFor_toResponse, bool_decide_eq_true_2 by done.
      assert (List.filter (toResponse (response client))
                (flat_map
                   (λ client0,
                      if broken (response client0) then []
                      else wiresFor parseLine now client0 line) clients)
              = []) as ->; [|by rewrite app_nil_r].
      clear IH Hnd. induction clients as [|c clients IH]; [done|].
      simpl. rewrite filter_app, IH, app_nil_r.
      * destruct (broken (response c)); [done|].
        rewrite wiresFor_toResponse, bool_decide_eq_false_2; [done|].
        intros He. apply Hfresh. rewrite fmap_cons, <- He.
        apply list_elem_of_here.
      * intros Hin. apply Hfresh. rewrite fmap_cons.
        by apply list_elem_of_further.
    + rewrite (IH Hnd Hin).
      assert (response c ≠ response client) as Hne.
      { intros He. apply Hfresh. rewrite He.
        apply list_elem_of_fmap. by exists client. }
      destruct (broken (response c)); [done|].
      rewrite wiresFor_toResponse, bool_decide_eq_false_2 by done. done.
  - intros [h Hh]. unfold wiresFor. rewrite Hh.
    induction clients as [|c clients IH]; [done|].
    simpl. rewrite IH. by destruct (broken (response c)).
  - intros t kind data Hp client. unfold wiresFor. by rewrite Hp.
Qed.

End LiveTailFacts.

(** An instance of [live_lines_are_the_lines_of_the_text]: two reads that
    cut the second line in two; the blank line is not passed on, and the
    rest waits. *)
Lemma live_lines_are_the_lines_of_the_text_witness :
  let '(final, lines, reads) :=
    StreamWatcher.onChanges StreamWatcher.exampleParse StreamWatcher.textOf
      StreamWatcher.newWatcherInfo StreamWatcher.exampleChanges in
  lines = ["o a"; "o b"] ∧ StreamWatcher.lineBuffer final = "x".
Proof.
  pose proof (live_lines_are_the_lines_of_the_text StreamWatcher.exampleParse
                StreamWatcher.textOf
                StreamWatcher.newWatcherInfo StreamWatcher.exampleChanges
                eq_refl) as H.
  destruct (StreamWatcher.onChanges _ _ _) as [[final lines] reads] eqn:E.
  vm_compute in E. injection E as <- <- <-.
  destruct H as (Hl & Hb & _).
  split; [rewrite Hl | rewrite Hb]; vm_compute; reflexivity.
Defined.

(** An instance of [reads_follow_one_another]: the two reads of the example
    are the bytes 0 to 5 and 5 to 11. *)
Lemma reads_follow_one_another_witness :
  let '(final, lines, reads) :=
    StreamWatcher.onChanges StreamWatcher.exampleParse StreamWatcher.textOf
      StreamWatcher.newWatcherInfo StreamWatcher.exampleChanges in
  StreamWatcher.contiguous 0 reads 10.
Proof.
  pose proof (reads_follow_one_another StreamWatcher.exampleParse
                StreamWatcher.textOf
                StreamWatcher.newWatcherInfo StreamWatcher.exampleChanges)
    as H.
  destruct (StreamWatcher.onChanges _ _ _) as [[final lines] reads] eqn:E.
  vm_compute in E. injection E as <- <- <-.
  exact (proj1 H).
Defined.

(** An instance of [broadcast_reaches_each_client]: an output line sent to
    two clients, the second one broken. *)
Lemma broadcast_reaches_each_client_witness :
  List.filter (StreamWatcher.toResponse 1%nat)
    (StreamWatcher.broadcastLine StreamWatcher.exampleParse
       StreamWatcher.secondBroken 15 StreamWatcher.exampleClients "o hi")
  = [StreamWatcher.ResponseWrite 1%nat (Timed (15 - 10) "o" "hi")].
Proof.
  destruct (broadcast_reaches_each_client StreamWatcher.exampleParse
              StreamWatcher.secondBroken 15 StreamWatcher.exampleClients
              "o hi") as (_ & _ & Hone & _).
  apply (Hone (NoDup_cons_2 1%nat [2%nat]
                 ltac:(intros [=]%list_elem_of_singleton)
                 (NoDup_singleton 2%nat))
           {| StreamWatcher.response := 1%nat; StreamWatcher.startTime := 10;
              StreamWatcher.options := None |}).
  - apply list_elem_of_here.
  - reflexivity.
Defined.

(** ** Log tail watcher: the replay without a tail, the offsets, the
    worker's chunk, and the count of watchers *)

Section ReplayFacts.
Import StreamWatcher.

(** *** The replay without a tail *)

Lemma legacyLoop_spec (range : list AsciinemaEvent) : ∀ acc,
  foldl legacyLoopBody acc range
  = (acc.1 ++ (SentEvent ∘ normalizedEvent
                 <$> List.filter (λ e, isExitEvent e || kept e) range),
     acc.2 || existsb isExitEvent range).
Proof.
  induction range as [|event range IH]; intros [written found].
  - simpl. by rewrite app_nil_r, orb_false_r.
  - simpl foldl. rewrite IH. unfold legacyLoopBody, kept.
    destruct event as [t k d|c s]; simpl.
    + destruct (String.eqb k "o") eqn:Ho; simpl.
      * by rewrite <- app_assoc.
      * destruct (String.eqb k "r") eqn:Hr; simpl; [|done].
        by rewrite <- app_assoc.
    + rewrite <- app_assoc. simpl. by rewrite orb_true_r.
Qed.

Lemma effectiveTailLines_noTail requested :
  noTail requested → effectiveTailLines requested = 0.
Proof.
  destruct requested as [n|]; simpl; [|done].
  unfold MAX_INITIAL_TAIL_LINES. lia.
Qed.

(** X4: the replay for a client that asks for no tail.  When
    [initialTailLines] is absent, not finite, or not above zero, the client
    is sent the header, if one was read, then every output, resize and exit
    event recorded after the last clear, in the order of the log, output
    and resize events with their time set to zero, and the stream is ended
    exactly when an exit event is among them.  Nothing recorded up to the
    clear and no input event is sent, and no history chunk. *)
Theorem replay_without_tail (st : Scan) (startOffset : Z)
    (sessionExists : bool) (requested : option Z) :
  noTail requested →
  let post := from_index (events st) (baseStartIndex st) in
  sent (replay st startOffset sessionExists requested)
  = match headerToSend st with Some h => [SentHeader h] | None => [] end
    ++ (SentEvent ∘ normalizedEvent
          <$> List.filter (λ e, isExitEvent e || kept e) post)
    ++ (if existsb isExitEvent post then [EndOfStream] else [])
  ∧ sentChunk (sent (replay st startOffset sessionExists requested)) = None.
Proof.
  intros Hno post. unfold replay.
  rewrite (effectiveTailLines_noTail _ Hno). simpl andb. cbv iota.
  fold post. rewrite legacyLoop_spec. simpl.
  split; [done|].
  assert (∀ l : list AsciinemaEvent, ∀ tl,
            sentChunk tl = None →
            sentChunk ((SentEvent ∘ normalizedEvent <$> l) ++ tl) = None)
    as Hn.
  { induction l as [|e l IH]; intros tl Htl; [done|]. simpl. by apply IH. }
  destruct (headerToSend st); simpl; apply Hn;
    by destruct (existsb isExitEvent post).
Qed.

(** An instance of [replay_without_tail]: a log of an output, an input,
    an exit and one more output event. *)
Lemma replay_without_tail_witness :
  sent (replay
          (scanOf [Timed 1 "o" "a"; Timed 2 "i" "k"; Exit 0 "s";
                   Timed 3 "o" "b"])
          0 true (Some 0))
  = [SentEvent (Timed 0 "o" "a"); SentEvent (Exit 0 "s");
     SentEvent (Timed 0 "o" "b"); EndOfStream].
Proof.
  destruct (replay_without_tail
              (scanOf [Timed 1 "o" "a"; Timed 2 "i" "k"; Exit 0 "s";
                       Timed 3 "o" "b"])
              0 true (Some 0)) as [H _]; [simpl; lia|].
  rewrite H. vm_compute. reflexivity.
Defined.

(** *** The worker's chunk *)

Lemma loops_agree (range : list AsciinemaEvent) : ∀ acc lst,
  chunkEvents acc = HistoryChunk.chunkEvents lst →
  outputCount acc = HistoryChunk.outputCount lst →
  exitEventToSend acc = HistoryChunk.lastExit lst →
  chunkEvents (foldl chunkLoopBody acc range)
    = HistoryChunk.chunkEvents (foldl HistoryChunk.loopBody lst range)
  ∧ outputCount (foldl chunkLoopBody acc range)
    = HistoryChunk.outputCount (foldl HistoryChunk.loopBody lst range)
  ∧ exitEventToSend (foldl chunkLoopBody acc range)
    = HistoryChunk.lastExit (foldl HistoryChunk.loopBody lst range).
Proof.
  induction range as [|event range IH]; intros acc lst He Hc Hx; [done|].
  simpl foldl. apply IH; clear IH;
    unfold chunkLoopBody, HistoryChunk.loopBody;
    destruct event as [t k d|c s]; simpl; try done;
    destruct (String.eqb k "o"); simpl; try congruence;
    destruct (String.eqb k "r"); simpl; congruence.
Qed.

Lemma tail_nonempty (evs : list AsciinemaEvent) (base N : Z) :
  0 ≤ base → 0 < N → base < Z.of_nat (length evs) →
  base ≤ tailStartIndex evs base N < Z.of_nat (length evs).
Proof.
  intros Hb HN Hlt.
  assert (from_index evs base ≠ []) as Hpost.
  { unfold from_index. intros H. apply (f_equal length) in H.
    rewrite length_drop in H. simpl in H. lia. }
  destruct (tailStartIndex_split evs base N Hb HN Hpost)
    as (older & newer & Hsplit & Hnewer & Hstart & Hout & Hfirst & Hfew).
  assert (newer ≠ []) as Hne.
  { intros ->. rewrite app_nil_r in Hsplit.
    destruct (decide (N ≤ outputs (from_index evs base))) as [Hge|Hlt'].
    - destruct (Hfirst Hge) as (first & Hhd & _). done.
    - rewrite Hfew in Hsplit by lia. done. }
  assert (length (from_index evs base)
          = (length older + length newer)%nat) as Hlen
    by (by rewrite Hsplit, length_app).
  unfold from_index in Hlen. rewrite length_drop in Hlen.
  destruct newer; [done|]. simpl in Hlen. lia.
Qed.

(** X5: the worker's chunk is the chunk the watcher builds inline.  Given
    the locals of the tail branch of [sendExistingContent] as its payload,
    [buildHistoryChunk] returns the exit event the watcher sends after the
    chunk, the same count of output events, and, filed under its session,
    the very chunk the watcher sends; except that for a tail without any
    output or resize event the watcher sends a chunk with no events where
    the worker returns no payload. *)
Theorem worker_builds_the_inline_chunk (st : Scan) (startOffset : Z)
    (sessionExists : bool) (requested : option Z) (sessionId : string) :
  let N := effectiveTailLines requested in
  0 < N →
  baseStartIndex st < Z.of_nat (length (events st)) →
  let r :=
    HistoryChunk.buildHistoryChunk
      (taskPayloadOf st sessionId startOffset N) in
  ∃ chunk,
    sent (replay st startOffset sessionExists requested)
    = match headerToSend st with Some h => [SentHeader h] | None => [] end
      ++ [SentChunk chunk]
      ++ match HistoryChunk.exitEvent r with
         | Some e => [SentEvent e; EndOfStream]
         | None => []
         end
    ∧ HistoryChunk.r_chunkOutputEvents r = chunkOutputEvents chunk
    ∧ (HistoryTypes.events chunk ≠ [] →
       HistoryChunk.payload r = Some (withSessionId chunk sessionId))
    ∧ (HistoryTypes.events chunk = [] → HistoryChunk.payload r = None).
Proof.
  intros N HN Hlt r.
  unfold replay. fold N.
  replace (0 <? N) with true by (symmetry; by apply Z.ltb_lt).
  replace (baseStartIndex st <? Z.of_nat (length (events st))) with true
    by (symmetry; by apply Z.ltb_lt).
  cbn [andb]. cbv zeta.
  set (start := tailStartIndex (events st) (baseStartIndex st) N).
  set (range := from_index (events st) start).
  destruct (loops_agree range
              {| chunkEvents := []; outputCount := 0;
                 exitEventToSend := None |}
              {| HistoryChunk.chunkEvents := [];
                 HistoryChunk.outputCount := 0;
                 HistoryChunk.lastExit := None |})
    as (He & Hc & Hx); [done | done | done |].
  set (acc := foldl chunkLoopBody _ range) in *.
  assert (r = HistoryChunk.buildHistoryChunk
                (taskPayloadOf st sessionId startOffset N)) as Hr by done.
  unfold HistoryChunk.buildHistoryChunk, taskPayloadOf in Hr.
  cbn [HistoryChunk.p_events HistoryChunk.sendStartIndex] in Hr.
  fold start in Hr. fold range in Hr.
  set (lst := foldl HistoryChunk.loopBody _ range) in *.
  cbn in Hr. fold start in Hr.
  eexists. cbn [sent]. split_and!.
  - rewrite Hr. cbn [HistoryChunk.exitEvent]. by rewrite Hx.
  - rewrite Hr. cbn. by rewrite Hc.
  - cbn [HistoryTypes.events]. intros Hne. rewrite Hr.
    cbn [HistoryChunk.payload]. rewrite <- He.
    destruct (chunkEvents acc) as [|e es] eqn:Hes; [done|].
    replace (0 <? Z.of_nat (length (e :: es))) with true
      by (symmetry; apply Z.ltb_lt; simpl; lia).
    unfold withSessionId. cbn. by rewrite <- Hc.
  - cbn [HistoryTypes.events]. intros Hnil. rewrite Hr.
    cbn [HistoryChunk.payload]. by rewrite <- He, Hnil.
Qed.

(** An instance of [worker_builds_the_inline_chunk]: the tail of two
    output events of the example. *)
Lemma worker_builds_the_inline_chunk_witness :
  ∃ chunk,
    sentChunk (sent (replay exampleScan 0 true (Some 2))) = Some chunk
    ∧ HistoryChunk.payload
        (HistoryChunk.buildHistoryChunk (taskPayloadOf exampleScan "s" 0 2))
      = Some (withSessionId chunk "s")
    ∧ HistoryTypes.events chunk = [Timed 0 "o" "b"; Timed 0 "o" "c"].
Proof.
  destruct (worker_builds_the_inline_chunk exampleScan 0 true (Some 2) "s")
    as (chunk & Hsent & _ & Hpayload & _); [done | done |].
  exists chunk.
  assert (sentChunk (sent (replay exampleScan 0 true (Some 2))) = Some chunk)
    as Hc by (by rewrite Hsent).
  assert (HistoryTypes.events chunk = [Timed 0 "o" "b"; Timed 0 "o" "c"])
    as Hev.
  { vm_compute in Hc. injection Hc as <-. reflexivity. }
  split_and!; [exact Hc | | exact Hev].
  apply Hpayload. by rewrite Hev.
Defined.

(** *** The offsets of the events *)

Lemma bytesOf_app l1 l2 : bytesOf (l1 ++ l2) = bytesOf l1 + bytesOf l2.
Proof.
  induction l1 as [|l l1 IH]; [done|]. simpl. rewrite IH. lia.
Qed.

Section Offsets.

Variable parseLine : string → ParsedLine.
Variable containsPruningSequence : string → bool.
Variable findLastPrunePoint : string → option PrunePoint.
Variable calculatePruningPositionInFile : Z → string → Z → Z.

Local Abbreviation eventLines lines :=
  (length (List.filter (isEventLine parseLine) lines)).

Lemma readLines_offsets header0 startOffset lines :
  let p := foldl (readLine parseLine)
             (startProgress header0 startOffset) lines in
  length (pr_eventOffsets p) = eventLines lines
  ∧ length (pr_events p) = eventLines lines
  ∧ pr_fileOffset p = startOffset + bytesOf lines
  ∧ ∀ i event o,
      pr_events p !! i = Some event → pr_eventOffsets p !! i = Some o →
      ∃ before line later,
        lines = before ++ line :: later
        ∧ parseLine line = EventLine event
        ∧ eventLines before = i
        ∧ o = startOffset + bytesOf before.
Proof.
  induction lines as [|l lines IH] using rev_ind.
  - simpl. split_and!; [done | done | lia |]. intros i event o H.
    by rewrite lookup_nil in H.
  - rewrite foldl_app. simpl foldl.
    set (p := foldl (readLine parseLine) _ lines) in *.
    destruct IH as (Ho & He & Hf & Hat).
    rewrite filter_app, length_app, bytesOf_app. simpl bytesOf.
    assert (length (List.filter (isEventLine parseLine) [l])
            = if isEventLine parseLine l then 1%nat else 0%nat) as ->
      by (simpl; by destruct (isEventLine parseLine l)).
    assert (isEventLine parseLine l
            = match parseLine l with EventLine _ => true | _ => false end)
      as -> by done.
    unfold readLine.
    destruct (parseLine l) as [| |h|event|] eqn:Hl; simpl;
      rewrite ?Nat.add_0_r.
    1,2,3,5:
      (split_and!; [done | done | lia |];
       intros i ev o Hev Hoff;
       destruct (Hat i ev o Hev Hoff) as (b & x & a & -> & ? & ? & ?);
       exists b, x, (a ++ [l]); by rewrite <- app_assoc).
    split_and!; [rewrite length_app; simpl; lia
                | rewrite length_app; simpl; lia | lia |].
    intros i ev o Hev Hoff.
    destruct (decide (i < length (pr_events p))%nat) as [Hlt|Hge].
    + rewrite lookup_app_l in Hev by done.
      rewrite lookup_app_l in Hoff by lia.
      destruct (Hat i ev o Hev Hoff) as (b & x & a & -> & ? & ? & ?).
      exists b, x, (a ++ [l]). by rewrite <- app_assoc.
    + rewrite lookup_app_r in Hev by lia.
      rewrite lookup_app_r in Hoff by lia.
      rewrite Ho, <- He in Hoff.
      destruct (i - length (pr_events p))%nat as [|n] eqn:Hi;
        [|by rewrite lookup_cons, lookup_nil in Hev].
      simpl in Hev, Hoff. injection Hev as <-. injection Hoff as <-.
      exists lines, l, []. split_and!; [done | done | lia | lia].
Qed.

(** X6: the offsets of the scan.  The analysis pass over a log, read from
    [startOffset] as complete lines and an unterminated rest, records one
    offset for each event it keeps, and the offset of an event is the
    byte position at which its line starts: [startOffset] plus the bytes
    of the lines before it, each counted with its newline.  [fileOffset]
    ends at the bytes of all the lines, plus those of the rest when the
    rest is JSON. *)
Theorem scan_offsets_are_line_starts (header0 : option AsciinemaHeader)
    (startOffset : Z) (lines : list string) (rest : string) :
  let st :=
    analyse parseLine containsPruningSequence findLastPrunePoint
      calculatePruningPositionInFile header0 startOffset lines rest in
  length (eventOffsets st) = length (events st)
  ∧ (∀ i event o,
       events st !! i = Some event → eventOffsets st !! i = Some o →
       readAt parseLine lines rest startOffset i event o)
  ∧ fileOffset st
    = startOffset + bytesOf lines
      + match parseLine rest with
        | Blank | Invalid => 0
        | _ => Z.of_nat (String.length rest)
        end.
Proof.
  intros st. subst st. unfold analyse.
  set (scanned := foldl _ (initialScan header0 startOffset) lines).
  pose proof (progress_lines parseLine containsPruningSequence
                findLastPrunePoint calculatePruningPositionInFile
                lines (initialScan header0 startOffset)) as Hp.
  fold scanned in Hp.
  pose proof (readLines_offsets header0 startOffset lines) as Hr.
  change (progress (initialScan header0 startOffset))
    with (startProgress header0 startOffset) in Hp.
  rewrite <- Hp in Hr. unfold progress in Hr. simpl in Hr.
  destruct Hr as (Ho & He & Hf & Hat).
  unfold onRest.
  destruct (parseLine rest) as [| |h|event|] eqn:Hrest; simpl.
  1,2,3,5:
    (split_and!; [lia | | lia];
     intros i ev o Hev Hoff; left; by apply Hat).
  assert (length (eventOffsets
                    (scanEvent containsPruningSequence findLastPrunePoint
                       calculatePruningPositionInFile scanned event rest
                       (fileOffset scanned)
                       (fileOffset scanned + Z.of_nat (String.length rest))))
          = S (length (eventOffsets scanned))
          ∧ events (scanEvent containsPruningSequence findLastPrunePoint
                      calculatePruningPositionInFile scanned event rest
                      (fileOffset scanned)
                      (fileOffset scanned + Z.of_nat (String.length rest)))
            = events scanned ++ [event]
          ∧ eventOffsets
              (scanEvent containsPruningSequence findLastPrunePoint
                 calculatePruningPositionInFile scanned event rest
                 (fileOffset scanned)
                 (fileOffset scanned + Z.of_nat (String.length rest)))
            = eventOffsets scanned ++ [fileOffset scanned]
          ∧ fileOffset
              (scanEvent containsPruningSequence findLastPrunePoint
                 calculatePruningPositionInFile scanned event rest
                 (fileOffset scanned)
                 (fileOffset scanned + Z.of_nat (String.length rest)))
            = fileOffset scanned + Z.of_nat (String.length rest))
    as (Hlen & -> & -> & ->).
  { unfold scanEvent. destruct event as [t k d|c s]; simpl;
      rewrite length_app; simpl; split_and!; try done; lia. }
  split_and!; [rewrite !length_app; simpl; lia | | lia].
  intros i ev o Hev Hoff.
  destruct (decide (i < length (events scanned))%nat) as [Hlt|Hge].
  - rewrite lookup_app_l in Hev by done.
    rewrite lookup_app_l in Hoff by lia.
    left. by apply Hat.
  - rewrite lookup_app_r in Hev by lia.
    rewrite lookup_app_r in Hoff by lia.
    rewrite Ho, <- He in Hoff.
    destruct (i - length (events scanned))%nat as [|n] eqn:Hi;
      [|by rewrite lookup_cons, lookup_nil in Hev].
    simpl in Hev, Hoff. injection Hev as <-. injection Hoff as <-.
    right. split_and!; [done | lia | lia].
Qed.

End Offsets.

(** X7: the offsets of a history chunk.  For a scan that holds one offset
    for each event, the chunk of a tail starts at the offset of the first
    event it was cut at, never at the fallback [startOffset]; its
    [previousOffset] is the offset of the event just before that one when
    [hasMore] is set and is null otherwise; and its [nextOffset] is the
    [fileOffset] the scan ended at. *)
Theorem chunk_offsets (st : Scan) (startOffset : Z) (sessionExists : bool)
    (requested : option Z) :
  let N := effectiveTailLines requested in
  let start := tailStartIndex (events st) (baseStartIndex st) N in
  0 < N →
  baseStartIndex st < Z.of_nat (length (events st)) →
  length (eventOffsets st) = length (events st) →
  ∃ chunk,
    sentChunk (sent (replay st startOffset sessionExists requested))
      = Some chunk
    ∧ Some (chunkStartOffset chunk) = at_index (eventOffsets st) start
    ∧ (hasMore chunk = true →
       previousOffset chunk = at_index (eventOffsets st) (start - 1)
       ∧ is_Some (previousOffset chunk))
    ∧ (hasMore chunk = false → previousOffset chunk = None)
    ∧ nextOffset chunk = fileOffset st.
Proof.
  intros N start HN Hlt Hlen.
  pose proof (baseStartIndex_nonneg st) as Hbase.
  pose proof (tail_nonempty (events st) (baseStartIndex st) N Hbase HN Hlt)
    as Hstart.
  fold start in Hstart.
  unfold replay. fold N.
  replace (0 <? N) with true by (symmetry; by apply Z.ltb_lt).
  replace (baseStartIndex st <? Z.of_nat (length (events st))) with true
    by (symmetry; by apply Z.ltb_lt).
  cbn [andb]. cbv zeta. fold start.
  assert (∀ i, 0 ≤ i < Z.of_nat (length (events st)) →
            is_Some (at_index (eventOffsets st) i)) as Hat.
  { intros i Hi. unfold at_index.
    replace (i <? 0) with false by (symmetry; apply Z.ltb_ge; lia).
    apply lookup_lt_is_Some. lia. }
  eexists. split.
  { cbn [sent]. apply sentChunk_after_header.
    destruct (headerToSend st); eauto. }
  cbn [chunkStartOffset hasMore previousOffset nextOffset].
  split_and!.
  - destruct (Hat start) as [o Ho]; [lia|]. by rewrite Ho.
  - intros Hmore. rewrite Hmore. apply Z.ltb_lt in Hmore.
    replace (0 <? start) with true by (symmetry; apply Z.ltb_lt; lia).
    simpl. split; [done|]. apply Hat. lia.
  - intros Hmore. by rewrite Hmore.
  - done.
Qed.

(** An instance of [chunk_offsets]: the tail of two output events of the
    example starts at the fourth event, at offset 100, after the event at
    offset 80. *)
Lemma chunk_offsets_witness :
  ∃ chunk,
    sentChunk (sent (replay exampleScan 0 true (Some 2))) = Some chunk
    ∧ chunkStartOffset chunk = 100
    ∧ previousOffset chunk = Some 80
    ∧ nextOffset chunk = 140.
Proof.
  destruct (chunk_offsets exampleScan 0 true (Some 2))
    as (chunk & Hsent & Hstart & Hprev & _ & Hnext); [done | done | done |].
  exists chunk.
  assert (hasMore chunk = true) as Hmore.
  { vm_compute in Hsent. injection Hsent as <-. reflexivity. }
  split_and!; [exact Hsent | | | exact Hnext].
  - vm_compute in Hstart. by injection Hstart.
  - destruct (Hprev Hmore) as [-> _]. vm_compute. reflexivity.
Defined.

(** *** The count of watchers *)

(** *** The count of watchers *)

Lemma eqb_false (a b : string) : a ≠ b → String.eqb a b = false.
Proof. intros H. by apply String.eqb_neq. Qed.

Lemma balanced_addClient st sessionId streamPath r opts now stats watched :
  balanced st →
  balanced (addClient st sessionId streamPath r opts now stats watched).1.
Proof.
  intros Hinv sid. specialize (Hinv sid). unfold addClient.
  destruct (activeWatchers st !! sessionId) as [old|] eqn:Hold.
  - cbn [fst]. rewrite created_app, closed_app. cbn [activeWatchers]. simpl.
    rewrite !Nat.add_0_r.
    destruct (decide (sessionId = sid)) as [->|Hne].
    + rewrite lookup_insert_eq. by rewrite Hold in Hinv.
    + by rewrite lookup_insert_ne.
  - destruct watched; cbn [startWatching fst];
      rewrite created_app, closed_app; cbn [activeWatchers]; simpl.
    + destruct (decide (sessionId = sid)) as [->|Hne].
      * rewrite lookup_insert_eq, String.eqb_refl. simpl.
        rewrite Hold in Hinv. lia.
      * rewrite lookup_insert_ne, (eqb_false _ _ Hne) by done. simpl.
        rewrite !Nat.add_0_r. done.
    + rewrite !Nat.add_0_r.
      destruct (decide (sessionId = sid)) as [->|Hne].
      * rewrite lookup_insert_eq. rewrite Hold in Hinv.
        by destruct stats as [[? ?]|].
      * by rewrite lookup_insert_ne.
Qed.

Lemma balanced_removeClient st sessionId r :
  balanced st → balanced (removeClient st sessionId r).
Proof.
  intros Hinv sid. pose proof (Hinv sid) as Hsid.
  pose proof (Hinv sessionId) as Hsession. unfold removeClient.
  destruct (activeWatchers st !! sessionId) as [old|] eqn:Hold; [|done].
  destruct (list_find _ (clients old)) as [[i c]|]; [|done].
  case_bool_decide as Hlen.
  - rewrite created_app, closed_app. cbn [activeWatchers].
    destruct (decide (sessionId = sid)) as [->|Hne].
    + rewrite lookup_delete_eq.
      destruct (watcher old); simpl; rewrite ?String.eqb_refl; simpl; lia.
    + rewrite lookup_delete_ne by done.
      destruct (watcher old); simpl; rewrite ?(eqb_false _ _ Hne); simpl;
        rewrite !Nat.add_0_r; done.
  - rewrite created_app, closed_app. cbn [activeWatchers]. simpl.
    rewrite !Nat.add_0_r.
    destruct (decide (sessionId = sid)) as [->|Hne].
    + rewrite lookup_insert_eq. simpl. done.
    + by rewrite lookup_insert_ne.
Qed.

(** X8: watchers are neither leaked nor closed twice.  After every
    sequence of [addClient] and [removeClient] calls, whether [fs.watch]
    returns or throws in them, for every session the number of file
    watchers created for it is the number closed, plus one exactly while
    the entry of the session in [activeWatchers] holds a watcher. *)
Theorem watchers_are_balanced (calls : list Call) (sessionId : string) :
  let st := foldl call noWatchers calls in
  created st sessionId
  = (closed st sessionId
     + match activeWatchers st !! sessionId ≫= watcher with
       | Some _ => 1
       | None => 0
       end)%nat.
Proof.
  intros st.
  assert (∀ calls st0, balanced st0 → balanced (foldl call st0 calls)) as H.
  { clear. induction calls as [|c calls IH]; intros st0 Hinv; [done|].
    simpl. apply IH. destruct c; simpl.
    - by apply balanced_addClient.
    - by apply balanced_removeClient. }
  assert (balanced st) as Hb by (apply (H calls noWatchers); by intros sid).
  specialize (Hb sessionId).
  destruct (activeWatchers st !! sessionId) as [info|]; simpl; [|lia].
  destruct (watcher info); lia.
Qed.

(** An instance of [watchers_are_balanced]: two clients join a session
    whose stream file exists, both leave, and one joins again: two
    watchers were created and one closed. *)
Lemma watchers_are_balanced_witness :
  let st :=
    foldl call noWatchers
      [CallAdd "s" "/s" 1%nat None 0 (Some (10, 7)) true;
       CallAdd "s" "/s" 2%nat None 0 (Some (10, 7)) true;
       CallRemove "s" 1%nat; CallRemove "s" 2%nat;
       CallAdd "s" "/s" 3%nat None 0 (Some (12, 9)) true] in
  created st "s" = 2%nat ∧ closed st "s" = 1%nat.
Proof.
  intros st.
  pose proof (watchers_are_balanced
                [CallAdd "s" "/s" 1%nat None 0 (Some (10, 7)) true;
                 CallAdd "s" "/s" 2%nat None 0 (Some (10, 7)) true;
                 CallRemove "s" 1%nat; CallRemove "s" 2%nat;
                 CallAdd "s" "/s" 3%nat None 0 (Some (12, 9)) true] "s")
    as H.
  fold st in H.
  assert (closed st "s" = 1%nat) as Hc by (vm_compute; reflexivity).
  split; [|done]. rewrite H, Hc. vm_compute. reflexivity.
Defined.

End ReplayFacts.

(** An instance of [scan_offsets_are_line_starts]: in the example log the
    header takes 2 bytes, and the first event starts at offset 2. *)
Lemma scan_offsets_are_line_starts_witness :
  let st :=
    StreamWatcher.analyse StreamWatcher.exampleParse
      StreamWatcher.exampleContains StreamWatcher.exampleFindLast
      StreamWatcher.examplePosition None 0
      ["h"; "o a"; "r 80x24"] "o b" in
  StreamWatcher.eventOffsets st = [2; 6; 14]
  ∧ StreamWatcher.fileOffset st = 17.
Proof.
  intros st.
  destruct (scan_offsets_are_line_starts StreamWatcher.exampleParse
              StreamWatcher.exampleContains StreamWatcher.exampleFindLast
              StreamWatcher.examplePosition None 0
              ["h"; "o a"; "r 80x24"] "o b") as (_ & _ & Hf).
  fold st in Hf. split; [vm_compute; reflexivity | rewrite Hf].
  vm_compute. reflexivity.
Defined.

(** ** Task offload pool: a disabled pool stays disabled *)

Section PoolFacts.
Import WorkerPool.

Lemma processQueue_disabled p :
  disabled p = true →
  processQueue p
  = (withQueue p [],
     (λ task, TaskRejected (id task) (reasonOf p)) <$> queue p).
Proof. unfold processQueue. by intros ->. Qed.

Lemma no_post_in_rejections (reason : string) (q : list PendingTask) :
  List.filter isPosted ((λ task, TaskRejected (id task) reason) <$> q) = [].
Proof. induction q as [|t q IH]; [done|]. simpl. exact IH. Qed.

(** One event on a disabled pool: still disabled, same reason, nothing
    posted to a worker. *)
Lemma step_disabled p e reason :
  disabled p = true → disableReason p = Some reason →
  disabled (step p e).1 = true
  ∧ disableReason (step p e).1 = Some reason
  ∧ List.filter isPosted (step p e).2 = [].
Proof.
  intros Hd Hr. destruct e as [type|w error|w error spawn|]; simpl.
  - unfold runTask. rewrite Hd. simpl. done.
  - unfold handleWorkerMessage.
    destruct (wrappers p !! w ≫= pending) as [task|]; [|done].
    rewrite processQueue_disabled by done. simpl.
    split_and!; [done | done |].
    destruct error as [message|]; [case_bool_decide|]; simpl;
      apply no_post_in_rejections.
  - unfold handleWorkerFailure. rewrite Hd. done.
  - done.
Qed.

Lemma run_disabled events : ∀ p reason,
  disabled p = true → disableReason p = Some reason →
  disabled (run p events).1 = true
  ∧ disableReason (run p events).1 = Some reason
  ∧ List.filter isPosted (run p events).2 = [].
Proof.
  induction events as [|e events IH]; intros p reason Hd Hr; [done|].
  destruct (step_disabled p e reason Hd Hr) as (Hd1 & Hr1 & Hp1).
  simpl. destruct (step p e) as [p1 effects1]. simpl in *.
  destruct (IH p1 reason Hd1 Hr1) as (Hd2 & Hr2 & Hp2).
  destruct (run p1 events) as [p2 effects2]. simpl in *.
  by rewrite filter_app, Hp1, Hp2.
Qed.

(** The constructor leaves a pool either enabled or disabled with a stored
    reason and an empty queue. *)
Lemma createWorkers_queue spawn n : ∀ p i,
  queue (createWorkers p spawn i n) = queue p.
Proof.
  induction n as [|n IH]; intros p i; [done|]. simpl.
  destruct (spawn i); simpl; [done|]. by rewrite IH.
Qed.

Lemma createWorkers_reason spawn n : ∀ p i,
  (disabled p = true → is_Some (disableReason p)) →
  disabled (createWorkers p spawn i n) = true →
  is_Some (disableReason (createWorkers p spawn i n)).
Proof.
  induction n as [|n IH]; intros p i Hp; [done|]. simpl.
  destruct (spawn i); simpl; [by eexists|]. by apply IH.
Qed.

Lemma newPool_disabled_reason poolSize spawn :
  disabled (newPool poolSize spawn) = true →
  is_Some (disableReason (newPool poolSize spawn))
  ∧ queue (newPool poolSize spawn) = [].
Proof.
  unfold newPool. case_bool_decide as Hlen; simpl.
  - intros _. split; [|by rewrite createWorkers_queue].
    destruct (disableReason _) as [[|c s]|]; by eexists.
  - intros Hd. split; [|by rewrite createWorkers_queue].
    by apply createWorkers_reason.
Qed.

Lemma newPool_no_worker poolSize spawn :
  workers (newPool poolSize spawn) = [] →
  disabled (newPool poolSize spawn) = true.
Proof.
  unfold newPool. case_bool_decide as Hlen; simpl; [done|].
  intros H. rewrite H in Hlen. done.
Qed.

(** C4: once the pool is disabled, every later [runTask] is rejected at
    once with the stored reason, the pool stays disabled with that reason
    and posts nothing to a worker, whatever happens to it; a replacement
    spawn that fails disables the pool, stores its message as the reason
    and rejects every task that was queued at that moment with that
    reason; and a pool constructed without any worker is disabled with a
    stored reason. *)
Theorem disabled_pool_rejects :
  (∀ (p : Pool) (reason : string) (events : list Event)
     (type : WorkerTaskType),
     disabled p = true → disableReason p = Some reason →
     let later := (run p events).1 in
     disabled later = true
     ∧ disableReason later = Some reason
     ∧ List.filter isPosted (run p events).2 = []
     ∧ runTask later type = (later, [RunRejected reason]))
  ∧ (∀ (p : Pool) (w : Worker) (error spawnError : string),
       disabled p = false →
       let after := handleWorkerFailure p w error (Some spawnError) in
       disabled after.1 = true
       ∧ disableReason after.1 = Some spawnError
       ∧ queue after.1 = []
       ∧ List.filter isPosted after.2 = []
       ∧ ∀ task, task ∈ queue p →
           TaskRejected (id task) spawnError ∈ after.2)
  ∧ (∀ (poolSize : Z) (spawn : nat → option string),
       let p := newPool poolSize spawn in
       (workers p = [] → disabled p = true)
       ∧ (disabled p = true →
          ∃ reason, disableReason p = Some reason ∧ queue p = [])).
Proof.
  split_and!.
  - intros p reason events type Hd Hr later.
    destruct (run_disabled events p reason Hd Hr) as (Hd' & Hr' & Hp').
    split_and!; [done | done | done |].
    subst later. unfold runTask, reasonOf. by rewrite Hd', Hr'.
  - intros p w error spawnError Hd after. subst after.
    unfold handleWorkerFailure. rewrite Hd.
    set (p1 := match list_find _ (workers p) with
               | Some (index, _) => _
               | None => p
               end).
    assert (queue p1 = queue p) as Hq.
    { subst p1. by destruct (list_find _ (workers p)) as [[? ?]|]. }
    cbn [createWorker].
    rewrite processQueue_disabled by done.
    cbn [fst snd disabled disableReason queue withQueue disable reasonOf
         default].
    split_and!; [done | done | done | |].
    + rewrite filter_app, no_post_in_rejections.
      by destruct (wrappers p !! w ≫= pending).
    + intros task Htask. apply elem_of_app. right.
      rewrite Hq. apply list_elem_of_fmap. by exists task.
  - intros poolSize spawn p. split.
    + apply newPool_no_worker.
    + intros Hd. destruct (newPool_disabled_reason poolSize spawn Hd)
        as [[reason Hr] Hq].
      by exists reason.
Qed.

(** An instance of [disabled_pool_rejects]: a pool of two workers with two
    tasks in flight and one queued loses a worker whose replacement cannot
    be spawned; the queued task is rejected with the spawn error, and so is
    the next [runTask]. *)
Lemma disabled_pool_rejects_witness :
  let p0 := newPool 2 (λ _, None) in
  let p3 := (run p0 [RunTask encodeSnapshot; RunTask buildHistoryChunk;
                     RunTask encodeSnapshot]).1 in
  let failed := handleWorkerFailure p3 0%nat "exit 1" (Some "no script") in
  queue p3 = [{| id := 2; type := encodeSnapshot |}]
  ∧ TaskRejected 2 "no script" ∈ failed.2
  ∧ runTask failed.1 encodeSnapshot
    = (failed.1, [RunRejected "no script"]).
Proof.
  intros p0 p3 failed.
  destruct disabled_pool_rejects as (Hlater & Hfail & _).
  destruct (Hfail p3 0%nat "exit 1" "no script") as (Hd & Hr & _ & _ & Hq);
    [reflexivity|].
  destruct (Hlater failed.1 "no script" [] encodeSnapshot Hd Hr)
    as (_ & _ & _ & Hrun).
  split_and!.
  - reflexivity.
  - apply (Hq {| id := 2; type := encodeSnapshot |}).
    apply list_elem_of_In. left. reflexivity.
  - exact Hrun.
Defined.

End PoolFacts.

(** ** Task offload pool: the queue *)

Section PoolQueueFacts.
Import WorkerPool.

(** *** A task waits only while every worker is busy *)

Lemma find_none_allBusy p :
  List.find (isFree p) (workers p) = None → allBusy p.
Proof.
  intros H. apply list.Forall_forall. intros w Hw.
  apply list_elem_of_In in Hw.
  destruct (isFree p w) eqn:Hf; [|done].
  by rewrite (find_none _ _ H w Hw) in Hf.
Qed.

(** [processQueue] restores the invariant when at most one worker can be
    free while more than one task waits. *)
Lemma working_processQueue p (w0 : Worker) :
  (∀ w, w ∈ workers p → is_Some (wrappers p !! w)) →
  (∀ w wrapper, wrappers p !! w = Some wrapper →
                busy wrapper = true → is_Some (pending wrapper)) →
  (disabled p = false →
   (2 ≤ length (queue p))%nat →
   ∀ w, w ∈ workers p → w ≠ w0 → isFree p w = false) →
  working (processQueue p).1.
Proof.
  intros Hwrapped Hbusy Hrest. unfold processQueue.
  destruct (disabled p) eqn:Hd.
  - simpl. split; simpl; try done.
  - destruct (queue p) as [|task rest] eqn:Hq.
    + simpl. split; rewrite ?Hd, ?Hq; try done.
    + destruct (List.find (isFree p) (workers p)) as [fw|] eqn:Hfind.
      * apply find_some in Hfind as [Hin%list_elem_of_In Hfree].
        simpl. split; simpl.
        -- intros w Hw. destruct (decide (fw = w)) as [->|Hne].
           ++ rewrite lookup_insert_eq. by eexists.
           ++ rewrite lookup_insert_ne by done. by apply Hwrapped.
        -- intros w wrapper. destruct (decide (fw = w)) as [->|Hne].
           ++ rewrite lookup_insert_eq. intros [= <-] _. by eexists.
           ++ rewrite lookup_insert_ne by done. apply Hbusy.
        -- done.
        -- intros Hrest'. apply list.Forall_forall. intros w Hw.
           unfold isFree. simpl.
           destruct (decide (fw = w)) as [->|Hne].
           ++ by rewrite lookup_insert_eq.
           ++ rewrite lookup_insert_ne by done.
              destruct (decide (w = w0)) as [->|Hw0].
              ** assert (isFree p fw = false) as Hf; [|congruence].
                 apply (Hrest eq_refl); [|done|done].
                 destruct rest; [done | simpl; lia].
              ** apply (Hrest eq_refl); [|done|done].
                 destruct rest; [done | simpl; lia].
      * simpl. split; rewrite ?Hd; try done.
        intros _. by apply find_none_allBusy.
Qed.

Lemma working_createWorker p p' :
  createWorker p None = inl p' →
  (∀ w, w ∈ workers p → is_Some (wrappers p !! w)) →
  (∀ w wrapper, wrappers p !! w = Some wrapper →
                busy wrapper = true → is_Some (pending wrapper)) →
  (∀ w, w ∈ workers p' → is_Some (wrappers p' !! w))
  ∧ (∀ w wrapper, wrappers p' !! w = Some wrapper →
                  busy wrapper = true → is_Some (pending wrapper))
  ∧ (∀ w, w ≠ nextWorker p → isFree p' w = isFree p w)
  ∧ workers p' = workers p ++ [nextWorker p]
  ∧ queue p' = queue p ∧ disabled p' = disabled p.
Proof.
  intros [= <-] Hwrapped Hbusy. simpl. split_and!; try done.
  - intros w [Hw | ->%list_elem_of_singleton]%elem_of_app.
    + destruct (decide (nextWorker p = w)) as [->|Hne].
      * rewrite lookup_insert_eq. by eexists.
      * rewrite lookup_insert_ne by done. by apply Hwrapped.
    + rewrite lookup_insert_eq. by eexists.
  - intros w wrapper. destruct (decide (nextWorker p = w)) as [->|Hne].
    + rewrite lookup_insert_eq. by intros [= <-].
    + rewrite lookup_insert_ne by done. apply Hbusy.
  - intros w Hne. unfold isFree. simpl. by rewrite lookup_insert_ne.
Qed.

Lemma working_runTask p type : working p → working (runTask p type).1.
Proof.
  intros [Hw Hb Hd Hq]. unfold runTask.
  destruct (disabled p) eqn:Hdis; [simpl; split; auto|].
  apply (working_processQueue _ 0%nat); simpl; [done | done |].
  intros _ Hlen w Hin _.
  assert (queue p ≠ []) as Hne.
  { intros Hnil. rewrite Hnil in Hlen. simpl in Hlen. lia. }
  apply (proj1 (list.Forall_forall _ _) (Hq Hne) w Hin).
Qed.

Lemma working_handleWorkerMessage p w error :
  working p → working (handleWorkerMessage p w error).1.
Proof.
  intros [Hw Hb Hd Hq]. unfold handleWorkerMessage.
  set (p1 := withWrappers p _).
  assert (∀ w', w' ∈ workers p1 → is_Some (wrappers p1 !! w')) as Hw1.
  { intros w' Hin. simpl. destruct (decide (w = w')) as [->|Hne].
    - rewrite lookup_insert_eq. by eexists.
    - rewrite lookup_insert_ne by done. by apply Hw. }
  assert (∀ w' wrapper, wrappers p1 !! w' = Some wrapper →
            busy wrapper = true → is_Some (pending wrapper)) as Hb1.
  { intros w' wrapper. simpl. destruct (decide (w = w')) as [->|Hne].
    - rewrite lookup_insert_eq. by intros [= <-].
    - rewrite lookup_insert_ne by done. apply Hb. }
  assert (∀ w', w' ≠ w → isFree p1 w' = isFree p w') as Hfree.
  { intros w' Hne. unfold isFree. simpl. by rewrite lookup_insert_ne. }
  destruct (wrappers p !! w ≫= pending) as [task|] eqn:Hp.
  - pose proof (working_processQueue p1 w Hw1 Hb1) as H.
    destruct (processQueue p1) as [p2 effects]. simpl in *. apply H.
    intros _ Hlen w' Hin Hne. rewrite Hfree by done.
    assert (queue p ≠ []) as Hnil.
    { intros Hnil. rewrite Hnil in Hlen. simpl in Hlen. lia. }
    apply (proj1 (list.Forall_forall _ _) (Hq Hnil) w' Hin).
  - simpl. split; try done.
    intros Hne. simpl in Hne. apply list.Forall_forall. intros w' Hin.
    simpl in Hin.
    pose proof (proj1 (list.Forall_forall _ _) (Hq Hne) w' Hin) as Hbusy.
    destruct (decide (w' = w)) as [->|Hw']; [|by rewrite Hfree].
    exfalso. unfold isFree in Hbusy.
    destruct (wrappers p !! w) as [wrapper|] eqn:Hwr.
    + simpl in Hp. apply negb_false_iff in Hbusy.
      destruct (Hb w wrapper Hwr Hbusy) as [t Ht]. congruence.
    + destruct (Hw w Hin) as [? ?]. congruence.
Qed.

Lemma working_handleWorkerFailure p w error spawn :
  working p → working (handleWorkerFailure p w error spawn).1.
Proof.
  intros [Hw Hb Hd Hq]. unfold handleWorkerFailure.
  destruct (disabled p) eqn:Hdis; [simpl; split; auto|].
  set (p1 := match list_find _ (workers p) with
             | Some (index, _) => _
             | None => p
             end).
  assert (wrappers p1 = wrappers p ∧ queue p1 = queue p
          ∧ disabled p1 = false ∧ nextWorker p1 = nextWorker p
          ∧ ∀ w', w' ∈ workers p1 → w' ∈ workers p) as (Hwr1 & Hq1 & Hd1 & Hn1 & Hin1).
  { subst p1. destruct (list_find _ (workers p)) as [[index x]|]; simpl;
      split_and!; try done.
    intros w' Hin. by eapply list_elem_of_delete_inv. }
  assert (∀ w', isFree p1 w' = isFree p w') as Hfree1
    by (intros w'; unfold isFree; by rewrite Hwr1).
  assert (∀ w', w' ∈ workers p1 → is_Some (wrappers p1 !! w')) as Hw1
    by (intros w' Hin; rewrite Hwr1; by apply Hw, Hin1).
  assert (∀ w' wrapper, wrappers p1 !! w' = Some wrapper →
            busy wrapper = true → is_Some (pending wrapper)) as Hb1
    by (rewrite Hwr1; exact Hb).
  clearbody p1.
  destruct spawn as [message|]; cbn [createWorker].
  - pose proof (working_processQueue (disable p1 message) 0%nat Hw1 Hb1)
      as H.
    destruct (processQueue (disable p1 message)) as [p3 effects].
    apply H. intros [=].
  - pose proof (working_createWorker p1 _ eq_refl Hw1 Hb1)
      as (Hw2 & Hb2 & Hfree2 & Hws2 & Hq2 & Hd2).
    set (p2 := {| wrappers := _; workers := workers p1 ++ _ |}) in *.
    pose proof (working_processQueue p2 (nextWorker p1) Hw2 Hb2) as H.
    destruct (processQueue p2) as [p3 effects]. apply H.
    intros _ Hlen w' Hin Hne. rewrite Hfree2, Hfree1 by done.
    rewrite Hws2 in Hin. rewrite Hq2 in Hlen.
    assert (queue p ≠ []) as Hnil.
    { intros Hnil. rewrite Hq1, Hnil in Hlen. simpl in Hlen. lia. }
    apply (proj1 (list.Forall_forall _ _) (Hq Hnil) w').
    apply elem_of_app in Hin as [Hin | ->%list_elem_of_singleton];
      [by apply Hin1 | done].
Qed.

Lemma working_step p e : working p → working (step p e).1.
Proof.
  intros H. destruct e; simpl.
  - by apply working_runTask.
  - by apply working_handleWorkerMessage.
  - by apply working_handleWorkerFailure.
  - destruct H as [Hw Hb Hd Hq]. split; simpl; try done.
    intros w Hin. by apply elem_of_nil in Hin.
Qed.

Lemma working_run events : ∀ p, working p → working (run p events).1.
Proof.
  induction events as [|e events IH]; intros p H; [done|].
  simpl. pose proof (working_step p e H) as H1.
  destruct (step p e) as [p1 effects1]. simpl in H1.
  specialize (IH p1 H1). by destruct (run p1 events) as [p2 effects2].
Qed.

Lemma working_createWorkers spawn n : ∀ p i,
  (∀ w, w ∈ workers p → is_Some (wrappers p !! w)) →
  (∀ w wrapper, wrappers p !! w = Some wrapper →
                busy wrapper = true → is_Some (pending wrapper)) →
  queue p = [] →
  let p' := createWorkers p spawn i n in
  (∀ w, w ∈ workers p' → is_Some (wrappers p' !! w))
  ∧ (∀ w wrapper, wrappers p' !! w = Some wrapper →
                  busy wrapper = true → is_Some (pending wrapper))
  ∧ queue p' = [].
Proof.
  induction n as [|n IH]; intros p i Hw Hb Hq; [done|].
  simpl. destruct (spawn i) as [message|] eqn:Hs; simpl; [done|].
  apply IH; simpl; [| |done].
  - apply (working_createWorker p _ eq_refl Hw Hb).
  - apply (working_createWorker p _ eq_refl Hw Hb).
Qed.

Lemma working_newPool poolSize spawn : working (newPool poolSize spawn).
Proof.
  unfold newPool.
  set (p0 := {| wrappers := ∅; workers := [] |}).
  destruct (working_createWorkers spawn (Z.to_nat poolSize) p0 0)
    as (Hw & Hb & Hq); [| |done|].
  { intros w Hin. by apply elem_of_nil in Hin. }
  { intros w wrapper Hl. simpl in Hl. by rewrite lookup_empty in Hl. }
  case_bool_decide.
  - split; simpl; rewrite ?Hq; auto; done.
  - split; rewrite ?Hq; auto; done.
Qed.

(** X9: the pool keeps no worker idle while a task waits.  After any
    sequence of [runTask] calls, worker replies, worker failures and
    [destroy] calls on a new pool, a task is in the queue only while
    every worker of the pool is busy, and a disabled pool has no task in
    its queue. *)
Theorem no_idle_worker_while_tasks_wait (poolSize : Z)
    (spawn : nat → option string) (events : list Event) :
  let p := (run (newPool poolSize spawn) events).1 in
  (queue p ≠ [] → Forall (λ w, isFree p w = false) (workers p))
  ∧ (disabled p = true → queue p = [])
  ∧ (∀ w wrapper, wrappers p !! w = Some wrapper →
                  busy wrapper = true → is_Some (pending wrapper)).
Proof.
  intros p.
  destruct (working_run events _ (working_newPool poolSize spawn))
    as [Hw Hb Hd Hq].
  by split_and!.
Qed.

(** *** Tasks are posted in the order of their ids *)

Lemma postedIds_app l1 l2 :
  postedIds (l1 ++ l2) = postedIds l1 ++ postedIds l2.
Proof. unfold postedIds. apply omap_app. Qed.

Lemma postedIds_rejections (reason : string) (q : list PendingTask) :
  postedIds ((λ task, TaskRejected (id task) reason) <$> q) = [].
Proof. induction q as [|t q IH]; [done|]. simpl. exact IH. Qed.

(** What [processQueue] posts, for a queue whose ids ascend from [lo]. *)
Lemma processQueue_fifo p lo :
  queueOrdered p →
  Forall (λ i, lo ≤ i) (id <$> queue p) →
  lo ≤ nextTaskId p →
  let '(p', effects) := processQueue p in
  queueOrdered p'
  ∧ nextTaskId p' = nextTaskId p
  ∧ ∃ lo',
      lo ≤ lo'
      ∧ Forall (λ i, lo' ≤ i) (id <$> queue p')
      ∧ lo' ≤ nextTaskId p'
      ∧ (postedIds effects = []
         ∨ ∃ i, postedIds effects = [i] ∧ lo ≤ i < lo').
Proof.
  intros [Hsorted Hbelow] Hlo Hnext. unfold processQueue.
  destruct (disabled p).
  - split; [split; constructor|]. split; [done|].
    exists lo. split_and!; [lia | constructor | done |].
    left. apply postedIds_rejections.
  - destruct (queue p) as [|task rest] eqn:Hq.
    + split; [by rewrite <- Hq in *|]. split; [done|].
      exists lo. rewrite Hq. split_and!; [lia | done | done | by left].
    + destruct (List.find (isFree p) (workers p)) as [fw|].
      * rewrite fmap_cons in Hsorted, Hbelow, Hlo.
        apply StronglySorted_inv in Hsorted as [Hsorted Hhead].
        apply list.Forall_cons in Hbelow as [Htask Hbelow].
        apply list.Forall_cons in Hlo as [Hlo1 Hlo].
        split; [by split|]. split; [done|].
        exists (id task + 1). simpl. split_and!; [lia | | lia |].
        -- eapply list.Forall_impl; [exact Hhead|]. simpl. intros. lia.
        -- right. exists (id task). split; [done | lia].
      * split; [by rewrite <- Hq in *|]. split; [done|].
        exists lo. rewrite Hq. split_and!; [lia | done | done | by left].
Qed.

Lemma sorted_snoc (l : list Z) (x : Z) :
  StronglySorted Z.lt l → Forall (λ i, i < x) l →
  StronglySorted Z.lt (l ++ [x]).
Proof.
  induction l as [|y l IH]; intros Hs Hb.
  - simpl. constructor; constructor.
  - apply StronglySorted_inv in Hs as [Hs Hy].
    apply list.Forall_cons in Hb as [Hyx Hb].
    simpl. constructor; [by apply IH|].
    apply Forall_app. split; [done|]. by constructor.
Qed.

Lemma step_fifo p e lo :
  queueOrdered p →
  Forall (λ i, lo ≤ i) (id <$> queue p) →
  lo ≤ nextTaskId p →
  let '(p', effects) := step p e in
  queueOrdered p'
  ∧ nextTaskId p ≤ nextTaskId p'
  ∧ ∃ lo',
      lo ≤ lo'
      ∧ Forall (λ i, lo' ≤ i) (id <$> queue p')
      ∧ lo' ≤ nextTaskId p'
      ∧ (postedIds effects = []
         ∨ ∃ i, postedIds effects = [i] ∧ lo ≤ i < lo').
Proof.
  intros Hord Hlo Hnext. pose proof Hord as [Hsorted Hbelow].
  destruct e as [type | w error | w error spawn |]; simpl.
  - unfold runTask. destruct (disabled p).
    + split; [done|]. split; [lia|].
      exists lo. split_and!; [lia | done | done | by left].
    + set (p1 := {| wrappers := wrappers p;
                    queue := queue p ++ [_] |}).
      pose proof (processQueue_fifo p1 lo) as H.
      destruct (processQueue p1) as [p' effects].
      destruct H as (H1 & H2 & H3).
      * unfold queueOrdered. subst p1. simpl.
        split; rewrite fmap_app; simpl.
        -- by apply sorted_snoc.
        -- apply Forall_app. split.
           ++ eapply list.Forall_impl; [exact Hbelow|]. simpl. intros. lia.
           ++ constructor; [lia | constructor].
      * subst p1. simpl. rewrite fmap_app. apply Forall_app.
        split; [done|]. simpl. constructor; [lia | constructor].
      * subst p1. simpl. lia.
      * split; [done|]. split; [|done]. rewrite H2. subst p1. simpl. lia.
  - unfold handleWorkerMessage.
    set (p1 := withWrappers p _).
    destruct (wrappers p !! w ≫= pending) as [task|].
    + pose proof (processQueue_fifo p1 lo Hord Hlo Hnext) as H.
      destruct (processQueue p1) as [p' effects].
      destruct H as (H1 & H0 & lo' & H2 & H3 & H4 & H5).
      split; [done|]. split; [rewrite H0; subst p1; simpl; lia|].
      exists lo'. split_and!; try done.
      by destruct error as [message|]; [case_bool_decide|].
    + split; [done|]. split; [simpl; lia|].
      exists lo. split_and!; [lia | done | done | by left].
  - unfold handleWorkerFailure. destruct (disabled p).
    + split; [done|]. split; [lia|].
      exists lo. split_and!; [lia | done | done | by left].
    + set (p1 := match list_find _ (workers p) with
                 | Some (index, _) => _
                 | None => p
                 end).
      assert (queue p1 = queue p ∧ nextTaskId p1 = nextTaskId p)
        as [Hq1 Hn1].
      { subst p1. by destruct (list_find _ (workers p)) as [[index x]|]. }
      clearbody p1.
      set (p2 := match createWorker p1 spawn with
                 | inl p' => p'
                 | inr spawnError => disable p1 spawnError
                 end).
      assert (queue p2 = queue p ∧ nextTaskId p2 = nextTaskId p)
        as [Hq2 Hn2].
      { subst p2. by destruct spawn. }
      clearbody p2.
      pose proof (processQueue_fifo p2 lo) as H.
      destruct (processQueue p2) as [p' effects].
      destruct H as (H1 & H0 & lo' & H2 & H3 & H4 & H5).
      { unfold queueOrdered. by rewrite Hq2, Hn2. }
      { by rewrite Hq2. }
      { by rewrite Hn2. }
      split; [done|]. split; [lia|]. exists lo'. split_and!; try done.
      rewrite postedIds_app.
      by destruct (wrappers p !! w ≫= pending).
  - split; [split; constructor|]. split; [lia|].
    exists lo. split_and!; [lia | constructor | done | by left].
Qed.

Lemma run_fifo events : ∀ p lo,
  queueOrdered p →
  Forall (λ i, lo ≤ i) (id <$> queue p) →
  lo ≤ nextTaskId p →
  StronglySorted Z.lt (postedIds (run p events).2)
  ∧ Forall (λ i, lo ≤ i) (postedIds (run p events).2)
  ∧ Forall (λ i, i < nextTaskId (run p events).1)
      (postedIds (run p events).2)
  ∧ nextTaskId p ≤ nextTaskId (run p events).1.
Proof.
  induction events as [|e events IH]; intros p lo Hord Hlo Hnext.
  - simpl. split_and!; [constructor | constructor | constructor | lia].
  - simpl. pose proof (step_fifo p e lo Hord Hlo Hnext) as H.
    destruct (step p e) as [p1 effects1].
    destruct H as (Hord1 & Hstep & lo' & Hle & Hlo1 & Hnext1 & Hposted).
    destruct (IH p1 lo' Hord1 Hlo1 Hnext1) as (Hs & Hall & Hbelow & Hmono).
    destruct (run p1 events) as [p2 effects2]. simpl in *.
    rewrite postedIds_app.
    destruct Hposted as [-> | (i & -> & Hi)]; simpl.
    + split_and!; [done | | done | lia].
      eapply list.Forall_impl; [exact Hall|]. simpl. intros. lia.
    + split_and!.
      * constructor; [done|].
        eapply list.Forall_impl; [exact Hall|]. simpl. intros. lia.
      * constructor; [lia|].
        eapply list.Forall_impl; [exact Hall|]. simpl. intros. lia.
      * constructor; [lia | done].
      * lia.
Qed.

Lemma createWorkers_fresh spawn n : ∀ p i,
  queue (createWorkers p spawn i n) = queue p
  ∧ nextTaskId (createWorkers p spawn i n) = nextTaskId p.
Proof.
  induction n as [|n IH]; intros p i; [done|].
  simpl. destruct (spawn i); simpl; [done|].
  destruct (IH {| wrappers :=
                    <[nextWorker p := {| busy := false; pending := None |}]>
                      (wrappers p);
                  workers := workers p ++ [nextWorker p];
                  queue := queue p; nextTaskId := nextTaskId p;
                  size := size p; disabled := disabled p;
                  disableReason := disableReason p;
                  nextWorker := S (nextWorker p) |} (S i)) as [-> ->].
  done.
Qed.

(** X10: first come, first served.  Over any sequence of [runTask] calls,
    worker replies, worker failures and [destroy] calls on a new pool, the
    ids of the tasks handed to workers ascend strictly: tasks are posted
    in the order in which [runTask] numbered them, and no task is posted
    twice.  Every id posted is one that [runTask] has given out. *)
Theorem tasks_are_posted_in_order (poolSize : Z)
    (spawn : nat → option string) (events : list Event) :
  let result := run (newPool poolSize spawn) events in
  StronglySorted Z.lt (postedIds result.2)
  ∧ Forall (λ i, 0 ≤ i < nextTaskId result.1) (postedIds result.2).
Proof.
  intros result.
  assert (queue (newPool poolSize spawn) = []
          ∧ nextTaskId (newPool poolSize spawn) = 0) as [Hq Hn].
  { unfold newPool.
    set (p0 := {| wrappers := ∅; workers := [] |}).
    destruct (createWorkers_fresh spawn (Z.to_nat poolSize) p0 0)
      as [Hq Hn].
    by case_bool_decide. }
  destruct (run_fifo events (newPool poolSize spawn) 0)
    as (Hs & Hlo & Hhi & _).
  - unfold queueOrdered. rewrite Hq. split; constructor.
  - rewrite Hq. constructor.
  - lia.
  - split; [done|]. apply list.Forall_forall. intros i Hi.
    pose proof (proj1 (list.Forall_forall _ _) Hlo i Hi).
    pose proof (proj1 (list.Forall_forall _ _) Hhi i Hi).
    subst result. simpl in *. lia.
Qed.

(** *** A new pool takes one task for each worker *)

Lemma run_app events1 events2 p :
  run p (events1 ++ events2)
  = let '(p1, effects1) := run p events1 in
    let '(p2, effects2) := run p1 events2 in
    (p2, effects1 ++ effects2).
Proof.
  revert p. induction events1 as [|e events1 IH]; intros p.
  - simpl. by destruct (run p events2).
  - simpl. destruct (step p e) as [p1 effects1]. rewrite IH.
    destruct (run p1 events1) as [p2 effects2].
    destruct (run p2 events2) as [p3 effects3].
    by rewrite <- app_assoc.
Qed.

Lemma find_first_free (f : nat → bool) (k : nat) : ∀ m a,
  (a ≤ k < a + m)%nat →
  (∀ i, (a ≤ i < a + m)%nat → f i = negb (i <? k)%nat) →
  List.find f (seq a m) = Some k.
Proof.
  induction m as [|m IH]; intros a Hk Hf; [lia|].
  simpl. rewrite (Hf a) by lia.
  destruct (decide (a = k)) as [->|Hne].
  - by rewrite Nat.ltb_irrefl.
  - replace (a <? k)%nat with true by (symmetry; apply Nat.ltb_lt; lia).
    simpl. apply IH; [lia|]. intros i Hi. apply Hf. lia.
Qed.

Lemma find_all_busy (f : nat → bool) (l : list nat) :
  (∀ i, i ∈ l → f i = false) → List.find f l = None.
Proof.
  induction l as [|x l IH]; intros Hf; [done|].
  simpl. rewrite (Hf x) by apply list_elem_of_here.
  apply IH. intros i Hi. apply Hf. by apply list_elem_of_further.
Qed.

Lemma createWorkers_all m : ∀ p a,
  workers p = seq 0 a → nextWorker p = a →
  (∀ i, (i < a)%nat → isFree p i = true) →
  let p' := createWorkers p spawnsAll a m in
  workers p' = seq 0 (a + m)
  ∧ disabled p' = disabled p ∧ nextTaskId p' = nextTaskId p
  ∧ queue p' = queue p
  ∧ ∀ i, (i < a + m)%nat → isFree p' i = true.
Proof.
  induction m as [|m IH]; intros p a Hw Hn Hf.
  - simpl. rewrite Nat.add_0_r. by split_and!.
  - simpl.
    set (p1 := {| wrappers := _; workers := workers p ++ [nextWorker p] |}).
    destruct (IH p1 (S a)) as (H1 & H2 & H3 & H4 & H5).
    + subst p1. simpl. rewrite Hw, Hn. symmetry. apply (seq_S a 0).
    + subst p1. simpl. by rewrite Hn.
    + intros i Hi. subst p1. unfold isFree. simpl. rewrite Hn.
      destruct (decide (a = i)) as [->|Hne].
      * by rewrite lookup_insert_eq.
      * rewrite lookup_insert_ne by done. apply Hf. lia.
    + replace (a + S m)%nat with (S a + m)%nat by lia.
      by split_and!.
Qed.

Lemma firstBusy_newPool (n : nat) :
  (0 < n)%nat →
  firstBusy n 0 (newPool (Z.of_nat n) spawnsAll)
  ∧ queue (newPool (Z.of_nat n) spawnsAll) = []
  ∧ nextTaskId (newPool (Z.of_nat n) spawnsAll) = 0.
Proof.
  intros Hn. unfold newPool. rewrite Nat2Z.id.
  set (p0 := {| wrappers := ∅; workers := [] |}).
  destruct (createWorkers_all n p0 0) as (H1 & H2 & H3 & H4 & H5);
    [done | done | intros i Hi; lia |].
  simpl in H1. rewrite bool_decide_eq_false_2.
  - split_and!; [|done|done]. split_and!; done.
  - rewrite H1, length_seq. lia.
Qed.

(** While a worker is free, [runTask] posts the task to the first one. *)
Lemma runTask_firstBusy (n k : nat) p type :
  (k < n)%nat → firstBusy n k p → queue p = [] →
  ∃ p', runTask p type = (p', [Posted k (nextTaskId p)])
        ∧ firstBusy n (S k) p' ∧ queue p' = []
        ∧ nextTaskId p' = nextTaskId p + 1.
Proof.
  intros Hk (Hw & Hd & Hf) Hq. unfold runTask. rewrite Hd, Hq.
  unfold processQueue. simpl. rewrite ?Hd, ?Hw.
  rewrite (find_first_free _ k n 0);
    [|lia | intros i Hi; unfold isFree; simpl; apply Hf; lia].
  eexists. split; [done|].
  split; [|done]. split_and!; simpl; [done | done |].
  intros i Hi. unfold isFree. simpl.
  destruct (decide (k = i)) as [->|Hne].
  - rewrite lookup_insert_eq. simpl.
    by replace (i <? S i)%nat with true by (symmetry; apply Nat.ltb_lt; lia).
  - rewrite lookup_insert_ne by done.
    change (isFree p i = negb (i <? S k)%nat). rewrite Hf by done.
    f_equal. destruct (i <? k)%nat eqn:E.
    + apply Nat.ltb_lt in E. symmetry. apply Nat.ltb_lt. lia.
    + apply Nat.ltb_ge in E. symmetry. apply Nat.ltb_ge. lia.
Qed.

Lemma run_firstBusy (n : nat) (types : list WorkerTaskType) : ∀ k p,
  (k + length types ≤ n)%nat → firstBusy n k p → queue p = [] →
  ∃ p', run p (RunTask <$> types)
        = (p', imap (λ i _, Posted (k + i)%nat
                              (nextTaskId p + Z.of_nat i)) types)
        ∧ firstBusy n (k + length types) p' ∧ queue p' = []
        ∧ nextTaskId p' = nextTaskId p + Z.of_nat (length types).
Proof.
  induction types as [|type types IH]; intros k p Hk Hp Hq.
  - exists p. simpl. rewrite Nat.add_0_r, Z.add_0_r. by split_and!.
  - simpl in Hk. rewrite fmap_cons. simpl run.
    destruct (runTask_firstBusy n k p type) as (p1 & -> & Hp1 & Hq1 & Hn1);
      [lia | done | done |].
    destruct (IH (S k) p1) as (p2 & -> & Hp2 & Hq2 & Hn2);
      [lia | done | done |].
    exists p2. simpl length.
    replace (k + S (length types))%nat with (S k + length types)%nat by lia.
    split_and!; [|done|done|lia].
    f_equal. simpl. rewrite Nat.add_0_r, Z.add_0_r. f_equal.
    apply imap_ext. intros i x _. simpl. rewrite Hn1.
    replace (S (k + i)) with (k + S i)%nat by lia. f_equal. lia.
Qed.

(** Once every worker is busy, [runTask] leaves the task in the queue. *)
Lemma run_allBusy (n : nat) (types : list WorkerTaskType) : ∀ p,
  firstBusy n n p →
  ∃ p', run p (RunTask <$> types) = (p', [])
        ∧ firstBusy n n p'
        ∧ queue p'
          = queue p
            ++ imap (λ i type, {| id := nextTaskId p + Z.of_nat i;
                                  type := type |}) types.
Proof.
  induction types as [|type types IH]; intros p (Hw & Hd & Hf).
  - exists p. simpl. rewrite app_nil_r. split_and!; try done.
  - rewrite fmap_cons. simpl run. unfold runTask at 1. rewrite Hd.
    unfold processQueue. simpl. rewrite ?Hd.
    destruct (queue p ++ [_]) as [|task rest] eqn:Hq;
      [by destruct (queue p)|].
    rewrite find_all_busy.
    2: { intros i Hi. rewrite Hw in Hi.
         apply list_elem_of_In, in_seq in Hi. unfold isFree. simpl.
         change (isFree p i = false). rewrite Hf by lia.
         by replace (i <? n)%nat with true
           by (symmetry; apply Nat.ltb_lt; lia). }
    rewrite <- Hq.
    set (p1 := {| wrappers := wrappers p; queue := queue p ++ _ |}).
    destruct (IH p1) as (p2 & -> & Hp2 & Hq2).
    { split_and!; try done. }
    exists p2. split_and!; [done | done |].
    rewrite Hq2. subst p1. simpl. rewrite <- app_assoc. f_equal. simpl.
    rewrite Z.add_0_r. f_equal. apply imap_ext. intros i x _. simpl.
    f_equal. lia.
Qed.

(** X11: a new pool takes one task for each worker.  On a pool of [n]
    workers whose threads all started, the first [n] calls of [runTask]
    post their task at once, the [i]-th to the [i]-th worker; the calls
    after them post nothing: their tasks wait in the queue, in the order of
    the calls. *)
Theorem new_pool_takes_a_task_for_each_worker (n : nat)
    (types : list WorkerTaskType) :
  (0 < n)%nat →
  let '(p, effects) :=
    run (newPool (Z.of_nat n) spawnsAll) (RunTask <$> types) in
  effects = imap (λ i _, Posted i (Z.of_nat i)) (take n types)
  ∧ queue p
    = imap (λ i type, {| id := Z.of_nat (n + i)%nat; type := type |})
        (drop n types)
  ∧ disabled p = false.
Proof.
  intros Hn.
  destruct (firstBusy_newPool n Hn) as (Hp0 & Hq0 & Hid0).
  replace (RunTask <$> types)
    with ((RunTask <$> take n types) ++ (RunTask <$> drop n types))
    by (by rewrite <- fmap_app, take_drop).
  rewrite run_app.
  destruct (run_firstBusy n (take n types) 0
              (newPool (Z.of_nat n) spawnsAll))
    as (p1 & -> & Hp1 & Hq1 & Hn1);
    [rewrite length_take; lia | exact Hp0 | exact Hq0 |].
  rewrite Hid0 in *. simpl in Hn1.
  destruct (decide (n ≤ length types)%nat) as [Hle|Hgt].
  - rewrite length_take, Nat.min_l in Hp1, Hn1 by done.
    destruct (run_allBusy n (drop n types) p1 Hp1) as (p2 & -> & Hp2 & Hq2).
    rewrite app_nil_r. split_and!.
    + apply imap_ext; intros i x _; simpl; f_equal; lia.
    + rewrite Hq2, Hq1, Hn1. simpl. apply imap_ext; intros i x _; simpl.
      f_equal; lia.
    + by destruct Hp2 as (_ & ? & _).
  - rewrite drop_ge by lia. simpl. rewrite app_nil_r. split_and!.
    + apply imap_ext; intros i x _; simpl; f_equal; lia.
    + done.
    + by destruct Hp1 as (_ & ? & _).
Qed.

(** An instance of [new_pool_takes_a_task_for_each_worker]: three tasks
    on a pool of two workers. *)
Lemma new_pool_takes_a_task_for_each_worker_witness :
  let '(p, effects) :=
    run (newPool 2 spawnsAll)
      [RunTask encodeSnapshot; RunTask buildHistoryChunk;
       RunTask encodeSnapshot] in
  effects = [Posted 0%nat 0; Posted 1%nat 1]
  ∧ queue p = [{| id := 2; type := encodeSnapshot |}].
Proof.
  pose proof (new_pool_takes_a_task_for_each_worker 2
                [encodeSnapshot; buildHistoryChunk; encodeSnapshot]
                ltac:(lia)) as H.
  change (Z.of_nat 2) with 2 in H.
  change (RunTask <$> [encodeSnapshot; buildHistoryChunk; encodeSnapshot])
    with [RunTask encodeSnapshot; RunTask buildHistoryChunk;
          RunTask encodeSnapshot] in H.
  destruct (run _ _) as [p effects].
  destruct H as (He & Hq & _). split; [exact He | exact Hq].
Defined.

(** An instance of [tasks_are_posted_in_order]: three tasks on a pool of
    two workers, then the reply of the first worker. *)
Lemma tasks_are_posted_in_order_witness :
  let effects :=
    (run (newPool 2 spawnsAll)
       [RunTask encodeSnapshot; RunTask buildHistoryChunk;
        RunTask encodeSnapshot; WorkerMessage 0%nat None]).2 in
  StronglySorted Z.lt (postedIds effects) ∧ postedIds effects = [0; 1; 2].
Proof.
  intros effects. split.
  - exact (proj1 (tasks_are_posted_in_order 2 spawnsAll
                    [RunTask encodeSnapshot; RunTask buildHistoryChunk;
                     RunTask encodeSnapshot; WorkerMessage 0%nat None])).
  - vm_compute. reflexivity.
Defined.


(** *** A task is resolved by the worker it was posted to *)

Lemma app_eq_split {A} (l1 l2 : list A) x : ∀ pre post,
  l1 ++ l2 = pre ++ x :: post →
  (∃ post', l1 = pre ++ x :: post')
  ∨ (∃ pre', pre = l1 ++ pre' ∧ l2 = pre' ++ x :: post).
Proof.
  induction l1 as [|y l1 IH]; intros pre post Heq.
  - right. by exists pre.
  - destruct pre as [|z pre].
    + simpl in Heq. injection Heq as -> _. left. by exists l1.
    + simpl in Heq. injection Heq as -> Heq.
      destruct (IH _ _ Heq) as [(post' & ->)|(pre' & -> & ->)].
      * left. by exists post'.
      * right. by exists pre'.
Qed.

Lemma resolvedAfterPosted_app effects new :
  resolvedAfterPosted effects →
  (∀ before id after,
     new = before ++ TaskResolved id :: after →
     ∃ w, Posted w id ∈ effects ++ before) →
  resolvedAfterPosted (effects ++ new).
Proof.
  intros He Hnew before id after Heq.
  destruct (app_eq_split _ _ _ _ _ Heq) as [(post' & E)|(pre' & -> & E)].
  - by eapply He.
  - by eapply Hnew.
Qed.

Lemma resolvedAfterPosted_quiet effects new :
  resolvedAfterPosted effects →
  (∀ id, TaskResolved id ∉ new) →
  resolvedAfterPosted (effects ++ new).
Proof.
  intros He Hnew. apply resolvedAfterPosted_app; [done|].
  intros before id after ->. exfalso. apply (Hnew id).
  apply elem_of_app. right. apply list_elem_of_here.
Qed.

Lemma pendingPosted_more p effects new :
  pendingPosted p effects → pendingPosted p (effects ++ new).
Proof.
  intros H w wrapper task Hw Hp. apply elem_of_app. left. by eapply H.
Qed.

Lemma processQueue_posted p effects :
  pendingPosted p effects →
  pendingPosted (processQueue p).1 (effects ++ (processQueue p).2)
  ∧ ∀ id, TaskResolved id ∉ (processQueue p).2.
Proof.
  intros Hp. unfold processQueue. destruct (disabled p).
  - simpl. split; [by apply pendingPosted_more|].
    intros id (task & [=] & _)%list_elem_of_fmap.
  - destruct (queue p) as [|task rest].
    + simpl. split; [by apply pendingPosted_more|].
      intros id H. by apply elem_of_nil in H.
    + destruct (List.find (isFree p) (workers p)) as [fw|].
      * simpl. split.
        -- intros w wrapper t. simpl.
           destruct (decide (fw = w)) as [->|Hne].
           ++ rewrite lookup_insert_eq. intros [= <-] [= <-].
              apply elem_of_app. right. apply list_elem_of_here.
           ++ rewrite lookup_insert_ne by done. intros Hw Ht.
              apply elem_of_app. left. by eapply Hp.
        -- intros id [=]%list_elem_of_singleton.
      * simpl. split; [by apply pendingPosted_more|].
        intros id H. by apply elem_of_nil in H.
Qed.

Lemma step_posted p e effects :
  pendingPosted p effects → resolvedAfterPosted effects →
  pendingPosted (step p e).1 (effects ++ (step p e).2)
  ∧ resolvedAfterPosted (effects ++ (step p e).2).
Proof.
  intros Hp Hr. destruct e as [type|w error|w error spawn|]; simpl.
  - unfold runTask. destruct (disabled p).
    + simpl. split; [by apply pendingPosted_more|].
      apply resolvedAfterPosted_quiet; [done|].
      intros id [=]%list_elem_of_singleton.
    + set (p1 := {| wrappers := wrappers p; queue := queue p ++ _ |}).
      destruct (processQueue_posted p1 effects) as [H1 H2]; [done|].
      split; [done|]. by apply resolvedAfterPosted_quiet.
  - unfold handleWorkerMessage.
    set (p1 := withWrappers p _).
    assert (∀ more, pendingPosted p1 (effects ++ more)) as Hp1.
    { intros more w' wrapper task. subst p1. simpl.
      destruct (decide (w = w')) as [->|Hne].
      - rewrite lookup_insert_eq. by intros [= <-].
      - rewrite lookup_insert_ne by done. intros Hw Ht.
        apply elem_of_app. left. by eapply Hp. }
    destruct (wrappers p !! w ≫= pending) as [task|] eqn:Hpending.
    + destruct (processQueue_posted p1 (effects ++ [
                  match error with
                  | Some message =>
                      if bool_decide (message = "")
                      then TaskResolved (id task)
                      else TaskRejected (id task) message
                  | None => TaskResolved (id task)
                  end])) as [H1 H2]; [apply Hp1|].
      destruct (processQueue p1) as [p2 effects2]. simpl in *.
      rewrite <- app_assoc in H1. simpl in H1. split; [done|].
      apply resolvedAfterPosted_app; [done|].
      intros before id' after Heq.
      destruct before as [|e0 before].
      * exists w. rewrite app_nil_r.
        destruct (wrappers p !! w) as [wrapper|] eqn:Hw; [|done].
        simpl in Hpending. simpl in Heq. injection Heq as Hs _.
        assert (id' = id task) as ->.
        { destruct error as [message|]; [|congruence].
          destruct (bool_decide (message = "")); congruence. }
        by eapply Hp.
      * exfalso. simpl in Heq. injection Heq as _ Heq.
        apply (H2 id'). rewrite Heq. apply elem_of_app. right.
        apply list_elem_of_here.
    + simpl. split; [apply Hp1|]. by rewrite app_nil_r.
  - unfold handleWorkerFailure. destruct (disabled p).
    + simpl. split; [by apply pendingPosted_more|]. by rewrite app_nil_r.
    + set (rejected := match wrappers p !! w ≫= pending with
                       | Some task => [TaskRejected (id task) error]
                       | None => []
                       end).
      set (p1 := match list_find _ (workers p) with
                 | Some (index, _) => _
                 | None => p
                 end).
      set (p2 := match createWorker p1 spawn with
                 | inl p' => p'
                 | inr spawnError => disable p1 spawnError
                 end).
      assert (wrappers p1 = wrappers p ∧ nextWorker p1 = nextWorker p)
        as [Hw1 Hn1].
      { subst p1. by destruct (list_find _ (workers p)) as [[? ?]|]. }
      assert (∀ w' wrapper task,
                wrappers p2 !! w' = Some wrapper →
                pending wrapper = Some task →
                wrappers p !! w' = Some wrapper) as Hw2.
      { intros w' wrapper task. subst p2. destruct spawn; simpl.
        - by rewrite Hw1.
        - rewrite Hw1, Hn1.
          destruct (decide (nextWorker p = w')) as [->|Hne].
          + rewrite lookup_insert_eq. by intros [= <-].
          + by rewrite lookup_insert_ne. }
      destruct (processQueue_posted p2 (effects ++ rejected)) as [H1 H2].
      { intros w' wrapper task Hw Ht. apply elem_of_app. left.
        eapply Hp; [|exact Ht]. by eapply Hw2. }
      destruct (processQueue p2) as [p3 effects3]. simpl in *.
      rewrite <- app_assoc in H1. split; [done|].
      apply resolvedAfterPosted_quiet; [done|].
      intros id [Hin|Hin]%elem_of_app; [|by eapply H2].
      subst rejected. destruct (wrappers p !! w ≫= pending).
      * by apply list_elem_of_singleton in Hin.
      * by apply elem_of_nil in Hin.
  - split; [|by rewrite app_nil_r]. by apply pendingPosted_more.
Qed.

Lemma run_posted events : ∀ p effects,
  pendingPosted p effects → resolvedAfterPosted effects →
  resolvedAfterPosted (effects ++ (run p events).2).
Proof.
  induction events as [|e events IH]; intros p effects Hp Hr.
  - simpl. by rewrite app_nil_r.
  - simpl. destruct (step_posted p e effects Hp Hr) as [H1 H2].
    destruct (step p e) as [p1 effects1]. simpl in *.
    specialize (IH p1 (effects ++ effects1) H1 H2).
    destruct (run p1 events) as [p2 effects2]. simpl in *.
    by rewrite <- app_assoc in IH.
Qed.

Lemma pendingPosted_createWorkers spawn n : ∀ p i,
  (∀ w wrapper, wrappers p !! w = Some wrapper → pending wrapper = None) →
  ∀ w wrapper,
    wrappers (createWorkers p spawn i n) !! w = Some wrapper →
    pending wrapper = None.
Proof.
  induction n as [|n IH]; intros p i Hp; [done|].
  simpl. destruct (spawn i); simpl; [done|].
  apply IH. simpl. intros w wrapper.
  destruct (decide (nextWorker p = w)) as [->|Hne].
  - rewrite lookup_insert_eq. by intros [= <-].
  - rewrite lookup_insert_ne by done. apply Hp.
Qed.

(** X12: a task is resolved only after it was posted.  Whatever happens
    to a pool, the promise of a task is resolved only after the task was
    posted to a worker: no task is resolved while it waits in the queue,
    and none that was never run. *)
Theorem tasks_resolve_after_they_were_posted (poolSize : Z)
    (spawn : nat → option string) (events : list Event)
    (before after : list Effect) (id : Z) :
  (run (newPool poolSize spawn) events).2
  = before ++ TaskResolved id :: after →
  ∃ w, Posted w id ∈ before.
Proof.
  intros Heq.
  assert (resolvedAfterPosted ([] ++ (run (newPool poolSize spawn) events).2))
    as H; [|by eapply H].
  apply run_posted.
  - intros w wrapper task Hw Ht. exfalso.
    assert (pending wrapper = None) as Hnone; [|congruence].
    revert Hw. unfold newPool. set (p0 := {| wrappers := ∅; workers := [] |}).
    assert (∀ w wrapper, wrappers p0 !! w = Some wrapper →
                         pending wrapper = None) as H0.
    { intros ? ? Hl. simpl in Hl. by rewrite lookup_empty in Hl. }
    pose proof (pendingPosted_createWorkers spawn (Z.to_nat poolSize)
                  p0 0%nat H0 w wrapper) as H.
    by case_bool_decide.
  - intros pre i post Hnil. by destruct pre.
Qed.

(** An instance of [tasks_resolve_after_they_were_posted]: one task on a
    pool of one worker, and the reply of the worker. *)
Lemma tasks_resolve_after_they_were_posted_witness :
  (run (newPool 1 spawnsAll)
     [RunTask encodeSnapshot; WorkerMessage 0%nat None]).2
  = [Posted 0%nat 0; TaskResolved 0]
  ∧ ∃ w, Posted w 0 ∈ [Posted 0%nat 0].
Proof.
  split; [vm_compute; reflexivity|].
  apply (tasks_resolve_after_they_were_posted 1 spawnsAll
           [RunTask encodeSnapshot; WorkerMessage 0%nat None]
           [Posted 0%nat 0] [] 0).
  vm_compute. reflexivity.
Defined.

End PoolQueueFacts.

(** ** Event-stream router: admission by eviction *)

Section RouterFacts.
Import EventsRouter.

Lemma setDelete_elem x y (s : list ClientConnection) :
  y ∈ setDelete x s ↔ y ∈ s ∧ y ≠ x.
Proof. unfold setDelete. rewrite list_elem_of_filter. tauto. Qed.

Lemma setDelete_nodup x (s : list ClientConnection) :
  NoDup s → NoDup (setDelete x s).
Proof. apply list.NoDup_filter. Qed.

Lemma setDelete_length_le x (s : list ClientConnection) :
  (length (setDelete x s) ≤ length s)%nat.
Proof. apply length_filter. Qed.

Lemma setDelete_head x (s : list ClientConnection) :
  NoDup (x :: s) → setDelete x (x :: s) = s.
Proof.
  intros [Hx Hs]%list.NoDup_cons. unfold setDelete.
  rewrite filter_cons_False by (intros H; by apply H).
  clear Hs. induction s as [|y s IH]; [done|].
  apply not_elem_of_cons in Hx as [Hne Hx].
  rewrite filter_cons_True by done. f_equal. by apply IH.
Qed.

Lemma setAdd_fresh x (s : list ClientConnection) :
  x ∉ s → setAdd x s = s ++ [x].
Proof. intros H. unfold setAdd. by rewrite bool_decide_eq_false_2. Qed.

Lemma consistent_new limit monitor : consistent limit (newRouter monitor).
Proof.
  split; simpl.
  - constructor.
  - intros c Hc. by apply elem_of_nil in Hc.
  - intros k b Hb. by rewrite lookup_empty in Hb.
  - intros k b c Hb. by rewrite lookup_empty in Hb.
  - intros k b n Hb. by rewrite lookup_empty in Hb.
Qed.

Lemma bucketOf_lookup st clientKey :
  clientBuckets (bucketOf st clientKey).1 !! clientKey
  = Some (bucketOf st clientKey).2.
Proof.
  unfold bucketOf.
  destruct (clientBuckets st !! clientKey) eqn:H; simpl; [done|].
  apply lookup_insert_eq.
Qed.

Lemma bucketOf_size st clientKey :
  length (bucketOf st clientKey).2 = bucketSize st clientKey.
Proof.
  unfold bucketOf, bucketSize.
  by destruct (clientBuckets st !! clientKey).
Qed.

Lemma bucketOf_clients st clientKey :
  clients (bucketOf st clientKey).1 = clients st
  ∧ nextConn (bucketOf st clientKey).1 = nextConn st.
Proof.
  unfold bucketOf. by destruct (clientBuckets st !! clientKey).
Qed.

Lemma consistent_bucketOf limit st clientKey :
  (∀ n, limit = Finite n → 0 ≤ n) →
  consistent limit st → consistent limit (bucketOf st clientKey).1.
Proof.
  intros Hpos [H1 H2 H3 H4 H5]. unfold bucketOf.
  destruct (clientBuckets st !! clientKey) eqn:Hk; simpl; [done|].
  split; simpl; try done.
  - intros k b. destruct (decide (clientKey = k)) as [->|Hne].
    + rewrite lookup_insert_eq. intros [= <-]. constructor.
    + rewrite lookup_insert_ne by done. apply H3.
  - intros k b c. destruct (decide (clientKey = k)) as [->|Hne].
    + rewrite lookup_insert_eq. intros [= <-] Hc. by apply elem_of_nil in Hc.
    + rewrite lookup_insert_ne by done. apply H4.
  - intros k b n. destruct (decide (clientKey = k)) as [->|Hne].
    + rewrite lookup_insert_eq. intros [= <-] Hl. simpl.
      by apply Hpos.
    + rewrite lookup_insert_ne by done. apply H5.
Qed.

Lemma consistent_cleanupClient limit st client :
  consistent limit st → consistent limit (cleanupClient st client).
Proof.
  intros [H1 H2 H3 H4 H5]. unfold cleanupClient.
  case_bool_decide as Hin; [|done].
  assert (∀ k b,
    match clientBuckets st !! key client with
    | Some bucket =>
        if bool_decide (length (setDelete client bucket) = 0%nat)
        then delete (key client) (clientBuckets st)
        else <[key client := setDelete client bucket]> (clientBuckets st)
    | None => clientBuckets st
    end !! k = Some b →
    (k ≠ key client ∧ clientBuckets st !! k = Some b)
    ∨ (k = key client
       ∧ ∃ b0, clientBuckets st !! k = Some b0 ∧ b = setDelete client b0))
    as Hcase.
  { intros k b.
    destruct (clientBuckets st !! key client) as [bucket|] eqn:Hb.
    - case_bool_decide.
      + destruct (decide (key client = k)) as [<-|Hne].
        * by rewrite lookup_delete_eq.
        * rewrite lookup_delete_ne by done. intros. left. by split.
      + destruct (decide (key client = k)) as [<-|Hne].
        * rewrite lookup_insert_eq. intros [= <-]. right. split; [done|].
          by exists bucket.
        * rewrite lookup_insert_ne by done. intros. left. by split.
    - intros Hk. left. split; [|done]. intros ->. congruence. }
  split; simpl.
  - by apply setDelete_nodup.
  - intros c [Hc _]%setDelete_elem. by apply H2.
  - intros k b Hb. destruct (Hcase k b Hb) as [[_ Hk]|[_ (b0 & Hk & ->)]].
    + by eapply H3.
    + apply setDelete_nodup. by eapply H3.
  - intros k b c Hb Hc.
    destruct (Hcase k b Hb) as [[Hne Hk]|[-> (b0 & Hk & ->)]].
    + destruct (H4 k b c Hk Hc) as [Hcc Hkey]. split; [|done].
      apply setDelete_elem. split; [done|]. intros ->. done.
    + apply setDelete_elem in Hc as [Hc Hne].
      destruct (H4 _ b0 c Hk Hc) as [Hcc Hkey]. split; [|done].
      by apply setDelete_elem.
  - intros k b n Hb Hl.
    destruct (Hcase k b Hb) as [[_ Hk]|[_ (b0 & Hk & ->)]].
    + by eapply H5.
    + pose proof (setDelete_length_le client b0).
      pose proof (H5 _ _ _ Hk Hl). lia.
Qed.

Lemma consistent_accept limit st bucket clientKey writeOk :
  consistent limit st →
  clientBuckets st !! clientKey = Some bucket →
  atCapacity limit (length bucket) = false →
  consistent limit (accept st bucket clientKey writeOk).1.
Proof.
  intros [H1 H2 H3 H4 H5] Hb Hcap. unfold accept.
  destruct writeOk; simpl; [|done].
  set (client := {| conn := nextConn st; key := clientKey |}).
  assert (client ∉ clients st) as Hfresh.
  { intros Hc. apply H2 in Hc. simpl in Hc. lia. }
  assert (client ∉ bucket) as Hfresh'.
  { intros Hc. by destruct (H4 _ _ _ Hb Hc). }
  rewrite !setAdd_fresh by done.
  split; simpl.
  - apply list.NoDup_app. split_and!; [done | | apply list.NoDup_singleton].
    intros c Hc ->%list_elem_of_singleton. done.
  - intros c [Hc| ->%list_elem_of_singleton]%elem_of_app.
    + apply H2 in Hc. lia.
    + simpl. lia.
  - intros k b. destruct (decide (clientKey = k)) as [->|Hne].
    + rewrite lookup_insert_eq. intros [= <-].
      apply list.NoDup_app. split_and!; [by eapply H3 | | apply list.NoDup_singleton].
      intros c Hc ->%list_elem_of_singleton. done.
    + rewrite lookup_insert_ne by done. apply H3.
  - intros k b c. destruct (decide (clientKey = k)) as [->|Hne].
    + rewrite lookup_insert_eq. intros [= <-].
      intros [Hc| ->%list_elem_of_singleton]%elem_of_app.
      * destruct (H4 _ _ _ Hb Hc). split; [|done].
        apply elem_of_app. by left.
      * split; [|done]. apply elem_of_app. right.
        by apply list_elem_of_singleton.
    + rewrite lookup_insert_ne by done. intros Hk Hc.
      destruct (H4 _ _ _ Hk Hc). split; [|done].
      apply elem_of_app. by left.
  - intros k b n. destruct (decide (clientKey = k)) as [->|Hne].
    + rewrite lookup_insert_eq. intros [= <-] ->.
      rewrite length_app. simpl. simpl in Hcap.
      apply Z.leb_gt in Hcap. lia.
    + rewrite lookup_insert_ne by done. apply H5.
Qed.

Lemma consistent_onEvents limit st clientKey writeOk :
  (∀ n, limit = Finite n → 0 ≤ n) →
  consistent limit st →
  consistent limit (onEvents limit st clientKey writeOk).1.
Proof.
  intros Hpos Hst. unfold onEvents.
  pose proof (consistent_bucketOf limit st clientKey Hpos Hst) as H1.
  pose proof (bucketOf_lookup st clientKey) as Hl1.
  destruct (bucketOf st clientKey) as [st1 bucket]. simpl in *.
  destruct (atCapacity limit (length bucket)) eqn:Hcap.
  - set (st2 := match list.head bucket with
                | Some oldest => cleanupClient st1 oldest
                | None => st1
                end).
    assert (consistent limit st2) as H2.
    { subst st2. destruct (list.head bucket); [|done].
      by apply consistent_cleanupClient. }
    pose proof (consistent_bucketOf limit st2 clientKey Hpos H2) as H3.
    pose proof (bucketOf_lookup st2 clientKey) as Hl3.
    destruct (bucketOf st2 clientKey) as [st3 bucket3]. simpl in *.
    destruct (atCapacity limit (length bucket3)) eqn:Hcap3; [done|].
    by apply consistent_accept.
  - by apply consistent_accept.
Qed.

Lemma consistent_steps limit events : ∀ st,
  (∀ n, limit = Finite n → 0 ≤ n) →
  consistent limit st → consistent limit (foldl (step limit) st events).
Proof.
  induction events as [|e events IH]; intros st Hpos Hst; [done|].
  simpl. apply IH; [done|]. destruct e; simpl.
  - by apply consistent_onEvents.
  - by apply consistent_cleanupClient.
Qed.

(** At capacity the oldest connection of the bucket makes room for the
    new one. *)
Lemma onEvents_evicts n st clientKey oldest rest :
  0 < n →
  consistent (Finite n) st →
  clientBuckets st !! clientKey = Some (oldest :: rest) →
  Z.of_nat (length (oldest :: rest)) = n →
  let client := {| conn := nextConn st; key := clientKey |} in
  let result := onEvents (Finite n) st clientKey true in
  result.2 = Accepted client
  ∧ clientBuckets result.1 !! clientKey = Some (rest ++ [client])
  ∧ (oldest ∉ clients result.1)
  ∧ (client ∈ clients result.1).
Proof.
  intros Hn Hst Hb Hlen client result.
  pose proof Hst as [H1 H2 H3 H4 H5].
  destruct (H4 _ _ oldest Hb) as [Hin Hkey]; [apply list_elem_of_here|].
  pose proof (H3 _ _ Hb) as Hnd.
  set (st2 := cleanupClient st oldest).
  assert (clients st2 = setDelete oldest (clients st)
          ∧ nextConn st2 = nextConn st
          ∧ clientBuckets st2
            = if bool_decide (length rest = 0%nat)
              then delete clientKey (clientBuckets st)
              else <[clientKey := rest]> (clientBuckets st)) as (Hc2 & Hn2 & Hb2).
  { subst st2. unfold cleanupClient.
    rewrite bool_decide_eq_true_2 by done. cbn.
    rewrite Hkey, Hb, setDelete_head by done. done. }
  assert ((bucketOf st2 clientKey).2 = rest) as Hrest.
  { unfold bucketOf. rewrite Hb2. case_bool_decide as Hr.
    - rewrite lookup_delete_eq. simpl. by destruct rest.
    - by rewrite lookup_insert_eq. }
  pose proof (bucketOf_clients st2 clientKey) as [Hc3 Hn3].
  assert (result = accept (bucketOf st2 clientKey).1 rest clientKey true)
    as ->.
  { subst result. unfold onEvents, bucketOf at 1. rewrite Hb.
    cbn [atCapacity list.head].
    replace (n <=? Z.of_nat (length (oldest :: rest))) with true
      by (symmetry; apply Z.leb_le; lia).
    fold st2. destruct (bucketOf st2 clientKey) as [st3 bucket3].
    simpl in Hrest. subst bucket3.
    by replace (n <=? Z.of_nat (length rest)) with false
      by (symmetry; apply Z.leb_gt; simpl in Hlen; lia). }
  destruct (bucketOf st2 clientKey) as [st3 bucket3]. simpl in *.
  unfold accept. cbn [negb fst snd clients clientBuckets].
  rewrite Hn3, Hn2. fold client.
  assert (client ∉ clients st) as Hfresh.
  { intros Hc. apply H2 in Hc. simpl in Hc. lia. }
  assert (client ∉ clients st3) as Hfresh3.
  { rewrite Hc3, Hc2. by intros [? _]%setDelete_elem. }
  assert (client ∉ rest) as Hfresh'.
  { intros Hc. apply Hfresh. eapply H4; [exact Hb|].
    by apply list_elem_of_further. }
  rewrite !setAdd_fresh by done.
  split_and!.
  - done.
  - by rewrite lookup_insert_eq.
  - rewrite Hc3, Hc2.
    intros [[_ Hne]%setDelete_elem| ->%list_elem_of_singleton]%elem_of_app;
      [done|].
    by apply Hfresh.
  - apply elem_of_app. right. by apply list_elem_of_singleton.
Qed.

(** Without a limit every request whose first write succeeds is let in,
    behind the connections its bucket already holds. *)
Lemma onEvents_unbounded st clientKey :
  consistent Infinity st →
  let client := {| conn := nextConn st; key := clientKey |} in
  let result := onEvents Infinity st clientKey true in
  result.2 = Accepted client
  ∧ clientBuckets result.1 !! clientKey
    = Some (default [] (clientBuckets st !! clientKey) ++ [client])
  ∧ bucketSize result.1 clientKey = S (bucketSize st clientKey).
Proof.
  intros Hst client result. subst result.
  pose proof Hst as [H1 H2 H3 H4 H5].
  unfold onEvents.
  pose proof (bucketOf_lookup st clientKey) as Hl.
  pose proof (bucketOf_clients st clientKey) as [Hc Hn].
  assert ((bucketOf st clientKey).2
          = default [] (clientBuckets st !! clientKey)) as Hb.
  { unfold bucketOf. by destruct (clientBuckets st !! clientKey). }
  assert (∀ c, c ∈ (bucketOf st clientKey).2 → c ∈ clients st) as Hmem.
  { intros c. rewrite Hb.
    destruct (clientBuckets st !! clientKey) as [b|] eqn:Hk; simpl.
    - intros Hcb. by destruct (H4 _ _ _ Hk Hcb).
    - by intros ?%elem_of_nil. }
  destruct (bucketOf st clientKey) as [st1 bucket]. simpl in *.
  unfold accept. cbn [negb fst snd clientBuckets].
  rewrite Hn. fold client.
  assert (client ∉ clients st) as Hfresh.
  { intros Hcl. apply H2 in Hcl. simpl in Hcl. lia. }
  rewrite (setAdd_fresh client bucket) by (intros ?; by apply Hfresh, Hmem).
  rewrite lookup_insert_eq, <- Hb. split_and!; [done | done |].
  unfold bucketSize. cbn [clientBuckets].
  rewrite lookup_insert_eq, length_app, Hb. simpl.
  destruct (clientBuckets st !! clientKey); simpl; lia.
Qed.

(** C7: if the configured limit is unset, not a number or [<= 0], there is
    no limit and no request is refused: every connection is let in behind
    those its bucket holds.  With a limit, a request that finds its bucket
    at capacity evicts the oldest connection of the bucket and is let in;
    a request is refused only when the bucket is still at capacity after
    that eviction; and after any sequence of requests and disconnections
    no bucket holds more connections than the limit. *)
Theorem admission_by_eviction :
  (maxConnectionsPerKey None = Infinity
   ∧ (∀ text, parseInt text = NaN →
        maxConnectionsPerKey (Some text) = Infinity)
   ∧ (∀ text n, parseInt text = Num n → n ≤ 0 →
        maxConnectionsPerKey (Some text) = Infinity)
   ∧ (∀ text n, parseInt text = Num n → 0 < n →
        maxConnectionsPerKey (Some text) = Finite n))
  ∧ (∀ st clientKey writeOk,
       (onEvents Infinity st clientKey writeOk).2 ≠ Refused
       ∧ evicted Infinity st clientKey = None)
  ∧ (∀ monitor events clientKey,
       let st := foldl (step Infinity) (newRouter monitor) events in
       let result := onEvents Infinity st clientKey true in
       result.2 = Accepted {| conn := nextConn st; key := clientKey |}
       ∧ bucketSize result.1 clientKey = S (bucketSize st clientKey))
  ∧ (∀ n st clientKey oldest rest,
       0 < n →
       consistent (Finite n) st →
       clientBuckets st !! clientKey = Some (oldest :: rest) →
       Z.of_nat (length (oldest :: rest)) = n →
       let client := {| conn := nextConn st; key := clientKey |} in
       let result := onEvents (Finite n) st clientKey true in
       evicted (Finite n) st clientKey = Some oldest
       ∧ result.2 = Accepted client
       ∧ clientBuckets result.1 !! clientKey = Some (rest ++ [client])
       ∧ (oldest ∉ clients result.1))
  ∧ (∀ limit st clientKey writeOk,
       (onEvents limit st clientKey writeOk).2 = Refused →
       atCapacity limit (length (makeRoom limit st clientKey).2) = true)
  ∧ (∀ n monitor events clientKey,
       0 < n →
       let st := foldl (step (Finite n)) (newRouter monitor) events in
       consistent (Finite n) st
       ∧ Z.of_nat (bucketSize st clientKey) ≤ n).
Proof.
  split; [|split; [|split; [|split; [|split]]]].
  - split; [|split; [|split]].
    + done.
    + intros text H. unfold maxConnectionsPerKey. simpl. by rewrite H.
    + intros text n H Hn. unfold maxConnectionsPerKey. simpl. rewrite H.
      by replace (0 <? n) with false by (symmetry; apply Z.ltb_ge; lia).
    + intros text n H Hn. unfold maxConnectionsPerKey. simpl. rewrite H.
      by replace (0 <? n) with true by (symmetry; apply Z.ltb_lt; lia).
  - intros st clientKey writeOk. split.
    + unfold onEvents. destruct (bucketOf st clientKey) as [st1 bucket].
      cbn [atCapacity]. unfold accept. by destruct writeOk.
    + unfold evicted. by destruct (bucketOf st clientKey).
  - intros monitor events clientKey st result.
    assert (consistent Infinity st) as Hst.
    { apply consistent_steps; [done | apply consistent_new]. }
    destruct (onEvents_unbounded st clientKey Hst) as (Ho & _ & Hs).
    by split.
  - intros n st clientKey oldest rest Hn Hst Hb Hlen client result.
    destruct (onEvents_evicts n st clientKey oldest rest Hn Hst Hb Hlen)
      as (Ho & Hl & Hgone & _).
    split_and!; [|done|done|done].
    unfold evicted, bucketOf. rewrite Hb. cbn [atCapacity list.head].
    by replace (n <=? Z.of_nat (length (oldest :: rest))) with true
      by (symmetry; apply Z.leb_le; lia).
  - intros limit st clientKey writeOk. unfold onEvents, makeRoom.
    destruct (bucketOf st clientKey) as [st1 bucket].
    destruct (atCapacity limit (length bucket)) eqn:Hcap.
    + destruct (bucketOf _ clientKey) as [st3 bucket3]. simpl.
      destruct (atCapacity limit (length bucket3)); [done|].
      unfold accept. by destruct writeOk.
    + unfold accept. by destruct writeOk.
  - intros n monitor events clientKey Hn st.
    assert (consistent (Finite n) st) as Hst.
    { apply consistent_steps; [|apply consistent_new].
      intros m [= <-]. lia. }
    split; [done|]. unfold bucketSize.
    destruct (clientBuckets st !! clientKey) as [b|] eqn:Hb; [|simpl; lia].
    by eapply (buckets_bounded _ _ Hst).
Qed.

(** An instance of [admission_by_eviction]: with the limit set to 2, a
    third request of a key whose bucket holds connections 0 and 1 evicts
    connection 0 and is let in as connection 2. *)
Lemma admission_by_eviction_witness :
  let st :=
    foldl (step (Finite 2)) (newRouter true)
      [Request "tab" true; Request "tab" true] in
  let result := onEvents (Finite 2) st "tab" true in
  maxConnectionsPerKey (Some "2") = Finite 2
  ∧ result.2 = Accepted {| conn := 2; key := "tab" |}
  ∧ clientBuckets result.1 !! "tab"
    = Some [{| conn := 1; key := "tab" |}; {| conn := 2; key := "tab" |}].
Proof.
  intros st result.
  destruct admission_by_eviction
    as ((_ & _ & _ & Hcfg) & _ & _ & Hevict & _ & Hreach).
  destruct (Hreach 2 true [Request "tab" true; Request "tab" true] "tab")
    as [Hst _]; [lia|].
  destruct (Hevict 2 st "tab" {| conn := 0; key := "tab" |}
              [{| conn := 1; key := "tab" |}])
    as (_ & Hout & Hbucket & _);
    [lia | exact Hst | vm_compute; reflexivity | reflexivity |].
  split_and!.
  - apply (Hcfg "2" 2); [reflexivity | lia].
  - exact Hout.
  - exact Hbucket.
Defined.

End RouterFacts.

(** ** Event-stream router: buckets, the monitor and broadcasts *)

Section RouterBroadcastFacts.
Import EventsRouter.

Lemma filter_ext_elem {A} (P1 P2 : A → Prop)
    `{!∀ x, Decision (P1 x), !∀ x, Decision (P2 x)} (l : list A) :
  (∀ x, x ∈ l → P1 x ↔ P2 x) → filter P1 l = filter P2 l.
Proof.
  induction l as [|y l IH]; intros Hext; [done|].
  rewrite !filter_cons.
  destruct (decide (P1 y)) as [Hy1|Hy1], (decide (P2 y)) as [Hy2|Hy2].
  - f_equal. apply IH. intros x Hx. apply Hext.
    by apply list_elem_of_further.
  - exfalso. apply Hy2, Hext; [apply list_elem_of_here | done].
  - exfalso. apply Hy1, Hext; [apply list_elem_of_here | done].
  - apply IH. intros x Hx. apply Hext. by apply list_elem_of_further.
Qed.

Lemma cleanupClient_clients st client :
  clients (cleanupClient st client) = setDelete client (clients st).
Proof.
  unfold cleanupClient. case_bool_decide as Hin; [done|].
  unfold setDelete. symmetry. induction (clients st) as [|y l IH]; [done|].
  apply not_elem_of_cons in Hin as [Hne Hin].
  rewrite filter_cons_True by done. f_equal. by apply IH.
Qed.

Lemma cleanupClient_monitor st client :
  sessionMonitor (cleanupClient st client) = sessionMonitor st.
Proof. unfold cleanupClient. by case_bool_decide. Qed.

(** The fold of [broadcastEvent] over a part [l] of the snapshot. *)
Lemma broadcast_fold (writeFails : ClientConnection → bool) l :
  ∀ st written,
    let result :=
      foldl (λ acc client,
               if writeFails client
               then (cleanupClient acc.1 client, acc.2)
               else (acc.1, acc.2 ++ [client]))
            (st, written) l in
    clients result.1
    = filter (λ y, ¬ (writeFails y = true ∧ y ∈ l)) (clients st)
    ∧ result.2 = written ++ filter (λ y, writeFails y = false) l.
Proof.
  induction l as [|c l IH]; intros st written; simpl.
  - split; [|by rewrite app_nil_r].
    symmetry. induction (clients st) as [|y s IHs]; [done|].
    rewrite filter_cons_True; [by f_equal|].
    intros [_ H]. by apply elem_of_nil in H.
  - destruct (writeFails c) eqn:Hc.
    + destruct (IH (cleanupClient st c) written) as [H1 H2]. simpl in *.
      rewrite H1, H2, cleanupClient_clients. unfold setDelete.
      rewrite list_filter_filter.
      rewrite filter_cons_False by congruence.
      split; [|done]. apply list_filter_iff. intros y. split.
      * intros [Hy Hne] [Hf [->|Hin]%elem_of_cons]; [done|]. by apply Hy.
      * intros Hy. split.
        -- intros [Hf Hin]. apply Hy. split; [done|].
           by apply list_elem_of_further.
        -- intros ->. apply Hy. split; [done|]. apply list_elem_of_here.
    + destruct (IH st (written ++ [c])) as [H1 H2]. simpl in *.
      rewrite H1, H2, filter_cons_True, <- app_assoc by done.
      split; [|done]. apply list_filter_iff. intros y. split.
      * intros Hy [Hf [->|Hin]%elem_of_cons]; [congruence|]. by apply Hy.
      * intros Hy [Hf Hin]. apply Hy. split; [done|].
        by apply list_elem_of_further.
Qed.

(** X13: a broadcast drops the connections whose write fails.  The payload
    of a notification is written to the connections whose write returns,
    in the order they connected; these are the connections the router
    holds afterwards, and every connection whose write throws is gone. *)
Theorem broadcast_drops_failed_connections (st : Router)
    (writeFails : ClientConnection → bool) :
  let result := broadcastEvent st writeFails in
  clients result.1 = filter (λ c, writeFails c = false) (clients st)
  ∧ result.2 = clients result.1
  ∧ (∀ c, c ∈ clients st → writeFails c = true → c ∉ clients result.1).
Proof.
  intros result.
  assert (clients result.1 = filter (λ c, writeFails c = false) (clients st)
          ∧ result.2 = filter (λ c, writeFails c = false) (clients st))
    as [H1 H2].
  { subst result. unfold broadcastEvent. case_bool_decide as Hlen.
    - destruct (clients st) eqn:E; [|done]. simpl. by rewrite E.
    - destruct (broadcast_fold writeFails (clients st) st []) as [H1 H2].
      simpl in *. rewrite H1, H2. split; [|done].
      apply filter_ext_elem. intros y Hy. split.
      + intros Hn. destruct (writeFails y); [|done]. by destruct Hn.
      + intros Hf [Ht _]. congruence. }
  split_and!; [done | congruence |].
  intros c Hc Hf. rewrite H1. intros [Hf' _]%list_elem_of_filter.
  congruence.
Qed.

(** *** The buckets partition the connections *)

Lemma partitioned_new monitor : partitioned (newRouter monitor).
Proof.
  split; simpl.
  - intros c Hc. by apply elem_of_nil in Hc.
  - intros k b c Hb. by rewrite lookup_empty in Hb.
Qed.

Lemma partitioned_bucketOf st clientKey :
  partitioned st → partitioned (bucketOf st clientKey).1.
Proof.
  intros [H1 H2]. unfold bucketOf.
  destruct (clientBuckets st !! clientKey) eqn:Hk; simpl; [done|].
  split; simpl.
  - intros c Hc. destruct (H1 c Hc) as (b & Hb & Hcb). exists b.
    split; [|done]. rewrite lookup_insert_ne; [done|]. congruence.
  - intros k b c. destruct (decide (clientKey = k)) as [->|Hne].
    + rewrite lookup_insert_eq. intros [= <-] Hc. by apply elem_of_nil in Hc.
    + rewrite lookup_insert_ne by done. apply H2.
Qed.

Lemma partitioned_cleanupClient st client :
  partitioned st → partitioned (cleanupClient st client).
Proof.
  intros [H1 H2]. unfold cleanupClient.
  case_bool_decide as Hin; [|done]. split; simpl.
  - intros c [Hc Hne]%setDelete_elem.
    destruct (H1 c Hc) as (b & Hb & Hcb).
    destruct (decide (key c = key client)) as [Hk|Hk].
    + rewrite <- Hk, Hb.
      assert (c ∈ setDelete client b) as Hcb' by by apply setDelete_elem.
      rewrite bool_decide_eq_false_2.
      * exists (setDelete client b). by rewrite lookup_insert_eq.
      * destruct (setDelete client b); [by apply elem_of_nil in Hcb'|done].
    + exists b. split; [|done].
      destruct (clientBuckets st !! key client); [|done].
      case_bool_decide.
      * by rewrite lookup_delete_ne.
      * by rewrite lookup_insert_ne.
  - intros k b c Hb Hc.
    assert ((k ≠ key client ∧ clientBuckets st !! k = Some b)
            ∨ (k = key client
               ∧ ∃ b0, clientBuckets st !! k = Some b0
                       ∧ b = setDelete client b0)) as Hcase.
    { destruct (clientBuckets st !! key client) as [bucket|] eqn:Hbk.
      - case_bool_decide.
        + destruct (decide (key client = k)) as [<-|Hne].
          * by rewrite lookup_delete_eq in Hb.
          * rewrite lookup_delete_ne in Hb by done. left. by split.
        + destruct (decide (key client = k)) as [<-|Hne].
          * rewrite lookup_insert_eq in Hb. injection Hb as <-.
            right. split; [done|]. by exists bucket.
          * rewrite lookup_insert_ne in Hb by done. left. by split.
      - left. split; [|done]. intros ->. congruence. }
    destruct Hcase as [[Hne Hk]|[-> (b0 & Hk & ->)]].
    + destruct (H2 k b c Hk Hc) as [Hcc Hkey]. split; [|done].
      apply setDelete_elem. split; [done|]. intros ->. done.
    + apply setDelete_elem in Hc as [Hc Hne].
      destruct (H2 _ b0 c Hk Hc) as [Hcc Hkey]. split; [|done].
      by apply setDelete_elem.
Qed.

Lemma setAdd_elem x y (s : list ClientConnection) :
  y ∈ setAdd x s ↔ y ∈ s ∨ y = x.
Proof.
  unfold setAdd. case_bool_decide as Hx.
  - split; [by left|]. by intros [?| ->].
  - rewrite elem_of_app, list_elem_of_singleton. tauto.
Qed.

Lemma partitioned_accept st bucket clientKey writeOk :
  partitioned st →
  clientBuckets st !! clientKey = Some bucket →
  partitioned (accept st bucket clientKey writeOk).1.
Proof.
  intros [H1 H2] Hb. unfold accept.
  destruct writeOk; simpl; [|done].
  set (client := {| conn := nextConn st; key := clientKey |}).
  split; simpl.
  - intros c [Hc| ->]%setAdd_elem.
    + destruct (H1 c Hc) as (b & Hkb & Hcb).
      destruct (decide (clientKey = key c)) as [Hk|Hk].
      * rewrite <- Hk, lookup_insert_eq. eexists. split; [done|].
        apply setAdd_elem. left. rewrite <- Hk in Hkb. congruence.
      * rewrite lookup_insert_ne by done. by exists b.
    + simpl. rewrite lookup_insert_eq. eexists. split; [done|].
      apply setAdd_elem. by right.
  - intros k b c. destruct (decide (clientKey = k)) as [->|Hne].
    + rewrite lookup_insert_eq. intros [= <-] [Hc| ->]%setAdd_elem.
      * destruct (H2 _ _ _ Hb Hc). split; [|done].
        apply setAdd_elem. by left.
      * split; [|done]. apply setAdd_elem. by right.
    + rewrite lookup_insert_ne by done. intros Hk Hc.
      destruct (H2 _ _ _ Hk Hc). split; [|done].
      apply setAdd_elem. by left.
Qed.

Lemma partitioned_onEvents limit st clientKey writeOk :
  partitioned st → partitioned (onEvents limit st clientKey writeOk).1.
Proof.
  intros Hst. unfold onEvents.
  pose proof (partitioned_bucketOf st clientKey Hst) as H1.
  pose proof (bucketOf_lookup st clientKey) as Hl1.
  destruct (bucketOf st clientKey) as [st1 bucket]. simpl in *.
  destruct (atCapacity limit (length bucket)) eqn:Hcap.
  - set (st2 := match list.head bucket with
                | Some oldest => cleanupClient st1 oldest
                | None => st1
                end).
    assert (partitioned st2) as H2.
    { subst st2. destruct (list.head bucket); [|done].
      by apply partitioned_cleanupClient. }
    pose proof (partitioned_bucketOf st2 clientKey H2) as H3.
    pose proof (bucketOf_lookup st2 clientKey) as Hl3.
    destruct (bucketOf st2 clientKey) as [st3 bucket3]. simpl in *.
    destruct (atCapacity limit (length bucket3)) eqn:Hcap3; [done|].
    by apply partitioned_accept.
  - by apply partitioned_accept.
Qed.

(** What [cleanupClient] keeps, [broadcastEvent] keeps. *)
Lemma broadcastEvent_keeps (P : Router → Prop) st writeFails :
  (∀ s client, P s → P (cleanupClient s client)) →
  P st → P (broadcastEvent st writeFails).1.
Proof.
  intros Hkeep Hst. unfold broadcastEvent. case_bool_decide; [done|].
  assert (∀ l s written,
            P s →
            P (foldl (λ acc client,
                        if writeFails client
                        then (cleanupClient acc.1 client, acc.2)
                        else (acc.1, acc.2 ++ [client]))
                     (s, written) l).1) as Hfold.
  { induction l as [|c l IH]; intros s written Hs; [done|].
    simpl. destruct (writeFails c); apply IH; [by apply Hkeep|done]. }
  by apply Hfold.
Qed.

Lemma partitioned_act limit st a :
  partitioned st → partitioned (act limit st a).
Proof.
  intros Hst. destruct a as [[clientKey writeOk|client]|writeFails]; simpl.
  - by apply partitioned_onEvents.
  - by apply partitioned_cleanupClient.
  - destruct (sessionMonitorAttached st); [|done].
    apply (broadcastEvent_keeps partitioned); [|done].
    intros s client. apply partitioned_cleanupClient.
Qed.

(** X14: the buckets partition the connections.  After any requests,
    disconnections and notifications a connection is open exactly when a
    bucket holds it, and the bucket that holds it is the one of its
    key. *)
Theorem buckets_partition_the_connections (limit : Limit) (monitor : bool)
    (activities : list Activity) :
  let st := foldl (act limit) (newRouter monitor) activities in
  (∀ c, c ∈ clients st ↔ ∃ k b, clientBuckets st !! k = Some b ∧ c ∈ b)
  ∧ (∀ k b c, clientBuckets st !! k = Some b → c ∈ b → key c = k).
Proof.
  intros st.
  assert (partitioned st) as [H1 H2].
  { subst st. generalize (partitioned_new monitor).
    generalize (newRouter monitor).
    induction activities as [|a activities IH]; intros st Hst; [done|].
    simpl. apply IH. by apply partitioned_act. }
  split.
  - intros c. split.
    + intros Hc. destruct (H1 c Hc) as (b & Hb & Hcb). by exists (key c), b.
    + intros (k & b & Hb & Hcb). by destruct (H2 k b c Hb Hcb).
  - intros k b c Hb Hcb. by destruct (H2 k b c Hb Hcb).
Qed.

(** *** The listener of the session monitor *)

Lemma listening_cleanupClient st client :
  listening st → listening (cleanupClient st client).
Proof.
  unfold listening, cleanupClient. intros Hst.
  destruct (decide (client ∈ clients st)) as [Hin|Hin];
    [|by rewrite !(bool_decide_eq_false_2 (client ∈ clients st))].
  rewrite !(bool_decide_eq_true_2 (client ∈ clients st)) by done. simpl.
  rewrite Hst. destruct (sessionMonitor st); simpl; [|done].
  assert (clients st ≠ []) as Hne.
  { intros E. rewrite E in Hin. by apply elem_of_nil in Hin. }
  rewrite (bool_decide_eq_true_2 (clients st ≠ [])) by done.
  by destruct (setDelete client (clients st)).
Qed.

Lemma listening_bucketOf st clientKey :
  listening st → listening (bucketOf st clientKey).1.
Proof.
  unfold listening, bucketOf.
  by destruct (clientBuckets st !! clientKey).
Qed.

Lemma listening_accept st bucket clientKey writeOk :
  listening st → listening (accept st bucket clientKey writeOk).1.
Proof.
  unfold listening, accept. intros Hst.
  destruct writeOk; simpl; [|done].
  set (client := {| conn := nextConn st; key := clientKey |}).
  assert (setAdd client (clients st) ≠ []) as Hne.
  { intros E. assert (client ∈ setAdd client (clients st)) as Hc
      by (apply setAdd_elem; by right).
    rewrite E in Hc. by apply elem_of_nil in Hc. }
  rewrite bool_decide_eq_true_2 by done.
  destruct (sessionMonitor st); simpl; [done|].
  by rewrite Hst.
Qed.

Lemma listening_onEvents limit st clientKey writeOk :
  listening st → listening (onEvents limit st clientKey writeOk).1.
Proof.
  intros Hst. unfold onEvents.
  pose proof (listening_bucketOf st clientKey Hst) as H1.
  destruct (bucketOf st clientKey) as [st1 bucket]. simpl in *.
  destruct (atCapacity limit (length bucket)).
  - set (st2 := match list.head bucket with
                | Some oldest => cleanupClient st1 oldest
                | None => st1
                end).
    assert (listening st2) as H2.
    { subst st2. destruct (list.head bucket); [|done].
      by apply listening_cleanupClient. }
    pose proof (listening_bucketOf st2 clientKey H2) as H3.
    destruct (bucketOf st2 clientKey) as [st3 bucket3]. simpl in *.
    destruct (atCapacity limit (length bucket3)); [done|].
    by apply listening_accept.
  - by apply listening_accept.
Qed.

Lemma listening_act limit st a : listening st → listening (act limit st a).
Proof.
  intros Hst. destruct a as [[clientKey writeOk|client]|writeFails]; simpl.
  - by apply listening_onEvents.
  - by apply listening_cleanupClient.
  - destruct (sessionMonitorAttached st); [|done].
    apply (broadcastEvent_keeps listening); [|done].
    intros s client. apply listening_cleanupClient.
Qed.

Lemma onEvents_monitor limit st clientKey writeOk :
  sessionMonitor (onEvents limit st clientKey writeOk).1
  = sessionMonitor st.
Proof.
  assert (∀ s k, sessionMonitor (bucketOf s k).1 = sessionMonitor s)
    as Hbucket.
  { intros s k. unfold bucketOf. by destruct (clientBuckets s !! k). }
  assert (∀ s b k ok, sessionMonitor (accept s b k ok).1
                      = sessionMonitor s) as Haccept.
  { intros s b k ok. unfold accept. by destruct ok. }
  unfold onEvents. pose proof (Hbucket st clientKey) as H1.
  destruct (bucketOf st clientKey) as [st1 bucket]. simpl in H1.
  destruct (atCapacity limit (length bucket));
    [|by rewrite Haccept].
  set (st2 := match list.head bucket with
              | Some oldest => cleanupClient st1 oldest
              | None => st1
              end).
  assert (sessionMonitor st2 = sessionMonitor st) as H2.
  { subst st2. destruct (list.head bucket); [|done].
    by rewrite cleanupClient_monitor. }
  pose proof (Hbucket st2 clientKey) as H3.
  destruct (bucketOf st2 clientKey) as [st3 bucket3]. simpl in H3.
  destruct (atCapacity limit (length bucket3)); simpl; [congruence|].
  rewrite Haccept. congruence.
Qed.

Lemma act_monitor limit st a :
  sessionMonitor (act limit st a) = sessionMonitor st.
Proof.
  destruct a as [[clientKey writeOk|client]|writeFails]; simpl.
  - apply onEvents_monitor.
  - apply cleanupClient_monitor.
  - destruct (sessionMonitorAttached st); [|done].
    apply (broadcastEvent_keeps
             (λ s, sessionMonitor s = sessionMonitor st)); [|done].
    intros s client <-. apply cleanupClient_monitor.
Qed.

(** X15: the router listens to the session monitor exactly while it has
    connections.  After any requests, disconnections and notifications,
    [broadcastEvent] is registered as listener of the monitor when the
    router was given a monitor and holds at least one connection, and is
    not registered otherwise. *)
Theorem monitor_is_heard_while_connections_are_open (limit : Limit)
    (monitor : bool) (activities : list Activity) :
  let st := foldl (act limit) (newRouter monitor) activities in
  sessionMonitorAttached st = monitor && bool_decide (clients st ≠ []).
Proof.
  intros st.
  assert (listening st ∧ sessionMonitor st = monitor) as [H1 H2].
  { subst st.
    assert (listening (newRouter monitor)) as H0.
    { unfold listening. simpl. by rewrite andb_false_r. }
    assert (sessionMonitor (newRouter monitor) = monitor) as Hm by done.
    revert H0 Hm. generalize (newRouter monitor).
    induction activities as [|a activities IH]; intros st Hst Hm; [done|].
    simpl. apply IH; [by apply listening_act|].
    by rewrite act_monitor. }
  unfold listening in H1. by rewrite H1, H2.
Qed.

End RouterBroadcastFacts.

(** ** Buffer aggregator: subscribing twice *)

Section AggregatorFacts.
Import BufferAggregator.

(** C9: subscribe is idempotent per client and session.  When the client
    already holds a subscription to [sessionId], a subscribe message for
    that session leaves the client's subscription map, the history-store
    subscriptions and the remote connections as they are, asks neither the
    terminal manager, the history store nor a remote server for a
    subscription, and is answered by the acknowledgement marked as a
    duplicate, and by nothing else. *)
Theorem subscribe_twice_is_acknowledged_only (st : Aggregator)
    (clientWs : WebSocket) (subs : gmap string Unsubscribe)
    (sessionId : string) (u : Unsubscribe) (w : World) :
  clientSubscriptions st !! clientWs = Some subs →
  subs !! sessionId = Some u →
  sessionId ≠ "" →
  let st' := handleClientMessage st clientWs (subscribeTo sessionId) w in
  clientSubscriptions st' = clientSubscriptions st
  ∧ historySubscriptions st' = historySubscriptions st
  ∧ remoteConnections st' = remoteConnections st
  ∧ nextToken st' = nextToken st
  ∧ trace st' = trace st ++ [Send clientWs (Subscribed sessionId true)]
  ∧ List.filter createsSubscription (trace st')
    = List.filter createsSubscription (trace st).
Proof.
  intros Hsubs Hheld Hid st'.
  assert (st' = emit st [Send clientWs (Subscribed sessionId true)]) as ->.
  { subst st'. unfold handleClientMessage. rewrite Hsubs.
    assert (truthyId (subscribeTo sessionId) = Some sessionId) as ->
      by (by destruct sessionId).
    assert (String.eqb (type (subscribeTo sessionId)) "subscribe" = true)
      as -> by done.
    by rewrite bool_decide_eq_true_2 by (by eexists). }
  unfold emit. cbn.
  split_and!; try done.
  rewrite filter_app. simpl. by rewrite app_nil_r.
Qed.

(** An instance of [subscribe_twice_is_acknowledged_only]: a client
    connects, subscribes to a local session and subscribes to it again.
    The first message asks the terminal manager and the history store for a
    subscription; the second adds the duplicate acknowledgement only. *)
Lemma subscribe_twice_is_acknowledged_only_witness :
  let w := {| remoteOf := λ _, None;
              localOutcome := SnapshotSent true;
              connected := false;
              clientOpen := true |} in
  let st0 := handleClientConnection (newAggregator false false true) 7%nat in
  let st1 := handleClientMessage st0 7%nat (subscribeTo "session-1") w in
  let st2 := handleClientMessage st1 7%nat (subscribeTo "session-1") w in
  trace st1
    = [SubscribeToBufferChanges "session-1" 0;
       HistoryStoreSubscribe "session-1" 1;
       Send 7%nat (InitialBuffer "session-1");
       Send 7%nat (CachedHistoryChunk "session-1");
       Send 7%nat (Subscribed "session-1" false)]
  ∧ trace st2 = trace st1 ++ [Send 7%nat (Subscribed "session-1" true)]
  ∧ clientSubscriptions st2 = clientSubscriptions st1.
Proof.
  intros w st0 st1 st2.
  destruct (subscribe_twice_is_acknowledged_only st1 7%nat
              {["session-1" := WatcherUnsubscribe 0]} "session-1"
              (WatcherUnsubscribe 0) w)
    as (Hsame & _ & _ & _ & Htrace & _).
  - vm_compute. reflexivity.
  - vm_compute. reflexivity.
  - discriminate.
  - split_and!; [vm_compute; reflexivity | exact Htrace | exact Hsame].
Defined.

End AggregatorFacts.

(** ** Buffer aggregator: the subscriptions at the history store *)

Section AggregatorHistoryFacts.
Import BufferAggregator.

Lemma getTotalSubscribers_held st sessionId :
  (0 < getTotalSubscribers st sessionId)%nat ↔ held st sessionId.
Proof.
  unfold getTotalSubscribers, held. split.
  - intros Hlen.
    destruct (filter _ (map_to_list (clientSubscriptions st)))
      as [|[ws subs] rest] eqn:E; [simpl in Hlen; lia|].
    assert ((ws, subs) ∈ filter (λ entry : WebSocket * gmap string Unsubscribe,
                                   is_Some (entry.2 !! sessionId))
                           (map_to_list (clientSubscriptions st))) as Hin
      by (rewrite E; apply list_elem_of_here).
    apply list_elem_of_filter in Hin as [Hs Hin].
    apply elem_of_map_to_list in Hin. by exists ws, subs.
  - intros (ws & subs & Hws & Hs).
    assert ((ws, subs) ∈ filter (λ entry : WebSocket * gmap string Unsubscribe,
                                   is_Some (entry.2 !! sessionId))
                           (map_to_list (clientSubscriptions st))) as Hin.
    { apply list_elem_of_filter. split; [done|].
      by apply elem_of_map_to_list. }
    destruct (filter _ _); [by apply elem_of_nil in Hin|simpl; lia].
Qed.

(** [cleanupHistorySubscription] does nothing while the session is
    held. *)
Lemma cleanupHistorySubscription_held st sessionId :
  held st sessionId → cleanupHistorySubscription st sessionId = st.
Proof.
  intros H. unfold cleanupHistorySubscription.
  destruct (hasHistoryStore st); simpl; [|done].
  by rewrite bool_decide_eq_true_2 by by apply getTotalSubscribers_held.
Qed.

Lemma disconnect_fold ws subs (entries : list (string * Unsubscribe)) :
  ∀ st,
    clientSubscriptions st !! ws = Some subs →
    (∀ entry, entry ∈ entries → is_Some (subs !! entry.1)) →
    foldl (λ s entry,
             cleanupHistorySubscription
               (emit s [CallUnsubscribe entry.2]) entry.1)
          st entries
    = emit st ((λ entry, CallUnsubscribe entry.2) <$> entries).
Proof.
  induction entries as [|entry entries IH]; intros st Hws Hsubs.
  - simpl. unfold emit. rewrite app_nil_r. by destruct st.
  - simpl. rewrite cleanupHistorySubscription_held.
    + rewrite IH; [|done|].
      * unfold emit. simpl. by rewrite <- app_assoc.
      * intros e He. apply Hsubs. by apply list_elem_of_further.
    + exists ws, subs. split; [done|]. apply Hsubs, list_elem_of_here.
Qed.

Lemma handleClientDisconnect_eq st ws :
  handleClientDisconnect st ws
  = withClientSubscriptions
      (emit st ((λ entry, CallUnsubscribe entry.2)
                  <$> map_to_list (default ∅ (clientSubscriptions st !! ws))))
      (delete ws (clientSubscriptions st)).
Proof.
  unfold handleClientDisconnect.
  destruct (clientSubscriptions st !! ws) as [subs|] eqn:Hws; simpl.
  - rewrite (disconnect_fold ws subs); [done | done |].
    intros [sessionId u] Hin. apply elem_of_map_to_list in Hin.
    by eexists.
  - rewrite map_to_list_empty. simpl. unfold emit, withClientSubscriptions.
    simpl. by rewrite app_nil_r.
Qed.


(** The part of [handleUnsubscribe] that deals with the remote server
    leaves the subscriptions alone. *)
Lemma handleUnsubscribe_eq st clientWs subs sessionId w :
  ∃ st2,
    handleUnsubscribe st clientWs subs sessionId w
    = cleanupHistorySubscription st2 sessionId
    ∧ hasHistoryStore st2 = hasHistoryStore st
    ∧ historySubscriptions st2 = historySubscriptions st
    ∧ clientSubscriptions st2
      = match subs !! sessionId with
        | Some _ =>
            <[clientWs := delete sessionId subs]> (clientSubscriptions st)
        | None => clientSubscriptions st
        end.
Proof.
  unfold handleUnsubscribe.
  set (st1 := match subs !! sessionId with
              | Some u => _
              | None => st
              end).
  assert (hasHistoryStore st1 = hasHistoryStore st
          ∧ historySubscriptions st1 = historySubscriptions st
          ∧ clientSubscriptions st1
            = match subs !! sessionId with
              | Some _ =>
                  <[clientWs := delete sessionId subs]>
                    (clientSubscriptions st)
              | None => clientSubscriptions st
              end) as (H1 & H2 & H3).
  { subst st1. by destruct (subs !! sessionId). }
  eexists. split; [reflexivity|].
  rewrite <- H1, <- H2, <- H3. clear H1 H2 H3.
  destruct (isHQMode st1 && hasRemoteRegistry st1); [|done].
  destruct (remoteOf w sessionId) as [remoteId|]; [|done].
  destruct (remoteConnections st1 !! remoteId) as [remoteConn|]; [|done].
  by destruct (remoteOpen remoteConn).
Qed.

Lemma cleanupHistorySubscription_spec st sessionId :
  let st' := cleanupHistorySubscription st sessionId in
  hasHistoryStore st' = hasHistoryStore st
  ∧ clientSubscriptions st' = clientSubscriptions st
  ∧ historySubscriptions st'
    = if hasHistoryStore st && negb (bool_decide (held st sessionId))
      then delete sessionId (historySubscriptions st)
      else historySubscriptions st.
Proof.
  unfold cleanupHistorySubscription.
  destruct (hasHistoryStore st) eqn:Hs; simpl; [|done].
  case_bool_decide as Hn.
  - apply getTotalSubscribers_held in Hn.
    by rewrite (bool_decide_eq_true_2 (held st sessionId)).
  - rewrite (bool_decide_eq_false_2 (held st sessionId))
      by (by rewrite <- getTotalSubscribers_held).
    simpl.
    destruct (historySubscriptions st !! sessionId) eqn:Hh; simpl.
    + done.
    + split_and!; try done. symmetry. by apply delete_id.
Qed.

(** X17: the last unsubscribe releases the history subscription.  With a
    history store, an unsubscribe message of a connected client for a
    session leaves the subscriptions at the history store as they are
    while another client holds a subscription to the session, and
    otherwise removes the one of the session; the client itself no longer
    holds the session. *)
Theorem last_unsubscribe_releases_history (st : Aggregator)
    (ws : WebSocket) (subs : gmap string Unsubscribe)
    (sessionId : string) (w : World) :
  hasHistoryStore st = true →
  clientSubscriptions st !! ws = Some subs →
  sessionId ≠ "" →
  let st' := handleClientMessage st ws (unsubscribeFrom sessionId) w in
  (heldByAnother st ws sessionId →
     historySubscriptions st' = historySubscriptions st)
  ∧ (¬ heldByAnother st ws sessionId →
     historySubscriptions st' = delete sessionId (historySubscriptions st))
  ∧ clientSubscriptions st' !! ws = Some (delete sessionId subs).
Proof.
  intros Hstore Hws Hid st'.
  assert (st' = handleUnsubscribe st ws subs sessionId w) as ->.
  { subst st'. unfold handleClientMessage. rewrite Hws.
    assert (truthyId (unsubscribeFrom sessionId) = Some sessionId) as ->
      by (by destruct sessionId).
    done. }
  destruct (handleUnsubscribe_eq st ws subs sessionId w)
    as (st2 & -> & Hs2 & Hh2 & Hc2).
  destruct (cleanupHistorySubscription_spec st2 sessionId)
    as (_ & Hc & Hh).
  rewrite Hc, Hh, Hs2, Hh2, Hstore. simpl.
  assert (held st2 sessionId ↔ heldByAnother st ws sessionId) as Hiff.
  { unfold held, heldByAnother. rewrite Hc2. split.
    - intros (ws' & subs' & Hws' & Hheld).
      destruct (decide (ws' = ws)) as [->|Hne].
      + exfalso. destruct (subs !! sessionId) eqn:Hsub.
        * rewrite lookup_insert_eq in Hws'. injection Hws' as <-.
          rewrite lookup_delete_eq in Hheld. by destruct Hheld.
        * rewrite Hws in Hws'. injection Hws' as <-.
          rewrite Hsub in Hheld. by destruct Hheld.
      + exists ws', subs'. split_and!; [done| |done].
        destruct (subs !! sessionId); [|done].
        by rewrite lookup_insert_ne in Hws'.
    - intros (ws' & subs' & Hne & Hws' & Hheld).
      exists ws', subs'. split; [|done].
      destruct (subs !! sessionId); [|done].
      by rewrite lookup_insert_ne. }
  split_and!.
  - intros H. by rewrite bool_decide_eq_true_2 by by apply Hiff.
  - intros H. by rewrite bool_decide_eq_false_2 by by rewrite Hiff.
  - rewrite Hc2. destruct (subs !! sessionId) eqn:Hsub.
    + by rewrite lookup_insert_eq.
    + rewrite Hws. f_equal. symmetry. by apply delete_id.
Qed.

(** An instance of [last_unsubscribe_releases_history]: the only
    subscriber of a session unsubscribes, and the subscription at the
    history store is removed. *)
Lemma last_unsubscribe_releases_history_witness :
  is_Some (historySubscriptions oneSubscriber !! "s")
  ∧ historySubscriptions
      (handleClientMessage oneSubscriber 7%nat (unsubscribeFrom "s")
         localWorld)
    = delete "s" (historySubscriptions oneSubscriber).
Proof.
  split; [vm_compute; by eexists|].
  refine (proj1 (proj2 (last_unsubscribe_releases_history oneSubscriber
            7%nat {["s" := WatcherUnsubscribe 0]} "s" localWorld
            _ _ _)) _).
  - vm_compute. reflexivity.
  - vm_compute. reflexivity.
  - discriminate.
  - intros (ws' & subs' & Hne & Hws' & _).
    destruct (decide (ws' = 7%nat)) as [->|Hne']; [done|].
    assert (clientSubscriptions oneSubscriber
            = {[7%nat := {["s" := WatcherUnsubscribe 0]}]}) as E
      by (vm_compute; reflexivity).
    rewrite E, lookup_singleton_ne in Hws' by done. discriminate.
Defined.


(** *** Every local subscription is followed at the history store *)

Lemma historyFollowed_ext st st' :
  hasHistoryStore st' = hasHistoryStore st →
  clientSubscriptions st' = clientSubscriptions st →
  historySubscriptions st' = historySubscriptions st →
  historyFollowed st → historyFollowed st'.
Proof. unfold historyFollowed. by intros -> -> ->. Qed.

Lemma historyFollowed_emit st es :
  historyFollowed st → historyFollowed (emit st es).
Proof. by apply historyFollowed_ext. Qed.

Lemma historyFollowed_cleanup st sessionId :
  historyFollowed st →
  historyFollowed (cleanupHistorySubscription st sessionId).
Proof.
  intros [Hs H].
  destruct (cleanupHistorySubscription_spec st sessionId)
    as (Hs' & Hc & Hh).
  split; [congruence|]. rewrite Hc, Hh, Hs. simpl.
  intros ws subs sid token Hws Hsub. case_bool_decide as Hheld; simpl.
  - by eapply H.
  - destruct (decide (sid = sessionId)) as [->|Hne].
    + exfalso. apply Hheld. exists ws, subs. split; [done|]. by eexists.
    + rewrite lookup_delete_ne by done. by eapply H.
Qed.

Lemma historyFollowed_handleUnsubscribe st ws subs sessionId w :
  clientSubscriptions st !! ws = Some subs →
  historyFollowed st →
  historyFollowed (handleUnsubscribe st ws subs sessionId w).
Proof.
  intros Hws [Hs H].
  destruct (handleUnsubscribe_eq st ws subs sessionId w)
    as (st2 & -> & Hs2 & Hh2 & Hc2).
  apply historyFollowed_cleanup. split; [congruence|].
  rewrite Hc2, Hh2. intros ws' subs' sid token Hws' Hsub.
  destruct (subs !! sessionId) eqn:Hsid; [|by eapply H].
  destruct (decide (ws = ws')) as [<-|Hne].
  - rewrite lookup_insert_eq in Hws'. injection Hws' as <-.
    apply (H ws subs sid token Hws).
    destruct (decide (sessionId = sid)) as [->|Hne].
    + by rewrite lookup_delete_eq in Hsub.
    + by rewrite lookup_delete_ne in Hsub.
  - rewrite lookup_insert_ne in Hws' by done. by eapply H.
Qed.

Lemma ensureHistorySubscription_spec st sessionId :
  let st' := ensureHistorySubscription st sessionId in
  hasHistoryStore st' = hasHistoryStore st
  ∧ clientSubscriptions st' = clientSubscriptions st
  ∧ (hasHistoryStore st = true →
     is_Some (historySubscriptions st' !! sessionId))
  ∧ (∀ k, is_Some (historySubscriptions st !! k) →
          is_Some (historySubscriptions st' !! k)).
Proof.
  unfold ensureHistorySubscription.
  destruct (hasHistoryStore st) eqn:Hs; simpl; [|done].
  case_bool_decide as Hin; simpl.
  - by rewrite Hs.
  - split_and!; try done.
    + intros _. rewrite lookup_insert_eq. by eexists.
    + intros k Hk. destruct (decide (sessionId = k)) as [->|Hne]; [done|].
      by rewrite lookup_insert_ne.
Qed.

Lemma historyFollowed_subscribeToLocalSession st ws sessionId w :
  historyFollowed st →
  historyFollowed (subscribeToLocalSession st ws sessionId w).
Proof.
  intros Hst. unfold subscribeToLocalSession.
  destruct (clientSubscriptions st !! ws) as [subs|] eqn:Hws; [|done].
  set (st1 := {| isHQMode := isHQMode st;
                 trace := trace st ++ [SubscribeToBufferChanges sessionId
                                         (nextToken st)] |}).
  set (st2 := setSubscription st1 ws sessionId
                (WatcherUnsubscribe (nextToken st))).
  assert (historyFollowed (ensureHistorySubscription st2 sessionId)) as H3.
  { destruct Hst as [Hs H].
    destruct (ensureHistorySubscription_spec st2 sessionId)
      as (Hs3 & Hc3 & Hnew & Hold).
    assert (hasHistoryStore st2 = true
            ∧ historySubscriptions st2 = historySubscriptions st
            ∧ clientSubscriptions st2
              = <[ws := <[sessionId := WatcherUnsubscribe (nextToken st)]>
                          subs]> (clientSubscriptions st))
      as (Hs2 & Hh2 & Hc2).
    { subst st2 st1. unfold setSubscription. simpl. by rewrite Hws. }
    split; [congruence|]. rewrite Hc3, Hc2.
    intros ws' subs' sid token Hws' Hsub.
    destruct (decide (sid = sessionId)) as [->|Hne]; [by apply Hnew|].
    apply Hold. rewrite Hh2.
    destruct (decide (ws = ws')) as [<-|Hne'].
    - rewrite lookup_insert_eq in Hws'. injection Hws' as <-.
      rewrite lookup_insert_ne in Hsub by done. by eapply H.
    - rewrite lookup_insert_ne in Hws' by done. by eapply H. }
  destruct (localOutcome w); by apply historyFollowed_emit.
Qed.

Lemma historyFollowed_setRemote st ws sessionId :
  historyFollowed st →
  historyFollowed (setSubscription st ws sessionId RemoteNoop).
Proof.
  intros [Hs H]. unfold setSubscription.
  destruct (clientSubscriptions st !! ws) as [subs|] eqn:Hws; [|done].
  split; [done|]. simpl. intros ws' subs' sid token Hws' Hsub.
  destruct (decide (ws = ws')) as [<-|Hne'].
  - rewrite lookup_insert_eq in Hws'. injection Hws' as <-.
    destruct (decide (sessionId = sid)) as [->|Hne].
    + by rewrite lookup_insert_eq in Hsub.
    + rewrite lookup_insert_ne in Hsub by done. by eapply H.
  - rewrite lookup_insert_ne in Hws' by done. by eapply H.
Qed.

Lemma historyFollowed_subscribeToRemoteSession st ws sessionId remoteId w :
  historyFollowed st →
  historyFollowed (subscribeToRemoteSession st ws sessionId remoteId w).
Proof.
  intros Hst. unfold subscribeToRemoteSession.
  set (usable := match remoteConnections st !! remoteId with
                 | Some remoteConn => remoteOpen remoteConn
                 | None => false
                 end).
  destruct (negb usable && negb (connected w));
    [by apply historyFollowed_emit|].
  set (st1 := if usable then st else _).
  assert (historyFollowed st1) as H1.
  { subst st1. destruct usable; [done|].
    by eapply historyFollowed_ext; [..|exact Hst]. }
  destruct (remoteConnections st1 !! remoteId) as [remoteConn|]; [|done].
  apply historyFollowed_setRemote, historyFollowed_emit.
  by eapply historyFollowed_ext; [..|exact H1].
Qed.

Lemma historyFollowed_handleClientMessage st ws data w :
  historyFollowed st →
  historyFollowed (handleClientMessage st ws data w).
Proof.
  intros Hst. unfold handleClientMessage.
  destruct (clientSubscriptions st !! ws) as [subs|] eqn:Hws; [|done].
  destruct (truthyId data) as [sessionId|].
  - destruct (String.eqb (type data) "subscribe").
    + case_bool_decide; [by apply historyFollowed_emit|].
      apply historyFollowed_emit.
      destruct (if isHQMode st && hasRemoteRegistry st
                then remoteOf w sessionId else None).
      * by apply historyFollowed_subscribeToRemoteSession.
      * by apply historyFollowed_subscribeToLocalSession.
    + destruct (String.eqb (type data) "unsubscribe").
      * by apply historyFollowed_handleUnsubscribe.
      * destruct (String.eqb (type data) "ping"); [|done].
        by apply historyFollowed_emit.
  - destruct (String.eqb (type data) "ping"); [|done].
    by apply historyFollowed_emit.
Qed.

Lemma historyFollowed_on st e : historyFollowed st → historyFollowed (on st e).
Proof.
  intros Hst. destruct e as [ws|ws data w|ws]; simpl.
  - destruct Hst as [Hs H]. split; [done|]. simpl.
    intros ws' subs' sid token Hws' Hsub.
    destruct (decide (ws = ws')) as [<-|Hne'].
    + rewrite lookup_insert_eq in Hws'. injection Hws' as <-.
      by rewrite lookup_empty in Hsub.
    + rewrite lookup_insert_ne in Hws' by done. by eapply H.
  - by apply historyFollowed_handleClientMessage.
  - rewrite handleClientDisconnect_eq. destruct Hst as [Hs H].
    split; [done|]. simpl. intros ws' subs' sid token Hws' Hsub.
    destruct (decide (ws = ws')) as [<-|Hne'].
    + by rewrite lookup_delete_eq in Hws'.
    + rewrite lookup_delete_ne in Hws' by done. by eapply H.
Qed.

Lemma historyFollowed_run events : ∀ st,
  historyFollowed st → historyFollowed (foldl on st events).
Proof.
  induction events as [|e events IH]; intros st Hst; [done|].
  simpl. apply IH. by apply historyFollowed_on.
Qed.

(** X18: every local subscription is followed at the history store.  On an
    aggregator with a history store, after any connections, messages and
    disconnections, the session of each subscription a client holds at
    the terminal manager has a subscription at the history store, so that
    its history chunks are broadcast. *)
Theorem local_subscriptions_have_history (hq registry : bool)
    (events : list SocketEvent) (ws : WebSocket)
    (subs : gmap string Unsubscribe) (sessionId : string) (token : nat) :
  let st := foldl on (newAggregator hq registry true) events in
  clientSubscriptions st !! ws = Some subs →
  subs !! sessionId = Some (WatcherUnsubscribe token) →
  is_Some (historySubscriptions st !! sessionId).
Proof.
  intros st Hws Hsub.
  assert (historyFollowed st) as [_ H].
  { apply historyFollowed_run. split; [done|]. simpl.
    intros ? ? ? ? Hl. by rewrite lookup_empty in Hl. }
  by eapply H.
Qed.

(** An instance of [local_subscriptions_have_history]: one client and its
    subscription to a local session. *)
Lemma local_subscriptions_have_history_witness :
  is_Some (historySubscriptions oneSubscriber !! "s").
Proof.
  apply (local_subscriptions_have_history false false
           [Connection 7%nat; ClientMessage 7%nat (subscribeTo "s") localWorld]
           7%nat {["s" := WatcherUnsubscribe 0]} "s" 0%nat).
  - vm_compute. reflexivity.
  - vm_compute. reflexivity.
Defined.


(** *** The acknowledgement of a subscribe message *)

Lemma last_emit st es e : list.last (trace (emit st (es ++ [e]))) = Some e.
Proof. unfold emit. simpl. by rewrite app_assoc, last_snoc. Qed.

(** X19: a subscribe message is acknowledged whatever came of it.  The
    last message a connected client is sent for a subscribe message with
    a session id is the acknowledgement [subscribed].  In particular,
    when the session is local and the terminal manager refuses the
    subscription, the client is sent the error and then the
    acknowledgement, and holds no subscription to the session. *)
Theorem subscribe_is_acknowledged_even_when_it_fails (st : Aggregator)
    (ws : WebSocket) (subs : gmap string Unsubscribe) (sessionId : string)
    (w : World) :
  clientSubscriptions st !! ws = Some subs →
  sessionId ≠ "" →
  let st' := handleClientMessage st ws (subscribeTo sessionId) w in
  (∃ dedup, list.last (trace st') = Some (Send ws (Subscribed sessionId dedup)))
  ∧ (subs !! sessionId = None →
     (if isHQMode st && hasRemoteRegistry st
      then remoteOf w sessionId else None) = None →
     localOutcome w = SubscribeThrows →
     trace st'
     = trace st ++ [Send ws (Error "Failed to subscribe to session");
                    Send ws (Subscribed sessionId false)]
     ∧ clientSubscriptions st' = clientSubscriptions st
     ∧ historySubscriptions st' = historySubscriptions st).
Proof.
  intros Hws Hid st'. subst st'. unfold handleClientMessage. rewrite Hws.
  assert (truthyId (subscribeTo sessionId) = Some sessionId) as ->
    by (by destruct sessionId).
  assert (String.eqb (type (subscribeTo sessionId)) "subscribe" = true)
    as -> by done.
  split.
  - case_bool_decide.
    + exists true. apply (last_emit st []).
    + exists false. apply (last_emit _ []).
  - intros Hnone Hlocal Hthrows.
    rewrite bool_decide_eq_false_2 by (rewrite Hnone; by intros [? ?]).
    rewrite Hlocal. unfold subscribeToLocalSession.
    rewrite Hws, Hthrows. simpl. by rewrite <- app_assoc.
Qed.

(** An instance of [subscribe_is_acknowledged_even_when_it_fails]: the
    terminal manager refuses the subscription of a connected client. *)
Lemma subscribe_is_acknowledged_even_when_it_fails_witness :
  let w := {| remoteOf := λ _, None;
              localOutcome := SubscribeThrows;
              connected := false;
              clientOpen := true |} in
  let st := handleClientConnection (newAggregator false false true) 7%nat in
  let st' := handleClientMessage st 7%nat (subscribeTo "s") w in
  trace st' = [Send 7%nat (Error "Failed to subscribe to session");
               Send 7%nat (Subscribed "s" false)]
  ∧ clientSubscriptions st' = clientSubscriptions st.
Proof.
  intros w st st'.
  destruct (subscribe_is_acknowledged_even_when_it_fails st 7%nat ∅ "s" w)
    as (_ & H); [vm_compute; reflexivity | discriminate |].
  destruct H as (H1 & H2 & _); [done | done | done |].
  split; [exact H1 | exact H2].
Defined.


(** *** One listener for each session at the history store *)

Lemma historyListeners_app tr es s :
  historyListeners (tr ++ es) s
  = foldl (listenerStep s) (historyListeners tr s) es.
Proof. unfold historyListeners. by rewrite foldl_app. Qed.

Lemma historyListeners_quiet tr es s :
  Forall (λ e, touchesHistory e = false) es →
  historyListeners (tr ++ es) s = historyListeners tr s.
Proof.
  rewrite historyListeners_app. generalize (historyListeners tr s).
  induction es as [|e es IH]; intros active Hes; [done|].
  apply list.Forall_cons in Hes as [He Hes]. simpl. rewrite IH by done.
  by destruct e.
Qed.

Lemma quiet_refl st : quiet st st.
Proof.
  split_and!; try done. exists []. split; [by rewrite app_nil_r|done].
Qed.

Lemma quiet_trans st1 st2 st3 : quiet st1 st2 → quiet st2 st3 → quiet st1 st3.
Proof.
  intros (H1 & H2 & H3 & es & H4 & H5) (H1' & H2' & H3' & es' & H4' & H5').
  split_and!; [congruence | congruence | lia |].
  exists (es ++ es'). split; [by rewrite H4', H4, app_assoc|].
  by apply Forall_app.
Qed.

Lemma quiet_emit st es :
  Forall (λ e, touchesHistory e = false) es → quiet st (emit st es).
Proof. intros H. split_and!; try done. by exists es. Qed.

Lemma quiet_setSubscription st ws sessionId u :
  quiet st (setSubscription st ws sessionId u).
Proof.
  unfold setSubscription.
  destruct (clientSubscriptions st !! ws); [|apply quiet_refl].
  split_and!; try done. exists []. split; [by rewrite app_nil_r|done].
Qed.

Lemma quiet_withClientSubscriptions st cs :
  quiet st (withClientSubscriptions st cs).
Proof.
  split_and!; try done. exists []. split; [by rewrite app_nil_r|done].
Qed.

Lemma quiet_withRemoteConnections st rs :
  quiet st (withRemoteConnections st rs).
Proof.
  split_and!; try done. exists []. split; [by rewrite app_nil_r|done].
Qed.

Lemma listenersRecorded_quiet st st' :
  quiet st st' → listenersRecorded st → listenersRecorded st'.
Proof.
  intros (Hh & Hs & Hn & es & Ht & Hes) [H1 H2 H3]. split.
  - intros s token. rewrite Hh. intros H. apply H1 in H. lia.
  - intros s s' token. rewrite Hh. apply H2.
  - intros s. unfold recorded. rewrite Hh, Ht.
    rewrite historyListeners_quiet by done. apply H3.
Qed.

Lemma listenersRecorded_ensure st sessionId :
  listenersRecorded st →
  listenersRecorded (ensureHistorySubscription st sessionId).
Proof.
  intros [H1 H2 H3]. unfold ensureHistorySubscription.
  destruct (hasHistoryStore st); simpl; [|done].
  case_bool_decide as Hin; [done|].
  assert (historySubscriptions st !! sessionId = None) as Hnone.
  { destruct (historySubscriptions st !! sessionId) eqn:E; [|done].
    exfalso. apply Hin. by eexists. }
  split; simpl.
  - intros s token. destruct (decide (sessionId = s)) as [->|Hne].
    + rewrite lookup_insert_eq. intros [= <-]. lia.
    + rewrite lookup_insert_ne by done. intros H. apply H1 in H. lia.
  - intros s s' token.
    destruct (decide (sessionId = s)) as [Heq|Hne],
             (decide (sessionId = s')) as [Heq'|Hne'].
    + congruence.
    + rewrite Heq, lookup_insert_eq, lookup_insert_ne by congruence.
      intros [= <-] H. apply H1 in H. lia.
    + rewrite Heq', lookup_insert_eq, lookup_insert_ne by congruence.
      intros H [= <-]. apply H1 in H. lia.
    + rewrite !lookup_insert_ne by done. apply H2.
  - intros s. rewrite historyListeners_app. simpl. unfold recorded. simpl.
    destruct (decide (sessionId = s)) as [->|Hne].
    + rewrite String.eqb_refl, lookup_insert_eq, H3. unfold recorded.
      by rewrite Hnone.
    + rewrite lookup_insert_ne by done.
      replace (String.eqb sessionId s) with false
        by (symmetry; by apply String.eqb_neq).
      apply H3.
Qed.

Lemma listenersRecorded_cleanup st sessionId :
  listenersRecorded st →
  listenersRecorded (cleanupHistorySubscription st sessionId).
Proof.
  intros [H1 H2 H3]. unfold cleanupHistorySubscription.
  destruct (hasHistoryStore st); simpl; [|done].
  case_bool_decide; [done|].
  destruct (historySubscriptions st !! sessionId) as [token|] eqn:Hs;
    [|done].
  split; simpl.
  - intros s t. destruct (decide (sessionId = s)) as [->|Hne].
    + by rewrite lookup_delete_eq.
    + rewrite lookup_delete_ne by done. apply H1.
  - intros s s' t.
    destruct (decide (sessionId = s)) as [->|Hne];
      [by rewrite lookup_delete_eq|].
    destruct (decide (sessionId = s')) as [->|Hne'];
      [by rewrite lookup_delete_eq|].
    rewrite !lookup_delete_ne by done. apply H2.
  - intros s. rewrite historyListeners_app. simpl. unfold recorded. simpl.
    rewrite H3. unfold recorded.
    destruct (decide (sessionId = s)) as [->|Hne].
    + rewrite lookup_delete_eq, Hs.
      by rewrite filter_cons_False by (intros H'; by apply H').
    + rewrite lookup_delete_ne by done.
      destruct (historySubscriptions st !! s) as [t|] eqn:Ht; [|done].
      rewrite filter_cons_True; [done|].
      intros ->. apply Hne. by eapply H2.
Qed.

Lemma listenersRecorded_subscribeToLocalSession st ws sessionId w :
  listenersRecorded st →
  listenersRecorded (subscribeToLocalSession st ws sessionId w).
Proof.
  intros Hst. unfold subscribeToLocalSession.
  destruct (clientSubscriptions st !! ws) as [subs|] eqn:Hws; [|done].
  set (st1 := {| isHQMode := isHQMode st;
                 trace := trace st ++ [SubscribeToBufferChanges sessionId
                                         (nextToken st)] |}).
  set (st2 := setSubscription st1 ws sessionId
                (WatcherUnsubscribe (nextToken st))).
  assert (listenersRecorded (ensureHistorySubscription st2 sessionId))
    as H3.
  { apply listenersRecorded_ensure.
    apply (listenersRecorded_quiet st1); [apply quiet_setSubscription|].
    apply (listenersRecorded_quiet st); [|done].
    subst st1. split_and!; simpl; [done | done | lia |].
    eexists. split; [done|]. by repeat constructor. }
  destruct (localOutcome w).
  - eapply listenersRecorded_quiet; [|exact Hst].
    apply quiet_emit. by repeat constructor.
  - eapply listenersRecorded_quiet; [|exact H3].
    apply quiet_emit. by repeat constructor.
  - eapply listenersRecorded_quiet; [|exact H3].
    apply quiet_emit. apply Forall_app.
    split; [by destruct (clientOpen w); repeat constructor|].
    by destruct (_ && _); repeat constructor.
Qed.

Lemma quiet_subscribeToRemoteSession st ws sessionId remoteId w :
  quiet st (subscribeToRemoteSession st ws sessionId remoteId w).
Proof.
  unfold subscribeToRemoteSession.
  set (usable := match remoteConnections st !! remoteId with
                 | Some remoteConn => remoteOpen remoteConn
                 | None => false
                 end).
  destruct (negb usable && negb (connected w));
    [apply quiet_emit; by repeat constructor|].
  set (st1 := if usable then st else _).
  assert (quiet st st1) as H1.
  { subst st1. destruct usable; [apply quiet_refl|].
    apply quiet_withRemoteConnections. }
  destruct (remoteConnections st1 !! remoteId) as [remoteConn|]; [|done].
  eapply quiet_trans; [exact H1|].
  eapply quiet_trans; [apply quiet_withRemoteConnections|].
  eapply quiet_trans; [|apply quiet_setSubscription].
  apply quiet_emit. by repeat constructor.
Qed.

Lemma listenersRecorded_handleUnsubscribe st ws subs sessionId w :
  listenersRecorded st →
  listenersRecorded (handleUnsubscribe st ws subs sessionId w).
Proof.
  intros Hst. unfold handleUnsubscribe.
  apply listenersRecorded_cleanup.
  set (st1 := match subs !! sessionId with
              | Some u => _
              | None => st
              end).
  assert (quiet st st1) as H1.
  { subst st1. destruct (subs !! sessionId); [|apply quiet_refl].
    eapply quiet_trans; [|apply quiet_withClientSubscriptions].
    apply quiet_emit. by repeat constructor. }
  eapply listenersRecorded_quiet; [|exact Hst].
  eapply quiet_trans; [exact H1|].
  destruct (isHQMode st1 && hasRemoteRegistry st1); [|apply quiet_refl].
  destruct (remoteOf w sessionId) as [remoteId|]; [|apply quiet_refl].
  destruct (remoteConnections st1 !! remoteId) as [remoteConn|];
    [|apply quiet_refl].
  destruct (remoteOpen remoteConn); [|apply quiet_withRemoteConnections].
  eapply quiet_trans; [apply quiet_withRemoteConnections|].
  apply quiet_emit. by repeat constructor.
Qed.

Lemma listenersRecorded_on st e :
  listenersRecorded st → listenersRecorded (on st e).
Proof.
  intros Hst. destruct e as [ws|ws data w|ws]; simpl.
  - eapply listenersRecorded_quiet; [|exact Hst].
    apply quiet_withClientSubscriptions.
  - unfold handleClientMessage.
    destruct (clientSubscriptions st !! ws) as [subs|] eqn:Hws; [|done].
    assert (∀ m, listenersRecorded (emit st [Send ws m])) as Hsend.
    { intros m. eapply listenersRecorded_quiet; [|exact Hst].
      apply quiet_emit. by repeat constructor. }
    destruct (truthyId data) as [sessionId|].
    + destruct (String.eqb (type data) "subscribe").
      * case_bool_decide; [apply Hsend|].
        eapply listenersRecorded_quiet;
          [apply quiet_emit; by repeat constructor|].
        destruct (if isHQMode st && hasRemoteRegistry st
                  then remoteOf w sessionId else None).
        -- eapply listenersRecorded_quiet; [|exact Hst].
           apply quiet_subscribeToRemoteSession.
        -- by apply listenersRecorded_subscribeToLocalSession.
      * destruct (String.eqb (type data) "unsubscribe").
        -- by apply listenersRecorded_handleUnsubscribe.
        -- destruct (String.eqb (type data) "ping"); [apply Hsend|done].
    + destruct (String.eqb (type data) "ping"); [apply Hsend|done].
  - rewrite handleClientDisconnect_eq.
    eapply listenersRecorded_quiet; [|exact Hst].
    eapply quiet_trans; [|apply quiet_withClientSubscriptions].
    apply quiet_emit. apply Forall_fmap, Forall_forall. by intros [? ?].
Qed.

Lemma listenersRecorded_run events : ∀ st,
  listenersRecorded st → listenersRecorded (foldl on st events).
Proof.
  induction events as [|e events IH]; intros st Hst; [done|].
  simpl. apply IH. by apply listenersRecorded_on.
Qed.

(** X20: one listener for each session at the history store.  After any
    connections, messages and disconnections, the listeners the
    aggregator has registered at the history store for a session and not
    removed are the one [historySubscriptions] records for the session,
    or none when it records none: the store never holds two listeners of
    an aggregator for one session, so a chunk is broadcast once. *)
Theorem one_history_listener_for_each_session (hq registry store : bool)
    (events : list SocketEvent) (sessionId : string) :
  let st := foldl on (newAggregator hq registry store) events in
  historyListeners (trace st) sessionId = recorded st sessionId
  ∧ (length (historyListeners (trace st) sessionId) ≤ 1)%nat.
Proof.
  intros st.
  assert (listenersRecorded st) as [_ _ H].
  { apply listenersRecorded_run. split; simpl.
    - intros s token Hl. by rewrite lookup_empty in Hl.
    - intros s s' token Hl. by rewrite lookup_empty in Hl.
    - done. }
  split; [apply H|]. rewrite H. unfold recorded.
  destruct (historySubscriptions st !! sessionId); simpl; lia.
Qed.

End AggregatorHistoryFacts.

(** ** Snapshot encoder: what the writes leave in the buffer *)

Section EncoderFacts.
Import Encoder.

Lemma agrees_start (buffer : Buffer) : agrees buffer 0 [].
Proof. split; [done|]. by rewrite take_nil, take_0. Qed.

(** A store that returns has put its bytes behind what was written. *)
Lemma store_agrees buffer bytes offset buffer' written :
  store buffer bytes offset = Some buffer' →
  agrees buffer offset written →
  agrees buffer' (offset + Z.of_nat (length bytes)) (written ++ bytes)
  ∧ length buffer' = length buffer.
Proof.
  unfold store, agrees. intros Hs [-> Hw].
  destruct (0 <=? Z.of_nat (length written)) eqn:H0; [|done].
  destruct (_ <=? Z.of_nat (length buffer)) eqn:Hfit; [|done].
  apply Z.leb_le in Hfit. simpl in Hs. injection Hs as <-.
  rewrite Nat2Z.id.
  rewrite take_ge in Hw by lia.
  rewrite <- Hw.
  assert (length (written ++ bytes ++ drop (length written + length bytes) buffer)
          = length buffer) as Hlen.
  { rewrite !length_app, length_drop. lia. }
  split; [|done]. split.
  - rewrite length_app. lia.
  - rewrite Hlen. rewrite (take_ge (written ++ bytes))
      by (rewrite length_app; lia).
    rewrite app_assoc, take_app_length'; done.
Qed.

Lemma store_fits buffer bytes offset written :
  agrees buffer offset written →
  offset + Z.of_nat (length bytes) ≤ Z.of_nat (length buffer) →
  is_Some (store buffer bytes offset).
Proof.
  unfold store, agrees. intros [-> _] Hfit.
  replace (0 <=? Z.of_nat (length written)) with true
    by (symmetry; apply Z.leb_le; lia).
  replace (_ <=? Z.of_nat (length buffer)) with true
    by (symmetry; by apply Z.leb_le).
  by eexists.
Qed.

(** A copy puts what fits, and never throws. *)
Lemma copy_agrees bytes buffer offset written :
  agrees buffer offset written →
  agrees (copy bytes buffer offset) (offset + Z.of_nat (length bytes))
    (written ++ bytes)
  ∧ length (copy bytes buffer offset) = length buffer.
Proof.
  unfold copy, agrees. intros [-> Hw].
  destruct (Z.of_nat (length buffer) <=? Z.of_nat (length written)) eqn:Hge.
  - apply Z.leb_le in Hge. split; [|done]. split.
    + rewrite length_app. lia.
    + rewrite take_app_le by lia. rewrite Hw.
      rewrite !take_ge; [done | rewrite length_app; lia | lia].
  - apply Z.leb_gt in Hge. rewrite Nat2Z.id.
    rewrite take_ge in Hw by lia. rewrite <- Hw.
    set (room := (length buffer - length written)%nat).
    assert (length (take room bytes) = (room `min` length bytes)%nat) as Hc
      by apply length_take.
    assert (length (written ++ take room bytes
                    ++ drop (length written + length (take room bytes)) buffer)
            = length buffer) as Hlen.
    { rewrite !length_app, length_drop, Hc. lia. }
    split; [|done]. split.
    + rewrite length_app. lia.
    + rewrite Hlen. rewrite take_app_ge by lia. fold room.
      rewrite length_app.
      destruct (decide (length bytes ≤ room)%nat) as [Hle|Hgt].
      * rewrite (take_ge bytes) by done.
        rewrite app_assoc, take_app_length'; [done | by rewrite length_app].
      * rewrite (drop_ge buffer) by lia. rewrite app_nil_r.
        symmetry. apply take_ge. rewrite length_app, Hc. lia.
Qed.

(** *** The writes, one by one *)

Lemma emits_skip : emits skip [].
Proof.
  intros buffer offset buffer' offset' written [= <- <-] Hw.
  by rewrite app_nil_r.
Qed.

Lemma fitsIn_skip : fitsIn skip [].
Proof. intros buffer offset written _ _. by eexists. Qed.

Lemma emits_andThen w1 w2 b1 b2 :
  emits w1 b1 → emits w2 b2 → emits (andThen w1 w2) (b1 ++ b2).
Proof.
  intros H1 H2 buffer offset buffer' offset' written Hrun Hw.
  unfold andThen in Hrun.
  destruct (w1 (buffer, offset)) as [[buffer1 offset1]|] eqn:E1; [|done].
  simpl in Hrun.
  destruct (H1 _ _ _ _ _ E1 Hw) as [Hw1 Hl1].
  destruct (H2 _ _ _ _ _ Hrun Hw1) as [Hw2 Hl2].
  rewrite app_assoc. split; [done | congruence].
Qed.

Lemma fitsIn_andThen w1 w2 b1 b2 :
  emits w1 b1 → fitsIn w1 b1 → fitsIn w2 b2 →
  fitsIn (andThen w1 w2) (b1 ++ b2).
Proof.
  intros He1 H1 H2 buffer offset written Hw Hfit.
  rewrite length_app in Hfit. unfold andThen.
  destruct (H1 buffer offset written Hw) as [[buffer1 offset1] E1]; [lia|].
  rewrite E1. simpl.
  destruct (He1 _ _ _ _ _ E1 Hw) as [Hw1 Hl1].
  apply (H2 _ _ _ Hw1). destruct Hw as [-> _]. destruct Hw1 as [-> _].
  rewrite Hl1, length_app. lia.
Qed.

Lemma emits_store (w : Write) bytes :
  (∀ buffer offset,
     w (buffer, offset) = None
     ∨ w (buffer, offset)
       = (λ b, (b, offset + Z.of_nat (length bytes))) <$> store buffer bytes offset) →
  emits w bytes.
Proof.
  intros Hw buffer offset buffer' offset' written Hrun Hag.
  destruct (Hw buffer offset) as [E|E]; rewrite E in Hrun; [done|].
  destruct (store buffer bytes offset) as [b|] eqn:Hs; [|done].
  simpl in Hrun. injection Hrun as <- <-.
  by eapply store_agrees.
Qed.

Lemma emits_putUInt8 value : emits (putUInt8 value) [value].
Proof.
  apply emits_store. intros buffer offset. unfold putUInt8, writeUInt8.
  destruct (between 0 value 255); [right|left]; simpl; [|done].
  by destruct (store buffer [value] offset).
Qed.

Lemma emits_putUInt16LE value : emits (putUInt16LE value) (u16 value).
Proof.
  apply emits_store. intros buffer offset. unfold putUInt16LE, writeUInt16LE.
  destruct (between 0 value 65535); [right|left]; simpl; [|done].
  by destruct (store buffer _ offset).
Qed.

Lemma emits_putUInt32LE value : emits (putUInt32LE value) (u32 value).
Proof.
  apply emits_store. intros buffer offset. unfold putUInt32LE, writeUInt32LE.
  destruct (between 0 value 4294967295); [right|left]; simpl; [|done].
  by destruct (store buffer _ offset).
Qed.

Lemma emits_putInt32LE value : emits (putInt32LE value) (u32 value).
Proof.
  apply emits_store. intros buffer offset. unfold putInt32LE, writeInt32LE.
  destruct (between _ value _); [right|left]; simpl; [|done].
  by destruct (store buffer _ offset).
Qed.

Lemma emits_putCopy bytes : emits (putCopy bytes) bytes.
Proof.
  intros buffer offset buffer' offset' written [= <- <-] Hw.
  by apply copy_agrees.
Qed.

Lemma fitsIn_putCopy bytes : fitsIn (putCopy bytes) bytes.
Proof. intros buffer offset written _ _. by eexists. Qed.

Lemma between_true lo value hi :
  lo ≤ value ≤ hi → between lo value hi = true.
Proof.
  intros [H1 H2]. unfold between.
  apply andb_true_iff. split; by apply Z.leb_le.
Qed.

Lemma fitsIn_putUInt8 value : 0 ≤ value ≤ 255 → fitsIn (putUInt8 value) [value].
Proof.
  intros Hv buffer offset written Hw Hfit. unfold putUInt8, writeUInt8.
  rewrite between_true by done.
  destruct (store_fits buffer [value] offset written Hw Hfit) as [b ->].
  by eexists.
Qed.

Lemma fitsIn_putUInt16LE value :
  0 ≤ value ≤ 65535 → fitsIn (putUInt16LE value) (u16 value).
Proof.
  intros Hv buffer offset written Hw Hfit. unfold putUInt16LE, writeUInt16LE.
  rewrite between_true by done.
  destruct (store_fits buffer (u16 value) offset written Hw Hfit) as [b Hb].
  unfold u16 in Hb. rewrite Hb. by eexists.
Qed.

Lemma fitsIn_putUInt32LE value :
  0 ≤ value ≤ 4294967295 → fitsIn (putUInt32LE value) (u32 value).
Proof.
  intros Hv buffer offset written Hw Hfit. unfold putUInt32LE, writeUInt32LE.
  rewrite between_true by done.
  destruct (store_fits buffer (u32 value) offset written Hw Hfit) as [b Hb].
  unfold u32 in Hb. rewrite Hb. by eexists.
Qed.

Lemma fitsIn_putInt32LE value :
  -2147483648 ≤ value ≤ 2147483647 → fitsIn (putInt32LE value) (u32 value).
Proof.
  intros Hv buffer offset written Hw Hfit. unfold putInt32LE, writeInt32LE.
  rewrite between_true by done.
  destruct (store_fits buffer (u32 value) offset written Hw Hfit) as [b Hb].
  unfold u32 in Hb. rewrite Hb. by eexists.
Qed.

Lemma emits_eq w b b' : emits w b → b = b' → emits w b'.
Proof. by intros H <-. Qed.

Lemma fitsIn_eq w b b' : fitsIn w b → b = b' → fitsIn w b'.
Proof. by intros H <-. Qed.

Lemma utf8_length s : length (utf8 s) = String.length s.
Proof. induction s as [|c s IH]; [done|]. simpl. by rewrite IH. Qed.

Lemma emits_putColor color : emits (putColor color) (colorBytes color).
Proof.
  destruct color as [c|]; simpl; [|apply emits_skip].
  destruct (255 <? c).
  - apply (emits_andThen _ _ [_] (u16 c));
      [apply emits_putUInt8 | apply emits_putUInt16LE].
  - apply emits_putUInt8.
Qed.

Lemma fitsIn_putColor color :
  colorInRange color → fitsIn (putColor color) (colorBytes color).
Proof.
  destruct color as [c|]; simpl; [|intros _; apply fitsIn_skip].
  intros Hc. destruct (255 <? c) eqn:Hbig.
  - apply (fitsIn_andThen _ _ [_] (u16 c));
      [apply emits_putUInt8 | by apply fitsIn_putUInt8
      | by apply fitsIn_putUInt16LE].
  - apply Z.ltb_ge in Hbig. apply fitsIn_putUInt8. lia.
Qed.

(** The three parts of the record of a cell that is not a plain space. *)
Lemma emits_char cell :
  emits (if isAscii cell
         then putUInt8 (default 0 (charCodeAt0 (char cell)))
         else andThen (putUInt8 (Z.of_nat (length (utf8 (char cell)))))
                (putCopy (utf8 (char cell))))
    (if isAscii cell then [default 0 (charCodeAt0 (char cell))]
     else Z.of_nat (length (utf8 (char cell))) :: utf8 (char cell)).
Proof.
  destruct (isAscii cell).
  - apply emits_putUInt8.
  - apply (emits_andThen _ _ [_] (utf8 (char cell)));
      [apply emits_putUInt8 | apply emits_putCopy].
Qed.

Lemma fitsIn_char cell :
  cellInRange cell →
  fitsIn (if isAscii cell
          then putUInt8 (default 0 (charCodeAt0 (char cell)))
          else andThen (putUInt8 (Z.of_nat (length (utf8 (char cell)))))
                 (putCopy (utf8 (char cell))))
    (if isAscii cell then [default 0 (charCodeAt0 (char cell))]
     else Z.of_nat (length (utf8 (char cell))) :: utf8 (char cell)).
Proof.
  intros (Hlen & _). unfold isAscii.
  destruct (charCodeAt0 (char cell)) as [code|] eqn:Hcode.
  - destruct (code <=? 127) eqn:Hascii.
    + apply Z.leb_le in Hascii. apply fitsIn_putUInt8. simpl.
      destruct (char cell); simpl in Hcode; [done|].
      injection Hcode as <-. lia.
    + apply (fitsIn_andThen _ _ [_] (utf8 (char cell)));
        [apply emits_putUInt8 | | apply fitsIn_putCopy].
      apply fitsIn_putUInt8. rewrite utf8_length. lia.
  - apply (fitsIn_andThen _ _ [_] (utf8 (char cell)));
      [apply emits_putUInt8 | | apply fitsIn_putCopy].
    apply fitsIn_putUInt8. rewrite utf8_length. lia.
Qed.

Lemma emits_style cell :
  emits (andThen
           (andThen
              (andThen
                 (putUInt8 ((if hasAttrs cell then 1 else 0)
                            + (if hasFg cell then 2 else 0)
                            + (if hasBg cell then 4 else 0)))
                 (if hasAttrs cell
                  then putUInt8 (default 0 (attributes cell)) else skip))
              (putColor (fg cell)))
           (putColor (bg cell)))
    ([(if hasAttrs cell then 1 else 0)
      + (if hasFg cell then 2 else 0)
      + (if hasBg cell then 4 else 0)]
     ++ (if hasAttrs cell then [default 0 (attributes cell)] else [])
     ++ colorBytes (fg cell) ++ colorBytes (bg cell)).
Proof.
  eapply emits_eq.
  - apply emits_andThen; [apply emits_andThen; [apply emits_andThen|]|].
    + apply emits_putUInt8.
    + instantiate (1 := if hasAttrs cell
                        then [default 0 (attributes cell)] else []).
      destruct (hasAttrs cell); [apply emits_putUInt8 | apply emits_skip].
    + apply emits_putColor.
    + apply emits_putColor.
  - by rewrite <- !app_assoc.
Qed.

Lemma fitsIn_style cell :
  cellInRange cell →
  fitsIn (andThen
            (andThen
               (andThen
                  (putUInt8 ((if hasAttrs cell then 1 else 0)
                             + (if hasFg cell then 2 else 0)
                             + (if hasBg cell then 4 else 0)))
                  (if hasAttrs cell
                   then putUInt8 (default 0 (attributes cell)) else skip))
               (putColor (fg cell)))
            (putColor (bg cell)))
    ([(if hasAttrs cell then 1 else 0)
      + (if hasFg cell then 2 else 0)
      + (if hasBg cell then 4 else 0)]
     ++ (if hasAttrs cell then [default 0 (attributes cell)] else [])
     ++ colorBytes (fg cell) ++ colorBytes (bg cell)).
Proof.
  intros (_ & Hfg & Hbg & Hattr).
  assert (fitsIn (if hasAttrs cell
                  then putUInt8 (default 0 (attributes cell)) else skip)
            (if hasAttrs cell then [default 0 (attributes cell)] else []))
    as Ha.
  { destruct (hasAttrs cell); [|apply fitsIn_skip].
    apply fitsIn_putUInt8. destruct (attributes cell); simpl; lia. }
  assert (emits (if hasAttrs cell
                 then putUInt8 (default 0 (attributes cell)) else skip)
            (if hasAttrs cell then [default 0 (attributes cell)] else []))
    as Hea.
  { destruct (hasAttrs cell); [apply emits_putUInt8 | apply emits_skip]. }
  assert (fitsIn (putUInt8 ((if hasAttrs cell then 1 else 0)
                            + (if hasFg cell then 2 else 0)
                            + (if hasBg cell then 4 else 0)))
            [(if hasAttrs cell then 1 else 0)
             + (if hasFg cell then 2 else 0)
             + (if hasBg cell then 4 else 0)]) as Hflags.
  { apply fitsIn_putUInt8.
    destruct (hasAttrs cell), (hasFg cell), (hasBg cell); lia. }
  eapply fitsIn_eq.
  - apply fitsIn_andThen; [| |by apply fitsIn_putColor].
    + apply emits_andThen; [apply emits_andThen|];
        [apply emits_putUInt8 | exact Hea | apply emits_putColor].
    + apply fitsIn_andThen; [| |by apply fitsIn_putColor].
      * apply emits_andThen; [apply emits_putUInt8 | exact Hea].
      * apply fitsIn_andThen; [apply emits_putUInt8 | exact Hflags | exact Ha].
  - by rewrite <- !app_assoc.
Qed.

Lemma emits_encodeCell cell : emits (encodeCell cell) (cellBytes cell).
Proof.
  unfold encodeCell, cellBytes.
  destruct (isSpace cell && negb (hasAttrs cell) && negb (hasFg cell)
            && negb (hasBg cell)); [apply emits_putUInt8|].
  eapply emits_eq.
  - apply emits_andThen; [apply emits_andThen|];
      [apply emits_putUInt8 | apply emits_char |].
    instantiate (1 := if hasAttrs cell || hasFg cell || hasBg cell
                      then _ else []).
    destruct (hasAttrs cell || hasFg cell || hasBg cell);
      [apply emits_style | apply emits_skip].
  - by rewrite <- !app_assoc.
Qed.

Lemma fitsIn_encodeCell cell :
  cellInRange cell → fitsIn (encodeCell cell) (cellBytes cell).
Proof.
  intros Hr. unfold encodeCell, cellBytes.
  destruct (isSpace cell && negb (hasAttrs cell) && negb (hasFg cell)
            && negb (hasBg cell)); [by apply fitsIn_putUInt8|].
  eapply fitsIn_eq.
  - apply fitsIn_andThen.
    + apply emits_andThen; [apply emits_putUInt8 | apply emits_char].
    + apply fitsIn_andThen;
        [apply emits_putUInt8 | by apply fitsIn_putUInt8
        | by apply fitsIn_char].
    + instantiate (1 := if hasAttrs cell || hasFg cell || hasBg cell
                        then _ else []).
      destruct (hasAttrs cell || hasFg cell || hasBg cell);
        [by apply fitsIn_style | apply fitsIn_skip].
  - by rewrite <- !app_assoc.
Qed.

Lemma emits_encodeCells rowCells :
  emits (encodeCells rowCells) (concat (cellBytes <$> rowCells)).
Proof.
  induction rowCells as [|cell rowCells IH]; [apply emits_skip|].
  simpl. apply emits_andThen; [apply emits_encodeCell | exact IH].
Qed.

Lemma fitsIn_encodeCells rowCells :
  Forall cellInRange rowCells →
  fitsIn (encodeCells rowCells) (concat (cellBytes <$> rowCells)).
Proof.
  induction rowCells as [|cell rowCells IH]; intros Hr; [apply fitsIn_skip|].
  apply list.Forall_cons in Hr as [Hc Hr]. simpl.
  apply fitsIn_andThen;
    [apply emits_encodeCell | by apply fitsIn_encodeCell | by apply IH].
Qed.

Lemma emits_encodeRow rowCells :
  emits (encodeRow rowCells) (rowBytes rowCells).
Proof.
  unfold encodeRow, rowBytes. destruct (isBlankRow rowCells).
  - apply (emits_andThen _ _ [_] [_]); apply emits_putUInt8.
  - eapply emits_eq.
    + apply emits_andThen; [apply emits_andThen|];
        [apply emits_putUInt8 | apply emits_putUInt16LE
        | apply emits_encodeCells].
    + by rewrite <- !app_assoc.
Qed.

Lemma fitsIn_encodeRow rowCells :
  rowInRange rowCells → fitsIn (encodeRow rowCells) (rowBytes rowCells).
Proof.
  intros [Hlen Hcells]. unfold encodeRow, rowBytes.
  destruct (isBlankRow rowCells).
  - apply (fitsIn_andThen _ _ [_] [_]);
      [apply emits_putUInt8 | |]; by apply fitsIn_putUInt8.
  - eapply fitsIn_eq.
    + apply fitsIn_andThen; [| |by apply fitsIn_encodeCells].
      * apply emits_andThen; [apply emits_putUInt8 | apply emits_putUInt16LE].
      * apply fitsIn_andThen; [apply emits_putUInt8 | by apply fitsIn_putUInt8|].
        apply fitsIn_putUInt16LE. lia.
    + by rewrite <- !app_assoc.
Qed.

Lemma emits_encodeHeader flags snapshot :
  emits (encodeHeader flags snapshot) (headerBytes flags snapshot).
Proof.
  eapply emits_eq.
  - unfold encodeHeader. repeat apply emits_andThen;
      first [apply emits_putUInt16LE | apply emits_putUInt8
            | apply emits_putUInt32LE | apply emits_putInt32LE].
  - unfold headerBytes. by rewrite <- !app_assoc.
Qed.

Lemma fitsIn_encodeHeader flags snapshot :
  0 ≤ flags ≤ 1 → snapshotInRange snapshot →
  fitsIn (encodeHeader flags snapshot) (headerBytes flags snapshot).
Proof.
  intros Hf (Hc & Hr & Hv & Hx & Hy & _).
  eapply fitsIn_eq.
  - unfold encodeHeader.
    repeat (apply fitsIn_andThen;
            [repeat apply emits_andThen;
               first [apply emits_putUInt16LE | apply emits_putUInt8
                     | apply emits_putUInt32LE | apply emits_putInt32LE]
            | | ]);
      first [apply fitsIn_putUInt16LE | apply fitsIn_putUInt8
            | apply fitsIn_putUInt32LE | apply fitsIn_putInt32LE];
      unfold MAGIC_HEADER; lia.
  - unfold headerBytes. by rewrite <- !app_assoc.
Qed.

Lemma headerBytes_length flags snapshot :
  length (headerBytes flags snapshot) = 28%nat.
Proof. done. Qed.

Lemma emits_encodeRows cells : emits (encodeRows cells) (fullBody cells).
Proof.
  induction cells as [|row cells IH]; [apply emits_skip|].
  unfold fullBody. simpl.
  apply emits_andThen; [apply emits_encodeRow | exact IH].
Qed.

Lemma fitsIn_encodeRows cells :
  Forall rowInRange cells → fitsIn (encodeRows cells) (fullBody cells).
Proof.
  induction cells as [|row cells IH]; intros Hr; [apply fitsIn_skip|].
  apply list.Forall_cons in Hr as [Hrow Hr]. unfold fullBody. simpl.
  apply fitsIn_andThen;
    [apply emits_encodeRow | by apply fitsIn_encodeRow | by apply IH].
Qed.

Lemma emits_encodeChangedRows changedRows :
  emits (encodeChangedRows changedRows)
    (concat ((λ '(index, row), u16 index ++ rowBytes row) <$> changedRows)).
Proof.
  induction changedRows as [|[index row] changedRows IH];
    [apply emits_skip|].
  simpl. eapply emits_eq.
  - apply emits_andThen; [apply emits_andThen|];
      [apply emits_putUInt16LE | apply emits_encodeRow | exact IH].
  - done.
Qed.

Lemma fitsIn_encodeChangedRows changedRows :
  Forall (λ '(index, row), 0 ≤ index ≤ 65535 ∧ rowInRange row) changedRows →
  fitsIn (encodeChangedRows changedRows)
    (concat ((λ '(index, row), u16 index ++ rowBytes row) <$> changedRows)).
Proof.
  induction changedRows as [|[index row] changedRows IH]; intros Hr;
    [apply fitsIn_skip|].
  apply list.Forall_cons in Hr as [[Hi Hrow] Hr]. simpl.
  eapply fitsIn_eq.
  - apply fitsIn_andThen; [| |by apply IH].
    + apply emits_andThen; [apply emits_putUInt16LE | apply emits_encodeRow].
    + apply fitsIn_andThen;
        [apply emits_putUInt16LE | by apply fitsIn_putUInt16LE
        | by apply fitsIn_encodeRow].
  - done.
Qed.

(** *** The choice between a full frame and a diff *)




Lemma chooseRows_rows snapshot previousSnapshot :
  (chooseRows snapshot previousSnapshot).2
  = if (chooseRows snapshot previousSnapshot).1
    then match previousSnapshot with
         | Some previous => changedRowsOf (cells previous) (cells snapshot)
         | None => []
         end
    else [].
Proof.
  unfold chooseRows. destruct previousSnapshot as [previous|]; [|done].
  destruct (sameGeometry snapshot previous); [|done].
  by destruct (_ && _).
Qed.

Lemma chooseRows_nonempty snapshot previousSnapshot :
  (chooseRows snapshot previousSnapshot).1 = true →
  (0 <? Z.of_nat (length (chooseRows snapshot previousSnapshot).2)) = true.
Proof.
  unfold chooseRows. destruct previousSnapshot as [previous|]; [|done].
  destruct (sameGeometry snapshot previous); [|done].
  set (changed := changedRowsOf (cells previous) (cells snapshot)).
  destruct ((0 <? Z.of_nat (length changed))
            && (Z.of_nat (length changed)
                <? Z.of_nat (length (cells snapshot)))) eqn:H; [|done].
  simpl. intros _. by apply andb_true_iff in H as [H0 _].
Qed.

(** What [encodeSnapshot] writes is the frame of the layout. *)
Lemma emits_frame snapshot previousSnapshot :
  let '(useDiff, changedRows) := chooseRows snapshot previousSnapshot in
  emits
    (andThen (encodeHeader (if useDiff then 1 else 0) snapshot)
       (if useDiff && (0 <? Z.of_nat (length changedRows))
        then andThen (putUInt16LE (Z.of_nat (length changedRows)))
               (encodeChangedRows changedRows)
        else encodeRows (cells snapshot)))
    (frameBytes snapshot previousSnapshot).
Proof.
  unfold frameBytes.
  pose proof (chooseRows_nonempty snapshot previousSnapshot) as Hne.
  destruct (chooseRows snapshot previousSnapshot) as [useDiff changedRows].
  simpl in Hne. destruct useDiff.
  - rewrite Hne by done. simpl. unfold diffFrame, diffBody.
    apply emits_andThen; [apply emits_encodeHeader|].
    apply emits_andThen;
      [apply emits_putUInt16LE | apply emits_encodeChangedRows].
  - simpl. unfold fullFrame.
    apply emits_andThen; [apply emits_encodeHeader | apply emits_encodeRows].
Qed.

(** Every frame [encodeSnapshot] returns is the frame of the layout, cut
    at the size that was allocated. *)
Lemma encodeSnapshot_frame snapshot previousSnapshot frame usedDiff :
  encodeSnapshot snapshot previousSnapshot = Some (frame, usedDiff) →
  usedDiff = (chooseRows snapshot previousSnapshot).1
  ∧ frame = take (Z.to_nat (dataSize snapshot previousSnapshot))
              (frameBytes snapshot previousSnapshot).
Proof.
  unfold encodeSnapshot.
  pose proof (emits_frame snapshot previousSnapshot) as Hemits.
  destruct (chooseRows snapshot previousSnapshot) as [useDiff changedRows].
  set (buffer := allocUnsafe (dataSize snapshot previousSnapshot)).
  destruct (andThen _ _ (buffer, 0)) as [[buffer' offset]|] eqn:Hrun;
    [|done].
  simpl. intros [= <- <-]. split; [done|].
  destruct (Hemits _ _ _ _ [] Hrun (agrees_start buffer)) as [[Ho Hw] Hlen].
  simpl in Ho, Hw. unfold subarray. rewrite Ho, Nat2Z.id, <- Hw, Hlen.
  subst buffer. unfold allocUnsafe. by rewrite length_replicate.
Qed.

(** *** Sizes: what is computed and what is written *)

Lemma colorBytes_length color :
  Z.of_nat (length (colorBytes color)) = colorSize color.
Proof.
  destruct color as [c|]; simpl; [|done]. by destruct (255 <? c).
Qed.

(** The record of a cell is one byte longer than [calculateCellSize] says
    when the cell carries attributes, and as long otherwise. *)
Lemma cellBytes_length cell :
  Z.of_nat (length (cellBytes cell))
  = calculateCellSize cell + (if hasAttrs cell then 1 else 0).
Proof.
  unfold cellBytes, calculateCellSize.
  destruct (isSpace cell && negb (hasAttrs cell) && negb (hasFg cell)
            && negb (hasBg cell)) eqn:Hplain.
  - apply andb_true_iff in Hplain as [[[_ Ha]%andb_true_iff _]%andb_true_iff _].
    apply negb_true_iff in Ha. rewrite Ha. done.
  - rewrite !length_app.
    assert (Z.of_nat (length (if isAscii cell
                              then [default 0 (charCodeAt0 (char cell))]
                              else Z.of_nat (length (utf8 (char cell)))
                                   :: utf8 (char cell)))
            = if isAscii cell then 1
              else 1 + Z.of_nat (String.length (char cell))) as Hchar.
    { destruct (isAscii cell); [done|]. simpl. rewrite utf8_length. lia. }
    destruct (hasAttrs cell || hasFg cell || hasBg cell) eqn:Hstyle.
    + rewrite !length_app.
      pose proof (colorBytes_length (fg cell)).
      pose proof (colorBytes_length (bg cell)).
      destruct (hasAttrs cell), (isAscii cell); simpl length in *; lia.
    + apply orb_false_iff in Hstyle as [[Ha _]%orb_false_iff _].
      rewrite Ha. destruct (isAscii cell); simpl length in *; lia.
Qed.

Lemma sum_cell_sizes rowCells : ∀ size,
  foldl (λ size cell, size + calculateCellSize cell) size rowCells
  + attributed rowCells
  = size + Z.of_nat (length (concat (cellBytes <$> rowCells))).
Proof.
  unfold attributed.
  induction rowCells as [|cell rowCells IH]; intros size; [simpl; lia|].
  simpl foldl. rewrite fmap_cons, concat_cons, length_app.
  pose proof (cellBytes_length cell) as Hc.
  specialize (IH (size + calculateCellSize cell)).
  simpl List.filter. destruct (hasAttrs cell); simpl length; lia.
Qed.

Lemma rowBytes_length rowCells :
  Z.of_nat (length (rowBytes rowCells))
  = calculateRowSize rowCells
    + (if isBlankRow rowCells then 0 else attributed rowCells).
Proof.
  unfold rowBytes, calculateRowSize. destruct (isBlankRow rowCells); [done|].
  pose proof (sum_cell_sizes rowCells 3) as Hs.
  rewrite !length_app. simpl length. lia.
Qed.

Lemma attributed_none rowCells :
  Forall (λ cell, hasAttrs cell = false) rowCells → attributed rowCells = 0.
Proof.
  unfold attributed. induction 1 as [|cell rowCells Hc _ IH]; [done|].
  simpl. by rewrite Hc.
Qed.

Lemma rowBytes_length_plain rowCells :
  Forall (λ cell, hasAttrs cell = false) rowCells →
  Z.of_nat (length (rowBytes rowCells)) = calculateRowSize rowCells.
Proof.
  intros H. rewrite rowBytes_length, attributed_none by done.
  destruct (isBlankRow rowCells); lia.
Qed.

Lemma sum_row_sizes cells : ∀ size,
  Forall (Forall (λ cell, hasAttrs cell = false)) cells →
  foldl (λ size rowCells, size + calculateRowSize rowCells) size cells
  = size + Z.of_nat (length (fullBody cells)).
Proof.
  unfold fullBody.
  induction cells as [|row cells IH]; intros size Hp; [simpl; lia|].
  apply list.Forall_cons in Hp as [Hrow Hp].
  simpl foldl. rewrite IH by done. rewrite fmap_cons, concat_cons, length_app.
  pose proof (rowBytes_length_plain row Hrow). lia.
Qed.

Lemma sum_changed_sizes (changedRows : list (Z * list BufferCell)) :
  ∀ size,
  Forall (λ '(_, row), Forall (λ cell, hasAttrs cell = false) row)
    changedRows →
  foldl (λ size '(_, row), size + 2 + calculateRowSize row) size changedRows
  = size
    + Z.of_nat (length (concat ((λ '(index, row), u16 index ++ rowBytes row)
                                  <$> changedRows))).
Proof.
  induction changedRows as [|[index row] changedRows IH]; intros size Hp;
    [simpl; lia|].
  apply list.Forall_cons in Hp as [Hrow Hp].
  simpl foldl. rewrite IH by done.
  rewrite fmap_cons, concat_cons, !length_app.
  pose proof (rowBytes_length_plain row Hrow). simpl length. lia.
Qed.

Lemma calculateRowSize_min rowCells : 2 ≤ calculateRowSize rowCells.
Proof.
  unfold calculateRowSize. destruct (isBlankRow rowCells); [done|].
  assert (∀ cell, 1 ≤ calculateCellSize cell) as Hcell.
  { intros cell. unfold calculateCellSize.
    destruct (_ && _); [done|].
    assert (0 ≤ colorSize (fg cell) ∧ 0 ≤ colorSize (bg cell)) as [? ?].
    { split; (destruct (_ cell) as [x|]; simpl; [destruct (255 <? x)|]; lia). }
    destruct (isAscii cell), (_ || _); lia. }
  assert (∀ l size, size ≤ foldl (λ size cell, size + calculateCellSize cell)
                             size l) as Hf.
  { induction l as [|cell l IH]; intros size; [done|]. simpl.
    pose proof (IH (size + calculateCellSize cell)).
    pose proof (Hcell cell). lia. }
  pose proof (Hf rowCells 3). lia.
Qed.

Lemma dataSize_min snapshot previousSnapshot :
  32 ≤ dataSize snapshot previousSnapshot.
Proof.
  unfold dataSize.
  destruct (chooseRows snapshot previousSnapshot) as [useDiff changedRows].
  destruct (useDiff && _).
  - assert (∀ (l : list (Z * list BufferCell)) size,
              size ≤ foldl (λ size '(_, row), size + 2 + calculateRowSize row)
                       size l) as Hf.
    { induction l as [|[i row] l IH]; intros size; [done|]. simpl.
      pose proof (IH (size + 2 + calculateRowSize row)).
      pose proof (calculateRowSize_min row). lia. }
    pose proof (Hf changedRows (32 + 2)). lia.
  - assert (∀ (l : list (list BufferCell)) size,
              size ≤ foldl (λ size rowCells, size + calculateRowSize rowCells)
                       size l) as Hf.
    { induction l as [|row l IH]; intros size; [done|]. simpl.
      pose proof (IH (size + calculateRowSize row)).
      pose proof (calculateRowSize_min row). lia. }
    pose proof (Hf (cells snapshot) 32). lia.
Qed.

(** The rows a diff carries are rows of the snapshot, at their index. *)
Lemma changedRowsOf_rows previousCells cells index row :
  (index, row) ∈ changedRowsOf previousCells cells →
  0 ≤ index < Z.of_nat (length cells) ∧ cells !! Z.to_nat index = Some row.
Proof.
  unfold changedRowsOf, indexed.
  intros [Hin _]%list_elem_of_In%filter_In.
  apply list_elem_of_In, list_elem_of_lookup in Hin as [i Hi].
  rewrite list_lookup_imap in Hi.
  destruct (cells !! i) as [r|] eqn:Hr; [|done].
  simpl in Hi. injection Hi as <- <-.
  apply lookup_lt_Some in Hr as Hlt.
  rewrite Nat2Z.id. split; [lia | done].
Qed.

Lemma changedRowsOf_length previousCells cells :
  (length (changedRowsOf previousCells cells) ≤ length cells)%nat.
Proof.
  unfold changedRowsOf, indexed.
  etrans; [apply List.filter_length_le|]. by rewrite length_imap.
Qed.

(** *** Encoding returns *)

Lemma changedRows_plain snapshot previousSnapshot :
  noAttributes snapshot →
  Forall (λ '(_, row), Forall (λ cell, hasAttrs cell = false) row)
    (chooseRows snapshot previousSnapshot).2.
Proof.
  intros Hp. rewrite chooseRows_rows.
  destruct (chooseRows snapshot previousSnapshot).1; [|constructor].
  destruct previousSnapshot as [previous|]; [|constructor].
  apply list.Forall_forall. intros [index row] Hin.
  apply changedRowsOf_rows in Hin as [_ Hrow].
  eapply list.Forall_lookup_1 in Hp; [|exact Hrow]. done.
Qed.

Lemma changedRows_inRange snapshot previousSnapshot :
  snapshotInRange snapshot →
  Forall (λ '(index, row), 0 ≤ index ≤ 65535 ∧ rowInRange row)
    (chooseRows snapshot previousSnapshot).2
  ∧ Z.of_nat (length (chooseRows snapshot previousSnapshot).2) ≤ 65535.
Proof.
  intros (_ & _ & _ & _ & _ & Hlen & Hrows). rewrite chooseRows_rows.
  destruct (chooseRows snapshot previousSnapshot).1;
    [|split; [constructor | simpl; lia]].
  destruct previousSnapshot as [previous|];
    [|split; [constructor | simpl; lia]].
  split.
  - apply list.Forall_forall. intros [index row] Hin.
    apply changedRowsOf_rows in Hin as [Hi Hrow].
    eapply list.Forall_lookup_1 in Hrows; [|exact Hrow]. split; [lia|done].
  - pose proof (changedRowsOf_length (cells previous) (cells snapshot)). lia.
Qed.

(** Without attributes the frame is four bytes shorter than the buffer. *)
Lemma frameBytes_length_plain snapshot previousSnapshot :
  noAttributes snapshot →
  Z.of_nat (length (frameBytes snapshot previousSnapshot)) + 4
  = dataSize snapshot previousSnapshot.
Proof.
  intros Hp. unfold frameBytes, dataSize.
  pose proof (changedRows_plain snapshot previousSnapshot Hp) as Hc.
  pose proof (chooseRows_nonempty snapshot previousSnapshot) as Hne.
  destruct (chooseRows snapshot previousSnapshot) as [useDiff changedRows].
  simpl in Hc, Hne. destruct useDiff.
  - rewrite Hne by done. simpl andb. cbv iota.
    rewrite sum_changed_sizes by done.
    unfold diffFrame, diffBody. rewrite !length_app, headerBytes_length.
    simpl length. lia.
  - simpl andb. cbv iota. rewrite sum_row_sizes by done.
    unfold fullFrame. rewrite length_app, headerBytes_length. lia.
Qed.


Lemma take_header frame flags snapshot (body : list Z) size :
  frame = take size (headerBytes flags snapshot ++ body) →
  (28 ≤ size)%nat →
  take 28 frame = headerBytes flags snapshot.
Proof.
  intros -> Hsize. rewrite take_take, Nat.min_l by done.
  rewrite take_app_le by (by rewrite headerBytes_length).
  apply take_ge. by rewrite headerBytes_length.
Qed.

Lemma frame_header snapshot previousSnapshot frame usedDiff :
  encodeSnapshot snapshot previousSnapshot = Some (frame, usedDiff) →
  take 28 frame = headerBytes (flagsOf usedDiff) snapshot.
Proof.
  intros [-> Hf]%encodeSnapshot_frame.
  pose proof (dataSize_min snapshot previousSnapshot) as Hmin.
  unfold frameBytes in Hf.
  destruct (chooseRows snapshot previousSnapshot) as [useDiff changedRows].
  simpl. destruct useDiff; (eapply take_header; [exact Hf | lia]).
Qed.

(** *** The fingerprint tells the cells apart *)



















Lemma example_inRange :
  snapshotInRange after ∧ noAttributes after.
Proof.
  split.
  - unfold snapshotInRange, after. simpl.
    split_and!; try lia.
    repeat constructor; simpl; lia.
  - unfold noAttributes, after. simpl. repeat constructor.
Qed.


(** C6, as stated, fails: the header is not 16 bytes long.  The frame of a
    snapshot of one empty row is 30 bytes, two of them the record of the
    row. *)
Lemma header_is_not_16_bytes :
  ¬ (∀ snapshot previousSnapshot frame usedDiff,
       encodeSnapshot snapshot previousSnapshot = Some (frame, usedDiff) →
       ∃ header,
         length header = 16%nat
         ∧ frame = header
                   ++ (if usedDiff
                       then diffBody (chooseRows snapshot previousSnapshot).2
                       else fullBody (cells snapshot))).
Proof.
  intros H.
  destruct (H oneEmptyRow None (fullFrame oneEmptyRow) false)
    as (header & Hlen & Hframe); [vm_compute; reflexivity|].
  apply (f_equal length) in Hframe. rewrite length_app, Hlen in Hframe.
  discriminate Hframe.
Qed.

(** C6 (amended): every encoded frame, full or diff, begins with a fixed
    28-byte header: the magic [0x5654] and the version 1, the flag byte,
    then cols, rows, viewportY, cursorX, cursorY and a reserved zero, each
    on four bytes, little-endian.  For a snapshot whose cells carry no
    attributes the header is followed by the records of all rows or, when
    the diff flag is set, by a 16-bit row count and, for each changed row,
    its 16-bit index and its record. *)
Theorem frame_begins_with_header (snapshot : Snapshot)
    (previousSnapshot : option Snapshot) (frame : Buffer) (usedDiff : bool) :
  encodeSnapshot snapshot previousSnapshot = Some (frame, usedDiff) →
  let header := headerBytes (flagsOf usedDiff) snapshot in
  let changedRows := (chooseRows snapshot previousSnapshot).2 in
  take 28 frame = header
  ∧ length header = 28%nat
  ∧ header
    = [0x54; 0x56; 0x01; flagsOf usedDiff]
      ++ u32 (cols snapshot) ++ u32 (rows snapshot)
      ++ u32 (viewportY snapshot) ++ u32 (cursorX snapshot)
      ++ u32 (cursorY snapshot) ++ [0; 0; 0; 0]
  ∧ (noAttributes snapshot →
     frame
     = header
       ++ (if usedDiff
           then u16 (Z.of_nat (length changedRows))
                ++ concat ((λ '(index, row), u16 index ++ rowBytes row)
                             <$> changedRows)
           else concat (rowBytes <$> cells snapshot))).
Proof.
  intros E header changedRows.
  split_and!.
  - by eapply frame_header.
  - done.
  - done.
  - intros Hp.
    pose proof (frameBytes_length_plain snapshot previousSnapshot Hp) as Hl.
    apply encodeSnapshot_frame in E as [-> ->].
    rewrite take_ge by lia.
    unfold frameBytes. subst header changedRows.
    by destruct (chooseRows snapshot previousSnapshot) as [[|] ?].
Qed.

(** An instance of [frame_begins_with_header]: the diff of the example. *)
Lemma frame_begins_with_header_witness :
  ∃ frame,
    encodeSnapshot after (Some before) = Some (frame, true)
    ∧ take 28 frame
      = [0x54; 0x56; 1; 1; 2; 0; 0; 0; 2; 0; 0; 0; 0; 0; 0; 0;
         1; 0; 0; 0; 1; 0; 0; 0; 0; 0; 0; 0]
    ∧ drop 28 frame = [1; 0; 1; 0; 1; 2; 0; 1; 99; 1; 101].
Proof.
  assert (∃ frame, encodeSnapshot after (Some before) = Some (frame, true))
    as [frame E] by (eexists; vm_compute; reflexivity).
  exists frame. split; [exact E|].
  destruct (frame_begins_with_header after (Some before) frame true E)
    as (Hh & _ & _ & Hbody).
  split.
  - rewrite Hh. vm_compute. reflexivity.
  - rewrite (Hbody (proj2 example_inRange)). vm_compute. reflexivity.
Defined.

(** C10: the size computed for a row is not the number of bytes written
    for it.  [encodeRow] writes one byte more than [calculateRowSize]
    counts for every cell that carries attributes; for the row of five
    bold cells 18 bytes are counted and 23 written, and the write that
    passes the end of the buffer throws. *)
Theorem attributes_byte_not_counted :
  (∀ cell,
     hasAttrs cell = true →
     Z.of_nat (length (cellBytes cell)) = calculateCellSize cell + 1)
  ∧ (∀ rowCells buffer buffer' offset',
       encodeRow rowCells (buffer, 0) = Some (buffer', offset') →
       offset' = calculateRowSize rowCells
                 + (if isBlankRow rowCells then 0 else attributed rowCells))
  ∧ calculateRowSize [boldA; boldA; boldA; boldA; boldA] = 18
  ∧ snd <$> encodeRow [boldA; boldA; boldA; boldA; boldA]
              (allocUnsafe 64, 0) = Some 23
  ∧ dataSize fiveBold None = 50
  ∧ length (frameBytes fiveBold None) = 51%nat
  ∧ encodeSnapshot fiveBold None = None.
Proof.
  split_and!.
  - intros cell Ha. rewrite cellBytes_length. by rewrite Ha.
  - intros rowCells buffer buffer' offset' E.
    destruct (emits_encodeRow rowCells _ _ _ _ [] E (agrees_start buffer))
      as [[-> _] _].
    simpl app. apply rowBytes_length.
  - vm_compute. reflexivity.
  - vm_compute. reflexivity.
  - vm_compute. reflexivity.
  - vm_compute. reflexivity.
  - vm_compute. reflexivity.
Qed.

End EncoderFacts.

(** ** Snapshot encoder: the spare bytes, the rows of a diff, the range of
    the header *)

Section EncoderCoverage.
Import Encoder.

Lemma attributed_nonneg rowCells : 0 ≤ attributed rowCells.
Proof. unfold attributed. lia. Qed.

Lemma attributed_blank rowCells :
  isBlankRow rowCells = true → attributed rowCells = 0.
Proof.
  destruct rowCells as [|cell [|? ?]]; [done | | done]. simpl.
  intros [_ Ha%negb_true_iff]%andb_true_iff.
  unfold attributed. simpl. unfold hasAttrs. by rewrite Ha.
Qed.

Lemma rowBytes_length_attributed rowCells :
  Z.of_nat (length (rowBytes rowCells))
  = calculateRowSize rowCells + attributed rowCells.
Proof.
  rewrite rowBytes_length.
  destruct (isBlankRow rowCells) eqn:Hb; [|done].
  by rewrite attributed_blank.
Qed.

Lemma sum_row_sizes_attributed cells : ∀ size,
  foldl (λ size rowCells, size + calculateRowSize rowCells) size cells
  + attributedCells cells
  = size + Z.of_nat (length (fullBody cells)).
Proof.
  unfold fullBody.
  induction cells as [|row cells IH]; intros size; [simpl; lia|].
  simpl foldl. rewrite fmap_cons, concat_cons, length_app.
  specialize (IH (size + calculateRowSize row)).
  pose proof (rowBytes_length_attributed row).
  cbn [attributedCells foldr]. fold (attributedCells cells). lia.
Qed.

Lemma sum_changed_sizes_attributed
    (changedRows : list (Z * list BufferCell)) : ∀ size,
  foldl (λ size '(_, row), size + 2 + calculateRowSize row) size changedRows
  + attributedCells (changedRows.*2)
  = size
    + Z.of_nat (length (concat ((λ '(index, row), u16 index ++ rowBytes row)
                                  <$> changedRows))).
Proof.
  induction changedRows as [|[index row] changedRows IH]; intros size;
    [simpl; lia|].
  simpl foldl. rewrite !fmap_cons, concat_cons, !length_app.
  specialize (IH (size + 2 + calculateRowSize row)).
  pose proof (rowBytes_length_attributed row).
  cbn [attributedCells foldr snd]. fold (attributedCells (changedRows.*2)).
  change (length (u16 index)) with 2%nat. lia.
Qed.

(** The frame of the layout is as long as the buffer, less the four bytes
    the header is over-counted by, plus one byte per attributed cell. *)
Lemma frameBytes_length snapshot previousSnapshot :
  Z.of_nat (length (frameBytes snapshot previousSnapshot)) + 4
  = dataSize snapshot previousSnapshot
    + attributedCells (encodedRows snapshot previousSnapshot).
Proof.
  unfold frameBytes, dataSize, encodedRows.
  pose proof (chooseRows_nonempty snapshot previousSnapshot) as Hne.
  destruct (chooseRows snapshot previousSnapshot) as [useDiff changedRows].
  simpl in Hne. destruct useDiff.
  - rewrite Hne by done. simpl andb. cbv iota.
    pose proof (sum_changed_sizes_attributed changedRows (32 + 2)).
    unfold diffFrame, diffBody. rewrite !length_app, headerBytes_length.
    change (length (u16 (Z.of_nat (length changedRows)))) with 2%nat. lia.
  - simpl andb. cbv iota.
    pose proof (sum_row_sizes_attributed (cells snapshot) 32).
    unfold fullFrame. rewrite length_app, headerBytes_length. lia.
Qed.

(** Whatever fits the buffer is written. *)
Lemma encodeSnapshot_fits snapshot previousSnapshot :
  snapshotInRange snapshot →
  Z.of_nat (length (frameBytes snapshot previousSnapshot))
    ≤ dataSize snapshot previousSnapshot →
  encodeSnapshot snapshot previousSnapshot
  = Some (frameBytes snapshot previousSnapshot,
          (chooseRows snapshot previousSnapshot).1).
Proof.
  intros Hr Hlen.
  pose proof (changedRows_inRange snapshot previousSnapshot Hr) as [Hc Hn].
  pose proof (chooseRows_nonempty snapshot previousSnapshot) as Hne.
  pose proof (encodeSnapshot_frame snapshot previousSnapshot) as Hframe.
  assert (is_Some (encodeSnapshot snapshot previousSnapshot)) as [[frame d] E].
  { unfold encodeSnapshot. unfold frameBytes in Hlen.
    destruct (chooseRows snapshot previousSnapshot) as [useDiff changedRows]
      eqn:Hchoose.
    simpl in Hc, Hn, Hne.
    set (buffer := allocUnsafe (dataSize snapshot previousSnapshot)).
    assert (Z.of_nat (length buffer) = dataSize snapshot previousSnapshot)
      as Hbuf.
    { subst buffer. unfold allocUnsafe. rewrite length_replicate.
      pose proof (dataSize_min snapshot previousSnapshot). lia. }
    assert (is_Some
              (andThen (encodeHeader (if useDiff then 1 else 0) snapshot)
                 (if useDiff && (0 <? Z.of_nat (length changedRows))
                  then andThen (putUInt16LE (Z.of_nat (length changedRows)))
                         (encodeChangedRows changedRows)
                  else encodeRows (cells snapshot)) (buffer, 0)))
      as [[buffer' offset] ->]; [|by eexists].
    destruct useDiff.
    - rewrite Hne by done. simpl andb. cbv iota.
      eapply (fitsIn_andThen _ _ (headerBytes 1 snapshot)
                (diffBody changedRows));
        [apply emits_encodeHeader
        | apply fitsIn_encodeHeader; [lia | done]
        | | apply agrees_start | ].
      + unfold diffBody. apply fitsIn_andThen;
          [apply emits_putUInt16LE | apply fitsIn_putUInt16LE; lia
          | by apply fitsIn_encodeChangedRows].
      + unfold diffFrame in Hlen. lia.
    - simpl andb. cbv iota.
      eapply (fitsIn_andThen _ _ (headerBytes 0 snapshot)
                (fullBody (cells snapshot)));
        [apply emits_encodeHeader
        | apply fitsIn_encodeHeader; [lia | done]
        | | apply agrees_start | ].
      + apply fitsIn_encodeRows. by destruct Hr as (_ & _ & _ & _ & _ & _ & ?).
      + unfold fullFrame in Hlen. lia. }
  rewrite E. destruct (Hframe _ _ E) as [-> ->].
  f_equal. f_equal. apply take_ge. lia.
Qed.

(** X21: [encodeSnapshot] allocates 32 bytes for a header of 28, and
    counts no byte for the attributes of a cell.  So for a snapshot whose
    numbers are in range, with [extra] the number of cells that carry
    attributes in the rows that are encoded, the frame of the layout is
    [dataSize - 4 + extra] bytes long; with [extra <= 4] it is returned
    whole, and with [extra > 4] whatever is returned is cut short at the
    allocated size. *)
Theorem spare_bytes_absorb_attributes (snapshot : Snapshot)
    (previousSnapshot : option Snapshot) :
  snapshotInRange snapshot →
  let extra := attributedCells (encodedRows snapshot previousSnapshot) in
  let layout := frameBytes snapshot previousSnapshot in
  Z.of_nat (length layout)
    = dataSize snapshot previousSnapshot - 4 + extra
  ∧ (extra ≤ 4 →
     encodeSnapshot snapshot previousSnapshot
     = Some (layout, (chooseRows snapshot previousSnapshot).1))
  ∧ (4 < extra →
     ∀ frame usedDiff,
       encodeSnapshot snapshot previousSnapshot = Some (frame, usedDiff) →
       frame = take (Z.to_nat (dataSize snapshot previousSnapshot)) layout
       ∧ (length frame < length layout)%nat).
Proof.
  intros Hr extra layout.
  pose proof (frameBytes_length snapshot previousSnapshot) as Hlen.
  fold extra layout in Hlen.
  split_and!.
  - lia.
  - intros Hfew. apply encodeSnapshot_fits; [done|]. fold layout. lia.
  - intros Hmany frame usedDiff E.
    apply encodeSnapshot_frame in E as [_ ->]. fold layout.
    split; [done|].
    pose proof (dataSize_min snapshot previousSnapshot).
    rewrite length_take. lia.
Qed.

Lemma fourBold_inRange : snapshotInRange fourBold.
Proof.
  unfold snapshotInRange, fourBold. simpl.
  split_and!; try lia.
  repeat constructor; simpl; lia.
Qed.

(** An instance of [spare_bytes_absorb_attributes]: a row of four bold
    cells is counted as 15 bytes and written on 19; the frame of 47 bytes
    fills the buffer. *)
Lemma spare_bytes_absorb_attributes_witness :
  dataSize fourBold None = 47
  ∧ ∃ frame, encodeSnapshot fourBold None = Some (frame, false)
             ∧ length frame = 47%nat.
Proof.
  destruct (spare_bytes_absorb_attributes fourBold None fourBold_inRange)
    as (Hlen & Hfew & _).
  split; [vm_compute; reflexivity|].
  eexists. split; [apply Hfew; vm_compute; discriminate|].
  vm_compute. reflexivity.
Defined.

(** *** The rows of a diff *)

Lemma indexed_sorted (cells : list (list BufferCell)) : ∀ k,
  StronglySorted Z.lt ((imap (λ i row, (Z.of_nat (k + i), row)) cells).*1)
  ∧ Forall (λ i, Z.of_nat k ≤ i)
      ((imap (λ i row, (Z.of_nat (k + i), row)) cells).*1).
Proof.
  induction cells as [|row cells IH]; intros k.
  - split; constructor.
  - rewrite imap_cons, fmap_cons. cbn [fst].
    assert (imap ((λ i row, (Z.of_nat (k + i), row)) ∘ S) cells
            = imap (λ i row, (Z.of_nat (S k + i), row)) cells) as ->.
    { apply imap_ext. intros i x _. simpl. do 2 f_equal. lia. }
    destruct (IH (S k)) as [Hs Hb]. split.
    + constructor; [done|].
      eapply list.Forall_impl; [exact Hb|]. simpl. intros. lia.
    + constructor; [lia|].
      eapply list.Forall_impl; [exact Hb|]. simpl. intros. lia.
Qed.

Lemma filter_fst_sorted {A} (P : Z * A → bool) (l : list (Z * A)) :
  StronglySorted Z.lt (l.*1) → StronglySorted Z.lt ((List.filter P l).*1).
Proof.
  induction l as [|[i x] l IH]; [done|].
  rewrite fmap_cons. cbn [fst]. intros [Hs Hall]%StronglySorted_inv.
  simpl. destruct (P (i, x)); [|by apply IH].
  rewrite fmap_cons. cbn [fst]. constructor; [by apply IH|].
  apply list.Forall_forall. intros j Hj.
  apply list_elem_of_fmap in Hj as ([j' y] & -> & Hin).
  apply list_elem_of_In, filter_In in Hin as [Hin _].
  apply list_elem_of_In in Hin.
  eapply (proj1 (list.Forall_forall _ _) Hall).
  apply list_elem_of_fmap. by exists (j', y).
Qed.

(** X22: the rows a diff frame lists.  When [encodeSnapshot] chooses a
    diff, the changed rows are listed by strictly ascending index, so no
    row twice, and row [i] is listed, with the cells the snapshot has at
    [i], exactly when its fingerprint is not the one the previous
    snapshot has at [i]: a row that is not listed has the fingerprint it
    had. *)
Theorem diff_lists_changed_rows (snapshot previous : Snapshot)
    (changedRows : list (Z * list BufferCell)) :
  chooseRows snapshot (Some previous) = (true, changedRows) →
  StronglySorted Z.lt (changedRows.*1)
  ∧ (∀ i row,
       (i, row) ∈ changedRows ↔
       0 ≤ i
       ∧ cells snapshot !! Z.to_nat i = Some row
       ∧ fingerprintChanged snapshot previous (Z.to_nat i) = true)
  ∧ (∀ i row,
       cells snapshot !! i = Some row →
       Z.of_nat i ∉ changedRows.*1 →
       hashRow <$> cells previous !! i = Some (hashRow row)).
Proof.
  intros Hchoose.
  assert (changedRows = changedRowsOf (cells previous) (cells snapshot))
    as ->.
  { pose proof (chooseRows_rows snapshot (Some previous)) as H.
    rewrite Hchoose in H. simpl in H. done. }
  assert (∀ i row,
            (i, row) ∈ changedRowsOf (cells previous) (cells snapshot) ↔
            0 ≤ i
            ∧ cells snapshot !! Z.to_nat i = Some row
            ∧ fingerprintChanged snapshot previous (Z.to_nat i) = true)
    as Hiff.
  { intros i row. unfold changedRowsOf, indexed, fingerprintChanged.
    rewrite list_elem_of_In, filter_In, <- list_elem_of_In.
    rewrite list_elem_of_lookup. setoid_rewrite list_lookup_imap.
    rewrite list_lookup_fmap. split.
    - intros [[n Hn] Hp].
      destruct (cells snapshot !! n) as [r|] eqn:Hr; [|done].
      simpl in Hn. injection Hn as <- <-. rewrite Nat2Z.id in *.
      rewrite Hr. simpl. split_and!; [lia | done | done].
    - intros (Hi & Hrow & Hp). rewrite Hrow in Hp. simpl in Hp.
      split; [|done]. exists (Z.to_nat i). rewrite Hrow. simpl.
      do 2 f_equal. lia. }
  split_and!.
  - unfold changedRowsOf, indexed. apply filter_fst_sorted.
    apply (indexed_sorted (cells snapshot) 0).
  - exact Hiff.
  - intros i row Hrow Hnot.
    destruct (fingerprintChanged snapshot previous i) eqn:Hf.
    + exfalso. apply Hnot. apply list_elem_of_fmap. exists (Z.of_nat i, row).
      split; [done|]. apply Hiff. rewrite Nat2Z.id. split_and!; [lia|done|done].
    + unfold fingerprintChanged in Hf. apply negb_false_iff in Hf.
      apply bool_decide_eq_true in Hf. rewrite Hf, Hrow. done.
Qed.

(** An instance of [diff_lists_changed_rows]: of the two rows of the
    example the second one is listed, and the first has kept its
    fingerprint. *)
Lemma diff_lists_changed_rows_witness :
  chooseRows after (Some before) = (true, [(1, [plain "c"; plain "e"])])
  ∧ hashRow <$> cells before !! 0%nat = Some (hashRow [plain "a"; plain "b"]).
Proof.
  assert (chooseRows after (Some before)
          = (true, [(1, [plain "c"; plain "e"])])) as E
    by (vm_compute; reflexivity).
  split; [exact E|].
  destruct (diff_lists_changed_rows after before _ E) as (_ & _ & Hkept).
  apply Hkept; [reflexivity|].
  simpl. intros H%list_elem_of_singleton. discriminate H.
Defined.

(** *** The range of the header *)

Lemma andThen_Some (w1 w2 : Write) st r :
  andThen w1 w2 st = Some r → ∃ mid, w1 st = Some mid ∧ w2 mid = Some r.
Proof.
  unfold andThen. destruct (w1 st) as [mid|]; [|done]. simpl. eauto.
Qed.

Lemma between_inv lo value hi :
  between lo value hi = true → lo ≤ value ≤ hi.
Proof. unfold between. intros [?%Z.leb_le ?%Z.leb_le]%andb_true_iff. lia. Qed.

Lemma putUInt32LE_Some value st r :
  putUInt32LE value st = Some r → 0 ≤ value ≤ 4294967295.
Proof.
  destruct st as [buffer offset]. unfold putUInt32LE, writeUInt32LE.
  destruct (between 0 value 4294967295) eqn:Hb; [|done].
  intros _. by apply between_inv.
Qed.

Lemma putInt32LE_Some value st r :
  putInt32LE value st = Some r → -2147483648 ≤ value ≤ 2147483647.
Proof.
  destruct st as [buffer offset]. unfold putInt32LE, writeInt32LE.
  destruct (between (-2147483648) value 2147483647) eqn:Hb; [|done].
  intros _. by apply between_inv.
Qed.

Lemma encodeHeader_Some flags snapshot st r :
  encodeHeader flags snapshot st = Some r → headerInRange snapshot.
Proof.
  unfold encodeHeader.
  intros (s8 & H & _)%andThen_Some.
  apply andThen_Some in H as (s7 & H & Hy%putInt32LE_Some).
  apply andThen_Some in H as (s6 & H & Hx%putInt32LE_Some).
  apply andThen_Some in H as (s5 & H & Hv%putInt32LE_Some).
  apply andThen_Some in H as (s4 & H & Hr%putUInt32LE_Some).
  apply andThen_Some in H as (s3 & H & Hc%putUInt32LE_Some).
  unfold headerInRange. lia.
Qed.

Lemma chooseRows_noRows snapshot previousSnapshot :
  cells snapshot = [] → chooseRows snapshot previousSnapshot = (false, []).
Proof.
  intros Hc. unfold chooseRows.
  destruct previousSnapshot as [previous|]; [|done].
  destruct (sameGeometry snapshot previous); [|done].
  rewrite Hc. unfold changedRowsOf, indexed. simpl. done.
Qed.

(** X23: the bounds of the header.  [encodeSnapshot] returns only for a
    snapshot whose cols and rows are unsigned 32-bit numbers and whose
    viewportY, cursorX and cursorY are signed 32-bit numbers: for any other
    snapshot a write of the header throws.  And a snapshot in that range
    that has no rows is encoded as the header alone, as a full frame,
    whatever the previous snapshot is. *)
Theorem header_bounds (snapshot : Snapshot)
    (previousSnapshot : option Snapshot) :
  (is_Some (encodeSnapshot snapshot previousSnapshot) →
   headerInRange snapshot)
  ∧ (¬ headerInRange snapshot →
     encodeSnapshot snapshot previousSnapshot = None)
  ∧ (headerInRange snapshot → cells snapshot = [] →
     encodeSnapshot snapshot previousSnapshot
     = Some (headerBytes 0 snapshot, false)).
Proof.
  assert (is_Some (encodeSnapshot snapshot previousSnapshot) →
          headerInRange snapshot) as Hret.
  { intros [[frame d] E]. unfold encodeSnapshot in E.
    destruct (chooseRows snapshot previousSnapshot) as [useDiff changedRows].
    destruct (andThen _ _ _) as [[buffer' offset]|] eqn:Hrun; [|done].
    apply andThen_Some in Hrun as (mid & Hh & _).
    by eapply encodeHeader_Some. }
  split_and!.
  - exact Hret.
  - intros Hout.
    destruct (encodeSnapshot snapshot previousSnapshot) eqn:E; [|done].
    exfalso. apply Hout, Hret. by eexists.
  - intros (Hc & Hr & Hv & Hx & Hy) Hcells.
    pose proof (chooseRows_noRows snapshot previousSnapshot Hcells) as Hch.
    assert (frameBytes snapshot previousSnapshot = headerBytes 0 snapshot)
      as Hframe.
    { unfold frameBytes. rewrite Hch. unfold fullFrame, fullBody.
      rewrite Hcells. simpl concat. by rewrite app_nil_r. }
    rewrite (encodeSnapshot_fits snapshot previousSnapshot).
    + by rewrite Hframe, Hch.
    + unfold snapshotInRange. rewrite Hcells. simpl.
      split_and!; try lia. constructor.
    + rewrite Hframe, headerBytes_length.
      pose proof (dataSize_min snapshot previousSnapshot). lia.
Qed.

(** An instance of [header_bounds]: a snapshot of 80 columns without rows,
    sent after the example, is the header of 28 bytes. *)
Lemma header_bounds_witness :
  encodeSnapshot noRows (Some after) = Some (headerBytes 0 noRows, false)
  ∧ length (headerBytes 0 noRows) = 28%nat.
Proof.
  destruct (header_bounds noRows (Some after)) as (_ & _ & Hempty).
  split; [|reflexivity].
  apply Hempty; [|reflexivity].
  unfold headerInRange, noRows. simpl. lia.
Defined.

End EncoderCoverage.

(** ** Buffer aggregator: a frame of a remote server reaches its
    subscribers *)

Section BufferFramesFacts.
Import Encoder BufferFrames.

Lemma fullBuffer_bytes sessionId buffer :
  Z.of_nat (String.length sessionId) ≤ 4294967295 →
  fullBuffer sessionId buffer = Some (fullBufferBytes sessionId buffer).
Proof.
  intros Hlen. unfold fullBuffer.
  set (total := 1 + 4 + _ + _).
  set (w := putUInt8 0xbf >> _ >> _ >> _).
  assert (emits w (fullBufferBytes sessionId buffer)) as Hemits.
  { subst w. unfold fullBufferBytes. rewrite <- utf8_length.
    rewrite !app_assoc.
    repeat apply emits_andThen;
      [apply emits_putUInt8 | apply emits_putUInt32LE
       | apply emits_putCopy | apply emits_putCopy]. }
  assert (fitsIn w (fullBufferBytes sessionId buffer)) as Hfits.
  { subst w. unfold fullBufferBytes. rewrite <- utf8_length.
    rewrite !app_assoc.
    apply fitsIn_andThen; [| |apply fitsIn_putCopy].
    - repeat apply emits_andThen;
        [apply emits_putUInt8 | apply emits_putUInt32LE
         | apply emits_putCopy].
    - apply fitsIn_andThen; [| |apply fitsIn_putCopy].
      + apply emits_andThen; [apply emits_putUInt8 | apply emits_putUInt32LE].
      + apply fitsIn_andThen;
          [apply emits_putUInt8 | by apply fitsIn_putUInt8 |].
        apply fitsIn_putUInt32LE. rewrite utf8_length. lia. }
  assert (length (fullBufferBytes sessionId buffer) = Z.to_nat total)
    as Hsize.
  { subst total. unfold fullBufferBytes.
    rewrite !length_app, utf8_length. simpl. lia. }
  destruct (Hfits (allocUnsafe total) 0 [] (agrees_start _))
    as [[buffer' offset] Hrun].
  { unfold allocUnsafe. rewrite length_replicate. lia. }
  rewrite Hrun. simpl. f_equal.
  destruct (Hemits _ _ _ _ [] Hrun (agrees_start _)) as [[Ho Hw] Hl].
  simpl in Hw. unfold allocUnsafe in Hl. rewrite length_replicate in Hl.
  rewrite Hl, <- Hsize, !firstn_all in Hw.
  rewrite <- Hsize in Hl. symmetry.
  rewrite <- (take_ge buffer' (length (fullBufferBytes sessionId buffer)))
    by lia.
  done.
Qed.

Lemma u32_value (n : Z) :
  0 ≤ n ≤ 4294967295 →
  byte n 0 + byte n 1 * 2 ^ 8 + byte n 2 * 2 ^ 16 + byte n 3 * 2 ^ 24 = n.
Proof.
  intros Hn. unfold byte.
  change (256 ^ 0) with 1. change (256 ^ 1) with 256.
  change (256 ^ 2) with 65536. change (256 ^ 3) with 16777216.
  change (2 ^ 8) with 256. change (2 ^ 16) with 65536.
  change (2 ^ 24) with 16777216.
  Z.to_euclidean_division_equations. lia.
Qed.

Lemma fromUtf8_utf8 s : fromUtf8 (utf8 s) = s.
Proof.
  induction s as [|c s IH]; [done|].
  simpl. by rewrite Nat2Z.id, ascii_nat_embedding, IH.
Qed.

Lemma sessionIdOf_fullBuffer sessionId buffer :
  Z.of_nat (String.length sessionId) ≤ 4294967295 →
  sessionIdOf (fullBufferBytes sessionId buffer) = Some sessionId.
Proof.
  intros Hlen. unfold sessionIdOf, fullBufferBytes.
  set (n := Z.of_nat (String.length sessionId)).
  assert (length ([191] ++ u32 n ++ utf8 sessionId ++ buffer)
          = (5 + String.length sessionId + length buffer)%nat) as Hsize.
  { rewrite !length_app, utf8_length. simpl. lia. }
  rewrite Hsize.
  replace (_ <? 5) with false by (symmetry; apply Z.ltb_ge; lia).
  assert (readUInt32LE ([191] ++ u32 n ++ utf8 sessionId ++ buffer) 1
          = Some n) as ->.
  { unfold readUInt32LE. rewrite Hsize.
    replace ((0 <=? 1) && (1 + 4 <=? _)) with true
      by (symmetry; apply andb_true_iff; split; apply Z.leb_le; lia).
    simpl. f_equal. apply u32_value. subst n. lia. }
  simpl.
  replace (_ <? 5 + n) with false
    by (symmetry; apply Z.ltb_ge; subst n; lia).
  f_equal. unfold slice.
  replace (Z.to_nat (5 + n) - Z.to_nat 5)%nat
    with (length (utf8 sessionId)) by (rewrite utf8_length; subst n; lia).
  change (Z.to_nat 5) with 5%nat. simpl drop.
  by rewrite drop_0, take_app_length, fromUtf8_utf8.
Qed.

(** X24: a frame of a remote server reaches the subscribers of its
    session.  The frame built for a session id of less than 2^32 bytes and
    an encoded snapshot is the byte [0xbf], the length of the id in 32
    bits, the id and the snapshot; when an aggregator receives it from a
    remote server it reads the same session id back and sends the frame,
    unchanged, to the clients that hold a subscription to that session
    and are open, and to no other. *)
Theorem remote_frame_reaches_the_subscribers (sessionId : string)
    (buffer : Buffer)
    (clientSubscriptions :
       gmap BufferAggregator.WebSocket
         (gmap string BufferAggregator.Unsubscribe))
    (isOpen : BufferAggregator.WebSocket → bool) :
  Z.of_nat (String.length sessionId) < 2 ^ 32 →
  ∃ frame,
    fullBuffer sessionId buffer = Some frame
    ∧ frame = fullBufferBytes sessionId buffer
    ∧ sessionIdOf frame = Some sessionId
    ∧ drop (5 + String.length sessionId) frame = buffer
    ∧ ∀ ws sent,
        (ws, sent) ∈ handleRemoteMessage clientSubscriptions isOpen frame
        ↔ sent = frame
          ∧ isOpen ws = true
          ∧ ∃ subs, clientSubscriptions !! ws = Some subs
                    ∧ is_Some (subs !! sessionId).
Proof.
  intros Hlen. assert (Z.of_nat (String.length sessionId) ≤ 4294967295)
    as Hlen' by lia.
  exists (fullBufferBytes sessionId buffer).
  split_and!; [by apply fullBuffer_bytes | done
               | by apply sessionIdOf_fullBuffer | |].
  - unfold fullBufferBytes. rewrite !app_assoc.
    rewrite drop_app_length'; [done|].
    rewrite !length_app, utf8_length. simpl. lia.
  - intros ws sent.
    assert (handleRemoteMessage clientSubscriptions isOpen
              (fullBufferBytes sessionId buffer)
            = forwardBufferToClients clientSubscriptions isOpen
                (fullBufferBytes sessionId buffer)) as -> by done.
    unfold forwardBufferToClients.
    rewrite sessionIdOf_fullBuffer by done.
    rewrite list_elem_of_fmap. split.
    + intros ([ws' subs] & [= -> ->] & Hin).
      apply list_elem_of_filter in Hin as [[Hs Ho] Hin].
      apply elem_of_map_to_list in Hin. simpl in *.
      split_and!; [done | done |]. by exists subs.
    + intros (-> & Ho & subs & Hws & Hs). exists (ws, subs).
      split; [done|]. apply list_elem_of_filter. split; [done|].
      by apply elem_of_map_to_list.
Qed.

(** An instance of [remote_frame_reaches_the_subscribers]: the frame of
    session [s1] with a snapshot of two bytes. *)
Lemma remote_frame_reaches_the_subscribers_witness :
  ∃ frame,
    fullBuffer "s1" [86; 84] = Some frame
    ∧ frame = [191; 2; 0; 0; 0; 115; 49; 86; 84]
    ∧ sessionIdOf frame = Some "s1".
Proof.
  destruct (remote_frame_reaches_the_subscribers "s1" [86; 84] ∅ (λ _, true))
    as (frame & H1 & H2 & H3 & _); [done|].
  exists frame. split_and!; [exact H1 | exact H2 | exact H3].
Defined.

End BufferFramesFacts.
